(** * Dee: a relational-algebra engine in Python -- shallow embedding

    The development follows [Dee.py] (tuples, relations, the hash index,
    the operators of the algebra A and the aggregates) and
    [DeeDatabase.py] (the transactional namespace of relvars).

    Conventions of the embedding.
    - A Python [dict] is a [gmap]; a Python [set] is a [gset].  Python
      leaves the iteration order of a set unspecified; the model iterates
      in the order of [elements].  A Python tuple of values is a [list].
    - A Python exception is the [Raise] branch of [Result].  A method that
      mutates [self] returns the new state next to its result, so that the
      state reached when an exception escapes is visible.
    - Attribute values range over [None], integers and strings
      ([Value]).  Booleans and floats are outside the model: Python
      compares [True], [1] and [1.0] equal and hashes them alike, while
      [isinstance] tells [bool], [int] and [float] apart and takes a [bool]
      for an [int].  On the values of the model equal values are identical
      and [isinstance(v, type(w))] holds exactly when [v] and [w] have the
      same type, so it compares the type tags; every statement below is
      about relations holding such values.
    - The cached hash of tuples and relations ([myhash]) is not modelled. *)

From stdpp Require Import gmap strings list fin_maps fin_sets.
From Stdlib Require Import ZArith Lia.

Open Scope string_scope.
Open Scope list_scope.

(** ** Values and exceptions *)

Inductive Value :=
  | VNone
  | VInt (z : Z)
  | VStr (s : string).

Inductive PyType := TNone | TInt | TStr.

Definition type_of (v : Value) : PyType :=
  match v with
  | VNone => TNone
  | VInt _ => TInt
  | VStr _ => TStr
  end.

#[global] Instance Value_eq_dec : EqDecision Value.
Proof. solve_decision. Defined.

#[global] Instance PyType_eq_dec : EqDecision PyType.
Proof. solve_decision. Defined.

Definition Value_to_sum (v : Value) : unit + (Z + string) :=
  match v with
  | VNone => inl tt
  | VInt z => inr (inl z)
  | VStr s => inr (inr s)
  end.

Definition Value_of_sum (x : unit + (Z + string)) : Value :=
  match x with
  | inl _ => VNone
  | inr (inl z) => VInt z
  | inr (inr s) => VStr s
  end.

#[global] Instance Value_countable : Countable Value.
Proof.
  apply (inj_countable' Value_to_sum Value_of_sum).
  intros []; reflexivity.
Defined.

(** [isinstance(v, type(w))] on [None], integers and strings, none of whose
    types is a subclass of another. *)
Definition isinstance (v : Value) (t : PyType) : bool :=
  bool_decide (type_of v = t).

Inductive Exception :=
  | RelationException (msg : string)
  | RelationConstraintException (constraint_name : string)
  | RelationInvalidOperationException (explanation : string)
  | RelationUnsupportedOperandTypesException (explanation : string)
  | TupleInvalidOperationException (explanation : string)
  | TypeError
  | KeyError (key : string)
  | IndexError
  | ValueError
  | AssertionError
  | AttributeError (item : string)
  | NameError (name : string)
  | SyntaxError
  | RecursionError
  | PersistenceError (msg : string).

Inductive Result (A : Type) :=
  | Ok (a : A)
  | Raise (e : Exception).
Arguments Ok {A} a.
Arguments Raise {A} e.

#[global] Instance Result_ret : MRet Result := λ A a, Ok a.
#[global] Instance Result_bind : MBind Result :=
  λ A B f m, match m with Ok a => f a | Raise e => Raise e end.

Definition is_Ok {A} (r : Result A) : Prop :=
  match r with Ok _ => True | Raise _ => False end.

(** [for x in l: body] where the body may raise and threads a state. *)
Fixpoint forM {A S : Type} (body : S → A → Result S) (l : list A) (s : S)
  : Result S :=
  match l with
  | [] => Ok s
  | x :: l' => s' ← body s x; forM body l' s'
  end.

(** ** Tuples *)

(** [class Tuple(dict)]: an attribute -> value mapping. *)
Abbreviation Tuple := (gmap string Value).

(** [Tuple(list(zip(heading, values)))]: a later pair overwrites an earlier
    one with the same key. *)
Definition dict_of_items {V : Type} (items : list (string * V))
  : gmap string V :=
  list_to_map (reverse items).

(** [dictToTuple(heading, d)]: [tuple([d[attr] for attr in heading])] *)
Definition dictToTuple (heading : list string) (d : Tuple)
  : Result (list Value) :=
  mapM (M := Result) (λ attr,
    match d !! attr with
    | Some v => Ok v
    | None => Raise (KeyError attr)
    end) heading.

(** ** Materialized bodies and their inverted index *)

(** [_headingInvert]: attribute -> value -> set of row positions. *)
Abbreviation Index := (gmap string (gmap Value (gset nat))).

(** The mutable part of a materialized relation: [_body] (a list of value
    tuples ordered as [_heading]) and [_headingInvert]. *)
Record Store := mkStore {
  rows : list (list Value);
  headingInvert : Index;
}.

(** A row handed to [_addToBody] / [_removeFromBody]: a dict or a tuple. *)
Inductive Row :=
  | DictRow (d : Tuple)
  | TupleRow (t : list Value).

Definition row_len (row : Row) : nat :=
  match row with
  | DictRow d => size d
  | TupleRow t => length t
  end.

(** [rows ∩ found], or [found] while [rows is None]. *)
Definition narrow (rows : option (gset nat)) (found : gset nat) : gset nat :=
  match rows with
  | None => found
  | Some s => s ∩ found
  end.

(** The loop of [_hashfind] over a tuple row:
    [for i, attr in enumerate(self._heading)], with [row[i]] read in step. *)
Fixpoint hashfind_tuple (idx : Index) (heading : list string)
    (row : list Value) (rows : option (gset nat))
  : Result (option (gset nat)) :=
  match heading with
  | [] => Ok rows
  | attr :: heading' =>
      match idx !! attr with
      | None => Raise (KeyError attr)
      | Some m =>
          match row with
          | [] => Raise IndexError
          | v :: row' =>
              let rows' := narrow rows (default ∅ (m !! v)) in
              if decide (rows' = ∅) then Ok (Some rows')
              else hashfind_tuple idx heading' row' (Some rows')
          end
      end
  end.

(** The loop of [_hashfind] over a dict row: [for attr in list(row.keys())]. *)
Fixpoint hashfind_dict (idx : Index) (items : list (string * Value))
    (rows : option (gset nat)) : Result (option (gset nat)) :=
  match items with
  | [] => Ok rows
  | (attr, v) :: items' =>
      match idx !! attr with
      | None => Raise (KeyError attr)
      | Some m =>
          let rows' := narrow rows (default ∅ (m !! v)) in
          if decide (rows' = ∅) then Ok (Some rows')
          else hashfind_dict idx items' (Some rows')
      end
  end.

(** [Relation.heading()]: [set(self._heading)] *)
Definition heading_set (heading : list string) : gset string :=
  list_to_set heading.

(** [Relation._hashfind] *)
Definition _hashfind (heading : list string) (s : Store) (row : Row)
  : Result (gset nat) :=
  if bool_decide (size (heading_set heading) = 0 ∧ row_len row = 0) then
    if bool_decide (length (rows s) = 1) then Ok {[ 0 ]} else Ok ∅
  else
    found ← match row with
            | DictRow d => hashfind_dict (headingInvert s) (map_to_list d) None
            | TupleRow t => hashfind_tuple (headingInvert s) heading t None
            end;
    Ok (default ∅ found).

(** [for ci in range(len(self._body[0])):
       if not isinstance(row[ci], type(self._body[0][ci])): raise "..."]
    Raising a string is itself a [TypeError]. *)
Fixpoint typecheck (first row : list Value) : Result unit :=
  match first with
  | [] => Ok ()
  | f :: first' =>
      match row with
      | [] => Raise IndexError
      | v :: row' =>
          if isinstance v (type_of f) then typecheck first' row'
          else Raise TypeError
      end
  end.

(** The value tuple of a row: [self._dictToTuple(row)] for a dict. *)
Definition row_values (heading : list string) (row : Row)
  : Result (list Value) :=
  match row with
  | DictRow d => dictToTuple heading d
  | TupleRow t => Ok t
  end.

(** The type check at the head of both mutation loops. *)
Definition check_types (heading : list string) (s : Store) (row : Row)
  : Result unit :=
  match rows s with
  | [] => Ok ()
  | [] :: _ => Ok ()
  | first :: _ => t ← row_values heading row; typecheck first t
  end.

(** "Update inverted references": enter position [ri] under every
    attribute value of the new row. *)
Fixpoint index_row (heading : list string) (t : list Value) (ri : nat)
    (idx : Index) : Index * Result unit :=
  match heading with
  | [] => (idx, Ok ())
  | attr :: heading' =>
      match t with
      | [] => (idx, Raise IndexError)
      | v :: t' =>
          match idx !! attr with
          | None => (idx, Raise (KeyError attr))
          | Some m =>
              index_row heading' t' ri
                (<[attr := <[v := {[ ri ]} ∪ default ∅ (m !! v)]> m]> idx)
          end
      end
  end.

(** One iteration of the loop of [_addToBody]. *)
Definition add_row (heading : list string) (s : Store) (row : Row)
  : Store * Result unit :=
  match check_types heading s row with
  | Raise e => (s, Raise e)
  | Ok _ =>
      match _hashfind heading s row with
      | Raise e => (s, Raise e)
      | Ok found =>
          if decide (0 < size found)%nat then (s, Ok ())
          else
            match row_values heading row with
            | Raise e => (s, Raise e)
            | Ok t =>
                let ri := length (rows s) in
                let '(idx, res) := index_row heading t ri (headingInvert s) in
                (mkStore (rows s ++ [t]) idx, res)
            end
      end
  end.

Fixpoint add_rows (heading : list string) (s : Store) (body : list Row)
  : Store * Result unit :=
  match body with
  | [] => (s, Ok ())
  | row :: body' =>
      match add_row heading s row with
      | (s', Ok _) => add_rows heading s' body'
      | (s', Raise e) => (s', Raise e)
      end
  end.

(** [max] of a set of positions. *)
Definition set_max (s : gset nat) : nat := foldr Nat.max 0%nat (elements s).

(** "Keep lower pointers, shift higher row pointers down one and discard
    this pointer". *)
Definition shift_positions (ri : nat) (riv : gset nat) : gset nat :=
  if bool_decide (riv ≠ ∅ ∧ ri ≤ set_max riv)%nat then
    filter (λ ori, ori < ri)%nat riv
      ∪ set_map (λ cri, cri - 1)%nat (filter (λ cri, ri < cri)%nat riv)
  else riv.

Fixpoint unindex_row (heading : list string) (ri : nat) (idx : Index)
  : Index * Result unit :=
  match heading with
  | [] => (idx, Ok ())
  | attr :: heading' =>
      match idx !! attr with
      | None => (idx, Raise (KeyError attr))
      | Some m =>
          unindex_row heading' ri (<[attr := shift_positions ri <$> m]> idx)
      end
  end.

(** One iteration of the loop of [_removeFromBody]. *)
Definition remove_row (heading : list string) (s : Store) (row : Row)
  : Store * Result unit :=
  match check_types heading s row with
  | Raise e => (s, Raise e)
  | Ok _ =>
      match _hashfind heading s row with
      | Raise e => (s, Raise e)
      | Ok found =>
          match head (elements found) with
          | None => (s, Ok ())
          | Some ri =>
              let '(idx, res) := unindex_row heading ri (headingInvert s) in
              (mkStore (delete ri (rows s)) idx, res)
          end
      end
  end.

Fixpoint remove_rows (heading : list string) (s : Store) (body : list Row)
  : Store * Result unit :=
  match body with
  | [] => (s, Ok ())
  | row :: body' =>
      match remove_row heading s row with
      | (s', Ok _) => remove_rows heading s' body'
      | (s', Raise e) => (s', Raise e)
      end
  end.

(** [_addToBody(body, nocheck)] with [_checkConstraints] as a parameter:
    on a failed check the batch is handed to
    [_removeFromBody(body, nocheck=True)] and the exception re-raised (an
    exception of the compensation itself replaces it). *)
Definition _addToBody (check : Store → Result unit) (heading : list string)
    (s : Store) (body : list Row) (nocheck : bool) : Store * Result unit :=
  match add_rows heading s body with
  | (s1, Raise e) => (s1, Raise e)
  | (s1, Ok _) =>
      if nocheck then (s1, Ok ())
      else
        match check s1 with
        | Ok _ => (s1, Ok ())
        | Raise e =>
            match remove_rows heading s1 body with
            | (s2, Ok _) => (s2, Raise e)
            | (s2, Raise e') => (s2, Raise e')
            end
        end
  end.

(** [_removeFromBody(body, nocheck)]: the mirror protocol. *)
Definition _removeFromBody (check : Store → Result unit)
    (heading : list string) (s : Store) (body : list Row) (nocheck : bool)
  : Store * Result unit :=
  match remove_rows heading s body with
  | (s1, Raise e) => (s1, Raise e)
  | (s1, Ok _) =>
      if nocheck then (s1, Ok ())
      else
        match check s1 with
        | Ok _ => (s1, Ok ())
        | Raise e =>
            match add_rows heading s1 body with
            | (s2, Ok _) => (s2, Raise e)
            | (s2, Raise e') => (s2, Raise e')
            end
        end
  end.

(** [dict(zip(self._heading, [{} for attr in self._heading]))] *)
Definition empty_index (heading : list string) : Index :=
  dict_of_items ((λ attr, (attr, ∅)) <$> heading).

Definition empty_store (heading : list string) : Store :=
  mkStore [] (empty_index heading).

(** ** Relations *)

(** A computed body.  [ZeroArg] is a function with [co_argcount == 0] (or a
    bound method of one argument): called without arguments it returns the
    complete list of tuples, or raises.  [OneArg] takes the probe tuple. *)
Inductive Producer :=
  | ZeroArg (f : Result (list Tuple))
  | OneArg (f : Tuple → Result (list Tuple)).

(** [_body]: a list of value tuples with its index, or a callable together
    with [_mapToOriginalHeading]. *)
Inductive Body :=
  | Materialized (s : Store)
  | Computed (f : Producer) (mapToOriginalHeading : gmap string string).

(** A constraint as declared, [(kind, parameter)]:
    [Key] = [constraintFromCandidateKeyFactory],
    [ForeignKey] = [constraintFromForeignKeyFactory] with the referenced
    relvar given by name, [Constraint] = [constraintFromLambdaFactory] with
    the truth value of [f(r)]. *)
Inductive ConstraintDef :=
  | Key (Hk : option (list string))
  | ForeignKey (r2 : string) (map : gmap string string)
  | Constraint (f : list string → Body → Result bool).

(** [constraint_definitions] records the declarations; [constraints] holds
    those that have been bound to a checkable closure. *)
Record Relation := mkRelation {
  _heading : list string;
  _body : Body;
  constraint_definitions : list (string * ConstraintDef);
  constraints : list (string * ConstraintDef);
}.

Definition with_body (r : Relation) (b : Body) : Relation :=
  mkRelation (_heading r) b (constraint_definitions r) (constraints r).

Definition with_constraints (r : Relation)
    (defs bound : list (string * ConstraintDef)) : Relation :=
  mkRelation (_heading r) (_body r) defs bound.

(** [Relation.heading()] *)
Definition heading (r : Relation) : gset string := heading_set (_heading r).

(** [Relation.common(rel)] *)
Definition common (r rel : Relation) : gset string := heading r ∩ heading rel.

Definition callable (b : Body) : bool :=
  match b with
  | Materialized _ => false
  | Computed _ _ => true
  end.

(** [validateHeading] on a list or tuple of attribute names. *)
Definition validateHeading (heading : list string) : Result unit :=
  if bool_decide (heading ≠ []
                  ∧ length heading ≠ size (heading_set heading))
  then Raise (RelationException "Heading attributes must be unique")
  else Ok ().

(** The default constraints of the constructor: [{"PK": (Key, None)}]. *)
Definition default_constraints : list (string * ConstraintDef) :=
  [("PK", Key None)].

(** *** Scans *)

(** A generator: the tuples it yields and the exception, if any, that ends
    the iteration. *)
Record Gen := mkGen {
  yielded : list Tuple;
  raised : option Exception;
}.

Definition gen_raise (e : Exception) : Gen := mkGen [] (Some e).

Definition gen_cons (t : Tuple) (g : Gen) : Gen :=
  mkGen (t :: yielded g) (raised g).

Definition gen_of_result (f : Result (list Tuple)) : Gen :=
  match f with
  | Ok l => mkGen l None
  | Raise e => gen_raise e
  end.

(** [[x for x in g]] *)
Definition gen_list (g : Gen) : Result (list Tuple) :=
  match raised g with
  | None => Ok (yielded g)
  | Some e => Raise e
  end.

(** [for x in g: body] *)
Definition for_gen {S : Type} (body : S → Tuple → Result S) (g : Gen) (s : S)
  : Result S :=
  s' ← forM body (yielded g) s;
  match raised g with
  | None => Ok s'
  | Some e => Raise e
  end.

(** [Tuple(list(zip(self._heading, tup)))] *)
Definition row_tuple (heading : list string) (tup : list Value) : Tuple :=
  dict_of_items (zip heading tup).

(** [_scan()] without a probe. *)
Definition full_scan (r : Relation) : Gen :=
  match _body r with
  | Computed (ZeroArg f) _ => gen_of_result f
  | Computed (OneArg _) _ =>
      gen_raise (RelationInvalidOperationException
                   "Scanning a functional relation not supported (a)")
  | Materialized s => mkGen (row_tuple (_heading r) <$> rows s) None
  end.

(** "do join filter manually":
    [for attr in com: if reltupl[attr] != tup[attr]: break
     else: yield tup] *)
Fixpoint join_filter (com : list string) (reltupl tup : Tuple) : Result bool :=
  match com with
  | [] => Ok true
  | attr :: com' =>
      match reltupl !! attr with
      | None => Raise (KeyError attr)
      | Some a =>
          match tup !! attr with
          | None => Raise (KeyError attr)
          | Some b =>
              if decide (a = b) then join_filter com' reltupl tup
              else Ok false
          end
      end
  end.

Fixpoint filter_gen (com : list string) (reltupl : Tuple) (l : list Tuple)
  : Gen :=
  match l with
  | [] => mkGen [] None
  | tup :: l' =>
      match join_filter com reltupl tup with
      | Raise e => gen_raise e
      | Ok true => gen_cons tup (filter_gen com reltupl l')
      | Ok false => filter_gen com reltupl l'
      end
  end.

(** "map to original names (in case renames have happened)" *)
Definition to_original (m : gmap string string) (reltupl : Tuple) : Tuple :=
  let t1 := foldl (λ t kv, delete kv.2 t) reltupl (map_to_list m) in
  foldl (λ t kv,
           match t !! kv.1 with
           | Some x => delete kv.1 (<[kv.2 := x]> t)
           | None => t
           end) t1 (map_to_list m).

(** "map from original names (in case renames have happened)" *)
Definition from_original (m : gmap string string) (tup : Tuple) : Tuple :=
  foldl (λ t kv,
           match t !! kv.2 with
           | Some x => delete kv.2 (<[kv.1 := x]> t)
           | None => t
           end) tup (map_to_list m).

(** "Can use optimised hash join": intersect the index sets of the common
    attributes. *)
Fixpoint probe_index (idx : Index) (com : list string) (reltupl : Tuple)
    (rows : option (gset nat)) : Result (option (gset nat)) :=
  match com with
  | [] => Ok rows
  | attr :: com' =>
      match idx !! attr with
      | None => Raise (KeyError attr)
      | Some m =>
          match reltupl !! attr with
          | None => Raise (KeyError attr)
          | Some v =>
              probe_index idx com' reltupl
                (Some (narrow rows (default ∅ (m !! v))))
          end
      end
  end.

(** [for i in rows: yield Tuple(list(zip(self._heading, self._body[i])))] *)
Fixpoint fetch_rows (heading : list string) (body : list (list Value))
    (positions : list nat) : Gen :=
  match positions with
  | [] => mkGen [] None
  | i :: positions' =>
      match body !! i with
      | None => gen_raise IndexError
      | Some tup =>
          gen_cons (row_tuple heading tup) (fetch_rows heading body positions')
      end
  end.

(** [Relation._scan(rel)]: full scan for [rel = None], else the scan
    indexed by the single tuple of [rel]. *)
Definition _scan (r : Relation) (rel : option Relation) : Gen :=
  match rel with
  | None => full_scan r
  | Some rel =>
      let com := common r rel in
      if decide (size com = 0) then
        match _body r with
        | Computed (OneArg f) _ => gen_of_result (f ∅)
        | _ => full_scan r
        end
      else
        match _body rel with
        | Computed _ _ => gen_raise TypeError
        | Materialized srel =>
            if decide (length (rows srel) = 1) then
              match yielded (full_scan rel) with
              | [] => gen_raise IndexError
              | reltupl :: _ =>
                  match _body r with
                  | Computed (ZeroArg f) _ =>
                      match f with
                      | Raise e => gen_raise e
                      | Ok l => filter_gen (elements com) reltupl l
                      end
                  | Computed (OneArg f) m =>
                      match f (to_original m reltupl) with
                      | Raise e => gen_raise e
                      | Ok l => mkGen (from_original m <$> l) None
                      end
                  | Materialized s =>
                      match probe_index (headingInvert s) (elements com)
                              reltupl None with
                      | Raise e => gen_raise e
                      | Ok None => gen_raise TypeError
                      | Ok (Some found) =>
                          fetch_rows (_heading r) (rows s) (elements found)
                      end
                  end
              end
            else gen_raise AssertionError
        end
  end.

(** *** Construction with the default constraints *)

(** The argument [body] of the constructor. *)
Inductive BodyArg :=
  | BodyRows (body : list Row)
  | BodyFunction (f : Producer).

(** [setBody] under a given [_checkConstraints]. *)
Definition setBody_with (check : Relation → Result unit) (r : Relation)
    (body : BodyArg) : Relation * Result unit :=
  match body with
  | BodyFunction f => (with_body r (Computed f ∅), Ok ())
  | BodyRows body =>
      let '(s, res) :=
        _addToBody (λ s, check (with_body r (Materialized s))) (_heading r)
          (empty_store (_heading r)) body false in
      (with_body r (Materialized s), res)
  end.

(** [Relation(heading, body)] with [constraints] left at its default
    [{"PK": (Key, None)}].  The closure bound for [(Key, None)] returns
    [True] without looking at the relation, so [_checkConstraints] passes. *)
Definition Relation0 (heading : list string) (body : BodyArg)
  : Result Relation :=
  _ ← validateHeading heading;
  let r := mkRelation heading (Materialized (empty_store heading))
             default_constraints default_constraints in
  match setBody_with (λ _, Ok ()) r body with
  | (r', Ok _) => Ok r'
  | (_, Raise e) => Raise e
  end.

(** [relType.setBody([tr1])] on a relation carrying the default constraints. *)
Definition setBody0 (r : Relation) (body : list Row) : Result Relation :=
  match setBody_with (λ _, Ok ()) r (BodyRows body) with
  | (r', Ok _) => Ok r'
  | (_, Raise e) => Raise e
  end.

(** ** The operators of the algebra *)

(** [Bs.append(dictToTuple(Hs, tr))] *)
Definition append_row (Hs : list string) (Bs : list Row) (tr : Tuple)
  : Result (list Row) :=
  t ← dictToTuple Hs tr; Ok (Bs ++ [TupleRow t]).

Definition is_zero_arg (f : Producer) : bool :=
  match f with
  | ZeroArg _ => true
  | OneArg _ => false
  end.

(** The join loop of [AND]:
    [for tr1 in r1._scan():
        relType.setBody([tr1])
        for tr2 in r2._scan(relType):
            tr1.update(tr2)
            Bs.append(dictToTuple(Hs, tr1))] *)
Definition AND_inner (Hs : list string) (acc : Tuple * list Row) (tr2 : Tuple)
  : Result (Tuple * list Row) :=
  let tr1 := tr2 ∪ acc.1 in
  t ← dictToTuple Hs tr1;
  Ok (tr1, acc.2 ++ [TupleRow t]).

Definition AND_outer (Hs : list string) (relType r2 : Relation)
    (Bs : list Row) (tr1 : Tuple) : Result (list Row) :=
  relType' ← setBody0 relType [DictRow tr1];
  acc ← for_gen (AND_inner Hs) (_scan r2 (Some relType')) (tr1, Bs);
  Ok acc.2.

Definition AND_join (r1 r2 : Relation) : Result Relation :=
  let Hs := elements (heading r1 ∪ heading r2) in
  relType ← Relation0 (_heading r1) (BodyRows []);
  Bs ← for_gen (AND_outer Hs relType r2) (_scan r1 None) [];
  Relation0 Hs (BodyRows Bs).

(** [AND(r1, r2)]; the fuel counts the calls [return AND(r2, r1)]. *)
Fixpoint AND_fuel (fuel : nat) (r1 r2 : Relation) : Result Relation :=
  match fuel with
  | O => Raise RecursionError
  | S fuel' =>
      match _body r1, _body r2 with
      | Computed _ _, Materialized _ => AND_fuel fuel' r2 r1
      | Computed (OneArg _) _, Computed (ZeroArg _) _ => AND_fuel fuel' r2 r1
      | Computed (OneArg _) _, Computed (OneArg _) _ =>
          Raise (RelationInvalidOperationException
                   "Cannot AND two functional relations")
      | Materialized s1, Materialized s2 =>
          if decide (length (rows s2) < length (rows s1))%nat
          then AND_fuel fuel' r2 r1
          else AND_join r1 r2
      | _, _ => AND_join r1 r2
      end
  end.

Definition AND : Relation → Relation → Result Relation := AND_fuel 2.

Definition OR_union (r1 r2 : Relation) : Result Relation :=
  let Hs := elements (heading r1 ∪ heading r2) in
  Bs ← for_gen (append_row Hs) (_scan r1 None) [];
  Bs ← for_gen (append_row Hs) (_scan r2 None) Bs;
  Relation0 Hs (BodyRows Bs).

(** [OR(r1, r2)] *)
Fixpoint OR_fuel (fuel : nat) (r1 r2 : Relation) : Result Relation :=
  match fuel with
  | O => Raise RecursionError
  | S fuel' =>
      if decide (heading r1 ≠ heading r2) then
        Raise (RelationInvalidOperationException
                 "OR can only handle same reltypes so far")
      else
        match _body r1, _body r2 with
        | Computed _ _, Materialized _ => OR_fuel fuel' r2 r1
        | Computed (OneArg _) _, Computed (ZeroArg _) _ => OR_fuel fuel' r2 r1
        | Computed (OneArg _) _, Computed (OneArg _) _ =>
            Raise (RelationInvalidOperationException
                     "Cannot OR two functional relations")
        | _, _ => OR_union r1 r2
        end
  end.

Definition OR : Relation → Relation → Result Relation := OR_fuel 2.

(** [for tr2 in g: break
     else: ...]: whether the generator yields at all. *)
Definition gen_first (g : Gen) : Result (option Tuple) :=
  match yielded g with
  | t :: _ => Ok (Some t)
  | [] =>
      match raised g with
      | None => Ok None
      | Some e => Raise e
      end
  end.

Definition MINUS_outer (relType r2 : Relation) (Bs : list Row) (tr1 : Tuple)
  : Result (list Row) :=
  relType' ← setBody0 relType [DictRow tr1];
  m ← gen_first (_scan r2 (Some relType'));
  match m with
  | Some _ => Ok Bs
  | None => Ok (Bs ++ [DictRow tr1])
  end.

Definition MINUS_diff (r1 r2 : Relation) : Result Relation :=
  let Hs := _heading r1 in
  relType ← Relation0 (_heading r1) (BodyRows []);
  Bs ← for_gen (MINUS_outer relType r2) (_scan r1 None) [];
  Relation0 Hs (BodyRows Bs).

(** [MINUS(r1, r2)] *)
Fixpoint MINUS_fuel (fuel : nat) (r1 r2 : Relation) : Result Relation :=
  match fuel with
  | O => Raise RecursionError
  | S fuel' =>
      if decide (heading r1 ≠ heading r2) then
        Raise (RelationInvalidOperationException
                 "NOT can only handle same reltypes so far")
      else
        match _body r1, _body r2 with
        | Computed _ _, Materialized _ => MINUS_fuel fuel' r2 r1
        | Computed (OneArg _) _, Computed (ZeroArg _) _ =>
            MINUS_fuel fuel' r2 r1
        | Computed (OneArg _) _, Computed (OneArg _) _ =>
            Raise (RelationInvalidOperationException
                     "Cannot MINUS two functional relations")
        | _, _ => MINUS_diff r1 r2
        end
  end.

Definition MINUS : Relation → Relation → Result Relation := MINUS_fuel 2.

(** The Key constraints that [REMOVE] carries over to its result:
    [kind == "Key" and (not p or set(p).issubset(set(Hs)))]. *)
Definition REMOVE_keeps (Hs : list string) (d : ConstraintDef) : bool :=
  match d with
  | Key None => true
  | Key (Some p) =>
      bool_decide (p = [] ∨ list_to_set p ⊆ heading_set Hs)
  | _ => false
  end.

Definition REMOVE_constraints (defs : list (string * ConstraintDef))
    (Hs : list string) : list (string * ConstraintDef) :=
  filter (λ d, REMOVE_keeps Hs d.2) defs.

(** [REMOVE(r, Hr)].  [res.setConstraints(constraints)] binds the Key
    constraints at once; binding a Key cannot fail. *)
Definition REMOVE (r : Relation) (Hr : list string) : Result Relation :=
  let Hs := elements (heading r ∖ list_to_set Hr) in
  Bs ← for_gen (append_row Hs) (_scan r None) [];
  let constraints := REMOVE_constraints (constraint_definitions r) Hs in
  res ← Relation0 Hs (BodyRows Bs);
  match constraints with
  | [] => Ok res
  | _ => Ok (with_constraints res constraints constraints)
  end.

(** [Relation.project(head)], also [r(head)] *)
Definition project (r : Relation) (head : list string) : Result Relation :=
  _ ← validateHeading head;
  _ ← forM (λ _ attr,
              if decide (attr ∈ heading r) then Ok ()
              else Raise (RelationInvalidOperationException
                            ("Unknown attribute: " +:+ attr)))
        head ();
  let removeHead := heading r ∖ list_to_set head in
  REMOVE r (elements removeHead).

(** [Relation.remove(head)] *)
Definition remove (r : Relation) (head : list string) : Result Relation :=
  _ ← validateHeading head;
  REMOVE r head.

(** [COMPOSE(r1, r2)] *)
Definition COMPOSE (r1 r2 : Relation) : Result Relation :=
  let A := elements (heading r1 ∩ heading r2) in
  j ← AND r1 r2;
  REMOVE j A.

(** [COUNT(r)]: [reduce(lambda x, y: x + 1, (1 for tr in r._scan()), 0)] *)
Definition COUNT (r : Relation) : Result nat :=
  for_gen (λ (x : nat) _, Ok (x + 1)%nat) (_scan r None) 0%nat.

(** [IS_EMPTY(r)] *)
Definition IS_EMPTY (r : Relation) : Result bool :=
  n ← COUNT r; Ok (bool_decide (n = 0%nat)).

(** [Relation.__eq__] *)
Definition __eq__ (self rel : Relation) : Result bool :=
  if decide (heading self = heading rel) then
    d ← MINUS self rel;
    e ← IS_EMPTY d;
    if (e : bool) then
      n1 ← COUNT self;
      n2 ← COUNT rel;
      Ok (bool_decide (n1 = n2))
    else Ok false
  else Ok false.

(** [Relation.__le__]: subset or equal *)
Definition __le__ (self rel : Relation) : Result bool :=
  if decide (heading self = heading rel) then
    j ← AND self rel;
    d ← MINUS self j;
    IS_EMPTY d
  else Ok false.

(** [Relation.__ge__]: superset or equal *)
Definition __ge__ (self rel : Relation) : Result bool := __le__ rel self.

(** ** Constraints *)

(** The closure [constraintFromCandidateKey]:
    [True] for [Hk is None], else [COUNT(r) == COUNT(r(Hk))]. *)
Definition constraintFromCandidateKey (r : Relation)
    (Hk : option (list string)) : Result bool :=
  match Hk with
  | None => Ok true
  | Some Hk =>
      n1 ← COUNT r;
      p ← project r Hk;
      n2 ← COUNT p;
      Ok (bool_decide (n1 = n2))
  end.

(** [_checkConstraints] for a relation all of whose constraints are keys. *)
Definition checkKeys (keys : list (string * option (list string)))
    (r : Relation) : Result unit :=
  forM (λ _ k,
          b ← constraintFromCandidateKey r k.2;
          if (b : bool) then Ok ()
          else Raise (RelationConstraintException k.1))
       keys ().

Definition key_defs (keys : list (string * option (list string)))
  : list (string * ConstraintDef) :=
  (λ k, (k.1, Key k.2)) <$> keys.

(** [Relation(heading, body, constraints)] where every constraint is a
    [Key], bound at once. *)
Definition RelationK (heading : list string) (body : BodyArg)
    (keys : list (string * option (list string))) : Result Relation :=
  _ ← validateHeading heading;
  let r := mkRelation heading (Materialized (empty_store heading))
             (key_defs keys) (key_defs keys) in
  match setBody_with (checkKeys keys) r body with
  | (r', Ok _) => Ok r'
  | (_, Raise e) => Raise e
  end.

(** The Key constraints inferred by [rename]:
    [p = list([newnames.get(c, c) for c in p])] when [p] is non-empty. *)
Fixpoint renamed_keys (newnames : gmap string string)
    (defs : list (string * ConstraintDef))
  : list (string * option (list string)) :=
  match defs with
  | [] => []
  | (cname, Key None) :: defs' => (cname, None) :: renamed_keys newnames defs'
  | (cname, Key (Some p)) :: defs' =>
      (cname, Some ((λ c, default c (newnames !! c)) <$> p))
        :: renamed_keys newnames defs'
  | _ :: defs' => renamed_keys newnames defs'
  end.

(** The body of an existing relation, handed to the constructor again. *)
Definition body_arg (b : Body) : BodyArg :=
  match b with
  | Materialized s => BodyRows (TupleRow <$> rows s)
  | Computed f _ => BodyFunction f
  end.

(** [Relation.rename(newnames)] *)
Definition rename (r : Relation) (newnames : gmap string string)
  : Result Relation :=
  _ ← forM (λ _ kv,
              if decide (kv.1 ∈ heading r) then Ok ()
              else Raise (RelationInvalidOperationException
                            ("Unknown attribute: " +:+ kv.1)))
        (map_to_list newnames) ();
  let heading' := (λ c, default c (newnames !! c)) <$> _heading r in
  let keys := renamed_keys newnames (constraint_definitions r) in
  s ← RelationK heading' (body_arg (_body r)) keys;
  match _body s with
  | Computed f _ =>
      let m := foldl (λ (m : gmap string string) kv,
                        delete kv.1 (<[kv.2 := default kv.1 (m !! kv.1)]> m))
                 ∅ (map_to_list newnames) in
      Ok (with_body s (Computed f m))
  | Materialized _ => Ok s
  end.

(** [relationFromCondition(f)] *)
Definition relationFromCondition (f : Tuple → Result bool) : Producer :=
  OneArg (λ trx, b ← f trx; if (b : bool) then Ok [∅] else Ok []).

(** [relationFromExtension(f)] *)
Definition relationFromExtension (f : Tuple → Result Tuple) : Producer :=
  OneArg (λ trx, t ← f trx; Ok [t]).

(** [RESTRICT(r, restriction)], also [r.where(restriction)] *)
Definition RESTRICT (r : Relation) (restriction : Tuple → Result bool)
  : Result Relation :=
  c ← Relation0 (_heading r)
        (BodyFunction (relationFromCondition restriction));
  AND r c.

(** [EXTEND(r, Hextension, extension)] *)
Definition EXTEND (r : Relation) (Hextension : list string)
    (extension : Tuple → Result Tuple) : Result Relation :=
  let extheading : gset string := list_to_set Hextension in
  if decide (heading r ∩ extheading ≠ ∅) then
    Raise (RelationInvalidOperationException
      "EXTEND heading attributes conflict with relation being extended")
  else
    e ← Relation0 (elements (heading r ∪ extheading))
          (BodyFunction (relationFromExtension extension));
    AND r e.

(** [Relation.fromTuple(tr)] with the default constraints. *)
Definition fromTuple (tr : Tuple) : Result Relation :=
  Relation0 (map_to_list tr).*1 (BodyRows [TupleRow (map_to_list tr).*2]).

(** [Relation._headingPK] *)
Fixpoint headingPK_of (heading : list string)
    (defs : list (string * ConstraintDef)) : option (list string) :=
  match defs with
  | [] => None
  | (_, Key p) :: _ =>
      match p with
      | Some (a :: p') => Some (a :: p')
      | _ => Some heading
      end
  | _ :: defs' => headingPK_of heading defs'
  end.

Definition _headingPK (r : Relation) : option (list string) :=
  headingPK_of (_heading r) (constraint_definitions r).

(** The names visible to [eval(r2, globals(), scope)]. *)
Definition Scope := string → option Relation.

(** The closure [constraintFromForeignKey]:
    [eval(r2, globals(), scope)(list(map.values()))
       >= r1(list(map.keys())).rename(map)(list(map.values()))] *)
Definition constraintFromForeignKey (scope : Scope) (r1 : Relation)
    (r2 : string) (map : gmap string string) : Result bool :=
  match scope r2 with
  | None => Raise (NameError r2)
  | Some referenced =>
      lhs ← project referenced (map_to_list map).*2;
      p ← project r1 (map_to_list map).*1;
      rn ← rename p map;
      rhs ← project rn (map_to_list map).*2;
      __ge__ lhs rhs
  end.

(** Calling a bound constraint, [rf()]. *)
Definition call_constraint (scope : Scope) (r : Relation) (d : ConstraintDef)
  : Result bool :=
  match d with
  | Key Hk => constraintFromCandidateKey r Hk
  | ForeignKey r2 map => constraintFromForeignKey scope r r2 map
  | Constraint f => f (_heading r) (_body r)
  end.

(** [Relation._checkConstraints] *)
Definition _checkConstraints (scope : Scope) (r : Relation) : Result unit :=
  forM (λ _ c,
          b ← call_constraint scope r c.2;
          if (b : bool) then Ok ()
          else Raise (RelationConstraintException c.1))
       (constraints r) ().

(** The checks a constraint factory makes when it is called ("catch any
    errors early"). *)
Definition bind_constraint (scope : Scope) (d : ConstraintDef) : Result unit :=
  match d with
  | Key _ => Ok ()
  | ForeignKey r2 _ =>
      match scope r2 with
      | None => Raise (NameError r2)
      | Some referenced =>
          match _headingPK referenced with
          | None => Raise (RelationException
                      "Foreign key referenced table should have a primary key")
          | Some _ => Ok ()
          end
      end
  | Constraint _ => Ok ()
  end.

(** [Relation.setConstraints]: inside a database namespace the binding is
    deferred to [_postLoad]. *)
Definition setConstraints (scope : Scope) (deferred : bool)
    (constraints : list (string * ConstraintDef))
  : Result (list (string * ConstraintDef)) :=
  if deferred then Ok []
  else
    _ ← forM (λ _ c, bind_constraint scope c.2) constraints ();
    Ok constraints.

(** [Relation(heading, body, constraints)] *)
Definition Relation_ (scope : Scope) (deferred : bool) (heading : list string)
    (body : BodyArg) (constraints : list (string * ConstraintDef))
  : Result Relation :=
  _ ← validateHeading heading;
  bound ← setConstraints scope deferred constraints;
  let r := mkRelation heading (Materialized (empty_store heading))
             constraints bound in
  match setBody_with (_checkConstraints scope) r body with
  | (r', Ok _) => Ok r'
  | (_, Raise e) => Raise e
  end.

(** *** In-place mutation *)

(** The constraints of a relation object look names up in the namespace
    they were bound in; one of these names may denote the object itself, so
    the namespace is given as a function of the object's current state. *)
Definition ScopeOf := Relation → Scope.

(** [self._addToBody(body)] on a relation object. *)
Definition addToBody (scope : ScopeOf) (r : Relation) (body : list Row)
  : Relation * Result unit :=
  match _body r with
  | Computed _ _ => (r, Raise TypeError)
  | Materialized s =>
      let check := λ s, let r' := with_body r (Materialized s) in
                        _checkConstraints (scope r') r' in
      let '(s', res) := _addToBody check (_heading r) s body false in
      (with_body r (Materialized s'), res)
  end.

(** [self._removeFromBody(body)] on a relation object. *)
Definition removeFromBody (scope : ScopeOf) (r : Relation) (body : list Row)
  : Relation * Result unit :=
  match _body r with
  | Computed _ _ => (r, Raise TypeError)
  | Materialized s =>
      let check := λ s, let r' := with_body r (Materialized s) in
                        _checkConstraints (scope r') r' in
      let '(s', res) := _removeFromBody check (_heading r) s body false in
      (with_body r (Materialized s'), res)
  end.

(** [Bs = [dictToTuple(self._heading, tr2) for tr2 in rel._scan()]] *)
Definition batch_of (r rel : Relation) : Result (list Row) :=
  for_gen (append_row (_heading r)) (_scan rel None) [].

(** [Relation.insert(rel)], i.e. [self |= rel] *)
Definition insert_ (scope : ScopeOf) (r rel : Relation)
  : Relation * Result unit :=
  if callable (_body r) then
    (r, Raise (RelationInvalidOperationException
                 "Cannot assign to a functional relation"))
  else if decide (heading r ≠ heading rel) then
    (r, Raise (RelationInvalidOperationException
                 "OR can only handle same reltypes so far"))
  else
    match batch_of r rel with
    | Raise e => (r, Raise e)
    | Ok Bs => addToBody scope r Bs
    end.

(** [Relation.delete(rel)], i.e. [self -= rel] *)
Definition delete_ (scope : ScopeOf) (r rel : Relation)
  : Relation * Result unit :=
  if callable (_body r) then
    (r, Raise (RelationInvalidOperationException
                 "Cannot assign to a functional relation"))
  else if decide (heading r ≠ heading rel) then
    (r, Raise (RelationInvalidOperationException
                 "MINUS can only handle same reltypes so far"))
  else
    match batch_of r rel with
    | Raise e => (r, Raise e)
    | Ok Bs => removeFromBody scope r Bs
    end.

(** ** Macros and aggregates *)

(** [TCLOSE(r)]; the fuel bounds the depth of the recursion
    [return TCLOSE(TTT)]. *)
Fixpoint TCLOSE (fuel : nat) (r : Relation) : Result Relation :=
  match fuel with
  | O => Raise RecursionError
  | S fuel' =>
      if decide (size (heading r) ≠ 2) then
        Raise (RelationInvalidOperationException
          "TCLOSE expects a binary relation, e.g. with a heading ['X', 'Y']")
      else
        match elements (heading r) with
        | [_X; _Y] =>
            rn ← rename r (<[_X := _Y]> {[ _Y := "_Z" ]});
            c ← COMPOSE r rn;
            c' ← rename c {[ "_Z" := _Y ]};
            TTT ← OR r c';
            b ← __eq__ TTT r;
            if (b : bool) then Ok TTT else TCLOSE fuel' TTT
        | _ => Raise ValueError
        end
  end.

(** [t[x]] on a tuple *)
Definition getitem (t : Tuple) (x : string) : Result Value :=
  match t !! x with
  | Some v => Ok v
  | None => Raise (KeyError x)
  end.

(** [t.x] on a tuple: [__getattr__] turns the [KeyError] into an
    [AttributeError]. *)
Definition getattr (t : Tuple) (x : string) : Result Value :=
  match t !! x with
  | Some v => Ok v
  | None => Raise (AttributeError x)
  end.

(** A list compared with an integer: never equal. *)
Definition list_eq_int (l : list Value) (n : Z) : bool := false.

(** The restriction inside [QUOTA]:
    [[u["_" + x] for x in Hr] == [t[x] for x in Hr] == res],
    a chained comparison, i.e. [A == B and B == res]. *)
Definition QUOTA_restriction (Hr : list string) (res : Z) (t u : Tuple)
  : Result bool :=
  us ← mapM (M := Result) (λ x, getitem u ("_" +:+ x)) Hr;
  ts ← mapM (M := Result) (λ x, getitem t x) Hr;
  Ok (bool_decide (us = ts) && list_eq_int ts res).

(** The extension inside [QUOTA], computing [_higher]. *)
Definition QUOTA_extension (r : Relation) (Hr : list string) (res : Z)
    (t : Tuple) : Result Tuple :=
  rn ← rename r (dict_of_items (zip Hr ((λ x, "_" +:+ x) <$> Hr)));
  w ← RESTRICT rn (QUOTA_restriction Hr res t);
  n ← COUNT w;
  Ok {[ "_higher" := VInt (Z.of_nat n) ]}.

(** [t._higher < limit] *)
Definition below_limit (limit : Z) (t : Tuple) : Result bool :=
  h ← getattr t "_higher";
  match h with
  | VInt z => Ok (bool_decide (z < limit)%Z)
  | _ => Raise TypeError
  end.

(** [QUOTA(r, limit, Hr, asc)] *)
Definition QUOTA (r : Relation) (limit : Z) (Hr : option (list string))
    (asc : bool) : Result Relation :=
  match Hr with
  | None | Some [] =>
      Raise (RelationInvalidOperationException
               "QUOTA attribute(s) should be a non-empty list")
  | Some Hr =>
      let res := if asc then (-1)%Z else 1%Z in
      e ← EXTEND r ["_higher"] (QUOTA_extension r Hr res);
      w ← RESTRICT e (below_limit limit);
      REMOVE w ["_higher"]
  end.

(** The [expression] argument of an aggregate.  [consts_None] records
    [expression.__code__.co_consts == (None,)], which holds for the default
    [lambda trx: None]. *)
Record Expression := mkExpression {
  consts_None : bool;
  call : Tuple → Result Value;
}.

Definition default_expression : Expression :=
  mkExpression true (λ _, Ok VNone).

(** "if no expression but 1 attribute, use it" *)
Definition effective_expression (r : Relation) (expression : Expression)
  : Tuple → Result Value :=
  match consts_None expression, _heading r with
  | true, [a] => λ trx, getitem trx a
  | _, _ => call expression
  end.

(** What [AVG] returns: the integer sentinel, or the float [v / float(n)],
    kept as the pair of the sum and the count. *)
Inductive Average :=
  | AvgInt (z : Z)
  | AvgQuotient (v : Z) (n : nat).

(** [AVG(r, expression)] *)
Definition AVG (r : Relation) (expression : Expression) : Result Average :=
  let expression := effective_expression r expression in
  nv ← for_gen (λ (nv : nat * Z) tr,
                  x ← expression tr;
                  match x with
                  | VInt z => Ok ((nv.1 + 1)%nat, (nv.2 + z)%Z)
                  | _ => Raise TypeError
                  end)
         (_scan r None) (0%nat, 0%Z);
  if decide (nv.1 = 0%nat) then Ok (AvgInt (-99999))
  else Ok (AvgQuotient nv.2 nv.1).

(** ** Sample data: Date's suppliers and parts *)

Definition S_heading : list string := ["S#"; "SNAME"; "STATUS"; "CITY"].

Definition S_tuple (s sname : string) (status : Z) (city : string) : Tuple :=
  <["S#" := VStr s]> (<["SNAME" := VStr sname]>
    (<["STATUS" := VInt status]> {[ "CITY" := VStr city ]})).

Definition S_row (s sname : string) (status : Z) (city : string) : Row :=
  DictRow (S_tuple s sname status city).

Definition S_body : list Row :=
  [ S_row "S1" "Smith" 20 "London"; S_row "S2" "Jones" 10 "Paris";
    S_row "S3" "Blake" 30 "Paris"; S_row "S4" "Clark" 20 "London";
    S_row "S5" "Adams" 30 "Athens" ].

Definition S_constraints : list (string * ConstraintDef) :=
  [("pk", Key (Some ["S#"]))].

Definition P_heading : list string :=
  ["P#"; "PNAME"; "COLOR"; "WEIGHT"; "CITY"].

Definition P_row (p pname color : string) (weight : Z) (city : string) : Row :=
  DictRow (<["P#" := VStr p]> (<["PNAME" := VStr pname]>
            (<["COLOR" := VStr color]> (<["WEIGHT" := VInt weight]>
              {[ "CITY" := VStr city ]})))).

Definition P_body : list Row :=
  [ P_row "P1" "Nut" "Red" 12 "London"; P_row "P2" "Bolt" "Green" 17 "Paris";
    P_row "P3" "Screw" "Blue" 17 "Rome"; P_row "P4" "Screw" "Red" 14 "London";
    P_row "P5" "Cam" "Blue" 12 "Paris"; P_row "P6" "Cog" "Red" 19 "London" ].

Definition P_constraints : list (string * ConstraintDef) :=
  [("pk", Key (Some ["P#"]))].

Definition SP_heading : list string := ["S#"; "P#"; "QTY"].

Definition SP_tuple (s p : string) (qty : Z) : Tuple :=
  <["S#" := VStr s]> (<["P#" := VStr p]> {[ "QTY" := VInt qty ]}).

Definition SP_row (s p : string) (qty : Z) : Row := DictRow (SP_tuple s p qty).

Definition SP_body : list Row :=
  [ SP_row "S1" "P1" 300; SP_row "S1" "P2" 200; SP_row "S1" "P3" 400;
    SP_row "S1" "P4" 200; SP_row "S1" "P5" 100; SP_row "S1" "P6" 100;
    SP_row "S2" "P1" 300; SP_row "S2" "P2" 400; SP_row "S3" "P2" 200;
    SP_row "S4" "P2" 200; SP_row "S4" "P4" 300; SP_row "S4" "P5" 400 ].

Definition SP_constraints : list (string * ConstraintDef) :=
  [ ("pk", Key (Some ["S#"; "P#"]));
    ("fkS", ForeignKey "S" {[ "S#" := "S#" ]});
    ("fkP", ForeignKey "P" {[ "P#" := "P#" ]}) ].

(** ** The database: a transactional namespace of relvars *)

(** The catalog relvars are relations whose body is a bound method of the
    database. *)
Inductive CatalogMethod :=
  | vrelations
  | vattributes
  | vconstraints
  | vconstraint_attributes.

(** What a transaction frame holds under a name: a relation value, or one
    of the catalog views (with the constraints bound on it so far). *)
Inductive Entry :=
  | Held (r : Relation)
  | Catalog (m : CatalogMethod) (bound : list (string * ConstraintDef)).

Abbreviation Frame := (gmap string Entry).

(** What [pickle.dump(self, f)] writes, through [__getstate__]. *)
Record Pickled := mkPickled {
  p_name : string;
  p_failedToLoad : bool;
  p_transactions : gmap nat Frame;
  p_transactionId : nat;
}.

Record Database := mkDatabase {
  name : string;
  failedToLoad : bool;
  _readonly : list string;
  transactions : gmap nat Frame;
  transactionId : nat;
  file : option Pickled;
}.

Definition catalog_heading (m : CatalogMethod) : list string :=
  match m with
  | vrelations => ["relation_name"]
  | vattributes => ["relation_name"; "attribute_name"]
  | vconstraints => ["relation_name"; "constraint_name"; "constraint_type"]
  | vconstraint_attributes => ["constraint_name"; "attribute_name"]
  end.

Definition entry_heading (e : Entry) : list string :=
  match e with
  | Held r => _heading r
  | Catalog m _ => catalog_heading m
  end.

Definition entry_definitions (e : Entry) : list (string * ConstraintDef) :=
  match e with
  | Held r => constraint_definitions r
  | Catalog _ _ => default_constraints
  end.

Definition entry_constraints (e : Entry) : list (string * ConstraintDef) :=
  match e with
  | Held r => constraints r
  | Catalog _ bound => bound
  end.

Definition entry_callable (e : Entry) : bool :=
  match e with
  | Held r => callable (_body r)
  | Catalog _ _ => true
  end.

(** [rf.__name__] of a bound constraint *)
Definition closure_name (d : ConstraintDef) : string :=
  match d with
  | Key _ => "constraintFromCandidateKey"
  | ForeignKey _ _ => "constraintFromForeignKey"
  | Constraint _ => "constraintFromLambda"
  end.

(** [for attr in (rp or v.heading())]: only a key parameter can be
    iterated into attribute names. *)
Definition constraint_attrs (heading : list string) (d : ConstraintDef)
  : Result (list string) :=
  match d with
  | Key (Some (a :: p)) => Ok (a :: p)
  | Key _ => Ok (elements (heading_set heading))
  | _ => Raise TypeError
  end.

(** The bodies of the four catalog views over a frame. *)
Definition catalog_tuples (frame : Frame) (m : CatalogMethod)
  : Result (list Tuple) :=
  match m with
  | vrelations =>
      Ok ((λ kv, {[ "relation_name" := VStr kv.1 ]}) <$> map_to_list frame)
  | vattributes =>
      Ok (kv ← map_to_list frame;
          (λ ka, <["relation_name" := VStr kv.1]>
                   {[ "attribute_name" := VStr ka ]})
            <$> elements (heading_set (entry_heading kv.2)))
  | vconstraints =>
      Ok (kv ← map_to_list frame;
          (λ c, <["relation_name" := VStr kv.1]>
                  (<["constraint_name" := VStr (kv.1 +:+ "_" +:+ c.1)]>
                     {[ "constraint_type" := VStr (closure_name c.2) ]}))
            <$> entry_constraints kv.2)
  | vconstraint_attributes =>
      forM (λ acc kv,
              forM (λ acc c,
                      attrs ← constraint_attrs (entry_heading kv.2) c.2;
                      Ok (acc ++ ((λ attr,
                            <["constraint_name" := VStr (kv.1 +:+ "_" +:+ c.1)]>
                              {[ "attribute_name" := VStr attr ]}) <$> attrs)))
                   (entry_definitions kv.2) acc)
           (map_to_list frame) []
  end.

(** The relation an entry stands for, given the frame the catalog views
    range over. *)
Definition entry_relation (frame : Frame) (e : Entry) : Relation :=
  match e with
  | Held r => r
  | Catalog m bound =>
      mkRelation (catalog_heading m)
        (Computed (ZeroArg (catalog_tuples frame m)) ∅)
        default_constraints bound
  end.

(** The names a constraint sees: [self.transactions[self.transactionId]]. *)
Definition frame_scope (frame : Frame) : Scope :=
  λ name, entry_relation frame <$> frame !! name.

Definition current_frame (db : Database) : option Frame :=
  transactions db !! transactionId db.

(** [Database.__getattribute__(item)] for the name of a relvar: a name
    other than [transactionId] and [transactions], looked up in the current
    frame.  For a name that the frame lacks the code falls back on
    [dict.__getattribute__(self, item)], the attributes and methods of the
    object itself ([name], [begin], [items], ...), which the model does not
    hold; [AttributeError] is what that fallback raises for a name that is
    none of them. *)
Definition getattribute (db : Database) (item : string) : Result Relation :=
  match current_frame db with
  | None => Raise (AttributeError item)
  | Some frame =>
      match frame !! item with
      | Some e => Ok (entry_relation frame e)
      | None => Raise (AttributeError item)
      end
  end.

Definition with_frame (db : Database) (tid : nat) (frame : Frame) : Database :=
  mkDatabase (name db) (failedToLoad db) (_readonly db)
    (<[tid := frame]> (transactions db)) (transactionId db) (file db).

(** [Database.__setattr__(item, value)] for a relation [value]. *)
Definition setattr (db : Database) (item : string) (value : Entry)
  : Database * Result unit :=
  if decide (item ∈ _readonly db) then (db, Raise (AttributeError item))
  else
    match current_frame db with
    | None => (db, Raise (KeyError "transactionId"))
    | Some frame =>
        (with_frame db (transactionId db) (<[item := value]> frame), Ok ())
    end.

(** [Database._preDump(d)]: the frame without its callable relations. *)
Definition _preDump (d : Frame) : Frame :=
  filter (λ kv, entry_callable kv.2 = false) d.

(** A relation after [pickle.loads(pickle.dumps(r))]: [__getstate__] drops
    the bound constraints, [__setstate__] starts from none. *)
Definition pickle_relation (r : Relation) : Relation :=
  with_constraints r (constraint_definitions r) [].

Definition pickle_entry (e : Entry) : Entry :=
  match e with
  | Held r => Held (pickle_relation r)
  | Catalog m _ => Catalog m []
  end.

(** [pickle.loads(pickle.dumps(self._preDump(frame)))] *)
Definition clone (frame : Frame) : Frame := pickle_entry <$> _preDump frame.

(** What [eval("%s(r, %s, scope)" % (kn, str(p)))] does in [_postLoad]:
    the text of a key or foreign-key parameter evaluates back to it; the
    text of a function is not an expression. *)
Definition postLoad_bind (scope : Scope) (d : ConstraintDef) : Result unit :=
  match d with
  | Constraint _ => Raise SyntaxError
  | _ => bind_constraint scope d
  end.

(** [r.constraints = {}] followed by the binding loop over
    [r.constraint_definitions]. *)
Fixpoint bind_all (bind : ConstraintDef → Result unit)
    (defs bound : list (string * ConstraintDef))
  : list (string * ConstraintDef) * Result unit :=
  match defs with
  | [] => (bound, Ok ())
  | c :: defs' =>
      match bind c.2 with
      | Ok _ => bind_all bind defs' (bound ++ [c])
      | Raise e => (bound, Raise e)
      end
  end.

Definition with_bound (e : Entry) (bound : list (string * ConstraintDef))
  : Entry :=
  match e with
  | Held r => Held (with_constraints r (constraint_definitions r) bound)
  | Catalog m _ => Catalog m bound
  end.

(** The loop of [_postLoad] over the relations of the frame. *)
Fixpoint postLoad_loop (items : list (string * Entry)) (frame : Frame)
  : Frame * Result unit :=
  match items with
  | [] => (frame, Ok ())
  | (rn, e) :: items' =>
      let '(bound, res) :=
        bind_all (postLoad_bind (frame_scope frame)) (entry_definitions e) [] in
      let frame' := <[rn := with_bound e bound]> frame in
      match res with
      | Ok _ => postLoad_loop items' frame'
      | Raise err => (frame', Raise err)
      end
  end.

(** [Database._postLoad] *)
Definition _postLoad (db : Database) : Database * Result unit :=
  match current_frame db with
  | None => (db, Raise (KeyError "transactionId"))
  | Some frame =>
      let '(frame', res) := postLoad_loop (map_to_list frame) frame in
      (with_frame db (transactionId db) frame', res)
  end.

Definition with_readonly (db : Database) (ro : list string) : Database :=
  mkDatabase (name db) (failedToLoad db) ro (transactions db)
    (transactionId db) (file db).

Definition catalog_names : list string :=
  ["relations"; "attributes"; "constraints"; "constraint_attributes"].

(** The four assignments [self.relations = Relation([...], self.vrelations)]
    and so on, made while [_readonly] is empty. *)
Definition add_views (db : Database) : Database * Result unit :=
  match current_frame db with
  | None => (db, Raise (KeyError "transactionId"))
  | Some frame =>
      (with_frame db (transactionId db)
         (<["constraint_attributes" := Catalog vconstraint_attributes []]>
            (<["constraints" := Catalog vconstraints []]>
               (<["attributes" := Catalog vattributes []]>
                  (<["relations" := Catalog vrelations []]> frame)))),
       Ok ())
  end.

(** [Database._vinit] *)
Definition _vinit (db : Database) : Database * Result unit :=
  match _postLoad db with
  | (db1, Raise e) => (db1, Raise e)
  | (db1, Ok _) =>
      match add_views (with_readonly db1 []) with
      | (db2, Raise e) => (db2, Raise e)
      | (db2, Ok _) => (with_readonly db2 catalog_names, Ok ())
      end
  end.

Definition with_transactions (db : Database) (ts : gmap nat Frame)
    (tid : nat) : Database :=
  mkDatabase (name db) (failedToLoad db) (_readonly db) ts tid (file db).

(** [Database.begin] *)
Definition begin (db : Database) : Database * Result unit :=
  if decide (transactionId db ≠ 0) then (db, Raise AssertionError)
  else
    let tid := S (transactionId db) in
    let db1 := with_transactions db (<[tid := ∅]> (transactions db)) tid in
    match transactions db1 !! (tid - 1) with
    | None => (db1, Raise (KeyError "transactions"))
    | Some prev =>
        _vinit (with_transactions db1
                  (<[tid := clone prev]> (transactions db1)) tid)
    end.

(** [Database.__getstate__]: besides building the state to pickle it
    replaces frame 0 of the live database by its [_preDump]. *)
Definition __getstate__ (db : Database) : Database * Result Pickled :=
  match transactions db !! 0 with
  | None => (db, Raise (KeyError "transactions"))
  | Some frame0 =>
      let live := <[0 := _preDump frame0]> (transactions db) in
      (with_transactions db live (transactionId db),
       Ok (mkPickled (name db) (failedToLoad db)
             {[ 0 := pickle_entry <$> _preDump frame0 ]} 0))
  end.

(** [Database._dump]: the snapshot written to the database file.  (The
    companion script written next to it is a rendering of the same frame.) *)
Definition _dump (db : Database) : Database * Result unit :=
  if failedToLoad db then
    (db, Raise (PersistenceError "Save aborted after original load failure"))
  else
    match __getstate__ db with
    | (db1, Raise e) => (db1, Raise e)
    | (db1, Ok p) =>
        (mkDatabase (name db1) (failedToLoad db1) (_readonly db1)
           (transactions db1) (transactionId db1) (Some p), Ok ())
    end.

(** [Database.commit] *)
Definition commit (db : Database) : Database * Result unit :=
  if decide (transactionId db = 0) then (db, Raise AssertionError)
  else
    match current_frame db with
    | None => (db, Raise (KeyError "transactions"))
    | Some frame =>
        let c := clone frame in
        let tid := (transactionId db - 1)%nat in
        let db1 :=
          with_transactions db
            (<[tid := c]> (delete (S tid) (transactions db))) tid in
        match _dump db1 with
        | (db2, Raise e) => (db2, Raise e)
        | (db2, Ok _) => _vinit db2
        end
    end.

(** [Database.rollback] *)
Definition rollback (db : Database) : Database * Result unit :=
  if decide (transactionId db = 0) then (db, Raise AssertionError)
  else
    let tid := (transactionId db - 1)%nat in
    match transactions db !! S tid with
    | None => (with_transactions db (transactions db) tid,
               Raise (KeyError "transactions"))
    | Some _ =>
        _vinit (with_transactions db (delete (S tid) (transactions db)) tid)
    end.

(** Sequencing of two mutating calls: the second runs only if the first
    returned. *)
Definition and_then {S : Type} (m : S * Result unit)
    (k : S → S * Result unit) : S * Result unit :=
  match m with
  | (s, Ok _) => k s
  | (s, Raise e) => (s, Raise e)
  end.

(** The namespace seen by the constraints of the relvar [item] while the
    relation it holds is being mutated in place. *)
Definition relvar_scope (frame : Frame) (item : string) : ScopeOf :=
  λ r, frame_scope (<[item := Held r]> frame).

(** A method [op] of the relation held by the relvar [item], mutating it in
    place: [db.item.op(rel)]. *)
Definition on_relvar (op : ScopeOf → Relation → Relation → Relation * Result unit)
    (db : Database) (item : string) (rel : Relation)
  : Database * Result unit :=
  match current_frame db with
  | None => (db, Raise (AttributeError item))
  | Some frame =>
      match frame !! item with
      | None => (db, Raise (AttributeError item))
      | Some (Catalog _ _) =>
          (db, Raise (RelationInvalidOperationException
                        "Cannot assign to a functional relation"))
      | Some (Held r) =>
          let '(r', res) := op (relvar_scope frame item) r rel in
          (with_frame db (transactionId db) (<[item := Held r']> frame), res)
      end
  end.

(** [db.item.insert(rel)] and [db.item.delete(rel)] *)
Definition db_insert := on_relvar insert_.
Definition db_delete := on_relvar delete_.

(** The rows of a relation, when it is materialized. *)
Definition body_rows (r : Relation) : list (list Value) :=
  match _body r with
  | Materialized s => rows s
  | Computed _ _ => []
  end.

(** A namespace without names. *)
Definition no_scope : Scope := λ _, None.

(** The tuples of a materialized relation, as a scan reconstructs them. *)
Definition tuples (r : Relation) : list Tuple :=
  row_tuple (_heading r) <$> body_rows r.

(** ** Worked examples *)

(** The suppliers-and-parts database as it stands once loaded: the three
    relvars were created inside the database namespace (binding deferred)
    and [_vinit] has bound their constraints and registered the catalog. *)
Definition date_database : Result Database :=
  S ← Relation_ no_scope true S_heading (BodyRows S_body) S_constraints;
  P ← Relation_ no_scope true P_heading (BodyRows P_body) P_constraints;
  SP ← Relation_ no_scope true SP_heading (BodyRows SP_body) SP_constraints;
  let frame : Frame :=
    <["S" := Held S]> (<["P" := Held P]> {[ "SP" := Held SP ]}) in
  match _vinit (mkDatabase "date" false [] {[ 0 := frame ]} 0 None) with
  | (db, Ok _) => Ok db
  | (_, Raise e) => Raise e
  end.

(** The relation holding only the row of supplier S1. *)
Definition S1_relation : Result Relation :=
  Relation0 S_heading (BodyRows [S_row "S1" "Smith" 20 "London"]).

(** [lambda t: t.QTY > 300] *)
Definition QTY_above_300 (t : Tuple) : Result bool :=
  q ← getattr t "QTY";
  match q with
  | VInt z => Ok (bool_decide (300 < z)%Z)
  | _ => Raise TypeError
  end.

(** A relation with key [a] holding the single row (1, 1), and a batch
    made of that row and of a second row with the same key value. *)
Definition keyed_relation : Result Relation :=
  Relation_ no_scope false ["a"; "b"]
    (BodyRows [TupleRow [VInt 1; VInt 1]]) [("pk", Key (Some ["a"]))].

Definition keyed_batch : Result Relation :=
  Relation0 ["a"; "b"]
    (BodyRows [TupleRow [VInt 1; VInt 1]; TupleRow [VInt 1; VInt 2]]).

(** A relation that must keep at least two rows, and a batch to delete
    made of one of its rows and of a row it does not hold. *)
Definition at_least_two : ConstraintDef :=
  Constraint (λ _ b,
    match b with
    | Materialized s => Ok (bool_decide (2 ≤ length (rows s))%nat)
    | Computed _ _ => Ok true
    end).

Definition guarded_relation : Result Relation :=
  Relation_ no_scope false ["a"]
    (BodyRows [TupleRow [VInt 1]; TupleRow [VInt 2]]) [("two", at_least_two)].

Definition guarded_batch : Result Relation :=
  Relation0 ["a"] (BodyRows [TupleRow [VInt 1]; TupleRow [VInt 3]]).

(** The relation over [a] with the rows 1, 2 and 3. *)
Definition one_two_three : Result Relation :=
  Relation0 ["a"] (BodyRows [TupleRow [VInt 1]; TupleRow [VInt 2];
                             TupleRow [VInt 3]]).

(** *** QUOTA as its documentation describes it *)

(** The order of Python on values of one type. *)
Definition value_ltb (v w : Value) : bool :=
  match v, w with
  | VInt a, VInt b => bool_decide (a < b)%Z
  | VStr a, VStr b => String.ltb a b
  | _, _ => false
  end.

(** The lexicographic order on lists of values. *)
Fixpoint key_ltb (k1 k2 : list Value) : bool :=
  match k1, k2 with
  | [], _ :: _ => true
  | v :: k1', w :: k2' =>
      value_ltb v w || (bool_decide (v = w) && key_ltb k1' k2')
  | _, _ => false
  end.

Definition sort_key (attrs : list string) (t : Tuple) : list Value :=
  (λ a, default VNone (t !! a)) <$> attrs.

(** Whether [u] is ranked ahead of [t] in the chosen direction. *)
Definition ranked_ahead (attrs : list string) (asc : bool) (t u : Tuple)
  : bool :=
  if asc then key_ltb (sort_key attrs u) (sort_key attrs t)
  else key_ltb (sort_key attrs t) (sort_key attrs u).

(** The rows a quota query is documented to keep: those with fewer than
    [limit] rows ranked ahead of them. *)
Definition QUOTA_documented (r : Relation) (limit : Z) (attrs : list string)
    (asc : bool) : list Tuple :=
  filter (λ t,
    (Z.of_nat (length (filter (λ u, ranked_ahead attrs asc t u = true)
                         (tuples r))) < limit)%Z)
    (tuples r).

(** ** Well-formed materialized bodies *)

(** The positions the index records for value [v] of attribute [a]:
    [self._headingInvert[a].get(v, set())]. *)
Definition pos_set (idx : Index) (a : string) (v : Value) : gset nat :=
  match idx !! a with
  | Some m => default ∅ (m !! v)
  | None => ∅
  end.

(** The index agrees with the body: position [i] is recorded for the value
    [v] of the attribute at column [p] exactly when row [i] has [v] there. *)
Definition index_consistent (heading : list string) (s : Store) : Prop :=
  ∀ (p : nat) (a : string) (v : Value) (i : nat),
    heading !! p = Some a →
    i ∈ pos_set (headingInvert s) a v
    ↔ ∃ row, rows s !! i = Some row ∧ row !! p = Some v.

(** What the constructor and the mutators maintain on a materialized body:
    unique attribute names, an index entry per attribute, rows as long as
    the heading, a consistent index, no duplicate row, and columns of one
    type. *)
Record wf_store (heading : list string) (s : Store) : Prop := {
  wf_heading : NoDup heading;
  wf_dom : ∀ a, a ∈ heading → is_Some (headingInvert s !! a);
  wf_len : Forall (λ row, length row = length heading) (rows s);
  wf_index : index_consistent heading s;
  wf_nodup : NoDup (rows s);
  wf_types : ∀ r1 r2, r1 ∈ rows s → r2 ∈ rows s →
                      type_of <$> r1 = type_of <$> r2;
}.

(** A row that fits the heading: a tuple of the heading's length, or a
    dict whose keys are the heading's attributes. *)
Definition conforming (heading : list string) (row : Row) : Prop :=
  match row with
  | TupleRow t => length t = length heading
  | DictRow d => dom d = heading_set heading
  end.

(** A well-formed materialized relation. *)
Definition wf (r : Relation) : Prop :=
  ∃ s, _body r = Materialized s ∧ wf_store (_heading r) s.

(** The relation objects a program can hold: built by the constructor from
    conforming rows, then changed by any sequence of [insert] and [delete]
    calls, whether these return or raise. *)
Inductive reachable : Relation → Prop :=
  | reach_Relation (scope : Scope) (deferred : bool) (heading : list string)
      (body : list Row) (constraints : list (string * ConstraintDef))
      (r : Relation) :
      Forall (conforming heading) body →
      Relation_ scope deferred heading (BodyRows body) constraints = Ok r →
      reachable r
  | reach_Relation0 (heading : list string) (body : list Row) (r : Relation) :
      Forall (conforming heading) body →
      Relation0 heading (BodyRows body) = Ok r →
      reachable r
  | reach_RelationK (heading : list string) (body : list Row)
      (keys : list (string * option (list string))) (r : Relation) :
      Forall (conforming heading) body →
      RelationK heading (BodyRows body) keys = Ok r →
      reachable r
  | reach_insert (scope : ScopeOf) (r rel : Relation) :
      reachable r → reachable (insert_ scope r rel).1
  | reach_delete (scope : ScopeOf) (r rel : Relation) :
      reachable r → reachable (delete_ scope r rel).1.

(** The part of a tuple over the attributes [Hs]. *)
Definition restrict (Hs : gset string) (d : Tuple) : Tuple :=
  filter (λ kv, kv.1 ∈ Hs) d.

(** Two tuples agree on the attributes [C]. *)
Definition agree (C : gset string) (d1 d2 : Tuple) : Prop :=
  ∀ a, a ∈ C → d1 !! a = d2 !! a.

(** A relation that a full scan can read, with the tuples [L] it yields: a
    well-formed materialized relation, or a zero-argument view returning
    tuples over its heading with columns of one type. *)
Definition scans (r : Relation) (L : list Tuple) : Prop :=
  NoDup (_heading r)
  ∧ (∀ d, d ∈ L → dom d = heading r)
  ∧ (∀ d1 d2 a, d1 ∈ L → d2 ∈ L → type_of <$> d1 !! a = type_of <$> d2 !! a)
  ∧ match _body r with
    | Materialized s => wf_store (_heading r) s ∧ L = tuples r
    | Computed (ZeroArg f) _ => f = Ok L
    | Computed (OneArg _) _ => False
    end.

(** The tuples of the natural join of [L1] (over [H1]) and [L2]. *)
Definition joined (L1 L2 : list Tuple) (H1 H2 : gset string) (d : Tuple)
  : Prop :=
  ∃ tr1 t2, tr1 ∈ L1 ∧ t2 ∈ L2 ∧ agree (H1 ∩ H2) tr1 t2 ∧ d = t2 ∪ tr1.

(** Two relations hold the same tuples. *)
Definition same_tuples (a b : Relation) : Prop :=
  ∀ d, d ∈ tuples a ↔ d ∈ tuples b.

(** Whether a body is a one-argument function. *)
Definition one_arg (b : Body) : bool :=
  match b with
  | Computed (OneArg _) _ => true
  | _ => false
  end.

(** A restriction that holds of every tuple, as a relation over [x]. *)
Definition always_true : Result Relation :=
  Relation0 ["x"] (BodyFunction (relationFromCondition (λ _, Ok true))).

(** Corresponding columns of the two lists of tuples hold values of one
    type. *)
Definition same_column_types (L1 L2 : list Tuple) : Prop :=
  ∀ d1 d2 a, d1 ∈ L1 → d2 ∈ L2 → type_of <$> d1 !! a = type_of <$> d2 !! a.

(** The name an attribute carries after [rename(newnames)]. *)
Definition renamed (m : gmap string string) (c : string) : string :=
  default c (m !! c).

(** The pair [(x, y)] is in the binary relation [r] over [A] and [B]. *)
Definition holds (r : Relation) (A B : string) (x y : Value) : Prop :=
  ∃ d, d ∈ tuples r ∧ d !! A = Some x ∧ d !! B = Some y.

(** A chain of three edges. *)
Definition chain : Result Relation :=
  Relation0 ["X"; "Y"]
    (BodyRows [TupleRow [VInt 1; VInt 2]; TupleRow [VInt 2; VInt 3];
               TupleRow [VInt 3; VInt 4]]).

(** An entry once [_postLoad] has bound every constraint it declares. *)
Definition rebound (e : Entry) : Entry := with_bound e (entry_definitions e).

(** A frame with the four catalog views registered over it. *)
Definition views (frame : Frame) : Frame :=
  <["constraint_attributes" := Catalog vconstraint_attributes []]>
    (<["constraints" := Catalog vconstraints []]>
       (<["attributes" := Catalog vattributes []]>
          (<["relations" := Catalog vrelations []]> frame))).

(** [_headingPK()] of the relation an entry stands for. *)
Definition entry_pk (e : Entry) : option (list string) :=
  headingPK_of (entry_heading e) (entry_definitions e).

(** Every constraint of every relation of the frame binds in it. *)
Definition loadable (frame : Frame) : Prop :=
  ∀ rn e c, frame !! rn = Some e → c ∈ entry_definitions e →
            postLoad_bind (frame_scope frame) c.2 = Ok ().

(** A constraint definition that [_postLoad] can bind at every point of a
    transaction on [frame] that assigns [V2] to the relvar [X]: a key, or a
    foreign key to a stored (materialized) relvar that has a primary key,
    and still has one when it is [X] and holds [V2]. *)
Definition rebindable (frame : Frame) (X : string) (V2 : Relation)
    (d : ConstraintDef) : bool :=
  match d with
  | Key _ => true
  | Constraint _ => false
  | ForeignKey r2 _ =>
      bool_decide (r2 ∉ catalog_names)
      && match frame !! r2 with
         | Some (Held R) =>
             negb (callable (_body R)) && bool_decide (is_Some (_headingPK R))
             && (if decide (r2 = X) then bool_decide (is_Some (_headingPK V2))
                 else true)
         | _ => false
         end
  end.

Definition all_rebindable (frame : Frame) (X : string) (V2 : Relation) : bool :=
  forallb (λ ne, forallb (λ c, rebindable frame X V2 c.2)
                   (entry_definitions ne.2)) (map_to_list frame)
  && forallb (λ c, rebindable frame X V2 c.2) (constraint_definitions V2).

(** A database with the single relvar [X], and a view to assign to it. *)
Definition small_database : Result Database :=
  V ← Relation_ no_scope true ["a"]
         (BodyRows [TupleRow [VInt 1]; TupleRow [VInt 2]]) default_constraints;
  match _vinit (mkDatabase "small" false [] {[ 0 := {[ "X" := Held V ]} ]}
                  0 None) with
  | (db, Ok _) => Ok db
  | (_, Raise e) => Raise e
  end.

Definition counting_view : Result Relation :=
  Relation0 ["a"] (BodyFunction (ZeroArg (Ok [ {[ "a" := VInt 7 ]} ]))).

(** The loaded suppliers-and-parts database, its committed frame, the value
    of its relvar [S], and the relation holding the row of S1, as values. *)
Definition date_db : Database :=
  Eval vm_compute in
    match date_database with
    | Ok db => db
    | Raise _ => mkDatabase "" false [] ∅ 0 None
    end.

Definition date_frame0 : Frame :=
  Eval vm_compute in default ∅ (transactions date_db !! 0).

Definition date_S : Relation :=
  Eval vm_compute in
    match date_frame0 !! "S" with
    | Some (Held r) => r
    | _ => mkRelation [] (Materialized (empty_store [])) [] []
    end.

Definition S1_only : Relation :=
  Eval vm_compute in
    match S1_relation with
    | Ok r => r
    | Raise _ => mkRelation [] (Materialized (empty_store [])) [] []
    end.

(** ** Further operators, comparisons and aggregates *)

(** [Relation.__ne__] *)
Definition __ne__ (self rel : Relation) : Result bool :=
  b ← __eq__ self rel; Ok (negb b).

(** [Relation.__lt__]: proper subset *)
Definition __lt__ (self rel : Relation) : Result bool :=
  if decide (heading self = heading rel) then
    j ← AND self rel;
    d ← MINUS self j;
    e ← IS_EMPTY d;
    if (e : bool) then
      n1 ← COUNT self;
      n2 ← COUNT rel;
      Ok (bool_decide (n1 < n2)%nat)
    else Ok false
  else Ok false.

(** [Relation.__gt__]: proper superset *)
Definition __gt__ (self rel : Relation) : Result bool := __lt__ rel self.

(** [SEMIJOIN(r1, r2)], also [MATCHING] *)
Definition SEMIJOIN (r1 r2 : Relation) : Result Relation :=
  j ← AND r1 r2;
  REMOVE j (elements (heading r2 ∖ heading r1)).

(** [SEMIMINUS(r1, r2)], also [NOT_MATCHING] *)
Definition SEMIMINUS (r1 r2 : Relation) : Result Relation :=
  m ← SEMIJOIN r1 r2;
  MINUS r1 m.

(** [Relation.toTuple()] *)
Definition toTuple (r : Relation) : Result Tuple :=
  let scan_first :=
    l ← gen_list (_scan r None);
    match l with
    | t :: _ => Ok t
    | [] => Raise IndexError
    end in
  match _body r with
  | Materialized s =>
      if decide (length (rows s) ≠ 1) then
        Raise (RelationInvalidOperationException
                 "Relation must contain a single tuple")
      else scan_first
  | Computed _ _ => scan_first
  end.

(** [TABLE_DEE = Relation([], [{}])] and [TABLE_DUM = Relation([], [])] *)
Definition TABLE_DEE : Result Relation := Relation0 [] (BodyRows [DictRow ∅]).
Definition TABLE_DUM : Result Relation := Relation0 [] (BodyRows []).

(** The argument [head] of [Tuple.remove]: a list, or a set, which the
    signature admits and the guard refuses. *)
Inductive HeadArg :=
  | HeadList (head : list string)
  | HeadSet (head : gset string).

(** [Tuple.remove(head)]:
    [if not isinstance(head, list): raise TupleInvalidOperationException],
    [Hs = tuple(set(self.keys()).difference(set(head)))],
    [Tuple(list(zip(Hs, dictToTuple(Hs, self))))].  The explanation is kept
    up to the rendering of [head] that the code appends. *)
Definition Tuple_remove (t : Tuple) (head : HeadArg) : Result Tuple :=
  match head with
  | HeadSet _ =>
      Raise (TupleInvalidOperationException
               "Heading attribute(s) should be a list")
  | HeadList head =>
      let Hs := elements (dom t ∖ list_to_set head) in
      vs ← dictToTuple Hs t;
      Ok (dict_of_items (zip Hs vs))
  end.

(** Python's truth value of a value: [None], [0] and [''] are false. *)
Definition truthy (v : Value) : bool :=
  match v with
  | VNone => false
  | VInt z => bool_decide (z ≠ 0%Z)
  | VStr s => bool_decide (s ≠ "")
  end.

(** [SUM(r, expression)]: [reduce(lambda x, y: x + y, ..., 0)]; the
    accumulator starts as the integer 0, so adding anything but an integer
    is a [TypeError]. *)
Definition SUM (r : Relation) (expression : Expression) : Result Z :=
  let expression := effective_expression r expression in
  for_gen (λ (x : Z) tr,
             y ← expression tr;
             match y with
             | VInt z => Ok (x + z)%Z
             | _ => Raise TypeError
             end)
    (_scan r None) 0%Z.

(** [sys.maxsize] of a 64-bit interpreter. *)
Definition maxsize : Z := 9223372036854775807.

(** The probe of [MAX] and [MIN]: [for tr in r._scan(): ... break] calls the
    expression on the first tuple only (the values are never dates here, so
    the initial value is not changed). *)
Definition probe_first (expression : Tuple → Result Value) (g : Gen)
  : Result unit :=
  m ← gen_first g;
  match m with
  | Some tr => _ ← expression tr; Ok ()
  | None => Ok ()
  end.

(** [MAX(r, expression)]: [reduce(max, ..., -sys.maxsize)]; comparing the
    integer accumulator with anything but an integer is a [TypeError]. *)
Definition MAX (r : Relation) (expression : Expression) : Result Z :=
  let expression := effective_expression r expression in
  _ ← probe_first expression (_scan r None);
  for_gen (λ (x : Z) tr,
             y ← expression tr;
             match y with
             | VInt z => Ok (Z.max x z)
             | _ => Raise TypeError
             end)
    (_scan r None) (- maxsize)%Z.

(** [MIN(r, expression)]: [reduce(min, ..., sys.maxsize)] *)
Definition MIN (r : Relation) (expression : Expression) : Result Z :=
  let expression := effective_expression r expression in
  _ ← probe_first expression (_scan r None);
  for_gen (λ (x : Z) tr,
             y ← expression tr;
             match y with
             | VInt z => Ok (Z.min x z)
             | _ => Raise TypeError
             end)
    (_scan r None) maxsize.

(** [for tr in g: if p(tr): return b] then [return not b]: the loops of
    [ALL] and [ANY] leave the generator at the first hit, so what it would
    raise later is never seen. *)
Fixpoint first_hit (p : Tuple → Result bool) (l : list Tuple)
    (raised : option Exception) : Result bool :=
  match l with
  | [] =>
      match raised with
      | None => Ok false
      | Some e => Raise e
      end
  | tr :: l' =>
      b ← p tr;
      if (b : bool) then Ok true else first_hit p l' raised
  end.

(** [ALL(r, expression)] *)
Definition ALL (r : Relation) (expression : Expression) : Result bool :=
  let expression := effective_expression r expression in
  let g := _scan r None in
  hit ← first_hit (λ tr, v ← expression tr; Ok (negb (truthy v)))
          (yielded g) (raised g);
  Ok (negb hit).

(** [ANY(r, expression)] *)
Definition ANY (r : Relation) (expression : Expression) : Result bool :=
  let expression := effective_expression r expression in
  let g := _scan r None in
  first_hit (λ tr, v ← expression tr; Ok (truthy v)) (yielded g) (raised g).

(** [GENERATE(extension)]:
    [EXTEND(TABLE_DEE, list(extension.keys()), lambda trx: extension)] *)
Definition GENERATE (extension : Tuple) : Result Relation :=
  dee ← TABLE_DEE;
  EXTEND dee (map_to_list extension).*1 (λ _, Ok extension).

(** [Relation.__contains__(rel)] for a tuple [rel]: [t in r]. *)
Definition __contains__ (self : Relation) (rel : Tuple) : Result bool :=
  if decide (heading self = dom rel) then
    f ← fromTuple rel;
    j ← AND self f;
    n ← COUNT j;
    Ok (bool_decide (n = 1))
  else Ok false.

(** [lambda t: t.a > 1] *)
Definition a_above_one (t : Tuple) : Result bool :=
  q ← getattr t "a";
  match q with
  | VInt z => Ok (bool_decide (1 < z)%Z)
  | _ => Raise TypeError
  end.

(** [lambda t: {'b': t.a + 1}] *)
Definition a_plus_one (t : Tuple) : Result Tuple :=
  q ← getattr t "a";
  match q with
  | VInt z => Ok {[ "b" := VInt (z + 1) ]}
  | _ => Raise TypeError
  end.

(** [lambda t: t.a + t.a] as the [expression] of an aggregate: its code
    has no constant but [None]. *)
Definition double_a : Expression :=
  mkExpression true
    (λ t, q ← getattr t "a";
          match q with
          | VInt z => Ok (VInt (z + z))
          | VStr x => Ok (VStr (x +:+ x))
          | VNone => Raise TypeError
          end).

(** The value of a construction that returns; the empty relation over no
    attribute stands for one that raises. *)
Definition sample (x : Result Relation) : Relation :=
  match x with
  | Ok r => r
  | Raise _ => mkRelation [] (Materialized (empty_store [])) [] []
  end.

(** Sample relations, as values: {1, 2, 3} and {1, 3} over [a], the rows
    (1, 1) and (1, 2) over [a] and [b], the chain of three edges, and the
    view over [a] yielding 7. *)
Definition r_123 : Relation := Eval vm_compute in sample one_two_three.
Definition r_13 : Relation := Eval vm_compute in sample guarded_batch.
Definition r_ab : Relation := Eval vm_compute in sample keyed_batch.
Definition r_chain : Relation := Eval vm_compute in sample chain.
Definition r_view : Relation := Eval vm_compute in sample counting_view.

(** The database with the single relvar [X], as a value. *)
Definition small_db : Database :=
  Eval vm_compute in
    match small_database with
    | Ok db => db
    | Raise _ => mkDatabase "" false [] ∅ 0 None
    end.

(** * Properties *)

(** ** The error monad *)

Lemma bind_Ok_inv {A B} (m : Result A) (f : A → Result B) (b : B) :
  m ≫= f = Ok b → ∃ a, m = Ok a ∧ f a = Ok b.
Proof. destruct m as [a|e]; simpl; [eauto | discriminate]. Qed.

Ltac inv_bind H :=
  let a := fresh "x" in
  let Ha := fresh "Hx" in
  apply bind_Ok_inv in H as (a & Ha & H).

Lemma forM_cons {A S} (body : S → A → Result S) (x : A) (l : list A) (s : S) :
  forM body (x :: l) s = body s x ≫= forM body l.
Proof. done. Qed.

Lemma forM_app {A S} (body : S → A → Result S) (l1 l2 : list A) (s : S) :
  forM body (l1 ++ l2) s = forM body l1 s ≫= forM body l2.
Proof.
  revert s. induction l1 as [|x l1 IH]; intros s; simpl; [done|].
  destruct (body s x); simpl; [apply IH | done].
Qed.

(** ** Headings and tuples *)

Lemma heading_set_size_0 (h : list string) : size (heading_set h) = 0 ↔ h = [].
Proof.
  unfold heading_set. rewrite size_empty_iff. split.
  - destruct h as [|a h]; [done|]. intros H. 
    assert (a ∈ (list_to_set (a :: h) : gset string)) as Hin by set_solver.
    rewrite H in Hin. set_solver.
  - intros ->. done.
Qed.

Lemma elem_of_heading_set (h : list string) (a : string) :
  a ∈ heading_set h ↔ a ∈ h.
Proof. unfold heading_set. apply elem_of_list_to_set. Qed.

Lemma dom_heading_lookup (h : list string) (d : Tuple) (a : string) :
  dom d = heading_set h → (is_Some (d !! a) ↔ a ∈ h).
Proof.
  intros Hd. rewrite <- elem_of_heading_set, <- Hd. symmetry. apply elem_of_dom.
Qed.

Lemma dict_of_items_lookup {V} (items : list (string * V)) (k : string) (v : V) :
  NoDup items.*1 → dict_of_items items !! k = Some v ↔ (k, v) ∈ items.
Proof.
  intros Hnd. unfold dict_of_items.
  rewrite <- elem_of_list_to_map.
  - by rewrite elem_of_reverse.
  - rewrite fmap_reverse. by rewrite reverse_Permutation.
Qed.

Lemma dict_of_items_lookup_None {V} (items : list (string * V)) (k : string) :
  dict_of_items items !! k = None ↔ k ∉ items.*1.
Proof.
  unfold dict_of_items. rewrite <- not_elem_of_list_to_map.
  by rewrite fmap_reverse, elem_of_reverse.
Qed.

Lemma dictToTuple_cons (a : string) (h : list string) (d : Tuple) :
  dictToTuple (a :: h) d
  = match d !! a with
    | Some v => t ← dictToTuple h d; Ok (v :: t)
    | None => Raise (KeyError a)
    end.
Proof. unfold dictToTuple. simpl. by destruct (d !! a). Qed.

Lemma dictToTuple_Ok (h : list string) (d : Tuple) (t : list Value) :
  dictToTuple h d = Ok t ↔
  length t = length h ∧ ∀ p a, h !! p = Some a → d !! a = t !! p.
Proof.
  revert t. induction h as [|a h IH]; intros t.
  - split.
    + intros [= <-]. split; [done|]. intros p a H. by rewrite lookup_nil in H.
    + intros [Hl _]. destruct t; [done|discriminate].
  - rewrite dictToTuple_cons. split.
    + destruct (d !! a) as [v|] eqn:Hd; [|discriminate].
      intros H. inv_bind H. injection H as <-.
      apply IH in Hx as [Hl Hp]. split; [simpl; lia|].
      intros [|p] a'; simpl; [by intros [= <-]|apply Hp].
    + intros [Hlen Hall]. destruct t as [|v t]; [discriminate|].
      pose proof (Hall 0 a eq_refl) as H0. simpl in H0. rewrite H0.
      assert (dictToTuple h d = Ok t) as ->; [|done].
      apply IH. split; [simpl in Hlen; lia|].
      intros p a' Hp'. apply (Hall (S p) a' Hp').
Qed.

Lemma dictToTuple_is_Ok (h : list string) (d : Tuple) :
  (∀ a, a ∈ h → is_Some (d !! a)) → ∃ t, dictToTuple h d = Ok t.
Proof.
  induction h as [|a h IH]; intros Hall.
  - exists []. done.
  - destruct IH as [t Ht]. { intros a' Ha'. apply Hall. by right. }
    destruct (Hall a) as [v Hv]; [by left|].
    exists (v :: t). apply dictToTuple_Ok. apply dictToTuple_Ok in Ht as [Hl Hp].
    split; [simpl; lia|]. intros [|p] a'; simpl; [by intros [= <-]|]. apply Hp.
Qed.

(** ** Position sets *)

Lemma elem_of_set_max (s : gset nat) (x : nat) : x ∈ s → (x ≤ set_max s)%nat.
Proof.
  unfold set_max. rewrite <- elem_of_elements.
  induction (elements s) as [|y l IH]; simpl.
  - intros H. by apply elem_of_nil in H.
  - intros [->|H]%elem_of_cons; [lia|]. specialize (IH H). lia.
Qed.

Lemma elem_of_shift_positions (ri : nat) (s : gset nat) (x : nat) :
  x ∈ shift_positions ri s ↔ (x < ri ∧ x ∈ s)%nat ∨ (ri ≤ x ∧ S x ∈ s)%nat.
Proof.
  unfold shift_positions. case_bool_decide as Hg.
  - rewrite elem_of_union, elem_of_filter, elem_of_map.
    split.
    + intros [?|(c & -> & [Hc Hin]%elem_of_filter)]; [by left|].
      right. replace (S (c - 1)) with c by lia. split; [lia|done].
    + intros [?|[Hle Hin]]; [by left|].
      right. exists (S x). split; [lia|]. apply elem_of_filter. split; [lia|done].
  - split.
    + intros Hin. left. split; [|done].
      destruct (decide (s = ∅)) as [->|Hne]; [set_solver|].
      apply elem_of_set_max in Hin.
      assert (¬ (ri ≤ set_max s)%nat) by tauto. lia.
    + intros [[_ ?]|[Hle Hin]]; [done|].
      exfalso. apply Hg. split; [set_solver|].
      apply elem_of_set_max in Hin. lia.
Qed.

Lemma shift_positions_empty (ri : nat) : shift_positions ri ∅ = ∅.
Proof.
  apply set_eq. intros x. rewrite elem_of_shift_positions. set_solver.
Qed.

Lemma pos_set_insert (idx : Index) (a0 a : string) (m : gmap Value (gset nat))
    (v : Value) :
  pos_set (<[a0 := m]> idx) a v
  = if decide (a0 = a) then default ∅ (m !! v) else pos_set idx a v.
Proof.
  unfold pos_set. rewrite lookup_insert. by case_decide.
Qed.

Lemma index_row_spec (heading : list string) (t : list Value) (ri : nat)
    (idx : Index) :
  length t = length heading →
  (∀ a, a ∈ heading → is_Some (idx !! a)) →
  ∃ idx', index_row heading t ri idx = (idx', Ok tt)
    ∧ (∀ a, is_Some (idx' !! a) ↔ is_Some (idx !! a))
    ∧ (∀ a v i, i ∈ pos_set idx' a v ↔
         i ∈ pos_set idx a v
         ∨ (i = ri ∧ ∃ p, heading !! p = Some a ∧ t !! p = Some v)).
Proof.
  revert t idx. induction heading as [|a0 h IH]; intros t idx Hlen Hdom.
  - exists idx. split; [done|]. split; [done|].
    intros a v i. split; [by left|]. intros [?|(_ & p & Hp & _)]; [done|].
    by rewrite lookup_nil in Hp.
  - destruct t as [|v0 t]; [discriminate|]. simpl.
    destruct (Hdom a0) as [m Hm]; [by left|]. rewrite Hm.
    set (idx1 := <[a0 := <[v0 := {[ri]} ∪ default ∅ (m !! v0)]> m]> idx).
    destruct (IH t idx1) as (idx' & Hrun & Hd & Hpos).
    { simpl in Hlen. lia. }
    { intros a Ha. unfold idx1. rewrite lookup_insert. case_decide; [eauto|].
      apply Hdom. by right. }
    exists idx'. split; [done|]. split.
    { intros a. rewrite Hd. unfold idx1. rewrite lookup_insert.
      case_decide; [subst; split; eauto|done]. }
    intros a v i. rewrite Hpos. unfold idx1. rewrite pos_set_insert.
    case_decide as Ha.
    + subst a0. rewrite lookup_insert. case_decide as Hv.
      * subst v0. simpl. rewrite elem_of_union, elem_of_singleton.
        unfold pos_set. rewrite Hm. split.
        -- intros [[->|?]|(-> & p & Hp & Ht)]; [right|by left|right].
           ++ split; [done|]. exists 0. done.
           ++ split; [done|]. exists (S p). done.
        -- intros [?|(-> & _)]; [left; by right|]. left. by left.
      * unfold pos_set. rewrite Hm. split.
        -- intros [?|(-> & p & Hp & Ht)]; [by left|].
           right. split; [done|]. by exists (S p).
        -- intros [?|(-> & [|p] & Hp & Ht)]; [by left| |].
           ++ simpl in *. congruence.
           ++ right. split; [done|]. by exists p.
    + split.
      * intros [?|(-> & p & Hp & Ht)]; [by left|].
        right. split; [done|]. by exists (S p).
      * intros [?|(-> & [|p] & Hp & Ht)]; [by left| |].
        -- simpl in *. congruence.
        -- right. split; [done|]. by exists p.
Qed.

Lemma unindex_row_spec (heading : list string) (ri : nat) (idx : Index) :
  NoDup heading →
  (∀ a, a ∈ heading → is_Some (idx !! a)) →
  ∃ idx', unindex_row heading ri idx = (idx', Ok tt)
    ∧ (∀ a, is_Some (idx' !! a) ↔ is_Some (idx !! a))
    ∧ (∀ a v, pos_set idx' a v
              = if decide (a ∈ heading)
                then shift_positions ri (pos_set idx a v)
                else pos_set idx a v).
Proof.
  revert idx. induction heading as [|a0 h IH]; intros idx Hnd Hdom.
  - exists idx. split; [done|]. split; [done|]. intros a v.
    case_decide as H; [by apply elem_of_nil in H|done].
  - simpl. destruct (Hdom a0) as [m Hm]; [by left|]. rewrite Hm.
    apply NoDup_cons in Hnd as [Hnotin Hnd].
    set (idx1 := <[a0 := shift_positions ri <$> m]> idx).
    destruct (IH idx1 Hnd) as (idx' & Hrun & Hd & Hpos).
    { intros a Ha. unfold idx1. rewrite lookup_insert. case_decide; [eauto|].
      apply Hdom. by right. }
    exists idx'. split; [done|]. split.
    { intros a. rewrite Hd. unfold idx1. rewrite lookup_insert.
      case_decide; [subst; split; eauto|done]. }
    intros a v. rewrite Hpos. unfold idx1. rewrite pos_set_insert.
    destruct (decide (a0 = a)) as [->|Hne].
    + rewrite decide_False by done. rewrite decide_True by (by left).
      rewrite lookup_fmap. unfold pos_set. rewrite Hm.
      destruct (m !! v); simpl; [done|]. by rewrite shift_positions_empty.
    + destruct (decide (a ∈ h)) as [Hin|Hnin].
      * rewrite decide_True by (by right). done.
      * rewrite decide_False; [done|]. intros [?|?]%elem_of_cons; congruence.
Qed.

(** ** [_hashfind] *)

Lemma elem_of_narrow (acc : option (gset nat)) (found : gset nat) (i : nat) :
  i ∈ narrow acc found
  ↔ match acc with Some A => i ∈ A | None => True end ∧ i ∈ found.
Proof. destruct acc; simpl; [set_solver|tauto]. Qed.

Lemma hashfind_tuple_spec (idx : Index) (hs : list string) (vs : list Value)
    (acc res : option (gset nat)) :
  hashfind_tuple idx hs vs acc = Ok res →
  ∀ i, i ∈ default ∅ res
       ↔ match acc with Some A => i ∈ A | None => hs ≠ [] end
         ∧ ∀ p a v, hs !! p = Some a → vs !! p = Some v → i ∈ pos_set idx a v.
Proof.
  revert vs acc res. induction hs as [|a hs IH]; intros vs acc res H i.
  - injection H as <-. destruct acc; simpl.
    + split; [|tauto]. intros ?. split; [done|]. intros p a v Hp.
      by rewrite lookup_nil in Hp.
    + split; [set_solver|]. intros [? _]. done.
  - simpl in H. destruct (idx !! a) as [m|] eqn:Hm; [|discriminate].
    destruct vs as [|v vs]; [discriminate|].
    assert (default ∅ (m !! v) = pos_set idx a v) as Hps.
    { unfold pos_set. by rewrite Hm. }
    rewrite Hps in H.
    destruct (decide (narrow acc (pos_set idx a v) = ∅)) as [He|Hne].
    + injection H as <-. simpl. split; [set_solver|].
      intros [Hacc Hall]. exfalso.
      assert (i ∈ narrow acc (pos_set idx a v)) as Hin.
      { apply elem_of_narrow. split; [by destruct acc|]. by apply (Hall 0). }
      rewrite He in Hin. set_solver.
    + rewrite (IH _ _ _ H i). simpl. rewrite elem_of_narrow. split.
      * intros [[Hacc H0] Hall]. split; [by destruct acc|].
        intros [|p] a' v'; simpl; [by intros [= <-] [= <-]|apply Hall].
      * intros [Hacc Hall]. split; [split|].
        -- by destruct acc.
        -- by apply (Hall 0).
        -- intros p a' v'. apply (Hall (S p)).
Qed.

Lemma hashfind_tuple_is_Ok (idx : Index) (hs : list string) (vs : list Value)
    (acc : option (gset nat)) :
  length vs = length hs →
  (∀ a, a ∈ hs → is_Some (idx !! a)) →
  ∃ res, hashfind_tuple idx hs vs acc = Ok res.
Proof.
  revert vs acc. induction hs as [|a hs IH]; intros vs acc Hlen Hdom.
  - by exists acc.
  - destruct vs as [|v vs]; [discriminate|]. simpl.
    destruct (Hdom a) as [m ->]; [by left|].
    case_decide; [eauto|]. apply IH; [simpl in Hlen; lia|].
    intros a' Ha'. apply Hdom. by right.
Qed.

Lemma hashfind_dict_spec (idx : Index) (items : list (string * Value))
    (acc res : option (gset nat)) :
  hashfind_dict idx items acc = Ok res →
  ∀ i, i ∈ default ∅ res
       ↔ match acc with Some A => i ∈ A | None => items ≠ [] end
         ∧ ∀ a v, (a, v) ∈ items → i ∈ pos_set idx a v.
Proof.
  revert acc res. induction items as [|[a v] items IH]; intros acc res H i.
  - injection H as <-. destruct acc; simpl.
    + split; [|tauto]. intros ?. split; [done|]. intros a v Hp.
      by apply elem_of_nil in Hp.
    + split; [set_solver|]. intros [? _]. done.
  - simpl in H. destruct (idx !! a) as [m|] eqn:Hm; [|discriminate].
    assert (default ∅ (m !! v) = pos_set idx a v) as Hps.
    { unfold pos_set. by rewrite Hm. }
    rewrite Hps in H.
    destruct (decide (narrow acc (pos_set idx a v) = ∅)) as [He|Hne].
    + injection H as <-. simpl. split; [set_solver|].
      intros [Hacc Hall]. exfalso.
      assert (i ∈ narrow acc (pos_set idx a v)) as Hin.
      { apply elem_of_narrow. split; [by destruct acc|]. apply Hall. by left. }
      rewrite He in Hin. set_solver.
    + rewrite (IH _ _ H i). simpl. rewrite elem_of_narrow. split.
      * intros [[Hacc H0] Hall]. split; [by destruct acc|].
        intros a' v' [[= -> ->]|?]%elem_of_cons; [done|by apply Hall].
      * intros [Hacc Hall]. split; [split|].
        -- by destruct acc.
        -- apply Hall. by left.
        -- intros a' v' ?. apply Hall. by right.
Qed.

Lemma hashfind_dict_is_Ok (idx : Index) (items : list (string * Value))
    (acc : option (gset nat)) :
  (∀ a v, (a, v) ∈ items → is_Some (idx !! a)) →
  ∃ res, hashfind_dict idx items acc = Ok res.
Proof.
  revert acc. induction items as [|[a v] items IH]; intros acc Hdom.
  - by exists acc.
  - simpl. destruct (Hdom a v) as [m ->]; [by left|].
    case_decide; [eauto|]. apply IH.
    intros a' v' Ha'. apply (Hdom a' v'). by right.
Qed.

(** A conforming row has a value tuple as long as the heading. *)
Lemma conforming_row_values (h : list string) (row : Row) :
  conforming h row →
  ∃ t, row_values h row = Ok t ∧ length t = length h.
Proof.
  destruct row as [d|t]; simpl; intros Hc.
  - destruct (dictToTuple_is_Ok h d) as [t Ht].
    { intros a Ha. by apply (dom_heading_lookup h d a Hc). }
    exists t. split; [done|]. by apply dictToTuple_Ok in Ht as [? _].
  - eauto.
Qed.

Lemma conforming_row_len_0 (h : list string) (row : Row) :
  conforming h row →
  (size (heading_set h) = 0 ∧ row_len row = 0) ↔ h = [].
Proof.
  intros Hc. rewrite heading_set_size_0. split; [tauto|]. intros ->.
  split; [done|]. destruct row as [d|t]; simpl in *.
  - rewrite <- size_dom, Hc. done.
  - done.
Qed.

(** Under the invariant, a row at position [i] is the tuple [t] exactly
    when the index lists [i] under every value of [t]. *)
Lemma row_at_index (h : list string) (s : Store) (t : list Value) (i : nat) :
  wf_store h s → h ≠ [] → length t = length h →
  (∀ p a v, h !! p = Some a → t !! p = Some v →
            i ∈ pos_set (headingInvert s) a v)
  ↔ rows s !! i = Some t.
Proof.
  intros Hwf Hne Hlen. split.
  - intros Hall.
    destruct h as [|a0 h']; [done|]. destruct t as [|v0 t']; [discriminate|].
    pose proof (Hall 0 a0 v0 eq_refl eq_refl) as H0.
    apply (wf_index _ _ Hwf 0 a0 v0 i eq_refl) in H0 as (row & Hrow & _).
    rewrite Hrow. f_equal.
    assert (length row = length (a0 :: h')) as Hrl.
    { eapply (Forall_lookup_1 _ _ _ _ (wf_len _ _ Hwf) Hrow). }
    apply list_eq. intros p.
    destruct (decide (p < length (a0 :: h'))%nat) as [Hlt|Hge].
    + destruct (lookup_lt_is_Some_2 (a0 :: h') p Hlt) as [a Ha].
      destruct (lookup_lt_is_Some_2 (v0 :: t') p) as [v Hv]; [lia|].
      pose proof (Hall p a v Ha Hv) as Hp.
      apply (wf_index _ _ Hwf p a v i Ha) in Hp as (row' & Hrow' & Hv').
      congruence.
    + rewrite (lookup_ge_None_2 row) by lia.
      rewrite (lookup_ge_None_2 (v0 :: t')) by lia. done.
  - intros Hrow p a v Hp Hv. apply (wf_index _ _ Hwf p a v i Hp). eauto.
Qed.

Lemma empty_heading_rows (s : Store) :
  wf_store [] s → rows s = [] ∨ rows s = [[]].
Proof.
  intros Hwf. pose proof (wf_len _ _ Hwf) as Hl. pose proof (wf_nodup _ _ Hwf) as Hn.
  destruct (rows s) as [|r0 [|r1 rest]]; [by left| |].
  - right. apply Forall_cons in Hl as [H0 _]. by destruct r0.
  - exfalso. apply Forall_cons in Hl as [H0 Hl]. apply Forall_cons in Hl as [H1 _].
    destruct r0; [|done]. destruct r1; [|done].
    apply NoDup_cons in Hn as [Hn _]. apply Hn. by left.
Qed.

(** [_hashfind] on a conforming row returns exactly the positions of the
    body rows equal to it. *)
Lemma hashfind_exact (h : list string) (s : Store) (row : Row) (t : list Value) :
  wf_store h s → conforming h row → row_values h row = Ok t →
  ∃ found, _hashfind h s row = Ok found
           ∧ ∀ i, i ∈ found ↔ rows s !! i = Some t.
Proof.
  intros Hwf Hc Ht.
  assert (length t = length h) as Hlen.
  { destruct (conforming_row_values h row Hc) as (t' & Ht' & ?). congruence. }
  unfold _hashfind. case_bool_decide as Hz.
  - apply (conforming_row_len_0 h row Hc) in Hz. subst h.
    destruct t; [|discriminate].
    destruct (empty_heading_rows s Hwf) as [Hr|Hr]; rewrite Hr; simpl.
    + exists ∅. split; [done|]. intros i. rewrite lookup_nil. set_solver.
    + exists {[0]}. split; [done|]. intros i. rewrite elem_of_singleton.
      split; [by intros ->|]. destruct i; [done|]. simpl. by rewrite lookup_nil.
  - assert (h ≠ []) as Hne.
    { intros ->. apply Hz. by apply (conforming_row_len_0 [] row Hc). }
    destruct row as [d|t0]; simpl in Ht, Hc.
    + destruct (hashfind_dict_is_Ok (headingInvert s) (map_to_list d) None)
        as [res Hres].
      { intros a v Hav. apply elem_of_map_to_list in Hav.
        apply (wf_dom _ _ Hwf). apply (dom_heading_lookup h d a Hc). eauto. }
      rewrite Hres. simpl. exists (default ∅ res). split; [done|].
      intros i. rewrite (hashfind_dict_spec _ _ _ _ Hres i).
      rewrite <- (row_at_index h s t i Hwf Hne Hlen).
      apply dictToTuple_Ok in Ht as [_ Hd].
      assert (map_to_list d ≠ []) as Hmne.
      { destruct h as [|a0 h']; [done|].
        assert (is_Some (d !! a0)) as [v0 Hv0].
        { apply (dom_heading_lookup _ d a0 Hc). by left. }
        apply elem_of_map_to_list in Hv0. intros E. rewrite E in Hv0.
        by apply elem_of_nil in Hv0. }
      split.
      * intros [_ Hall] p a v Hp Hv. apply Hall. apply elem_of_map_to_list.
        rewrite (Hd p a Hp). done.
      * intros Hall. split; [done|]. intros a v Hav.
        apply elem_of_map_to_list in Hav.
        assert (a ∈ h) as Hah.
        { apply (dom_heading_lookup h d a Hc). eauto. }
        apply list_elem_of_lookup in Hah as [p Hp].
        apply (Hall p a v Hp). rewrite <- (Hd p a Hp). done.
    + injection Ht as ->.
      destruct (hashfind_tuple_is_Ok (headingInvert s) h t None Hlen)
        as [res Hres]; [apply (wf_dom _ _ Hwf)|].
      rewrite Hres. simpl. exists (default ∅ res). split; [done|].
      intros i. rewrite (hashfind_tuple_spec _ _ _ _ _ Hres i).
      rewrite <- (row_at_index h s t i Hwf Hne Hlen). tauto.
Qed.

(** ** The mutation loops keep the invariant *)

Lemma typecheck_spec (first t : list Value) :
  length t = length first →
  (typecheck first t = Ok tt ∧ type_of <$> t = type_of <$> first)
  ∨ (typecheck first t = Raise TypeError ∧ type_of <$> t ≠ type_of <$> first).
Proof.
  revert t. induction first as [|f first IH]; intros t Hlen.
  - destruct t; [|discriminate]. by left.
  - destruct t as [|v t]; [discriminate|]. cbn [typecheck].
    unfold isinstance. rewrite !fmap_cons. case_bool_decide as Hty.
    + destruct (IH t) as [[H1 H2]|[H1 H2]]; [simpl in Hlen; lia| |].
      * left. split; [done|]. by rewrite Hty, H2.
      * right. split; [done|]. intros [= _ ?]. done.
    + right. split; [done|]. intros [= ? _]. done.
Qed.

Lemma check_types_spec (h : list string) (s : Store) (row : Row) (t : list Value) :
  wf_store h s → row_values h row = Ok t → length t = length h →
  (check_types h s row = Ok tt
   ∧ ∀ r, r ∈ rows s → type_of <$> t = type_of <$> r)
  ∨ (check_types h s row = Raise TypeError
     ∧ ∃ r, r ∈ rows s ∧ type_of <$> t ≠ type_of <$> r).
Proof.
  intros Hwf Ht Hlen. unfold check_types.
  destruct (rows s) as [|first rest] eqn:Hrows.
  - left. split; [done|]. intros r Hr. by apply elem_of_nil in Hr.
  - assert (length first = length h) as Hfl.
    { pose proof (wf_len _ _ Hwf) as Hl. rewrite Hrows in Hl.
      by apply Forall_cons in Hl as [? _]. }
    assert (∀ r, r ∈ first :: rest → type_of <$> r = type_of <$> first) as Hsame.
    { intros r Hr. apply (wf_types _ _ Hwf); rewrite Hrows; [done|by left]. }
    destruct first as [|f first'].
    + left. split; [done|]. intros r Hr. rewrite (Hsame r Hr).
      destruct t; [done|]. simpl in *. lia.
    + rewrite Ht. simpl.
      destruct (typecheck_spec (f :: first') t) as [[H1 H2]|[H1 H2]]; [lia| |].
      * left. split; [done|]. intros r Hr. rewrite (Hsame r Hr). done.
      * right. split; [done|]. exists (f :: first'). split; [by left|done].
Qed.

Lemma add_row_cases (h : list string) (s : Store) (row : Row) (t : list Value) :
  wf_store h s → conforming h row → row_values h row = Ok t →
  (add_row h s row = (s, Raise TypeError)
   ∧ ∃ r, r ∈ rows s ∧ type_of <$> t ≠ type_of <$> r)
  ∨ (add_row h s row = (s, Ok tt) ∧ t ∈ rows s)
  ∨ (∃ idx', add_row h s row = (mkStore (rows s ++ [t]) idx', Ok tt)
       ∧ (t ∉ rows s)
       ∧ (∀ r, r ∈ rows s → type_of <$> t = type_of <$> r)
       ∧ wf_store h (mkStore (rows s ++ [t]) idx')).
Proof.
  intros Hwf Hc Ht.
  assert (length t = length h) as Hlen.
  { destruct (conforming_row_values h row Hc) as (t' & Ht' & ?). congruence. }
  unfold add_row.
  destruct (check_types_spec h s row t Hwf Ht Hlen) as [[Hck Hty]|[Hck Hty]];
    rewrite Hck; [|by left].
  right.
  destruct (hashfind_exact h s row t Hwf Hc Ht) as (found & Hf & Hfound).
  rewrite Hf. case_decide as Hsz.
  - left. split; [done|].
    assert (found ≠ ∅) as Hne. { intros ->. rewrite size_empty in Hsz. lia. }
    apply set_choose_L in Hne as [i Hi]. apply Hfound in Hi.
    by eapply list_elem_of_lookup_2.
  - right. rewrite Ht.
    assert (t ∉ rows s) as Hnotin.
    { intros [i Hi]%list_elem_of_lookup. apply Hfound in Hi.
      apply Hsz. apply Nat.neq_0_lt_0. intros Hs0.
      apply size_empty_iff in Hs0. set_solver. }
    destruct (index_row_spec h t (length (rows s)) (headingInvert s) Hlen
                (wf_dom _ _ Hwf)) as (idx' & Hrun & Hd & Hpos).
    rewrite Hrun. exists idx'. split; [done|]. split; [done|]. split; [done|].
    constructor; simpl.
    + apply (wf_heading _ _ Hwf).
    + intros a Ha. apply Hd. by apply (wf_dom _ _ Hwf).
    + apply Forall_app. split; [apply (wf_len _ _ Hwf)|]. by apply Forall_singleton.
    + intros p a v i Hp. simpl. rewrite Hpos.
      rewrite (wf_index _ _ Hwf p a v i Hp). split.
      * intros [(r & Hr & Hv)|(-> & p' & Hp' & Hv)].
        -- exists r. split; [|done]. by apply lookup_app_l_Some.
        -- exists t. split.
           ++ rewrite lookup_app_r by lia. by rewrite Nat.sub_diag.
           ++ assert (p' = p) as <-; [|done].
              eapply NoDup_lookup; [apply (wf_heading _ _ Hwf)|done..].
      * intros (r & Hr & Hv). apply lookup_app_Some in Hr as [Hr|[Hge Hr]].
        -- left. eauto.
        -- right. apply list_lookup_singleton_Some in Hr as [Hi <-].
           split; [lia|]. eauto.
    + apply NoDup_app. split; [apply (wf_nodup _ _ Hwf)|]. split.
      * intros r Hr Hr'. apply list_elem_of_singleton in Hr'. by subst.
      * apply NoDup_singleton.
    + intros r1 r2 [H1|H1%list_elem_of_singleton]%elem_of_app
                   [H2|H2%list_elem_of_singleton]%elem_of_app; subst.
      * by apply (wf_types _ _ Hwf).
      * symmetry. by apply Hty.
      * by apply Hty.
      * done.
Qed.

Lemma add_row_wf (h : list string) (s : Store) (row : Row) :
  wf_store h s → conforming h row → wf_store h (add_row h s row).1.
Proof.
  intros Hwf Hc.
  destruct (conforming_row_values h row Hc) as (t & Ht & _).
  destruct (add_row_cases h s row t Hwf Hc Ht)
    as [[-> _]|[[-> _]|(idx' & -> & _ & _ & Hwf')]]; done.
Qed.

Lemma add_rows_wf (h : list string) (s : Store) (body : list Row) :
  wf_store h s → Forall (conforming h) body → wf_store h (add_rows h s body).1.
Proof.
  revert s. induction body as [|row body IH]; intros s Hwf Hc; [done|].
  apply Forall_cons in Hc as [Hc Hcs]. simpl.
  pose proof (add_row_wf h s row Hwf Hc) as Hwf'.
  destruct (add_row h s row) as [s' [[]|e]]; simpl in *; [|done].
  by apply IH.
Qed.

Lemma remove_row_wf (h : list string) (s : Store) (row : Row) :
  wf_store h s → conforming h row → wf_store h (remove_row h s row).1.
Proof.
  intros Hwf Hc. unfold remove_row.
  destruct (check_types h s row) as [[]|]; [|done].
  destruct (conforming_row_values h row Hc) as (t & Ht & Hlen).
  destruct (hashfind_exact h s row t Hwf Hc Ht) as (found & Hf & Hfound).
  rewrite Hf. destruct (head (elements found)) as [ri|] eqn:Hhd; [|done].
  destruct (unindex_row_spec h ri (headingInvert s) (wf_heading _ _ Hwf)
              (wf_dom _ _ Hwf)) as (idx' & Hrun & Hd & Hpos).
  rewrite Hrun. simpl. constructor; simpl.
  - apply (wf_heading _ _ Hwf).
  - intros a Ha. apply Hd. by apply (wf_dom _ _ Hwf).
  - apply Forall_delete. apply (wf_len _ _ Hwf).
  - intros p a v i Hp. simpl. rewrite Hpos.
    rewrite decide_True by (by eapply list_elem_of_lookup_2).
    rewrite elem_of_shift_positions.
    rewrite (wf_index _ _ Hwf p a v i Hp), (wf_index _ _ Hwf p a v (S i) Hp).
    destruct (decide (i < ri)%nat) as [Hlt|Hge].
    + rewrite list_lookup_delete_lt by done. split; [|intros ?; left; by split].
      intros [[_ ?]|[? _]]; [done|lia].
    + rewrite list_lookup_delete_ge by lia. split; [|intros ?; right; split; [lia|done]].
      intros [[? _]|[_ ?]]; [lia|done].
  - apply (sublist_NoDup _ _ (wf_nodup _ _ Hwf) (sublist_delete _ _)).
  - intros r1 r2 H1 H2. apply (wf_types _ _ Hwf).
    + by eapply list_elem_of_delete_inv.
    + by eapply list_elem_of_delete_inv.
Qed.

Lemma remove_rows_wf (h : list string) (s : Store) (body : list Row) :
  wf_store h s → Forall (conforming h) body →
  wf_store h (remove_rows h s body).1.
Proof.
  revert s. induction body as [|row body IH]; intros s Hwf Hc; [done|].
  apply Forall_cons in Hc as [Hc Hcs]. simpl.
  pose proof (remove_row_wf h s row Hwf Hc) as Hwf'.
  destruct (remove_row h s row) as [s' [[]|e]]; simpl in *; [|done].
  by apply IH.
Qed.

(** Whatever [_checkConstraints] answers, and whether or not the call
    raises, [_addToBody] and [_removeFromBody] leave a well-formed body. *)
Lemma addToBody_wf (check : Store → Result unit) (h : list string) (s : Store)
    (body : list Row) (nocheck : bool) :
  wf_store h s → Forall (conforming h) body →
  wf_store h (_addToBody check h s body nocheck).1.
Proof.
  intros Hwf Hc. unfold _addToBody.
  pose proof (add_rows_wf h s body Hwf Hc) as H1.
  destruct (add_rows h s body) as [s1 [[]|e]]; simpl in *; [|done].
  destruct nocheck; [done|]. destruct (check s1); [done|].
  pose proof (remove_rows_wf h s1 body H1 Hc) as H2.
  by destruct (remove_rows h s1 body) as [s2 [[]|e']].
Qed.

Lemma removeFromBody_wf (check : Store → Result unit) (h : list string)
    (s : Store) (body : list Row) (nocheck : bool) :
  wf_store h s → Forall (conforming h) body →
  wf_store h (_removeFromBody check h s body nocheck).1.
Proof.
  intros Hwf Hc. unfold _removeFromBody.
  pose proof (remove_rows_wf h s body Hwf Hc) as H1.
  destruct (remove_rows h s body) as [s1 [[]|e]]; simpl in *; [|done].
  destruct nocheck; [done|]. destruct (check s1); [done|].
  pose proof (add_rows_wf h s1 body H1 Hc) as H2.
  by destruct (add_rows h s1 body) as [s2 [[]|e']].
Qed.

Lemma empty_index_lookup (h : list string) (a : string) :
  empty_index h !! a = if decide (a ∈ h) then Some ∅ else None.
Proof.
  unfold empty_index, dict_of_items. case_decide as Ha.
  - apply elem_of_list_to_map_1'.
    + intros y Hin. rewrite elem_of_reverse in Hin.
      apply list_elem_of_fmap in Hin as (? & [= _ ->] & _). done.
    + rewrite elem_of_reverse. apply list_elem_of_fmap. eauto.
  - apply not_elem_of_list_to_map_1. rewrite fmap_reverse, elem_of_reverse.
    rewrite <- list_fmap_compose. intros Hin.
    apply list_elem_of_fmap in Hin as (a' & -> & Hin). done.
Qed.

Lemma empty_store_wf (h : list string) : NoDup h → wf_store h (empty_store h).
Proof.
  intros Hnd. unfold empty_store. constructor; cbn [headingInvert rows].
  - done.
  - intros a Ha. rewrite empty_index_lookup. rewrite decide_True by done. eauto.
  - constructor.
  - intros p a v i Hp. cbn [headingInvert rows].
    unfold pos_set. rewrite empty_index_lookup.
    rewrite decide_True by (by eapply list_elem_of_lookup_2).
    rewrite lookup_empty. simpl. split; [set_solver|].
    intros (row & Hr & _). by rewrite lookup_nil in Hr.
  - constructor.
  - intros r1 r2 H1. by apply elem_of_nil in H1.
Qed.

Lemma size_heading_set_le (h : list string) :
  (size (heading_set h) ≤ length h)%nat.
Proof.
  unfold heading_set. induction h as [|a h IH]; [done|]. simpl.
  destruct (decide (a ∈ h)) as [Hin|Hnin].
  - assert (({[a]} ∪ list_to_set h : gset string) = list_to_set h) as ->
      by set_solver. lia.
  - rewrite size_union by set_solver. rewrite size_singleton. lia.
Qed.

Lemma size_heading_set_NoDup (h : list string) :
  length h = size (heading_set h) ↔ NoDup h.
Proof.
  split.
  - induction h as [|a h IH]; [constructor|]. intros Hsz.
    unfold heading_set in *. simpl in Hsz.
    destruct (decide (a ∈ h)) as [Hin|Hnin].
    + exfalso.
      assert (({[a]} ∪ list_to_set h : gset string) = list_to_set h) as E
        by set_solver.
      rewrite E in Hsz. pose proof (size_heading_set_le h) as Hle.
      unfold heading_set in Hle. lia.
    + constructor; [done|]. apply IH.
      rewrite size_union in Hsz by set_solver. rewrite size_singleton in Hsz. lia.
  - intros Hnd. unfold heading_set. by rewrite size_list_to_set.
Qed.

Lemma validateHeading_Ok (h : list string) :
  validateHeading h = Ok tt ↔ NoDup h.
Proof.
  unfold validateHeading. rewrite <- size_heading_set_NoDup.
  case_bool_decide as H.
  - split; [discriminate|]. intros Hnd. by destruct H.
  - split; [|done]. intros _.
    destruct (decide (h = [])) as [->|Hne]; [done|].
    destruct (decide (length h = size (heading_set h))); [done|].
    exfalso. by apply H.
Qed.

(** ** Batches and constructors *)

Lemma forM_append_row (Hs : list string) (l : list Tuple) (acc res : list Row) :
  forM (append_row Hs) l acc = Ok res ↔
  ∃ ts, Forall2 (λ tr t, dictToTuple Hs tr = Ok t) l ts
        ∧ res = acc ++ (TupleRow <$> ts).
Proof.
  revert acc. induction l as [|tr l IH]; intros acc.
  - simpl. split.
    + intros [= <-]. exists []. split; [constructor|]. by rewrite app_nil_r.
    + intros (ts & Hf & ->). apply Forall2_nil_inv_l in Hf as ->.
      by rewrite app_nil_r.
  - rewrite forM_cons.
    assert (append_row Hs acc tr
            = t ← dictToTuple Hs tr; Ok (acc ++ [TupleRow t])) as -> by done.
    destruct (dictToTuple Hs tr) as [t|e] eqn:Ht; cbn [mbind Result_bind].
    + rewrite IH. split.
      * intros (ts & Hf & ->). exists (t :: ts). split; [by constructor|].
        by rewrite <- app_assoc.
      * intros (ts & Hf & ->). apply Forall2_cons_inv_l in Hf as (t' & ts' & Ht' & Hf & ->).
        assert (t' = t) as -> by congruence.
        exists ts'. split; [done|]. by rewrite <- app_assoc.
    + split; [discriminate|]. intros (ts & Hf & _).
      apply Forall2_cons_inv_l in Hf as (t' & ts' & Ht' & _). congruence.
Qed.

Lemma for_gen_Ok_inv {S} (body : S → Tuple → Result S) (g : Gen) (s res : S) :
  for_gen body g s = Ok res ↔ raised g = None ∧ forM body (yielded g) s = Ok res.
Proof.
  unfold for_gen. destruct (forM body (yielded g) s) as [s'|e]; simpl;
    destruct (raised g); naive_solver.
Qed.

Lemma batch_of_conforming (r rel : Relation) (Bs : list Row) :
  batch_of r rel = Ok Bs → Forall (conforming (_heading r)) Bs.
Proof.
  unfold batch_of. intros H. apply for_gen_Ok_inv in H as [_ H].
  apply forM_append_row in H as (ts & Hf & ->). simpl.
  apply Forall_fmap. clear -Hf.
  induction Hf as [|tr t l ts Ht Hf IH]; constructor; [|done].
  simpl. by apply dictToTuple_Ok in Ht as [? _].
Qed.

Lemma setBody_with_wf (check : Relation → Result unit) (r r' : Relation)
    (body : list Row) (res : Result unit) :
  NoDup (_heading r) → Forall (conforming (_heading r)) body →
  setBody_with check r (BodyRows body) = (r', res) →
  _heading r' = _heading r ∧ wf r'.
Proof.
  intros Hnd Hc. unfold setBody_with.
  pose proof (addToBody_wf (λ s, check (with_body r (Materialized s)))
                (_heading r) (empty_store (_heading r)) body false
                (empty_store_wf _ Hnd) Hc) as Hwf.
  destruct (_addToBody _ _ _ _ _) as [s res']. intros [= <- <-].
  split; [done|]. exists s. done.
Qed.

Lemma reachable_wf (r : Relation) : reachable r → wf r.
Proof.
  induction 1 as [scope deferred h body cs r Hc Hr | h body r Hc Hr
                  | h body keys r Hc Hr | scope r rel _ IH | scope r rel _ IH].
  - unfold Relation_ in Hr. inv_bind Hr. inv_bind Hr.
    destruct x. apply validateHeading_Ok in Hx.
    destruct (setBody_with _ _ _) as [r' [[]|e]] eqn:Hs; [|discriminate].
    injection Hr as <-. by apply setBody_with_wf in Hs as [_ ?].
  - unfold Relation0 in Hr. inv_bind Hr.
    destruct x. apply validateHeading_Ok in Hx.
    destruct (setBody_with _ _ _) as [r' [[]|e]] eqn:Hs; [|discriminate].
    injection Hr as <-. by apply setBody_with_wf in Hs as [_ ?].
  - unfold RelationK in Hr. inv_bind Hr.
    destruct x. apply validateHeading_Ok in Hx.
    destruct (setBody_with _ _ _) as [r' [[]|e]] eqn:Hs; [|discriminate].
    injection Hr as <-. by apply setBody_with_wf in Hs as [_ ?].
  - destruct IH as (s & Hb & Hwf). unfold insert_.
    destruct (callable (_body r)); [by exists s|].
    case_decide; [by exists s|].
    destruct (batch_of r rel) as [Bs|e] eqn:HBs; [|by exists s].
    unfold addToBody. rewrite Hb.
    pose proof (addToBody_wf
      (λ s0, _checkConstraints (scope (with_body r (Materialized s0)))
               (with_body r (Materialized s0)))
      (_heading r) s Bs false Hwf (batch_of_conforming _ _ _ HBs)) as Hwf'.
    destruct (_addToBody _ _ _ _ _) as [s' res]. simpl. by exists s'.
  - destruct IH as (s & Hb & Hwf). unfold delete_.
    destruct (callable (_body r)); [by exists s|].
    case_decide; [by exists s|].
    destruct (batch_of r rel) as [Bs|e] eqn:HBs; [|by exists s].
    unfold removeFromBody. rewrite Hb.
    pose proof (removeFromBody_wf
      (λ s0, _checkConstraints (scope (with_body r (Materialized s0)))
               (with_body r (Materialized s0)))
      (_heading r) s Bs false Hwf (batch_of_conforming _ _ _ HBs)) as Hwf'.
    destruct (_removeFromBody _ _ _ _ _) as [s' res]. simpl. by exists s'.
Qed.

(** C10: on every relation object built by the constructor from conforming
    rows and then changed by any sequence of insert and delete batches, the
    inverted index agrees with the body (the entry for attribute [a] and
    value [v] holds exactly the positions of the rows whose [a]-component is
    [v]), and [_hashfind] of a conforming row returns exactly the positions
    of the body rows equal to it. *)
Theorem index_agrees_with_body (r : Relation) :
  reachable r →
  ∃ s, _body r = Materialized s
    ∧ index_consistent (_heading r) s
    ∧ ∀ row t, conforming (_heading r) row →
               row_values (_heading r) row = Ok t →
               ∃ found, _hashfind (_heading r) s row = Ok found
                        ∧ ∀ i, i ∈ found ↔ rows s !! i = Some t.
Proof.
  intros (s & Hb & Hwf)%reachable_wf. exists s. split; [done|]. split.
  - apply (wf_index _ _ Hwf).
  - intros row t Hc Ht. by apply hashfind_exact.
Qed.

Lemma index_agrees_with_body_witness :
  ∃ r, one_two_three = Ok r
       ∧ ∃ s, _body r = Materialized s
           ∧ index_consistent (_heading r) s
           ∧ ∀ row t, conforming (_heading r) row →
                      row_values (_heading r) row = Ok t →
                      ∃ found, _hashfind (_heading r) s row = Ok found
                               ∧ ∀ i, i ∈ found ↔ rows s !! i = Some t.
Proof.
  eexists. split; [vm_compute; reflexivity|].
  apply index_agrees_with_body.
  eapply (reach_Relation0 ["a"]
            [TupleRow [VInt 1]; TupleRow [VInt 2]; TupleRow [VInt 3]]).
  - repeat constructor.
  - vm_compute. reflexivity.
Defined.

(** ** Tuples of a row *)

Lemma row_tuple_lookup (h : list string) (t : list Value) (a : string) (v : Value) :
  NoDup h → length t = length h →
  row_tuple h t !! a = Some v ↔ ∃ p, h !! p = Some a ∧ t !! p = Some v.
Proof.
  intros Hnd Hlen. unfold row_tuple.
  rewrite dict_of_items_lookup by (rewrite fst_zip; [done|lia]).
  rewrite list_elem_of_lookup. split.
  - intros [p Hp]. exists p. unfold zip in Hp.
    apply lookup_zip_with_Some in Hp as (x & y & [= -> ->] & ? & ?). done.
  - intros (p & Hp & Ht). exists p. unfold zip. apply lookup_zip_with_Some.
    eauto.
Qed.

Lemma row_tuple_lookup_at (h : list string) (t : list Value) (p : nat) (a : string) :
  NoDup h → length t = length h → h !! p = Some a →
  row_tuple h t !! a = t !! p.
Proof.
  intros Hnd Hlen Hp.
  destruct (lookup_lt_is_Some_2 t p) as [v Hv].
  { rewrite Hlen. by eapply lookup_lt_Some. }
  rewrite Hv. apply row_tuple_lookup; eauto.
Qed.

Lemma row_tuple_dom (h : list string) (t : list Value) :
  NoDup h → length t = length h → dom (row_tuple h t) = heading_set h.
Proof.
  intros Hnd Hlen. apply set_eq. intros a.
  rewrite elem_of_dom, elem_of_heading_set. split.
  - intros [v Hv]. apply row_tuple_lookup in Hv as (p & Hp & _); [|done..].
    by eapply list_elem_of_lookup_2.
  - intros [p Hp]%list_elem_of_lookup.
    rewrite (row_tuple_lookup_at h t p a) by done.
    apply lookup_lt_is_Some_2. rewrite Hlen. by eapply lookup_lt_Some.
Qed.

Lemma dictToTuple_row_tuple (h : list string) (t : list Value) :
  NoDup h → length t = length h → dictToTuple h (row_tuple h t) = Ok t.
Proof.
  intros Hnd Hlen. apply dictToTuple_Ok. split; [done|].
  intros p a Hp. by apply row_tuple_lookup_at.
Qed.

Lemma row_tuple_dictToTuple (h : list string) (d : Tuple) (t : list Value) :
  NoDup h → dom d = heading_set h → dictToTuple h d = Ok t →
  row_tuple h t = d.
Proof.
  intros Hnd Hdom Ht. apply dictToTuple_Ok in Ht as [Hlen Hp].
  apply map_eq. intros a.
  destruct (decide (a ∈ h)) as [Hin|Hnin].
  - apply list_elem_of_lookup in Hin as [p Hpa].
    rewrite (row_tuple_lookup_at h t p a) by done. symmetry. by apply Hp.
  - transitivity (@None Value).
    + apply not_elem_of_dom. rewrite row_tuple_dom by done.
      by rewrite elem_of_heading_set.
    + symmetry. apply not_elem_of_dom. rewrite Hdom.
      by rewrite elem_of_heading_set.
Qed.

Lemma row_tuple_inj (h : list string) (t1 t2 : list Value) :
  NoDup h → length t1 = length h → length t2 = length h →
  row_tuple h t1 = row_tuple h t2 → t1 = t2.
Proof.
  intros Hnd H1 H2 Heq.
  pose proof (dictToTuple_row_tuple h t1 Hnd H1) as E1.
  pose proof (dictToTuple_row_tuple h t2 Hnd H2) as E2.
  rewrite Heq in E1. congruence.
Qed.

(** ** The tuples of a well-formed relation *)

Lemma wf_body_rows (r : Relation) (s : Store) :
  _body r = Materialized s → body_rows r = rows s.
Proof. unfold body_rows. by intros ->. Qed.

Lemma wf_heading_NoDup (r : Relation) : wf r → NoDup (_heading r).
Proof. intros (s & _ & Hwf). apply (wf_heading _ _ Hwf). Qed.

Lemma wf_rows_length (r : Relation) (t : list Value) :
  wf r → t ∈ body_rows r → length t = length (_heading r).
Proof.
  intros (s & Hb & Hwf) Hin. rewrite (wf_body_rows r s Hb) in Hin.
  pose proof (wf_len _ _ Hwf) as Hl. rewrite Forall_forall in Hl. by apply Hl.
Qed.

Lemma elem_of_tuples (r : Relation) (d : Tuple) :
  d ∈ tuples r ↔ ∃ t, t ∈ body_rows r ∧ d = row_tuple (_heading r) t.
Proof.
  unfold tuples. rewrite list_elem_of_fmap. naive_solver.
Qed.

Lemma tuples_dom (r : Relation) (d : Tuple) :
  wf r → d ∈ tuples r → dom d = heading r.
Proof.
  intros Hwf (t & Ht & ->)%elem_of_tuples. apply row_tuple_dom.
  - by apply wf_heading_NoDup.
  - by apply wf_rows_length.
Qed.

Lemma tuples_NoDup (r : Relation) : wf r → NoDup (tuples r).
Proof.
  intros Hwf. unfold tuples. apply NoDup_fmap_2_strong.
  - intros t1 t2 H1 H2. apply row_tuple_inj.
    + by apply wf_heading_NoDup.
    + by apply wf_rows_length.
    + by apply wf_rows_length.
  - destruct Hwf as (s & Hb & Hwf). rewrite (wf_body_rows r s Hb).
    apply (wf_nodup _ _ Hwf).
Qed.

Lemma tuples_types (r : Relation) (d1 d2 : Tuple) (a : string) :
  wf r → d1 ∈ tuples r → d2 ∈ tuples r →
  type_of <$> d1 !! a = type_of <$> d2 !! a.
Proof.
  intros Hwf (t1 & Ht1 & ->)%elem_of_tuples (t2 & Ht2 & ->)%elem_of_tuples.
  pose proof (wf_heading_NoDup r Hwf) as Hnd.
  pose proof (wf_rows_length r t1 Hwf Ht1) as Hl1.
  pose proof (wf_rows_length r t2 Hwf Ht2) as Hl2.
  destruct (decide (a ∈ _heading r)) as [Hin|Hnin].
  - apply list_elem_of_lookup in Hin as [p Hp].
    rewrite !(row_tuple_lookup_at _ _ p a) by done.
    destruct Hwf as (s & Hb & Hwf). rewrite (wf_body_rows r s Hb) in Ht1, Ht2.
    pose proof (wf_types _ _ Hwf t1 t2 Ht1 Ht2) as Hty.
    rewrite <- !list_lookup_fmap. by rewrite Hty.
  - assert (∀ t, length t = length (_heading r) →
                 row_tuple (_heading r) t !! a = None) as Hnone.
    { intros t Hl. apply not_elem_of_dom. rewrite row_tuple_dom by done.
      by rewrite elem_of_heading_set. }
    by rewrite !Hnone.
Qed.

Lemma full_scan_wf (r : Relation) :
  wf r → _scan r None = mkGen (tuples r) None.
Proof.
  intros (s & Hb & _). unfold _scan, full_scan, tuples, body_rows. by rewrite Hb.
Qed.

Lemma COUNT_forM (l : list Tuple) (n : nat) :
  forM (λ (x : nat) (_ : Tuple), Ok (x + 1)%nat) l n = Ok (n + length l)%nat.
Proof.
  revert n. induction l as [|t l IH]; intros n; simpl.
  - f_equal. lia.
  - rewrite IH. f_equal. lia.
Qed.

Lemma COUNT_wf (r : Relation) : wf r → COUNT r = Ok (length (body_rows r)).
Proof.
  intros Hwf. unfold COUNT. rewrite (full_scan_wf r Hwf). unfold for_gen.
  simpl. rewrite COUNT_forM. simpl. unfold tuples. by rewrite length_fmap.
Qed.

(** ** What the constructor builds *)

Lemma add_rows_Ok_inv (h : list string) (s s' : Store) (body : list Row) :
  wf_store h s → Forall (conforming h) body →
  add_rows h s body = (s', Ok tt) →
  wf_store h s'
  ∧ ∀ t, t ∈ rows s' ↔ t ∈ rows s ∨ ∃ row, row ∈ body ∧ row_values h row = Ok t.
Proof.
  revert s. induction body as [|row body IH]; intros s Hwf Hc Hrun.
  - injection Hrun as <-. split; [done|]. intros t. split; [by left|].
    intros [?|(row & Hr & _)]; [done|]. by apply elem_of_nil in Hr.
  - apply Forall_cons in Hc as [Hc Hcs]. simpl in Hrun.
    destruct (conforming_row_values h row Hc) as (t0 & Ht0 & _).
    destruct (add_row_cases h s row t0 Hwf Hc Ht0)
      as [[E _]|[[E Hin]|(idx' & E & Hnin & _ & Hwf')]];
      rewrite E in Hrun; [discriminate| |].
    + destruct (IH s Hwf Hcs Hrun) as [Hwf' Hmem]. split; [done|].
      intros t. rewrite Hmem. split.
      * intros [?|(r & Hr & Hv)]; [by left|]. right. exists r. split; [by right|done].
      * intros [?|(r & [->|Hr]%elem_of_cons & Hv)]; [by left| |].
        -- left. congruence.
        -- right. eauto.
    + destruct (IH _ Hwf' Hcs Hrun) as [Hwf'' Hmem]. split; [done|].
      intros t. rewrite Hmem. simpl. rewrite elem_of_app, list_elem_of_singleton.
      split.
      * intros [[?| ->]|(r & Hr & Hv)]; [by left| |].
        -- right. exists row. split; [by left|done].
        -- right. exists r. split; [by right|done].
      * intros [?|(r & [->|Hr]%elem_of_cons & Hv)]; [left; by left| |].
        -- left. right. congruence.
        -- right. eauto.
Qed.

Lemma add_rows_is_Ok (h : list string) (s : Store) (body : list Row) :
  wf_store h s → Forall (conforming h) body →
  (∀ row t r, row ∈ body → row_values h row = Ok t → r ∈ rows s →
              type_of <$> t = type_of <$> r) →
  (∀ row1 t1 row2 t2, row1 ∈ body → row2 ∈ body →
     row_values h row1 = Ok t1 → row_values h row2 = Ok t2 →
     type_of <$> t1 = type_of <$> t2) →
  ∃ s', add_rows h s body = (s', Ok tt).
Proof.
  revert s. induction body as [|row body IH]; intros s Hwf Hc Hold Hnew.
  - by exists s.
  - apply Forall_cons in Hc as [Hc Hcs]. simpl.
    destruct (conforming_row_values h row Hc) as (t0 & Ht0 & _).
    assert (∀ row1 t1 row2 t2, row1 ∈ body → row2 ∈ body →
              row_values h row1 = Ok t1 → row_values h row2 = Ok t2 →
              type_of <$> t1 = type_of <$> t2) as Hnew'.
    { intros row1 t1 row2 t2 H1 H2. apply Hnew; by right. }
    destruct (add_row_cases h s row t0 Hwf Hc Ht0)
      as [[E (r & Hr & Hne)]|[[E Hin]|(idx' & E & Hnin & _ & Hwf')]]; rewrite E.
    + exfalso. apply Hne. apply (Hold row t0 r); [by left|done..].
    + apply IH; [done..| |done].
      intros row1 t1 r H1. apply Hold. by right.
    + apply IH; [done..| |done].
      intros row1 t1 r H1 Hv. simpl.
      intros [Hr| ->%list_elem_of_singleton]%elem_of_app.
      * apply (Hold row1 t1 r); [by right|done..].
      * apply (Hnew row1 t1 row t0); [by right|by left|done..].
Qed.

Lemma Relation0_Ok_inv (Hs : list string) (body : list Row) (r : Relation) :
  Forall (conforming Hs) body →
  Relation0 Hs (BodyRows body) = Ok r →
  wf r ∧ _heading r = Hs
  ∧ constraint_definitions r = default_constraints
  ∧ constraints r = default_constraints
  ∧ ∀ t, t ∈ body_rows r ↔ ∃ row, row ∈ body ∧ row_values Hs row = Ok t.
Proof.
  intros Hc Hr. unfold Relation0 in Hr. inv_bind Hr. destruct x.
  apply validateHeading_Ok in Hx. unfold setBody_with in Hr.
  cbn [_heading] in Hr. unfold _addToBody in Hr.
  destruct (add_rows Hs (empty_store Hs) body) as [s1 [[]|e]] eqn:Hadd;
    [|discriminate].
  injection Hr as <-.
  destruct (add_rows_Ok_inv Hs _ _ _ (empty_store_wf Hs Hx) Hc Hadd) as [Hwf Hmem].
  split; [by exists s1|]. split; [done|]. split; [done|]. split; [done|].
  intros t. unfold body_rows. cbn. rewrite Hmem. split; [|by right].
  intros [Hin|?]; [|done]. by apply elem_of_nil in Hin.
Qed.

Lemma Relation0_is_Ok (Hs : list string) (body : list Row) :
  NoDup Hs → Forall (conforming Hs) body →
  (∀ row1 t1 row2 t2, row1 ∈ body → row2 ∈ body →
     row_values Hs row1 = Ok t1 → row_values Hs row2 = Ok t2 →
     type_of <$> t1 = type_of <$> t2) →
  ∃ r, Relation0 Hs (BodyRows body) = Ok r.
Proof.
  intros Hnd Hc Hty. unfold Relation0.
  apply validateHeading_Ok in Hnd as Hv. rewrite Hv. cbn [mbind Result_bind].
  unfold setBody_with. cbn [_heading]. unfold _addToBody.
  destruct (add_rows_is_Ok Hs (empty_store Hs) body) as [s' ->]; [|done| |done|].
  - by apply empty_store_wf.
  - intros row t r _ _ Hr. by apply elem_of_nil in Hr.
  - eauto.
Qed.

(** ** Restriction of a tuple to a heading *)

Lemma restrict_lookup (Hs : gset string) (d : Tuple) (a : string) :
  restrict Hs d !! a = if decide (a ∈ Hs) then d !! a else None.
Proof.
  unfold restrict. case_decide as Ha.
  - destruct (d !! a) as [v|] eqn:Hd.
    + apply map_lookup_filter_Some. done.
    + apply map_lookup_filter_None. left. done.
  - apply map_lookup_filter_None. right. intros v _. done.
Qed.

Lemma restrict_id (Hs : gset string) (d : Tuple) : dom d ⊆ Hs → restrict Hs d = d.
Proof.
  intros Hsub. apply map_eq. intros a. rewrite restrict_lookup.
  case_decide as Ha; [done|]. symmetry. apply not_elem_of_dom. set_solver.
Qed.

Lemma restrict_dom (Hs : gset string) (d : Tuple) :
  Hs ⊆ dom d → dom (restrict Hs d) = Hs.
Proof.
  intros Hsub. apply set_eq. intros a. rewrite elem_of_dom, restrict_lookup.
  case_decide as Ha.
  - split; [done|]. intros _. apply elem_of_dom. set_solver.
  - split; [intros [? ?]; done|done].
Qed.

Lemma row_tuple_restrict (Hs : list string) (d : Tuple) (t : list Value) :
  NoDup Hs → dictToTuple Hs d = Ok t →
  row_tuple Hs t = restrict (heading_set Hs) d.
Proof.
  intros Hnd Ht. apply dictToTuple_Ok in Ht as [Hlen Hp].
  apply map_eq. intros a. rewrite restrict_lookup.
  case_decide as Ha.
  - apply elem_of_heading_set, list_elem_of_lookup in Ha as [p Hpa].
    rewrite (row_tuple_lookup_at Hs t p a) by done. symmetry. by apply Hp.
  - apply not_elem_of_dom. by rewrite row_tuple_dom.
Qed.

Lemma dictToTuple_types (Hs : list string) (d1 d2 : Tuple) (t1 t2 : list Value) :
  dictToTuple Hs d1 = Ok t1 → dictToTuple Hs d2 = Ok t2 →
  (∀ a, a ∈ Hs → type_of <$> d1 !! a = type_of <$> d2 !! a) →
  type_of <$> t1 = type_of <$> t2.
Proof.
  intros [Hl1 Hp1]%dictToTuple_Ok [Hl2 Hp2]%dictToTuple_Ok Hty.
  apply list_eq. intros p. rewrite !list_lookup_fmap.
  destruct (Hs !! p) as [a|] eqn:Hp.
  - rewrite <- (Hp1 p a Hp), <- (Hp2 p a Hp). apply Hty.
    by eapply list_elem_of_lookup_2.
  - apply lookup_ge_None in Hp.
    rewrite (lookup_ge_None_2 t1), (lookup_ge_None_2 t2) by lia. done.
Qed.

(** The relation built by [Relation(Hs, Bs)] from the tuples [D], each
    turned into a row by [dictToTuple(Hs, .)]. *)
Lemma Relation0_of_tuples_inv (Hs : list string) (D : list Tuple)
    (ts : list (list Value)) (r : Relation) :
  Forall2 (λ d t, dictToTuple Hs d = Ok t) D ts →
  Relation0 Hs (BodyRows (TupleRow <$> ts)) = Ok r →
  wf r ∧ _heading r = Hs
  ∧ constraint_definitions r = default_constraints
  ∧ constraints r = default_constraints
  ∧ ∀ d', d' ∈ tuples r ↔ ∃ d, d ∈ D ∧ d' = restrict (heading_set Hs) d.
Proof.
  intros Hf Hr.
  assert (Forall (conforming Hs) (TupleRow <$> ts)) as Hc.
  { apply Forall_fmap. clear -Hf. induction Hf as [|d t D ts Ht Hf IH];
      constructor; [|done]. simpl. by apply dictToTuple_Ok in Ht as [? _]. }
  destruct (Relation0_Ok_inv Hs _ r Hc Hr) as (Hwf & Hh & Hd & Hb & Hmem).
  split; [done|]. split; [done|]. split; [done|]. split; [done|].
  pose proof (wf_heading_NoDup r Hwf) as Hnd. rewrite Hh in Hnd.
  intros d'. rewrite elem_of_tuples, Hh. split.
  - intros (t & Ht & ->). apply Hmem in Ht as (row & Hrow & Hv).
    apply list_elem_of_fmap in Hrow as (t' & -> & Ht'). simpl in Hv.
    injection Hv as ->.
    apply list_elem_of_lookup in Ht' as [i Hi].
    destruct (Forall2_lookup_r _ _ _ _ _ Hf Hi) as (d & Hd' & Hdt).
    exists d. split; [by eapply list_elem_of_lookup_2|].
    by apply row_tuple_restrict.
  - intros (d & Hin & ->).
    apply list_elem_of_lookup in Hin as [i Hi].
    destruct (Forall2_lookup_l _ _ _ _ _ Hf Hi) as (t & Ht & Hdt).
    exists t. split.
    + apply Hmem. exists (TupleRow t). split; [|done].
      apply list_elem_of_fmap. exists t. split; [done|].
      by eapply list_elem_of_lookup_2.
    + symmetry. by apply row_tuple_restrict.
Qed.

Lemma Relation0_of_tuples_is_Ok (Hs : list string) (D : list Tuple)
    (ts : list (list Value)) :
  NoDup Hs →
  Forall2 (λ d t, dictToTuple Hs d = Ok t) D ts →
  (∀ d1 d2 a, d1 ∈ D → d2 ∈ D → a ∈ Hs →
              type_of <$> d1 !! a = type_of <$> d2 !! a) →
  ∃ r, Relation0 Hs (BodyRows (TupleRow <$> ts)) = Ok r.
Proof.
  intros Hnd Hf Hty. apply Relation0_is_Ok; [done| |].
  - apply Forall_fmap. clear -Hf. induction Hf as [|d t D ts Ht Hf IH];
      constructor; [|done]. simpl. by apply dictToTuple_Ok in Ht as [? _].
  - intros row1 t1 row2 t2 (t1' & -> & H1)%list_elem_of_fmap
      (t2' & -> & H2)%list_elem_of_fmap [= ->] [= ->].
    apply list_elem_of_lookup in H1 as [i1 Hi1].
    apply list_elem_of_lookup in H2 as [i2 Hi2].
    destruct (Forall2_lookup_r _ _ _ _ _ Hf Hi1) as (d1 & Hd1 & Hdt1).
    destruct (Forall2_lookup_r _ _ _ _ _ Hf Hi2) as (d2 & Hd2 & Hdt2).
    apply (dictToTuple_types Hs d1 d2); [done..|].
    intros a Ha. apply Hty; [by eapply list_elem_of_lookup_2..|done].
Qed.

Lemma forM_append_row_is_Ok (Hs : list string) (D : list Tuple) (acc : list Row) :
  (∀ d a, d ∈ D → a ∈ Hs → is_Some (d !! a)) →
  ∃ ts, Forall2 (λ d t, dictToTuple Hs d = Ok t) D ts
        ∧ forM (append_row Hs) D acc = Ok (acc ++ (TupleRow <$> ts)).
Proof.
  intros Hall.
  assert (∃ ts, Forall2 (λ d t, dictToTuple Hs d = Ok t) D ts) as [ts Hf].
  { induction D as [|d D IH]; [exists []; constructor|].
    destruct IH as [ts Hf]. { intros d' a Hd'. apply Hall. by right. }
    destruct (dictToTuple_is_Ok Hs d) as [t Ht].
    { intros a Ha. apply Hall; [by left|done]. }
    exists (t :: ts). by constructor. }
  exists ts. split; [done|]. apply forM_append_row. eauto.
Qed.

(** ** Scans *)

Lemma wf_scans (r : Relation) : wf r → scans r (tuples r).
Proof.
  intros Hwf. split; [by apply wf_heading_NoDup|]. split; [|split].
  - intros d Hd. by apply (tuples_dom r).
  - intros d1 d2 a H1 H2. by apply (tuples_types r).
  - destruct Hwf as (s & -> & Hwf). done.
Qed.

Lemma scans_full (r : Relation) (L : list Tuple) :
  scans r L → _scan r None = mkGen L None.
Proof.
  intros (_ & _ & _ & Hb). unfold _scan, full_scan.
  destruct (_body r) as [s|[f|f] m] eqn:Hbody.
  - destruct Hb as [_ ->]. unfold tuples, body_rows. by rewrite Hbody.
  - by rewrite Hb.
  - done.
Qed.

Lemma join_filter_spec (com : list string) (reltupl tup : Tuple) :
  (∀ a, a ∈ com → is_Some (reltupl !! a)) →
  (∀ a, a ∈ com → is_Some (tup !! a)) →
  ∃ b : bool, join_filter com reltupl tup = Ok b
    ∧ (b = true ↔ ∀ a, a ∈ com → tup !! a = reltupl !! a).
Proof.
  induction com as [|a com IH]; intros Hr Ht.
  - exists true. split; [done|]. split; [|done]. intros _ a Ha.
    by apply elem_of_nil in Ha.
  - simpl. destruct (Hr a) as [x Hx]; [by left|].
    destruct (Ht a) as [y Hy]; [by left|]. rewrite Hx, Hy.
    case_decide as Hxy.
    + subst y. destruct IH as (b & Hb & Hiff).
      { intros a' Ha'. apply Hr. by right. }
      { intros a' Ha'. apply Ht. by right. }
      exists b. split; [done|]. rewrite Hiff. split.
      * intros Hall a' [->|Ha']%elem_of_cons; [congruence|by apply Hall].
      * intros Hall a' Ha'. apply Hall. by right.
    + exists false. split; [done|]. split; [discriminate|].
      intros Hall. exfalso. apply Hxy.
      specialize (Hall a). rewrite Hx, Hy in Hall.
      assert (Some y = Some x) as [= ->]; [apply Hall; by left|done].
Qed.

Lemma filter_gen_spec (com : list string) (reltupl : Tuple) (l : list Tuple) :
  (∀ a, a ∈ com → is_Some (reltupl !! a)) →
  (∀ t a, t ∈ l → a ∈ com → is_Some (t !! a)) →
  ∃ L, filter_gen com reltupl l = mkGen L None
       ∧ ∀ t, t ∈ L ↔ t ∈ l ∧ ∀ a, a ∈ com → t !! a = reltupl !! a.
Proof.
  intros Hr. induction l as [|tup l IH]; intros Ht.
  - exists []. split; [done|]. intros t. split; [|tauto].
    intros H. by apply elem_of_nil in H.
  - destruct IH as (L & HL & Hmem).
    { intros t a H. apply Ht. by right. }
    simpl. destruct (join_filter_spec com reltupl tup Hr) as (b & -> & Hb).
    { intros a. apply Ht. by left. }
    rewrite HL. destruct b.
    + exists (tup :: L). split; [done|]. intros t.
      rewrite !elem_of_cons, Hmem. split.
      * intros [->|[? ?]]; [|tauto]. split; [by left|]. by apply Hb.
      * intros [[->|?] ?]; [by left|right; done].
    + exists L. split; [done|]. intros t. rewrite elem_of_cons, Hmem. split.
      * intros [? ?]. tauto.
      * intros [[->|?] Hall]; [|done]. apply Hb in Hall. done.
Qed.

Lemma probe_index_spec (idx : Index) (com : list string) (reltupl : Tuple)
    (acc : option (gset nat)) :
  (∀ a, a ∈ com → is_Some (idx !! a) ∧ is_Some (reltupl !! a)) →
  ∃ res, probe_index idx com reltupl acc = Ok res
    ∧ (com ≠ [] → is_Some res)
    ∧ ∀ i, i ∈ default ∅ res
           ↔ match acc with Some A => i ∈ A | None => com ≠ [] end
             ∧ ∀ a v, a ∈ com → reltupl !! a = Some v → i ∈ pos_set idx a v.
Proof.
  revert acc. induction com as [|a com IH]; intros acc Hall.
  - exists acc. split; [done|]. split; [done|]. intros i. destruct acc; simpl.
    + split; [|tauto]. intros ?. split; [done|]. intros a v Ha.
      by apply elem_of_nil in Ha.
    + split; [set_solver|]. intros [? _]. done.
  - simpl. destruct (Hall a) as [[m Hm] [v Hv]]; [by left|]. rewrite Hm, Hv.
    destruct (IH (Some (narrow acc (default ∅ (m !! v))))) as (res & Hres & Hsome & Hmem).
    { intros a' Ha'. apply Hall. by right. }
    exists res. split; [done|]. split.
    { intros _. destruct com; [|by apply Hsome]. simpl in Hres.
      injection Hres as <-. eauto. }
    intros i. rewrite Hmem. rewrite elem_of_narrow.
    assert (default ∅ (m !! v) = pos_set idx a v) as ->.
    { unfold pos_set. by rewrite Hm. }
    split.
    + intros [[Hacc H0] Hrest]. split; [by destruct acc|].
      intros a' v' [->|Ha']%elem_of_cons Hv'; [|by eapply Hrest].
      congruence.
    + intros [Hacc Hrest]. split; [split|].
      * by destruct acc.
      * apply Hrest; [by left|done].
      * intros a' v' Ha'. apply Hrest. by right.
Qed.

Lemma fetch_rows_spec (h : list string) (body : list (list Value))
    (positions : list nat) :
  (∀ i, i ∈ positions → is_Some (body !! i)) →
  ∃ L, fetch_rows h body positions = mkGen L None
       ∧ ∀ t, t ∈ L ↔ ∃ i row, i ∈ positions ∧ body !! i = Some row
                              ∧ t = row_tuple h row.
Proof.
  induction positions as [|i positions IH]; intros Hall.
  - exists []. split; [done|]. intros t. split.
    + intros H. by apply elem_of_nil in H.
    + intros (i & row & Hi & _). by apply elem_of_nil in Hi.
  - destruct IH as (L & HL & Hmem). { intros j Hj. apply Hall. by right. }
    simpl. destruct (Hall i) as [row Hrow]; [by left|]. rewrite Hrow, HL.
    exists (row_tuple h row :: L). split; [done|]. intros t.
    rewrite elem_of_cons, Hmem. split.
    + intros [->|(j & row' & Hj & Hr & ->)].
      * exists i, row. split; [by left|done].
      * exists j, row'. split; [by right|done].
    + intros (j & row' & [->|Hj]%elem_of_cons & Hr & ->).
      * left. congruence.
      * right. eauto.
Qed.

(** The probe of [AND] and [MINUS]: [relType.setBody([tr1])]. *)
Lemma probe_setBody (h1 : list string) (tr1 : Tuple) (relType : Relation) :
  NoDup h1 → dom tr1 = heading_set h1 →
  Relation0 h1 (BodyRows []) = Ok relType →
  ∃ relType' s t1,
    setBody0 relType [DictRow tr1] = Ok relType'
    ∧ _heading relType' = h1
    ∧ _body relType' = Materialized s
    ∧ rows s = [t1]
    ∧ length t1 = length h1
    ∧ row_tuple h1 t1 = tr1.
Proof.
  intros Hnd Hdom Hr.
  assert (_heading relType = h1) as Hh.
  { by apply Relation0_Ok_inv in Hr as (_ & ? & _). }
  unfold setBody0, setBody_with. rewrite Hh. unfold _addToBody. simpl.
  assert (conforming h1 (DictRow tr1)) as Hc by done.
  destruct (conforming_row_values h1 _ Hc) as (t1 & Ht1 & Hl1).
  destruct (add_row_cases h1 (empty_store h1) (DictRow tr1) t1
              (empty_store_wf h1 Hnd) Hc Ht1)
    as [[_ (r & Hin & _)]|[[_ Hin]|(idx' & -> & _)]].
  - by apply elem_of_nil in Hin.
  - by apply elem_of_nil in Hin.
  - eexists _, _, t1. split; [reflexivity|]. split; [done|]. split; [done|].
    split; [done|]. split; [done|]. by apply row_tuple_dictToTuple.
Qed.

(** What the indexed scan of [r2] yields for the probe tuple [tr1]: the
    tuples of [r2] that agree with [tr1] on the common attributes. *)
Lemma probe_scan (r2 : Relation) (L2 : list Tuple) (relType' : Relation)
    (s1 : Store) (t1 : list Value) (tr1 : Tuple) :
  scans r2 L2 →
  NoDup (_heading relType') →
  _body relType' = Materialized s1 → rows s1 = [t1] →
  length t1 = length (_heading relType') →
  row_tuple (_heading relType') t1 = tr1 →
  ∃ L, _scan r2 (Some relType') = mkGen L None
       ∧ ∀ t2, t2 ∈ L ↔ t2 ∈ L2 ∧ agree (heading r2 ∩ heading relType') t2 tr1.
Proof.
  intros Hsc Hnd1 Hb1 Hrows Hl1 Htr1.
  assert (dom tr1 = heading relType') as Hdom1.
  { rewrite <- Htr1. by apply row_tuple_dom. }
  unfold _scan, common. case_decide as Hsz.
  - apply size_empty_iff in Hsz. apply leibniz_equiv in Hsz. rewrite Hsz.
    exists L2. split.
    + pose proof (scans_full r2 L2 Hsc) as Hfull. unfold _scan in Hfull.
      destruct Hsc as (_ & _ & _ & Hb).
      destruct (_body r2) as [s|[f|f] m]; done.
    + intros t2. split; [|tauto]. intros ?. split; [done|]. intros a Ha.
      set_solver.
  - rewrite Hb1. rewrite Hrows. simpl. 
    unfold full_scan. rewrite Hb1. simpl. rewrite Hrows. simpl. rewrite Htr1.
    assert (heading r2 ∩ heading relType' ≠ ∅) as Hne.
    { intros E. apply Hsz. rewrite E. done. }
    destruct Hsc as (Hnd2 & Hdom2 & _ & Hb).
    destruct (_body r2) as [s|[f|f] m] eqn:Hbody2; [| |done].
    + destruct Hb as [Hwf ->].
      destruct (probe_index_spec (headingInvert s)
                  (elements (heading r2 ∩ heading relType')) tr1 None)
        as (res & Hres & Hsome & Hmem).
      { intros a Ha%elem_of_elements. split.
        - apply (wf_dom _ _ Hwf). apply elem_of_heading_set. set_solver.
        - apply elem_of_dom. rewrite Hdom1. set_solver. }
      rewrite Hres. destruct Hsome as [found ->].
      { intros E. apply Hne. apply elements_empty_iff in E. by apply leibniz_equiv. }
      simpl in Hmem.
      assert (∀ i, i ∈ found ↔ ∃ row, rows s !! i = Some row
                ∧ agree (heading r2 ∩ heading relType')
                    (row_tuple (_heading r2) row) tr1) as Hfound.
      { intros i. rewrite Hmem. split.
        - intros [Hcne Hall].
          apply set_choose_L in Hne as [a0 Ha0].
          assert (is_Some (tr1 !! a0)) as [v0 Hv0].
          { apply elem_of_dom. rewrite Hdom1. set_solver. }
          assert (a0 ∈ _heading r2) as Hin0.
          { apply elem_of_heading_set. set_solver. }
          apply list_elem_of_lookup in Hin0 as [p0 Hp0].
          pose proof (Hall a0 v0 ltac:(by apply elem_of_elements) Hv0) as Hi.
          apply (wf_index _ _ Hwf p0 a0 v0 i Hp0) in Hi as (row & Hrow & _).
          exists row. split; [done|].
          assert (length row = length (_heading r2)) as Hrl.
          { eapply (Forall_lookup_1 _ _ _ _ (wf_len _ _ Hwf) Hrow). }
          intros a Ha.
          assert (is_Some (tr1 !! a)) as [v Hv].
          { apply elem_of_dom. rewrite Hdom1. set_solver. }
          rewrite Hv.
          assert (a ∈ _heading r2) as Hin.
          { apply elem_of_heading_set. set_solver. }
          apply list_elem_of_lookup in Hin as [p Hp].
          pose proof (Hall a v ltac:(by apply elem_of_elements) Hv) as Hi'.
          apply (wf_index _ _ Hwf p a v i Hp) in Hi' as (row' & Hrow' & Hv').
          assert (row' = row) as -> by congruence.
          apply row_tuple_lookup; eauto.
        - intros (row & Hrow & Hag). split.
          { intros E. apply Hne. apply elements_empty_iff in E.
            by apply leibniz_equiv. }
          intros a v Ha%elem_of_elements Hv.
          assert (length row = length (_heading r2)) as Hrl.
          { eapply (Forall_lookup_1 _ _ _ _ (wf_len _ _ Hwf) Hrow). }
          pose proof (Hag a Ha) as E. rewrite Hv in E.
          apply row_tuple_lookup in E as (p & Hp & Hpv); [|done..].
          apply (wf_index _ _ Hwf p a v i Hp). eauto. }
      destruct (fetch_rows_spec (_heading r2) (rows s) (elements found))
        as (L & HL & HLmem).
      { intros i Hi%elem_of_elements. apply Hfound in Hi as (row & -> & _). eauto. }
      exists L. split; [done|]. intros t2. rewrite HLmem.
      rewrite elem_of_tuples, (wf_body_rows r2 s Hbody2). split.
      * intros (i & row & Hi%elem_of_elements & Hrow & ->).
        apply Hfound in Hi as (row' & Hrow' & Hag).
        assert (row' = row) as -> by congruence.
        split; [|done]. exists row. split; [|done].
        by eapply list_elem_of_lookup_2.
      * intros [(row & [i Hi]%list_elem_of_lookup & ->) Hag].
        exists i, row. split; [|done]. apply elem_of_elements.
        apply Hfound. eauto.
    + subst f.
      destruct (filter_gen_spec (elements (heading r2 ∩ heading relType'))
                  tr1 L2) as (L & HL & HLmem).
      { intros a Ha%elem_of_elements. apply elem_of_dom. rewrite Hdom1.
        set_solver. }
      { intros t a Ht Ha%elem_of_elements. apply elem_of_dom.
        rewrite (Hdom2 t Ht). set_solver. }
      exists L. split; [done|]. intros t2. rewrite HLmem. unfold agree.
      split; intros [? Hall]; (split; [done|]); intros a Ha; apply Hall.
      * by apply elem_of_elements.
      * by apply elem_of_elements in Ha.
Qed.

(** ** Natural join *)

Lemma heading_set_elements (X : gset string) : heading_set (elements X) = X.
Proof. unfold heading_set. apply list_to_set_elements_L. Qed.

Lemma union_agree_comm (d1 d2 : Tuple) :
  agree (dom d1 ∩ dom d2) d1 d2 → d2 ∪ d1 = d1 ∪ d2.
Proof.
  intros Hag. apply map_eq. intros a.
  destruct (d1 !! a) as [v1|] eqn:H1; destruct (d2 !! a) as [v2|] eqn:H2.
  - assert (d1 !! a = d2 !! a) as E.
    { apply Hag. apply elem_of_intersection. split; apply elem_of_dom; eauto. }
    rewrite (lookup_union_l' d2 d1) by eauto.
    rewrite (lookup_union_l' d1 d2) by eauto. congruence.
  - rewrite (lookup_union_r d2 d1) by done.
    rewrite (lookup_union_l' d1 d2) by eauto. done.
  - rewrite (lookup_union_l' d2 d1) by eauto.
    rewrite (lookup_union_r d1 d2) by done. done.
  - rewrite (lookup_union_r d2 d1) by done.
    rewrite (lookup_union_r d1 d2) by done. congruence.
Qed.

Lemma joined_sym (L1 L2 : list Tuple) (H1 H2 : gset string) (d : Tuple) :
  (∀ t, t ∈ L1 → dom t = H1) → (∀ t, t ∈ L2 → dom t = H2) →
  joined L1 L2 H1 H2 d → joined L2 L1 H2 H1 d.
Proof.
  intros Hd1 Hd2 (tr1 & t2 & Hin1 & Hin2 & Hag & ->).
  exists t2, tr1. split; [done|]. split; [done|]. split.
  - intros a Ha. symmetry. apply Hag. set_solver.
  - apply union_agree_comm. rewrite (Hd1 _ Hin1), (Hd2 _ Hin2). done.
Qed.

Lemma union_absorb (t2 acc tr1 : Tuple) :
  (∀ a, a ∉ dom t2 → acc !! a = tr1 !! a) → t2 ∪ acc = t2 ∪ tr1.
Proof.
  intros Hout. apply map_eq. intros a.
  destruct (t2 !! a) as [v|] eqn:H2.
  - rewrite !lookup_union_l' by eauto. done.
  - rewrite !lookup_union_r by done. apply Hout. by apply not_elem_of_dom.
Qed.

Lemma AND_inner_loop (Hs : list string) (H2 : gset string) (tr1 : Tuple)
    (L : list Tuple) (acc : Tuple) (Bs : list Row) :
  (∀ t2, t2 ∈ L → dom t2 = H2) →
  (∀ t2 a, t2 ∈ L → a ∈ Hs → is_Some ((t2 ∪ tr1) !! a)) →
  (∀ a, a ∉ H2 → acc !! a = tr1 !! a) →
  ∃ ts acc',
    Forall2 (λ d t, dictToTuple Hs d = Ok t) ((λ t2, t2 ∪ tr1) <$> L) ts
    ∧ forM (AND_inner Hs) L (acc, Bs) = Ok (acc', Bs ++ (TupleRow <$> ts)).
Proof.
  revert acc Bs. induction L as [|t2 L IH]; intros acc Bs Hdom Hsome Hout.
  - exists [], acc. split; [constructor|]. simpl. by rewrite app_nil_r.
  - rewrite forM_cons. unfold AND_inner at 2. cbn [fst snd].
    assert (t2 ∪ acc = t2 ∪ tr1) as ->.
    { apply union_absorb. intros a Ha. apply Hout.
      rewrite <- (Hdom t2) by (by left). done. }
    destruct (dictToTuple_is_Ok Hs (t2 ∪ tr1)) as [t Ht].
    { intros a Ha. apply Hsome; [by left|done]. }
    rewrite Ht. cbn [mbind Result_bind].
    destruct (IH (t2 ∪ tr1) (Bs ++ [TupleRow t])) as (ts & acc' & Hf & Hrun).
    { intros t2' Hin. apply Hdom. by right. }
    { intros t2' a Hin. apply Hsome. by right. }
    { intros a Ha. apply lookup_union_r. apply not_elem_of_dom.
      rewrite (Hdom t2) by (by left). done. }
    exists (t :: ts), acc'. split.
    + rewrite fmap_cons. by constructor.
    + rewrite Hrun. by rewrite <- app_assoc.
Qed.

Lemma AND_outer_loop (Hs : list string) (relType r2 : Relation)
    (L2 L1 : list Tuple) (Bs : list Row) :
  let h1 := _heading relType in
  scans r2 L2 →
  NoDup h1 → Relation0 h1 (BodyRows []) = Ok relType →
  (∀ tr1, tr1 ∈ L1 → dom tr1 = heading_set h1) →
  heading_set Hs = heading_set h1 ∪ heading r2 →
  ∃ D ts,
    Forall2 (λ d t, dictToTuple Hs d = Ok t) D ts
    ∧ forM (AND_outer Hs relType r2) L1 Bs = Ok (Bs ++ (TupleRow <$> ts))
    ∧ ∀ d, d ∈ D ↔ joined L1 L2 (heading_set h1) (heading r2) d.
Proof.
  intros h1 Hsc Hnd Hrt Hdom1 HHs. revert Bs.
  induction L1 as [|tr1 L1 IH]; intros Bs.
  - exists [], []. split; [constructor|]. split; [simpl; by rewrite app_nil_r|].
    intros d. split.
    + intros H. by apply elem_of_nil in H.
    + intros (tr1 & _ & H & _). by apply elem_of_nil in H.
  - rewrite forM_cons. unfold AND_outer at 2.
    destruct (probe_setBody h1 tr1 relType Hnd) as
      (relType' & s1 & t1 & -> & Hh' & Hb' & Hrows & Hl1 & Htr1); [|done|].
    { apply Hdom1. by left. }
    cbn [mbind Result_bind].
    destruct (probe_scan r2 L2 relType' s1 t1 tr1 Hsc) as (L & -> & HL);
      [by rewrite Hh'|done|done|by rewrite Hh'|by rewrite Hh'|].
    unfold for_gen. cbn [yielded raised].
    assert (∀ t2, t2 ∈ L → dom t2 = heading r2) as HdomL.
    { intros t2 [Hin _]%HL. destruct Hsc as (_ & Hd & _). by apply Hd. }
    destruct (AND_inner_loop Hs (heading r2) tr1 L tr1 Bs HdomL)
      as (ts0 & acc' & Hf0 & ->); [|done|].
    { intros t2 a Hin Ha. apply elem_of_dom. rewrite dom_union_L.
      rewrite (HdomL t2 Hin), (Hdom1 tr1) by (by left).
      apply elem_of_heading_set in Ha. rewrite HHs in Ha. set_solver. }
    cbn [mbind Result_bind snd].
    destruct (IH (λ tr1' Hin, Hdom1 tr1' (list_elem_of_further _ _ _ Hin))
                (Bs ++ (TupleRow <$> ts0))) as (D & ts & Hf & -> & Hmem).
    exists (((λ t2, t2 ∪ tr1) <$> L) ++ D), (ts0 ++ ts).
    split; [by apply Forall2_app|]. split.
    { by rewrite fmap_app, app_assoc. }
    intros d. rewrite elem_of_app, Hmem, list_elem_of_fmap. split.
    + intros [(t2 & -> & [Hin Hag]%HL)|(tr1' & t2 & Hin1 & Hin2 & Hag & ->)].
      * exists tr1, t2. split; [by left|]. split; [done|]. split; [|done].
        intros a Ha. symmetry. apply Hag. unfold heading. rewrite Hh'. set_solver.
      * exists tr1', t2. split; [by right|done].
    + intros (tr1' & t2 & [->|Hin1]%elem_of_cons & Hin2 & Hag & ->).
      * left. exists t2. split; [done|]. apply HL. split; [done|].
        intros a Ha. symmetry. apply Hag. unfold heading in Ha.
        rewrite Hh' in Ha. set_solver.
      * right. exists tr1', t2. done.
Qed.

(** The join loop proper, on two relations that can be scanned: the result
    is the well-formed relation over the union of the headings holding the
    joined tuples. *)
Lemma AND_join_spec (r1 r2 : Relation) (L1 L2 : list Tuple) :
  scans r1 L1 → scans r2 L2 →
  ∃ r, AND_join r1 r2 = Ok r
    ∧ wf r
    ∧ _heading r = elements (heading r1 ∪ heading r2)
    ∧ constraint_definitions r = default_constraints
    ∧ constraints r = default_constraints
    ∧ ∀ d, d ∈ tuples r ↔ joined L1 L2 (heading r1) (heading r2) d.
Proof.
  intros Hsc1 Hsc2. unfold AND_join.
  pose proof Hsc1 as (Hnd1 & Hdom1 & Hty1 & _).
  pose proof Hsc2 as (Hnd2 & Hdom2 & Hty2 & _).
  destruct (Relation0_is_Ok (_heading r1) []) as [relType Hrt];
    [done|constructor| |].
  { intros row1 t1 row2 t2 H. by apply elem_of_nil in H. }
  rewrite Hrt. cbn [mbind Result_bind].
  assert (_heading relType = _heading r1) as Hh.
  { apply Relation0_Ok_inv in Hrt as (_ & ? & _); [done|constructor]. }
  rewrite (scans_full r1 L1 Hsc1). unfold for_gen. cbn [yielded raised].
  set (Hs := elements (heading r1 ∪ heading r2)).
  destruct (AND_outer_loop Hs relType r2 L2 L1 [] Hsc2)
    as (D & ts & Hf & -> & HD).
  { by rewrite Hh. } { by rewrite Hh. } { by rewrite Hh. }
  { unfold Hs. rewrite heading_set_elements. by rewrite Hh. }
  cbn [mbind Result_bind app].
  rewrite Hh in HD. fold (heading r1) in HD.
  assert (∀ d, d ∈ D → dom d = heading r1 ∪ heading r2) as HdomD.
  { intros d (tr1 & t2 & Hin1 & Hin2 & _ & ->)%HD. rewrite dom_union_L.
    rewrite (Hdom1 _ Hin1), (Hdom2 _ Hin2). set_solver. }
  destruct (Relation0_of_tuples_is_Ok Hs D ts) as [r Hr]; [apply NoDup_elements|done| |].
  { intros d1 d2 a (tr1 & t2 & Hin1 & Hin2 & _ & ->)%HD
      (tr1' & t2' & Hin1' & Hin2' & _ & ->)%HD _.
    destruct (decide (a ∈ heading r2)) as [Ha|Ha].
    - rewrite !lookup_union_l'.
      + by apply Hty2.
      + apply elem_of_dom. by rewrite (Hdom2 _ Hin2').
      + apply elem_of_dom. by rewrite (Hdom2 _ Hin2).
    - rewrite !lookup_union_r.
      + by apply Hty1.
      + apply not_elem_of_dom. by rewrite (Hdom2 _ Hin2').
      + apply not_elem_of_dom. by rewrite (Hdom2 _ Hin2). }
  rewrite Hr. exists r. split; [done|].
  destruct (Relation0_of_tuples_inv Hs D ts r Hf Hr) as (Hwf & Hhr & Hcd & Hcb & Hmem).
  split; [done|]. split; [done|]. split; [done|]. split; [done|].
  intros d. rewrite Hmem. split.
  - intros (d0 & Hin & ->). rewrite restrict_id.
    + by apply HD.
    + unfold Hs. rewrite heading_set_elements. by rewrite (HdomD d0 Hin).
  - intros Hj. exists d. split; [by apply HD|]. rewrite restrict_id; [done|].
    unfold Hs. rewrite heading_set_elements. apply HD in Hj.
    by rewrite (HdomD d Hj).
Qed.

Lemma AND_join_swapped (r1 r2 : Relation) (L1 L2 : list Tuple) :
  scans r1 L1 → scans r2 L2 →
  ∃ r, AND_join r2 r1 = Ok r
    ∧ wf r
    ∧ _heading r = elements (heading r1 ∪ heading r2)
    ∧ constraint_definitions r = default_constraints
    ∧ constraints r = default_constraints
    ∧ ∀ d, d ∈ tuples r ↔ joined L1 L2 (heading r1) (heading r2) d.
Proof.
  intros Hsc1 Hsc2.
  destruct (AND_join_spec r2 r1 L2 L1 Hsc2 Hsc1)
    as (r & Hr & Hwf & Hh & Hcd & Hcb & Hmem).
  exists r. split; [done|]. split; [done|].
  split; [by rewrite (union_comm_L (heading r1))|].
  split; [done|]. split; [done|].
  destruct Hsc1 as (_ & Hd1 & _). destruct Hsc2 as (_ & Hd2 & _).
  intros d. rewrite Hmem. split; by apply joined_sym.
Qed.

(** [AND] on two relations that can be scanned. *)
Lemma AND_spec (r1 r2 : Relation) (L1 L2 : list Tuple) :
  scans r1 L1 → scans r2 L2 →
  ∃ r, AND r1 r2 = Ok r
    ∧ wf r
    ∧ _heading r = elements (heading r1 ∪ heading r2)
    ∧ constraint_definitions r = default_constraints
    ∧ constraints r = default_constraints
    ∧ ∀ d, d ∈ tuples r ↔ joined L1 L2 (heading r1) (heading r2) d.
Proof.
  intros Hsc1 Hsc2. unfold AND. cbn [AND_fuel].
  pose proof Hsc1 as (_ & _ & _ & Hb1). pose proof Hsc2 as (_ & _ & _ & Hb2).
  destruct (_body r1) as [s1|[f1|f1] m1] eqn:E1; [| |done];
    destruct (_body r2) as [s2|[f2|f2] m2] eqn:E2; try done.
  - case_decide as Hlt.
    + cbn [AND_fuel]. rewrite decide_False by lia. by apply AND_join_swapped.
    + by apply AND_join_spec.
  - by apply AND_join_spec.
  - cbn [AND_fuel]. by apply AND_join_swapped.
  - by apply AND_join_spec.
Qed.

(** ** Difference and equality *)

Lemma agree_all_eq (H : gset string) (d1 d2 : Tuple) :
  dom d1 = H → dom d2 = H → agree H d1 d2 → d1 = d2.
Proof.
  intros H1 H2 Hag. apply map_eq. intros a.
  destruct (decide (a ∈ H)) as [Ha|Ha]; [by apply Hag|].
  transitivity (@None Value).
  - apply not_elem_of_dom. by rewrite H1.
  - symmetry. apply not_elem_of_dom. by rewrite H2.
Qed.

Lemma MINUS_outer_loop (relType r2 : Relation) (L2 L1 : list Tuple)
    (Bs : list Row) :
  let h1 := _heading relType in
  scans r2 L2 →
  NoDup h1 → Relation0 h1 (BodyRows []) = Ok relType →
  (∀ tr1, tr1 ∈ L1 → dom tr1 = heading_set h1) →
  heading r2 = heading_set h1 →
  ∃ K, forM (MINUS_outer relType r2) L1 Bs = Ok (Bs ++ (DictRow <$> K))
       ∧ ∀ d, d ∈ K ↔ d ∈ L1 ∧ d ∉ L2.
Proof.
  intros h1 Hsc Hnd Hrt Hdom1 HH. revert Bs.
  induction L1 as [|tr1 L1 IH]; intros Bs.
  - exists []. split; [simpl; by rewrite app_nil_r|]. intros d. split.
    + intros H. by apply elem_of_nil in H.
    + intros [H _]. by apply elem_of_nil in H.
  - rewrite forM_cons. unfold MINUS_outer at 2.
    destruct (probe_setBody h1 tr1 relType Hnd) as
      (relType' & s1 & t1 & -> & Hh' & Hb' & Hrows & Hl1 & Htr1); [|done|].
    { apply Hdom1. by left. }
    cbn [mbind Result_bind].
    destruct (probe_scan r2 L2 relType' s1 t1 tr1 Hsc) as (L & -> & HL);
      [by rewrite Hh'|done|done|by rewrite Hh'|by rewrite Hh'|].
    assert (heading r2 ∩ heading relType' = heading_set h1) as Hcom.
    { unfold heading at 2. rewrite Hh', HH. set_solver. }
    rewrite Hcom in HL.
    assert (∀ t2, t2 ∈ L ↔ t2 = tr1 ∧ tr1 ∈ L2) as HL'.
    { intros t2. rewrite HL. split.
      - intros [Hin Hag].
        assert (t2 = tr1) as ->; [|done].
        apply (agree_all_eq (heading_set h1)); [|by apply Hdom1; left|done].
        destruct Hsc as (_ & Hd & _). rewrite <- HH. by apply Hd.
      - intros [-> Hin]. done. }
    destruct (IH (λ tr1' Hin, Hdom1 tr1' (list_elem_of_further _ _ _ Hin)))
      with (Bs := if decide (tr1 ∈ L2) then Bs else Bs ++ [DictRow tr1])
      as (K & HK & HKmem).
    unfold gen_first. cbn [yielded raised].
    destruct L as [|t2 L].
    + cbn [mbind Result_bind].
      assert (tr1 ∉ L2) as Hnin.
      { intros Hin. assert (tr1 ∈ []) as H0 by (by apply HL'). 
        by apply elem_of_nil in H0. }
      rewrite decide_False in HK by done. rewrite HK.
      exists (tr1 :: K). split; [by rewrite fmap_cons, <- app_assoc|].
      intros d. rewrite !elem_of_cons, HKmem. split.
      * intros [->|[? ?]]; [split; [by left|done]|split; [by right|done]].
      * intros [[->|?] ?]; [by left|by right].
    + cbn [mbind Result_bind].
      assert (tr1 ∈ L2) as Hin.
      { assert (t2 ∈ t2 :: L) as H0 by (by left). by apply HL' in H0 as [_ ?]. }
      rewrite decide_True in HK by done. rewrite HK.
      exists K. split; [done|].
      intros d. rewrite elem_of_cons, HKmem. split.
      * intros [? ?]. split; [by right|done].
      * intros [[->|?] ?]; [done|done].
Qed.

Lemma MINUS_diff_spec (r1 r2 : Relation) (L1 L2 : list Tuple) :
  scans r1 L1 → scans r2 L2 → heading r1 = heading r2 →
  ∃ r, MINUS_diff r1 r2 = Ok r
    ∧ wf r
    ∧ _heading r = _heading r1
    ∧ ∀ d, d ∈ tuples r ↔ d ∈ L1 ∧ d ∉ L2.
Proof.
  intros Hsc1 Hsc2 HH. unfold MINUS_diff.
  pose proof Hsc1 as (Hnd1 & Hdom1 & Hty1 & _).
  destruct (Relation0_is_Ok (_heading r1) []) as [relType Hrt];
    [done|constructor| |].
  { intros row1 t1 row2 t2 H. by apply elem_of_nil in H. }
  rewrite Hrt. cbn [mbind Result_bind].
  assert (_heading relType = _heading r1) as Hh.
  { apply Relation0_Ok_inv in Hrt as (_ & ? & _); [done|constructor]. }
  rewrite (scans_full r1 L1 Hsc1). unfold for_gen. cbn [yielded raised].
  destruct (MINUS_outer_loop relType r2 L2 L1 [] Hsc2) as (K & -> & HK).
  { by rewrite Hh. } { by rewrite Hh. } { by rewrite Hh. }
  { by rewrite Hh. }
  cbn [mbind Result_bind app].
  assert (Forall (conforming (_heading r1)) (DictRow <$> K)) as Hc.
  { apply Forall_fmap, Forall_forall. intros d [Hin _]%HK. simpl.
    by apply Hdom1. }
  destruct (Relation0_is_Ok (_heading r1) (DictRow <$> K)) as [r Hr];
    [done|done| |].
  { intros row1 t1 row2 t2 (d1 & -> & [H1 _]%HK)%list_elem_of_fmap
      (d2 & -> & [H2 _]%HK)%list_elem_of_fmap Hv1 Hv2. simpl in Hv1, Hv2.
    apply (dictToTuple_types (_heading r1) d1 d2); [done..|].
    intros a _. by apply Hty1. }
  rewrite Hr. exists r. split; [done|].
  destruct (Relation0_Ok_inv _ _ r Hc Hr) as (Hwf & Hhr & _ & _ & Hmem).
  split; [done|]. split; [done|].
  intros d. rewrite elem_of_tuples, Hhr. rewrite <- HK. split.
  - intros (t & Ht & ->). apply Hmem in Ht as (row & Hrow & Hv).
    apply list_elem_of_fmap in Hrow as (d0 & -> & Hd0). simpl in Hv.
    rewrite (row_tuple_dictToTuple (_heading r1) d0 t); [done..| |done].
    apply HK in Hd0 as [Hin _]. by apply Hdom1.
  - intros Hin.
    assert (dom d = heading r1) as Hd by (apply HK in Hin as [? _]; by apply Hdom1).
    destruct (dictToTuple_is_Ok (_heading r1) d) as [t Ht].
    { intros a Ha. apply elem_of_dom. rewrite Hd. by apply elem_of_heading_set. }
    exists t. split.
    + apply Hmem. exists (DictRow d). split; [|done].
      apply list_elem_of_fmap. eauto.
    + symmetry. by apply row_tuple_dictToTuple.
Qed.

Lemma MINUS_wf (a b : Relation) :
  wf a → wf b → heading a = heading b →
  ∃ r, MINUS a b = Ok r ∧ wf r
       ∧ ∀ d, d ∈ tuples r ↔ d ∈ tuples a ∧ d ∉ tuples b.
Proof.
  intros Ha Hb HH. unfold MINUS. cbn [MINUS_fuel].
  rewrite decide_False by (intros E; by apply E).
  pose proof Ha as (sa & Ea & _). rewrite Ea.
  destruct (MINUS_diff_spec a b _ _ (wf_scans a Ha) (wf_scans b Hb) HH)
    as (r & Hr & Hwf & _ & Hmem).
  eauto.
Qed.

(** [==] on well-formed relations: the headings are the same set and the
    bodies hold the same tuples. *)
Lemma eq_wf (a b : Relation) :
  wf a → wf b →
  ∃ bv : bool, __eq__ a b = Ok bv
    ∧ (bv = true ↔ heading a = heading b ∧ same_tuples a b).
Proof.
  intros Ha Hb. unfold __eq__. case_decide as HH.
  - destruct (MINUS_wf a b Ha Hb HH) as (d & -> & Hwfd & Hmem).
    cbn [mbind Result_bind]. unfold IS_EMPTY.
    rewrite (COUNT_wf d Hwfd), (COUNT_wf a Ha), (COUNT_wf b Hb).
    cbn [mbind Result_bind].
    assert (length (body_rows d) = 0 ↔ ∀ t, t ∈ tuples a → t ∈ tuples b) as Hsub.
    { split.
      - intros Hl t Hin. destruct (decide (t ∈ tuples b)) as [|Hnin]; [done|].
        exfalso. assert (t ∈ tuples d) as Hd by (by apply Hmem).
        unfold tuples in Hd. destruct (body_rows d); [|discriminate].
        by apply elem_of_nil in Hd.
      - intros Hall. destruct (body_rows d) as [|t0 rest] eqn:E; [done|].
        exfalso.
        assert (row_tuple (_heading d) t0 ∈ tuples d) as Hd.
        { unfold tuples. rewrite E. by left. }
        apply Hmem in Hd as [Hin Hnin]. by apply Hnin, Hall. }
    pose proof (tuples_NoDup a Ha) as Hnda.
    pose proof (tuples_NoDup b Hb) as Hndb.
    assert (length (tuples a) = length (body_rows a)) as Hla
      by (unfold tuples; by rewrite length_fmap).
    assert (length (tuples b) = length (body_rows b)) as Hlb
      by (unfold tuples; by rewrite length_fmap).
    case_bool_decide as Hz.
    + exists (bool_decide (length (body_rows a) = length (body_rows b))).
      split; [done|]. rewrite bool_decide_eq_true. split.
      * intros Hlen. split; [done|].
        pose proof (proj1 Hsub Hz) as Hz'.
        assert (tuples a ≡ₚ tuples b) as Hperm.
        { apply submseteq_length_Permutation; [by apply NoDup_submseteq|lia]. }
        intros t. by rewrite Hperm.
      * intros [_ Hsame].
        rewrite <- Hla, <- Hlb. apply Permutation_length.
        by apply NoDup_Permutation.
    + exists false. split; [done|]. split; [discriminate|].
      intros [_ Hsame]. exfalso. apply Hz. apply (proj2 Hsub).
      intros t. apply Hsame.
  - exists false. split; [done|]. split; [discriminate|]. intros [? _]. done.
Qed.

(** ** Commutativity of the join *)

Lemma AND_inner_conforming (Hs : list string) (L : list Tuple)
    (acc acc' : Tuple * list Row) :
  forM (AND_inner Hs) L acc = Ok acc' →
  Forall (conforming Hs) acc.2 → Forall (conforming Hs) acc'.2.
Proof.
  revert acc. induction L as [|t2 L IH]; intros acc Hrun Hc.
  - by injection Hrun as <-.
  - rewrite forM_cons in Hrun. inv_bind Hrun. apply (IH x Hrun).
    unfold AND_inner in Hx. inv_bind Hx. injection Hx as <-. simpl.
    apply Forall_app. split; [done|]. apply Forall_singleton. simpl.
    by apply dictToTuple_Ok in Hx0 as [? _].
Qed.

Lemma AND_outer_conforming (Hs : list string) (relType r2 : Relation)
    (L : list Tuple) (Bs Bs' : list Row) :
  forM (AND_outer Hs relType r2) L Bs = Ok Bs' →
  Forall (conforming Hs) Bs → Forall (conforming Hs) Bs'.
Proof.
  revert Bs. induction L as [|tr1 L IH]; intros Bs Hrun Hc.
  - by injection Hrun as <-.
  - rewrite forM_cons in Hrun. inv_bind Hrun. apply (IH x Hrun).
    unfold AND_outer in Hx. inv_bind Hx. inv_bind Hx. injection Hx as <-.
    apply for_gen_Ok_inv in Hx1 as [_ Hx1].
    by apply (AND_inner_conforming _ _ _ _ Hx1).
Qed.

Lemma AND_join_Ok_wf (r1 r2 a : Relation) : AND_join r1 r2 = Ok a → wf a.
Proof.
  unfold AND_join. intros H. inv_bind H. inv_bind H.
  apply for_gen_Ok_inv in Hx0 as [_ Hx0].
  apply AND_outer_conforming in Hx0; [|constructor].
  by apply Relation0_Ok_inv in H as [? _].
Qed.

Lemma eq_refl_wf (a : Relation) : wf a → __eq__ a a = Ok true.
Proof.
  intros Hwf. destruct (eq_wf a a Hwf Hwf) as (bv & -> & Hiff).
  f_equal. apply Hiff. split; [done|]. intros d. done.
Qed.

Lemma AND_one_arg_l (r1 r2 : Relation) :
  one_arg (_body r1) = true → one_arg (_body r2) = false →
  AND r1 r2 = AND_join r2 r1 ∧ AND r2 r1 = AND_join r2 r1.
Proof.
  unfold AND. cbn [AND_fuel]. intros H1 H2.
  destruct (_body r1) as [s1|[f1|f1] m1]; try discriminate.
  destruct (_body r2) as [s2|[f2|f2] m2]; try discriminate; done.
Qed.




(** ** Union *)

Lemma OR_union_spec (r1 r2 : Relation) (L1 L2 : list Tuple) :
  scans r1 L1 → scans r2 L2 → heading r1 = heading r2 →
  same_column_types L1 L2 →
  ∃ r, OR_union r1 r2 = Ok r
    ∧ wf r
    ∧ _heading r = elements (heading r1)
    ∧ constraint_definitions r = default_constraints
    ∧ constraints r = default_constraints
    ∧ ∀ d, d ∈ tuples r ↔ d ∈ L1 ∨ d ∈ L2.
Proof.
  intros Hsc1 Hsc2 HH Hcompat. unfold OR_union.
  pose proof Hsc1 as (Hnd1 & Hdom1 & Hty1 & _).
  pose proof Hsc2 as (Hnd2 & Hdom2 & Hty2 & _).
  rewrite <- HH. rewrite union_idemp_L.
  set (Hs := elements (heading r1)).
  assert (heading_set Hs = heading r1) as HHs by apply heading_set_elements.
  rewrite (scans_full r1 L1 Hsc1), (scans_full r2 L2 Hsc2).
  unfold for_gen. cbn [yielded raised].
  destruct (forM_append_row_is_Ok Hs L1 []) as (ts1 & Hf1 & ->).
  { intros d a Hd Ha. apply elem_of_dom. rewrite (Hdom1 d Hd).
    rewrite <- HHs. by apply elem_of_heading_set. }
  cbn [mbind Result_bind app].
  destruct (forM_append_row_is_Ok Hs L2 (TupleRow <$> ts1)) as (ts2 & Hf2 & ->).
  { intros d a Hd Ha. apply elem_of_dom. rewrite (Hdom2 d Hd), <- HH.
    rewrite <- HHs. by apply elem_of_heading_set. }
  cbn [mbind Result_bind]. rewrite <- fmap_app.
  pose proof (Forall2_app Hf1 Hf2) as Hf.
  destruct (Relation0_of_tuples_is_Ok Hs (L1 ++ L2) (ts1 ++ ts2)) as [r Hr];
    [apply NoDup_elements|done| |].
  { intros d1 d2 a [H1|H1]%elem_of_app [H2|H2]%elem_of_app _.
    - by apply Hty1.
    - by apply Hcompat.
    - symmetry. by apply Hcompat.
    - by apply Hty2. }
  rewrite Hr. exists r. split; [done|].
  destruct (Relation0_of_tuples_inv Hs _ _ r Hf Hr) as (Hwf & Hh & Hcd & Hcb & Hmem).
  split; [done|]. split; [done|]. split; [done|]. split; [done|].
  intros d. rewrite Hmem. setoid_rewrite elem_of_app. split.
  - intros (d0 & Hin & ->). rewrite restrict_id; [done|].
    rewrite HHs. destruct Hin as [Hin|Hin].
    + by rewrite (Hdom1 _ Hin).
    + by rewrite (Hdom2 _ Hin), HH.
  - intros Hin. exists d. split; [done|]. rewrite restrict_id; [done|].
    rewrite HHs. destruct Hin as [Hin|Hin].
    + by rewrite (Hdom1 _ Hin).
    + by rewrite (Hdom2 _ Hin), HH.
Qed.

Lemma same_column_types_sym (L1 L2 : list Tuple) :
  same_column_types L1 L2 → same_column_types L2 L1.
Proof. intros H d1 d2 a H1 H2. symmetry. by apply H. Qed.

Lemma OR_spec (r1 r2 : Relation) (L1 L2 : list Tuple) :
  scans r1 L1 → scans r2 L2 → heading r1 = heading r2 →
  same_column_types L1 L2 →
  ∃ r, OR r1 r2 = Ok r
    ∧ wf r
    ∧ _heading r = elements (heading r1)
    ∧ constraint_definitions r = default_constraints
    ∧ constraints r = default_constraints
    ∧ ∀ d, d ∈ tuples r ↔ d ∈ L1 ∨ d ∈ L2.
Proof.
  intros Hsc1 Hsc2 HH Hcompat. unfold OR. cbn [OR_fuel].
  rewrite !decide_False by (intros E; by apply E).
  pose proof Hsc1 as (_ & _ & _ & Hb1). pose proof Hsc2 as (_ & _ & _ & Hb2).
  destruct (_body r1) as [s1|[f1|f1] m1] eqn:E1; [| |done];
    destruct (_body r2) as [s2|[f2|f2] m2] eqn:E2; try done;
    try (by apply OR_union_spec).
  destruct (OR_union_spec r2 r1 L2 L1 Hsc2 Hsc1 (eq_sym HH)
              (same_column_types_sym _ _ Hcompat))
    as (r & Hr & Hwf & Hh & Hcd & Hcb & Hmem).
  exists r. split; [done|]. split; [done|]. split; [by rewrite HH|].
  split; [done|]. split; [done|]. intros d. rewrite Hmem. tauto.
Qed.

(** C8, as stated, fails on the kind of error: on unequal headings [OR]
    raises the invalid-operation exception, not the operand-mismatch one
    ([RelationUnsupportedOperandTypesException]). *)
Lemma OR_heading_mismatch_kind :
  (r1 ← one_two_three; r2 ← keyed_batch; OR r1 r2)
  = Raise (RelationInvalidOperationException
             "OR can only handle same reltypes so far").
Proof. vm_compute. reflexivity. Qed.

(** C8, amended: if the headings differ, [OR(r1, r2)] raises an
    Invalid-Operation error; if they are identical, both operands can be
    scanned in full and corresponding columns hold values of one type,
    [OR(r1, r2)] returns the well-formed (duplicate-free) relation over the
    same heading that holds every tuple of [r1] and every tuple of [r2]. *)
Theorem OR_is_union (r1 r2 : Relation) :
  (heading r1 ≠ heading r2 →
   OR r1 r2 = Raise (RelationInvalidOperationException
                       "OR can only handle same reltypes so far"))
  ∧ (∀ L1 L2, heading r1 = heading r2 →
       scans r1 L1 → scans r2 L2 → same_column_types L1 L2 →
       ∃ r, OR r1 r2 = Ok r
         ∧ wf r
         ∧ heading r = heading r1
         ∧ ∀ d, d ∈ tuples r ↔ d ∈ L1 ∨ d ∈ L2).
Proof.
  split.
  - intros Hne. unfold OR. cbn [OR_fuel]. by rewrite decide_True.
  - intros L1 L2 HH Hsc1 Hsc2 Hcompat.
    destruct (OR_spec r1 r2 L1 L2 Hsc1 Hsc2 HH Hcompat)
      as (r & Hr & Hwf & Hh & _ & _ & Hmem).
    exists r. split; [done|]. split; [done|]. split; [|done].
    unfold heading at 1. rewrite Hh. apply heading_set_elements.
Qed.

Lemma OR_is_union_witness :
  ∃ r1 r2, one_two_three = Ok r1 ∧ chain = Ok r2
    ∧ OR r1 r2 = Raise (RelationInvalidOperationException
                          "OR can only handle same reltypes so far")
    ∧ ∃ r, OR r1 r1 = Ok r ∧ wf r ∧ heading r = heading r1
           ∧ ∀ d, d ∈ tuples r ↔ d ∈ tuples r1 ∨ d ∈ tuples r1.
Proof.
  eexists _, _. split; [vm_compute; reflexivity|].
  split; [vm_compute; reflexivity|].
  match goal with |- OR ?r _ = _ ∧ _ => assert (wf r) as Hwf end.
  { apply reachable_wf.
    eapply (reach_Relation0 ["a"]
              [TupleRow [VInt 1]; TupleRow [VInt 2]; TupleRow [VInt 3]]).
    - repeat constructor.
    - vm_compute. reflexivity. }
  split.
  - refine (proj1 (OR_is_union _ _) _). vm_compute. discriminate.
  - refine (proj2 (OR_is_union _ _) _ _ eq_refl (wf_scans _ Hwf)
              (wf_scans _ Hwf) _).
    intros d1 d2 a H1 H2. by apply (tuples_types _ d1 d2 a Hwf).
Defined.

(** ** Projection and renaming *)

Lemma wf_with_constraints (r : Relation) (defs bound : list (string * ConstraintDef)) :
  wf r → wf (with_constraints r defs bound).
Proof. intros (s & Hb & Hwf). by exists s. Qed.

Lemma REMOVE_constraints_default (Hs : list string) :
  REMOVE_constraints default_constraints Hs = default_constraints.
Proof. done. Qed.

Lemma REMOVE_spec (r : Relation) (L : list Tuple) (Hr : list string) :
  scans r L →
  ∃ res, REMOVE r Hr = Ok res
    ∧ wf res
    ∧ _heading res = elements (heading r ∖ list_to_set Hr)
    ∧ (constraint_definitions r = default_constraints →
       constraint_definitions res = default_constraints)
    ∧ ∀ d', d' ∈ tuples res
            ↔ ∃ d, d ∈ L ∧ d' = restrict (heading r ∖ list_to_set Hr) d.
Proof.
  intros Hsc. unfold REMOVE.
  pose proof Hsc as (Hnd & Hdom & Hty & _).
  set (Hs := elements (heading r ∖ list_to_set Hr)).
  assert (heading_set Hs = heading r ∖ list_to_set Hr) as HHs
    by apply heading_set_elements.
  rewrite (scans_full r L Hsc). unfold for_gen. cbn [yielded raised].
  destruct (forM_append_row_is_Ok Hs L []) as (ts & Hf & ->).
  { intros d a Hd Ha. apply elem_of_dom. rewrite (Hdom d Hd).
    apply elem_of_heading_set in Ha. rewrite HHs in Ha. set_solver. }
  cbn [mbind Result_bind app].
  destruct (Relation0_of_tuples_is_Ok Hs L ts) as [res Hres];
    [apply NoDup_elements|done| |].
  { intros d1 d2 a H1 H2 _. by apply Hty. }
  rewrite Hres. cbn [mbind Result_bind].
  destruct (Relation0_of_tuples_inv Hs L ts res Hf Hres)
    as (Hwf & Hh & Hcd & Hcb & Hmem).
  rewrite HHs in Hmem.
  destruct (REMOVE_constraints (constraint_definitions r) Hs) as [|c cs] eqn:Ec.
  - exists res. split; [done|]. split; [done|]. split; [done|]. split; [done|].
    done.
  - exists (with_constraints res (c :: cs) (c :: cs)). split; [done|].
    split; [by apply wf_with_constraints|]. split; [done|]. split; [|done].
    intros Hdef. rewrite Hdef in Ec. rewrite REMOVE_constraints_default in Ec.
    simpl. by rewrite <- Ec.
Qed.

Lemma checkKeys_default (r : Relation) : checkKeys [("PK", None)] r = Ok tt.
Proof. done. Qed.

Lemma renamed_keys_default (m : gmap string string) :
  renamed_keys m default_constraints = [("PK", None)].
Proof. done. Qed.

Lemma rename_keys_check (m : gmap string string) (r : Relation) :
  (∀ k, is_Some (m !! k) → k ∈ heading r) ↔
  forM (λ (_ : unit) kv,
          if decide (kv.1 ∈ heading r) then Ok tt
          else Raise (RelationInvalidOperationException
                        ("Unknown attribute: " +:+ kv.1)))
    (map_to_list m) tt = Ok tt.
Proof.
  assert (∀ l : list (string * string),
    (∀ k v, (k, v) ∈ l → k ∈ heading r) ↔
    forM (λ (_ : unit) kv,
            if decide (kv.1 ∈ heading r) then Ok tt
            else Raise (RelationInvalidOperationException
                          ("Unknown attribute: " +:+ kv.1))) l tt = Ok tt) as H.
  { induction l as [|[k v] l IH].
    - split; [done|]. intros _ k v Hin. by apply elem_of_nil in Hin.
    - rewrite forM_cons. cbn [fst]. case_decide as Hk; cbn [mbind Result_bind].
      + rewrite <- IH. split.
        * intros Hall k' v' Hin. apply (Hall k' v'). by right.
        * intros Hall k' v' [[= -> ->]|Hin]%elem_of_cons; [done|by eapply Hall].
      + split; [|discriminate]. intros Hall. exfalso. apply Hk.
        apply (Hall k v). by left. }
  rewrite <- H. split.
  - intros Hall k v Hin%elem_of_map_to_list. apply Hall. eauto.
  - intros Hall k [v Hv]. apply (Hall k v). by apply elem_of_map_to_list.
Qed.

Lemma rename_unfold (r : Relation) (s : Store) (m : gmap string string) :
  _body r = Materialized s →
  (∀ k, is_Some (m !! k) → k ∈ heading r) →
  rename r m
  = RelationK (renamed m <$> _heading r) (BodyRows (TupleRow <$> rows s))
      (renamed_keys m (constraint_definitions r))
    ≫= λ rn, match _body rn with
              | Computed f _ =>
                  Ok (with_body rn (Computed f
                        (foldl (λ (m0 : gmap string string) kv,
                                  delete kv.1
                                    (<[kv.2 := default kv.1 (m0 !! kv.1)]> m0))
                           ∅ (map_to_list m))))
              | Materialized _ => Ok rn
              end.
Proof.
  intros Hb Hk. unfold rename. apply rename_keys_check in Hk. rewrite Hk.
  cbn [mbind Result_bind]. rewrite Hb. done.
Qed.

Lemma RelationK_rows (h' : list string) (s0 : Store) (h : list string)
    (keys : list (string * option (list string))) :
  wf_store h s0 → length h' = length h → NoDup h' →
  ∃ s1,
    add_rows h' (empty_store h') (TupleRow <$> rows s0) = (s1, Ok tt)
    ∧ wf_store h' s1
    ∧ (∀ t, t ∈ rows s1 ↔ t ∈ rows s0)
    ∧ RelationK h' (BodyRows (TupleRow <$> rows s0)) keys
      = let r1 := mkRelation h' (Materialized s1) (key_defs keys)
                    (key_defs keys) in
        match checkKeys keys r1 with
        | Ok _ => Ok r1
        | Raise e =>
            match remove_rows h' s1 (TupleRow <$> rows s0) with
            | (_, Ok _) => Raise e
            | (_, Raise e') => Raise e'
            end
        end.
Proof.
  intros Hwf Hlen Hnd.
  assert (Forall (conforming h') (TupleRow <$> rows s0)) as Hc.
  { apply Forall_fmap. eapply Forall_impl; [apply (wf_len _ _ Hwf)|].
    intros t Ht. unfold conforming. by rewrite Hlen. }
  destruct (add_rows_is_Ok h' (empty_store h') (TupleRow <$> rows s0))
    as [s1 Hadd]; [by apply empty_store_wf|done| | |].
  { intros row t r _ _ Hr. by apply elem_of_nil in Hr. }
  { intros row1 t1 row2 t2 (t1' & -> & H1)%list_elem_of_fmap
      (t2' & -> & H2)%list_elem_of_fmap [= ->] [= ->].
    by apply (wf_types _ _ Hwf). }
  destruct (add_rows_Ok_inv h' _ s1 _ (empty_store_wf h' Hnd) Hc Hadd)
    as [Hwf1 Hmem].
  exists s1. split; [done|]. split; [done|]. split.
  - intros t. rewrite Hmem. split.
    + intros [Hin|(row & (t' & -> & Hin)%list_elem_of_fmap & [= ->])]; [|done].
      by apply elem_of_nil in Hin.
    + intros Hin. right. exists (TupleRow t). split; [|done].
      apply list_elem_of_fmap. eauto.
  - unfold RelationK. apply validateHeading_Ok in Hnd as ->.
    cbn [mbind Result_bind]. unfold setBody_with. cbn [_heading].
    unfold _addToBody. rewrite Hadd. unfold with_body. cbn.
    destruct (checkKeys keys _); [done|].
    by destruct (remove_rows h' s1 (TupleRow <$> rows s0)) as [s2 [[]|e']].
Qed.

Lemma rename_inv (r rn : Relation) (m : gmap string string) :
  wf r → rename r m = Ok rn →
  wf rn
  ∧ _heading rn = renamed m <$> _heading r
  ∧ (∀ t, t ∈ body_rows rn ↔ t ∈ body_rows r)
  ∧ (∀ k, is_Some (m !! k) → k ∈ heading r).
Proof.
  intros Hwf Hrn.
  assert (∀ k, is_Some (m !! k) → k ∈ heading r) as Hk.
  { apply rename_keys_check. unfold rename in Hrn. inv_bind Hrn. by destruct x. }
  destruct Hwf as (s & Hb & Hwfs).
  rewrite (rename_unfold r s m Hb Hk) in Hrn. inv_bind Hrn.
  assert (NoDup (renamed m <$> _heading r)) as Hnd.
  { unfold RelationK in Hx. inv_bind Hx. destruct x0.
    by apply validateHeading_Ok in Hx0. }
  destruct (RelationK_rows (renamed m <$> _heading r) s (_heading r)
              (renamed_keys m (constraint_definitions r)) Hwfs)
    as (s1 & _ & Hwf1 & Hmem & HK); [by rewrite length_fmap|done|].
  rewrite HK in Hx. cbn zeta in Hx.
  destruct (checkKeys _ _); [|by destruct (remove_rows _ _ _) as [? [[]|?]]].
  injection Hx as <-. cbn in Hrn. injection Hrn as <-.
  split; [by exists s1|]. split; [done|]. split; [|done].
  intros t. unfold body_rows. cbn. rewrite Hb. apply Hmem.
Qed.

Lemma rename_default_Ok (r : Relation) (m : gmap string string) :
  wf r → constraint_definitions r = default_constraints →
  (∀ k, is_Some (m !! k) → k ∈ heading r) →
  NoDup (renamed m <$> _heading r) →
  ∃ rn, rename r m = Ok rn
        ∧ constraint_definitions rn = default_constraints.
Proof.
  intros (s & Hb & Hwfs) Hdef Hk Hnd.
  rewrite (rename_unfold r s m Hb Hk). rewrite Hdef, renamed_keys_default.
  destruct (RelationK_rows (renamed m <$> _heading r) s (_heading r)
              [("PK", None)] Hwfs)
    as (s1 & _ & Hwf1 & Hmem & ->); [by rewrite length_fmap|done|].
  cbn zeta. rewrite checkKeys_default. cbn. eauto.
Qed.

Lemma heading_set_fmap (f : string → string) (h : list string) :
  heading_set (f <$> h) = set_map f (heading_set h).
Proof.
  unfold heading_set. apply set_eq. intros a.
  rewrite elem_of_list_to_set, list_elem_of_fmap, elem_of_map.
  by setoid_rewrite elem_of_list_to_set.
Qed.

(** The tuples of a renamed relation: those of the original, read under
    the new names. *)
Lemma rename_tuples (r rn : Relation) (m : gmap string string) :
  wf r → rename r m = Ok rn →
  ∀ d', d' ∈ tuples rn
        ↔ ∃ d, d ∈ tuples r ∧ dom d' = heading rn
               ∧ ∀ a, a ∈ heading r → d' !! renamed m a = d !! a.
Proof.
  intros Hwf Hrn.
  destruct (rename_inv r rn m Hwf Hrn) as (Hwfn & Hh & Hrows & _).
  pose proof (wf_heading_NoDup r Hwf) as Hnd.
  pose proof (wf_heading_NoDup rn Hwfn) as Hndn.
  assert (∀ t a, length t = length (_heading r) → a ∈ heading r →
            row_tuple (_heading rn) t !! renamed m a
            = row_tuple (_heading r) t !! a) as Hlook.
  { intros t a Hl Ha. apply elem_of_heading_set, list_elem_of_lookup in Ha as [p Hp].
    rewrite (row_tuple_lookup_at (_heading r) t p a) by done.
    apply row_tuple_lookup_at; [done| |].
    - by rewrite Hh, length_fmap.
    - by rewrite Hh, list_lookup_fmap, Hp. }
  intros d'. rewrite elem_of_tuples. split.
  - intros (t & Ht & ->). apply Hrows in Ht.
    pose proof (wf_rows_length r t Hwf Ht) as Hl.
    exists (row_tuple (_heading r) t). split; [by apply list_elem_of_fmap_2|].
    split.
    + apply row_tuple_dom; [done|]. by rewrite Hh, length_fmap.
    + intros a Ha. by apply Hlook.
  - intros (d & (t & Ht & ->)%elem_of_tuples & Hdom & Hall).
    pose proof (wf_rows_length r t Hwf Ht) as Hl.
    exists t. split; [by apply Hrows|].
    apply (agree_all_eq (heading rn)); [done| |].
    + apply row_tuple_dom; [done|]. by rewrite Hh, length_fmap.
    + intros b Hb. unfold heading in Hb. rewrite Hh, heading_set_fmap in Hb.
      apply elem_of_map in Hb as (a & -> & Ha).
      rewrite Hall by done. symmetry. by apply Hlook.
Qed.

(** ** Composition and binary relations *)

Lemma COMPOSE_spec (r1 r2 : Relation) :
  wf r1 → wf r2 →
  ∃ c, COMPOSE r1 r2 = Ok c
    ∧ wf c
    ∧ constraint_definitions c = default_constraints
    ∧ heading c = (heading r1 ∪ heading r2) ∖ (heading r1 ∩ heading r2)
    ∧ ∀ d', d' ∈ tuples c
        ↔ ∃ d, joined (tuples r1) (tuples r2) (heading r1) (heading r2) d
               ∧ d' = restrict ((heading r1 ∪ heading r2)
                                  ∖ (heading r1 ∩ heading r2)) d.
Proof.
  intros H1 H2. unfold COMPOSE.
  destruct (AND_spec r1 r2 _ _ (wf_scans r1 H1) (wf_scans r2 H2))
    as (j & -> & Hwfj & Hhj & Hdj & _ & Hj).
  cbn [mbind Result_bind].
  assert (heading j = heading r1 ∪ heading r2) as HHj.
  { unfold heading at 1. rewrite Hhj. apply heading_set_elements. }
  destruct (REMOVE_spec j _ (elements (heading r1 ∩ heading r2))
              (wf_scans j Hwfj)) as (c & -> & Hwfc & Hhc & Hdc & Hc).
  rewrite list_to_set_elements_L, HHj in Hhc, Hc.
  exists c. split; [done|]. split; [done|]. split; [by apply Hdc|]. split.
  - unfold heading at 1. rewrite Hhc. apply heading_set_elements.
  - intros d'. rewrite Hc. by setoid_rewrite Hj.
Qed.

Lemma NoDup_fmap_inj_on {A B} (f : A → B) (l : list A) (x y : A) :
  NoDup (f <$> l) → x ∈ l → y ∈ l → f x = f y → x = y.
Proof.
  induction l as [|a l IH]; intros Hnd Hx Hy Hf.
  - by apply elem_of_nil in Hx.
  - rewrite fmap_cons in Hnd. apply NoDup_cons in Hnd as [Hn Hnd].
    apply elem_of_cons in Hx as [->|Hx]; apply elem_of_cons in Hy as [->|Hy].
    + done.
    + exfalso. apply Hn. rewrite Hf. by apply list_elem_of_fmap_2.
    + exfalso. apply Hn. rewrite <- Hf. by apply list_elem_of_fmap_2.
    + by apply IH.
Qed.

Lemma pair_ext (A B : string) (d1 d2 : Tuple) (H : gset string) :
  (∀ a, a ∈ H ↔ a = A ∨ a = B) → dom d1 = H → dom d2 = H →
  d1 !! A = d2 !! A → d1 !! B = d2 !! B → d1 = d2.
Proof.
  intros HH H1 H2 HA HB. apply (agree_all_eq H); [done|done|].
  intros a [->| ->]%HH; done.
Qed.

Lemma holds_elem (r : Relation) (A B : string) (d : Tuple) :
  wf r → (∀ a, a ∈ heading r ↔ a = A ∨ a = B) →
  d ∈ tuples r
  ↔ dom d = heading r
    ∧ ∃ x y, d !! A = Some x ∧ d !! B = Some y ∧ holds r A B x y.
Proof.
  intros Hwf HH. split.
  - intros Hd. pose proof (tuples_dom r d Hwf Hd) as Hdom. split; [done|].
    assert (is_Some (d !! A)) as [x Hx].
    { apply elem_of_dom. rewrite Hdom. apply HH. by left. }
    assert (is_Some (d !! B)) as [y Hy].
    { apply elem_of_dom. rewrite Hdom. apply HH. by right. }
    exists x, y. split; [done|]. split; [done|]. by exists d.
  - intros (Hdom & x & y & Hx & Hy & d0 & Hd0 & Hx0 & Hy0).
    assert (d = d0) as ->; [|done].
    apply (pair_ext A B _ _ (heading r)); [done|done| |congruence|congruence].
    by apply (tuples_dom r).
Qed.

Lemma same_tuples_holds (a b : Relation) (A B : string) :
  wf a → wf b → heading a = heading b →
  (∀ c, c ∈ heading a ↔ c = A ∨ c = B) →
  same_tuples a b ↔ ∀ x y, holds a A B x y ↔ holds b A B x y.
Proof.
  intros Ha Hb HH Hc. split.
  - intros Hs x y. unfold holds. by setoid_rewrite (Hs _).
  - intros Hh d. rewrite (holds_elem a A B d Ha Hc).
    rewrite (holds_elem b A B d Hb); [|by rewrite <- HH].
    rewrite HH. by setoid_rewrite Hh.
Qed.

(** Renaming a binary relation renames both columns and keeps the pairs. *)
Lemma rename_binary (r rn : Relation) (m : gmap string string) (A B : string) :
  wf r → A ≠ B → (∀ a, a ∈ heading r ↔ a = A ∨ a = B) →
  rename r m = Ok rn →
  wf rn
  ∧ renamed m A ≠ renamed m B
  ∧ (∀ a, a ∈ heading rn ↔ a = renamed m A ∨ a = renamed m B)
  ∧ ∀ x y, holds rn (renamed m A) (renamed m B) x y ↔ holds r A B x y.
Proof.
  intros Hwf HAB HH Hrn.
  destruct (rename_inv r rn m Hwf Hrn) as (Hwfn & Hh & _ & _).
  pose proof (rename_tuples r rn m Hwf Hrn) as Htup.
  assert (renamed m A ≠ renamed m B) as Hne.
  { intros E. apply HAB.
    apply (NoDup_fmap_inj_on (renamed m) (_heading r)); [| | |done].
    - rewrite <- Hh. by apply wf_heading_NoDup.
    - apply elem_of_heading_set, HH. by left.
    - apply elem_of_heading_set, HH. by right. }
  assert (∀ a, a ∈ heading rn ↔ a = renamed m A ∨ a = renamed m B) as HHn.
  { intros a. unfold heading at 1. rewrite Hh, heading_set_fmap, elem_of_map.
    split.
    - intros (b & -> & [->| ->]%HH); [by left|by right].
    - intros [->| ->]; eexists; (split; [done|]); apply HH; [by left|by right]. }
  split; [done|]. split; [done|]. split; [done|]. intros x y. split.
  - intros (d' & (d & Hd & _ & Hall)%Htup & Hx & Hy). exists d. split; [done|].
    rewrite <- !Hall by (apply HH; auto). done.
  - intros (d & Hd & Hx & Hy).
    exists (<[renamed m A := x]> {[ renamed m B := y ]}).
    split; [|split].
    + apply Htup. exists d. split; [done|]. split.
      * apply set_eq. intros a. rewrite HHn, dom_insert, dom_singleton.
        set_solver.
      * intros a [->| ->]%HH.
        -- by rewrite lookup_insert_eq.
        -- by rewrite lookup_insert_ne, lookup_singleton_eq.
    + by rewrite lookup_insert_eq.
    + by rewrite lookup_insert_ne, lookup_singleton_eq.
Qed.

(** ** One round of TCLOSE *)

Section round.
Context (r : Relation) (X Y : string).
Hypothesis Hwf : wf r.
Hypothesis Hel : elements (heading r) = [X; Y].

Local Abbreviation m1 := (<[X := Y]> ({[ Y := "_Z" ]} : gmap string string)).
Local Abbreviation m2 := ({[ "_Z" := Y ]} : gmap string string).

Lemma binary_XY : X ≠ Y ∧ ∀ a, a ∈ heading r ↔ a = X ∨ a = Y.
Proof using Hel.
  split.
  - pose proof (NoDup_elements (heading r)) as Hnd. rewrite Hel in Hnd.
    apply NoDup_cons in Hnd as [Hn _]. intros ->. apply Hn. by left.
  - intros a. rewrite <- elem_of_elements, Hel.
    rewrite !elem_of_cons, elem_of_nil. tauto.
Qed.

Lemma renamed_m1_X : renamed m1 X = Y.
Proof using Type. unfold renamed. by rewrite lookup_insert_eq. Qed.

Lemma renamed_m1_Y : renamed m1 Y = "_Z".
Proof using Hel.
  destruct binary_XY as [Hne _]. unfold renamed.
  by rewrite lookup_insert_ne, lookup_singleton_eq.
Qed.

Lemma renamed_m2_Z : renamed m2 "_Z" = Y.
Proof using Type. unfold renamed. by rewrite lookup_singleton_eq. Qed.

Lemma renamed_m2_X : X ≠ "_Z" → renamed m2 X = X.
Proof using Type.
  intros Hne. unfold renamed. by rewrite lookup_singleton_ne.
Qed.

Lemma round_rename (rn : Relation) :
  rename r m1 = Ok rn →
  wf rn ∧ Y ≠ "_Z"
  ∧ (∀ a, a ∈ heading rn ↔ a = Y ∨ a = "_Z")
  ∧ ∀ x y, holds rn Y "_Z" x y ↔ holds r X Y x y.
Proof using Hwf Hel.
  intros Hrn. destruct binary_XY as [Hne HH].
  destruct (rename_binary r rn m1 X Y Hwf Hne HH Hrn) as (? & ? & ? & ?).
  rewrite renamed_m1_X, renamed_m1_Y in *. done.
Qed.

Lemma round_compose (rn c : Relation) :
  rename r m1 = Ok rn → COMPOSE r rn = Ok c →
  wf c
  ∧ constraint_definitions c = default_constraints
  ∧ ("_Z" ∈ heading c → X ≠ "_Z")
  ∧ (X ≠ "_Z" →
     (∀ a, a ∈ heading c ↔ a = X ∨ a = "_Z")
     ∧ ∀ x z, holds c X "_Z" x z
              ↔ ∃ y, holds r X Y x y ∧ holds r X Y y z).
Proof using Hwf Hel.
  intros Hrn Hc. destruct binary_XY as [Hne HH].
  destruct (round_rename rn Hrn) as (Hwfn & HYZ & HHn & Hn).
  destruct (COMPOSE_spec r rn Hwf Hwfn) as (c0 & E & Hwfc & Hdc & Hhc & Htc).
  rewrite Hc in E. injection E as <-.
  split; [done|]. split; [done|]. split.
  { rewrite Hhc. intros Hin ->. apply elem_of_difference in Hin as [_ Hn'].
    apply Hn'. apply elem_of_intersection. split; [apply HH|apply HHn]; auto. }
  intros HXZ.
  assert (∀ a, a ∈ heading c ↔ a = X ∨ a = "_Z") as HHc.
  { intros a. rewrite Hhc, elem_of_difference, elem_of_union,
      elem_of_intersection, HH, HHn. split.
    - intros [[[->| ->]|[->| ->]] Hn']; auto; exfalso; apply Hn'; auto.
    - intros [->| ->]; (split; [auto|]); intros [[?|?] [?|?]]; congruence. }
  assert (∀ a, a ∈ heading r ∩ heading rn ↔ a = Y) as Hcommon.
  { intros a. rewrite elem_of_intersection, HH, HHn. split.
    - intros [[->| ->] [?|?]]; congruence.
    - intros ->. auto. }
  split; [done|]. intros x z. split.
  - intros (d' & (d & (tr1 & t2 & H1 & H2 & Hag & ->) & ->)%Htc & Hx & Hz).
    rewrite restrict_lookup in Hx, Hz.
    rewrite <- Hhc in Hx, Hz.
    rewrite decide_True in Hx by (apply HHc; auto).
    rewrite decide_True in Hz by (apply HHc; auto).
    pose proof (tuples_dom r tr1 Hwf H1) as Hd1.
    pose proof (tuples_dom rn t2 Hwfn H2) as Hd2.
    assert (t2 !! X = None) as HtX.
    { apply not_elem_of_dom. rewrite Hd2, HHn. intros [?|?]; congruence. }
    rewrite lookup_union_r in Hx by done.
    assert (is_Some (t2 !! Y)) as [y Hy].
    { apply elem_of_dom. rewrite Hd2. apply HHn. auto. }
    assert (tr1 !! "_Z" = None) as H1Z.
    { apply not_elem_of_dom. rewrite Hd1, HH. intros [?|?]; congruence. }
    rewrite lookup_union_l in Hz by done.
    exists y. split.
    + exists tr1. split; [done|]. split; [done|].
      rewrite (Hag Y) by (by apply Hcommon). done.
    + apply Hn. by exists t2.
  - intros (y & (tr1 & H1 & Hx & Hy) & (t2 & H2 & Hy' & Hz)%Hn).
    pose proof (tuples_dom r tr1 Hwf H1) as Hd1.
    pose proof (tuples_dom rn t2 Hwfn H2) as Hd2.
    exists (restrict ((heading r ∪ heading rn) ∖ (heading r ∩ heading rn))
              (t2 ∪ tr1)).
    split; [|split].
    + apply Htc. exists (t2 ∪ tr1). split; [|done]. exists tr1, t2.
      split; [done|]. split; [done|]. split; [|done].
      intros a ->%Hcommon. congruence.
    + rewrite restrict_lookup, <- Hhc.
      rewrite decide_True by (apply HHc; auto).
      rewrite lookup_union_r; [done|].
      apply not_elem_of_dom. rewrite Hd2, HHn. intros [?|?]; congruence.
    + rewrite restrict_lookup, <- Hhc.
      rewrite decide_True by (apply HHc; auto).
      rewrite lookup_union_l; [done|].
      apply not_elem_of_dom. rewrite Hd1, HH. intros [?|?]; congruence.
Qed.

Lemma round_rename_back (rn c c' : Relation) :
  rename r m1 = Ok rn → COMPOSE r rn = Ok c → rename c m2 = Ok c' →
  X ≠ "_Z" ∧ wf c'
  ∧ heading c' = heading r
  ∧ ∀ x z, holds c' X Y x z ↔ ∃ y, holds r X Y x y ∧ holds r X Y y z.
Proof using Hwf Hel.
  intros Hrn Hc Hc'. destruct binary_XY as [Hne HH].
  destruct (round_compose rn c Hrn Hc) as (Hwfc & _ & HZ & Hrest).
  assert (X ≠ "_Z") as HXZ.
  { apply HZ. destruct (rename_inv c c' m2 Hwfc Hc') as (_ & _ & _ & Hk).
    apply Hk. by rewrite lookup_singleton_eq. }
  destruct (Hrest HXZ) as [HHc Hholds].
  destruct (rename_binary c c' m2 X "_Z" Hwfc HXZ HHc Hc')
    as (Hwfc' & _ & HHc' & Hh').
  rewrite renamed_m2_Z, renamed_m2_X in * by done.
  split; [done|]. split; [done|]. split.
  - apply set_eq. intros a. by rewrite HHc', HH.
  - intros x z. by rewrite Hh', Hholds.
Qed.

Lemma round_union (rn c c' TTT : Relation) :
  rename r m1 = Ok rn → COMPOSE r rn = Ok c → rename c m2 = Ok c' →
  (∃ T0, OR r c' = Ok T0)
  ∧ (OR r c' = Ok TTT →
     wf TTT ∧ heading TTT = heading r
     ∧ constraint_definitions TTT = default_constraints
     ∧ ∀ x z, holds TTT X Y x z
              ↔ holds r X Y x z ∨ ∃ y, holds r X Y x y ∧ holds r X Y y z).
Proof using Hwf Hel.
  intros Hrn Hc Hc'. destruct binary_XY as [Hne HH].
  destruct (round_rename_back rn c c' Hrn Hc Hc') as (HXZ & Hwfc' & Hhc' & Hh').
  assert (same_column_types (tuples r) (tuples c')) as Hty.
  { intros d1 d2 a Hd1 Hd2.
    pose proof (tuples_dom r d1 Hwf Hd1) as Hdom1.
    pose proof (tuples_dom c' d2 Hwfc' Hd2) as Hdom2. rewrite Hhc' in Hdom2.
    destruct (decide (a ∈ heading r)) as [Ha|Ha].
    - apply (holds_elem c' X Y) in Hd2
        as (_ & x & z & Hx & Hz & (y & Hxy & Hyz)%Hh');
        [|done|by intros b; rewrite Hhc'].
      apply HH in Ha as [->| ->].
      + destruct Hxy as (d & Hd & Hdx & _).
        rewrite (tuples_types r d1 d X Hwf Hd1 Hd). by rewrite Hdx, Hx.
      + destruct Hyz as (d & Hd & _ & Hdz).
        rewrite (tuples_types r d1 d Y Hwf Hd1 Hd). by rewrite Hdz, Hz.
    - assert (d1 !! a = None) as ->
        by (apply not_elem_of_dom; by rewrite Hdom1).
      assert (d2 !! a = None) as ->
        by (apply not_elem_of_dom; by rewrite Hdom2).
      done. }
  destruct (OR_spec r c' _ _ (wf_scans r Hwf) (wf_scans c' Hwfc')
              (eq_sym Hhc') Hty) as (T0 & E & Hwf0 & Hh0 & Hd0 & _ & Ht0).
  split; [by exists T0|]. rewrite E. intros [= <-].
  split; [done|]. split.
  { unfold heading at 1. rewrite Hh0. apply heading_set_elements. }
  split; [done|]. intros x z. rewrite <- Hh'. unfold holds. split.
  - intros (d & [Hd|Hd]%Ht0 & Hx & Hz); [left|right]; by exists d.
  - intros [(d & Hd & Hx & Hz)|(d & Hd & Hx & Hz)]; exists d;
      (split; [apply Ht0; auto|done]).
Qed.

(** A round succeeds on a relation with the default constraints whose
    attributes are not the scratch name. *)
Lemma round_runs :
  constraint_definitions r = default_constraints →
  X ≠ "_Z" → Y ≠ "_Z" →
  ∃ rn c c' TTT,
    rename r m1 = Ok rn ∧ COMPOSE r rn = Ok c ∧ rename c m2 = Ok c'
    ∧ OR r c' = Ok TTT.
Proof using Hwf Hel.
  intros Hdef HXZ HYZ. destruct binary_XY as [Hne HH].
  destruct (rename_default_Ok r m1 Hwf Hdef) as (rn & Hrn & _).
  { intros k [v Hk]. apply HH. apply lookup_insert_Some in Hk
      as [[<- _]|[_ [<- _]%lookup_singleton_Some]]; auto. }
  { apply NoDup_fmap_2_strong; [|by apply wf_heading_NoDup].
    intros a b [->| ->]%elem_of_heading_set%HH
      [->| ->]%elem_of_heading_set%HH;
      rewrite ?renamed_m1_X, ?renamed_m1_Y; congruence. }
  destruct (round_rename rn Hrn) as (Hwfn & _).
  destruct (COMPOSE_spec r rn Hwf Hwfn) as (c & Hc & _).
  destruct (round_compose rn c Hrn Hc) as (Hwfc & Hdc & _ & Hrest).
  destruct (Hrest HXZ) as [HHc _].
  destruct (rename_default_Ok c m2 Hwfc Hdc) as (c' & Hc' & _).
  { intros k [v [<- _]%lookup_singleton_Some]. apply HHc. auto. }
  { apply NoDup_fmap_2_strong; [|by apply wf_heading_NoDup].
    intros a b [->| ->]%elem_of_heading_set%HHc
      [->| ->]%elem_of_heading_set%HHc;
      rewrite ?renamed_m2_Z, ?renamed_m2_X by done; congruence. }
  destruct (round_union rn c c' r Hrn Hc Hc') as [[TTT HT] _].
  by exists rn, c, c', TTT.
Qed.
End round.

(** ** Transitive closure *)

(** What TCLOSE returns is a well-formed binary relation with the default
    constraints, none of whose attributes is the scratch name, and it is
    closed under composition. *)
Lemma TCLOSE_closed (fuel : nat) (r T : Relation) :
  wf r → TCLOSE fuel r = Ok T →
  ∃ X Y, elements (heading T) = [X; Y] ∧ X ≠ "_Z" ∧ Y ≠ "_Z"
    ∧ wf T ∧ constraint_definitions T = default_constraints
    ∧ ∀ x y z, holds T X Y x y → holds T X Y y z → holds T X Y x z.
Proof.
  revert r. induction fuel as [|fuel IH]; intros r Hwf Hrun; [done|].
  cbn [TCLOSE] in Hrun. case_decide as Hsz; [done|].
  destruct (elements (heading r)) as [|X [|Y [|? ?]]] eqn:Hel; try done.
  inv_bind Hrun. rename x into rn, Hx into Hrn.
  inv_bind Hrun. rename x into c, Hx into Hc.
  inv_bind Hrun. rename x into c', Hx into Hc'.
  inv_bind Hrun. rename x into TTT, Hx into HT.
  inv_bind Hrun. rename x into b, Hx into Hb.
  destruct (round_rename r X Y Hwf Hel rn Hrn) as (_ & HYZ & _).
  destruct (round_rename_back r X Y Hwf Hel rn c c' Hrn Hc Hc') as (HXZ & _).
  destruct (round_union r X Y Hwf Hel rn c c' TTT Hrn Hc Hc') as [_ Hu].
  destruct (Hu HT) as (HwfT & HhT & HdT & Hholds).
  destruct b; [|by apply (IH TTT)].
  injection Hrun as <-. exists X, Y. rewrite HhT.
  split; [done|]. split; [done|]. split; [done|]. split; [done|].
  split; [done|].
  destruct (eq_wf TTT r HwfT Hwf) as (bv & E & Hiff). rewrite Hb in E.
  injection E as <-. destruct (proj1 Hiff eq_refl) as [_ Hsame].
  assert (∀ x y, holds TTT X Y x y → holds r X Y x y) as Hback.
  { intros x y (d & Hd & Hxy). exists d. split; [by apply Hsame|done]. }
  intros x y z Hxy Hyz. apply Hholds. right. exists y. auto.
Qed.

(** On such a relation TCLOSE stops after one round, whatever the depth
    allowed, and returns an equal relation. *)
Lemma TCLOSE_of_closed (T : Relation) (X Y : string) :
  wf T → elements (heading T) = [X; Y] → X ≠ "_Z" → Y ≠ "_Z" →
  constraint_definitions T = default_constraints →
  (∀ x y z, holds T X Y x y → holds T X Y y z → holds T X Y x z) →
  ∃ T', (∀ m, TCLOSE (S m) T = Ok T') ∧ __eq__ T' T = Ok true.
Proof.
  intros Hwf Hel HXZ HYZ Hdef Hclosed.
  destruct (round_runs T X Y Hwf Hel Hdef HXZ HYZ)
    as (rn & c & c' & TTT & Hrn & Hc & Hc' & HT).
  destruct (round_union T X Y Hwf Hel rn c c' TTT Hrn Hc Hc') as [_ Hu].
  destruct (Hu HT) as (HwfT & HhT & HdT & Hholds).
  destruct (binary_XY T X Y Hel) as [Hne HH].
  assert (__eq__ TTT T = Ok true) as Heq.
  { destruct (eq_wf TTT T HwfT Hwf) as (bv & -> & Hiff). f_equal.
    apply Hiff. split; [done|].
    apply (same_tuples_holds TTT T X Y); [done|done|done| |].
    - intros a. by rewrite HhT.
    - intros x z. rewrite Hholds. split; [|by left].
      intros [?|(y & ? & ?)]; [done|by apply (Hclosed x y z)]. }
  exists TTT. split; [|done]. intros m. cbn [TCLOSE].
  rewrite decide_False.
  - rewrite Hel, Hrn. cbn [mbind Result_bind]. rewrite Hc.
    cbn [mbind Result_bind]. rewrite Hc'. cbn [mbind Result_bind].
    rewrite HT. cbn [mbind Result_bind]. rewrite Heq. done.
  - intros Hsz. apply Hsz. unfold size, set_size. simpl. by rewrite Hel.
Qed.

(** C7: on a well-formed materialized relation on which TCLOSE reaches its
    fixpoint within some depth, with result T, TCLOSE of T returns (after
    one round, at any depth) a relation equal to T under relation equality;
    and TCLOSE of a relation whose heading does not have exactly two
    attributes raises the Invalid-Operation error. *)
Theorem TCLOSE_idempotent (r : Relation) :
  (∀ fuel T, wf r → TCLOSE fuel r = Ok T →
     ∃ T', (∀ m, TCLOSE (S m) T = Ok T') ∧ __eq__ T' T = Ok true)
  ∧ (∀ fuel, size (heading r) ≠ 2 →
       TCLOSE (S fuel) r
       = Raise (RelationInvalidOperationException
           "TCLOSE expects a binary relation, e.g. with a heading ['X', 'Y']")).
Proof.
  split.
  - intros fuel T Hwf Hrun.
    destruct (TCLOSE_closed fuel r T Hwf Hrun)
      as (X & Y & Hel & HXZ & HYZ & HwfT & Hdef & Hclosed).
    by apply (TCLOSE_of_closed T X Y).
  - intros fuel Hsz. cbn [TCLOSE]. by rewrite decide_True.
Qed.

Lemma TCLOSE_idempotent_witness :
  ∃ r T, chain = Ok r ∧ TCLOSE 3 r = Ok T
         ∧ ∃ T', (∀ m, TCLOSE (S m) T = Ok T') ∧ __eq__ T' T = Ok true.
Proof.
  eexists _, _. split; [vm_compute; reflexivity|].
  split; [vm_compute; reflexivity|].
  refine (proj1 (TCLOSE_idempotent _) 3 _ _ _).
  - apply reachable_wf.
    eapply (reach_Relation0 ["X"; "Y"]
              [TupleRow [VInt 1; VInt 2]; TupleRow [VInt 2; VInt 3];
               TupleRow [VInt 3; VInt 4]]).
    + repeat constructor.
    + vm_compute. reflexivity.
  - vm_compute. reflexivity.
Defined.

(** ** Transactions *)

Lemma bind_all_Ok (bind : ConstraintDef → Result unit)
    (defs bound : list (string * ConstraintDef)) :
  (∀ c, c ∈ defs → bind c.2 = Ok tt) →
  bind_all bind defs bound = (bound ++ defs, Ok tt).
Proof.
  revert bound. induction defs as [|c defs IH]; intros bound Hall.
  - by rewrite app_nil_r.
  - cbn [bind_all]. rewrite Hall by (by left).
    rewrite IH by (intros c' Hc'; apply Hall; by right).
    by rewrite <- app_assoc.
Qed.

Lemma entry_pk_with_bound (e : Entry) (bound : list (string * ConstraintDef)) :
  entry_pk (with_bound e bound) = entry_pk e.
Proof. by destruct e. Qed.

Lemma entry_pk_pickle (e : Entry) : entry_pk (pickle_entry e) = entry_pk e.
Proof. by destruct e. Qed.

Lemma entry_definitions_with_bound (e : Entry)
    (bound : list (string * ConstraintDef)) :
  entry_definitions (with_bound e bound) = entry_definitions e.
Proof. by destruct e. Qed.

Lemma entry_definitions_pickle (e : Entry) :
  entry_definitions (pickle_entry e) = entry_definitions e.
Proof. by destruct e. Qed.

Lemma entry_callable_with_bound (e : Entry)
    (bound : list (string * ConstraintDef)) :
  entry_callable (with_bound e bound) = entry_callable e.
Proof. by destruct e. Qed.

Lemma entry_callable_pickle (e : Entry) :
  entry_callable (pickle_entry e) = entry_callable e.
Proof. by destruct e. Qed.

(** Whether a definition binds depends on the frame only through the
    primary keys of the names it holds. *)
Lemma postLoad_bind_pk (frame : Frame) (d : ConstraintDef) :
  postLoad_bind (frame_scope frame) d
  = match d with
    | Key _ => Ok tt
    | Constraint _ => Raise SyntaxError
    | ForeignKey r2 _ =>
        match entry_pk <$> frame !! r2 with
        | None => Raise (NameError r2)
        | Some None =>
            Raise (RelationException
                     "Foreign key referenced table should have a primary key")
        | Some (Some _) => Ok tt
        end
    end.
Proof.
  destruct d as [Hk|r2 m|f]; [done| |done].
  cbn [postLoad_bind bind_constraint]. unfold frame_scope.
  destruct (frame !! r2) as [[R|m0 b]|]; done.
Qed.

Lemma postLoad_bind_alike (f f' : Frame) (d : ConstraintDef) :
  (∀ n, entry_pk <$> f !! n = entry_pk <$> f' !! n) →
  postLoad_bind (frame_scope f) d = postLoad_bind (frame_scope f') d.
Proof.
  intros Hpk. rewrite !postLoad_bind_pk. destruct d; [done| |done].
  by rewrite Hpk.
Qed.

Lemma postLoad_loop_Ok (F0 : Frame) (items : list (string * Entry))
    (frame : Frame) :
  (∀ n, entry_pk <$> frame !! n = entry_pk <$> F0 !! n) →
  (∀ n e, (n, e) ∈ items → F0 !! n = Some e) →
  loadable F0 →
  postLoad_loop items frame
  = (foldl (λ f ne, <[ne.1 := rebound ne.2]> f) frame items, Ok tt).
Proof.
  intros Hpk Hin Hload. revert frame Hpk.
  induction items as [|[n e] items IH]; intros frame Hpk; [done|].
  cbn [postLoad_loop foldl fst snd].
  rewrite (bind_all_Ok _ (entry_definitions e) []).
  - cbn [app]. apply IH.
    + intros n' e' Hin'. apply Hin. by right.
    + intros k. destruct (decide (n = k)) as [<-|Hne].
      * rewrite lookup_insert_eq, (Hin n e) by (by left). simpl.
        unfold rebound. by rewrite entry_pk_with_bound.
      * rewrite lookup_insert_ne by done. apply Hpk.
  - intros c Hc. rewrite (postLoad_bind_alike frame F0 _ Hpk).
    apply (Hload n e c); [|done]. apply Hin. by left.
Qed.

Lemma foldl_insert_notin {A} (g : A → A) (items : list (string * A))
    (f : gmap string A) (k : string) :
  k ∉ items.*1 →
  foldl (λ f ne, <[ne.1 := g ne.2]> f) f items !! k = f !! k.
Proof.
  revert f. induction items as [|[n e] items IH]; intros f Hk; [done|].
  cbn [foldl fst snd]. rewrite fmap_cons in Hk. cbn [fst] in Hk.
  apply not_elem_of_cons in Hk as [Hne Hk].
  rewrite IH by done. by rewrite lookup_insert_ne.
Qed.

Lemma foldl_insert_in {A} (g : A → A) (items : list (string * A))
    (f : gmap string A) (k : string) (e : A) :
  NoDup items.*1 → (k, e) ∈ items →
  foldl (λ f ne, <[ne.1 := g ne.2]> f) f items !! k = Some (g e).
Proof.
  revert f. induction items as [|[n e0] items IH]; intros f Hnd Hin.
  - by apply elem_of_nil in Hin.
  - cbn [foldl fst snd]. rewrite fmap_cons in Hnd. cbn [fst] in Hnd.
    apply NoDup_cons in Hnd as [Hn Hnd].
    apply elem_of_cons in Hin as [[= -> ->]|Hin].
    + rewrite foldl_insert_notin by done. by rewrite lookup_insert_eq.
    + by apply IH.
Qed.

Lemma foldl_insert_map_to_list {A} (g : A → A) (f : gmap string A) :
  foldl (λ f ne, <[ne.1 := g ne.2]> f) f (map_to_list f) = g <$> f.
Proof.
  apply map_eq. intros k. rewrite lookup_fmap.
  destruct (f !! k) as [e|] eqn:Hk.
  - apply foldl_insert_in; [apply NoDup_fst_map_to_list|].
    by apply elem_of_map_to_list.
  - rewrite foldl_insert_notin; [by rewrite Hk|].
    intros ([n e] & -> & Hin%elem_of_map_to_list)%list_elem_of_fmap.
    simpl in Hk. congruence.
Qed.

Lemma _postLoad_spec (db : Database) (F : Frame) :
  current_frame db = Some F → loadable F →
  _postLoad db = (with_frame db (transactionId db) (rebound <$> F), Ok tt).
Proof.
  intros Hcur Hload. unfold _postLoad. rewrite Hcur.
  rewrite (postLoad_loop_Ok F (map_to_list F) F); [|done| |done].
  - by rewrite foldl_insert_map_to_list.
  - intros n e Hin. by apply elem_of_map_to_list.
Qed.

Lemma _vinit_spec (db : Database) (F : Frame) :
  current_frame db = Some F → loadable F →
  _vinit db
  = (mkDatabase (name db) (failedToLoad db) catalog_names
       (<[transactionId db := views (rebound <$> F)]> (transactions db))
       (transactionId db) (file db), Ok tt).
Proof.
  intros Hcur Hload. unfold _vinit. rewrite (_postLoad_spec db F Hcur Hload).
  unfold add_views, current_frame, with_readonly, with_frame. cbn.
  rewrite lookup_insert_eq. cbn. unfold views. by rewrite insert_insert_eq.
Qed.

(** ** Frames across begin, commit and rollback *)

Lemma preDump_lookup (f : Frame) (n : string) :
  _preDump f !! n
  = match f !! n with
    | Some e => if entry_callable e then None else Some e
    | None => None
    end.
Proof.
  unfold _preDump. destruct (f !! n) as [e|] eqn:Hn.
  - destruct (entry_callable e) eqn:Hc.
    + apply map_lookup_filter_None. right. intros e'. rewrite Hn.
      intros [= <-]. simpl. by rewrite Hc.
    + by apply map_lookup_filter_Some.
  - apply map_lookup_filter_None. by left.
Qed.

Lemma clone_lookup (f : Frame) (n : string) :
  clone f !! n
  = match f !! n with
    | Some e => if entry_callable e then None else Some (pickle_entry e)
    | None => None
    end.
Proof.
  unfold clone. rewrite lookup_fmap, preDump_lookup.
  destruct (f !! n) as [e|]; [|done]. by destruct (entry_callable e).
Qed.

Lemma preDump_clone (f : Frame) : _preDump (clone f) = clone f.
Proof.
  apply map_eq. intros n. rewrite preDump_lookup, clone_lookup.
  destruct (f !! n) as [e|]; [|done].
  destruct (entry_callable e) eqn:Hc; [done|].
  by rewrite entry_callable_pickle, Hc.
Qed.

Lemma views_lookup (f : Frame) (n : string) :
  n ∉ catalog_names → views f !! n = f !! n.
Proof.
  intros Hn. unfold views.
  rewrite !lookup_insert_ne; [done|..]; intros <-; apply Hn;
    unfold catalog_names; set_solver.
Qed.

Lemma views_lookup_catalog (f : Frame) (n : string) (e : Entry) :
  n ∈ catalog_names → views f !! n = Some e → entry_callable e = true.
Proof.
  unfold catalog_names, views. rewrite !elem_of_cons, elem_of_nil.
  intros [->|[->|[->|[->|[]]]]];
    repeat (rewrite lookup_insert_eq || rewrite lookup_insert_ne by done);
    by intros [= <-].
Qed.

Lemma rebindable_inv (frame : Frame) (X : string) (V2 : Relation)
    (d : ConstraintDef) :
  rebindable frame X V2 d = true →
  match d with
  | Key _ => True
  | Constraint _ => False
  | ForeignKey r2 _ =>
      r2 ∉ catalog_names
      ∧ ∃ R, frame !! r2 = Some (Held R) ∧ callable (_body R) = false
             ∧ is_Some (_headingPK R) ∧ (r2 = X → is_Some (_headingPK V2))
  end.
Proof.
  destruct d as [Hk|r2 m|f]; [done| |done]. cbn [rebindable].
  intros [Hn Hrest]%andb_prop. apply bool_decide_eq_true in Hn.
  split; [done|]. destruct (frame !! r2) as [[R|? ?]|]; try done.
  apply andb_prop in Hrest as [[Hc Hpk]%andb_prop HX].
  apply bool_decide_eq_true in Hpk. apply negb_true_iff in Hc.
  exists R. split; [done|]. split; [done|]. split; [done|].
  intros ->. rewrite decide_True in HX by done.
  by apply bool_decide_eq_true in HX.
Qed.

Lemma all_rebindable_inv (frame : Frame) (X : string) (V2 : Relation) :
  all_rebindable frame X V2 = true →
  (∀ n e c, frame !! n = Some e → c ∈ entry_definitions e →
            rebindable frame X V2 c.2 = true)
  ∧ (∀ c, c ∈ constraint_definitions V2 → rebindable frame X V2 c.2 = true).
Proof.
  intros [H1 H2]%andb_prop. split.
  - intros n e c Hn Hc. rewrite forallb_forall in H1.
    specialize (H1 (n, e)). rewrite forallb_forall in H1.
    apply H1; [|by apply list_elem_of_In].
    by apply list_elem_of_In, elem_of_map_to_list.
  - intros c Hc. rewrite forallb_forall in H2.
    by apply H2, list_elem_of_In.
Qed.

(** A frame is loadable when each definition in it is rebindable and each
    stored relvar with a primary key is still there with one. *)
Lemma loadable_from (F frame0 : Frame) (X : string) (V2 : Relation) :
  (∀ n e c, F !! n = Some e → c ∈ entry_definitions e →
            rebindable frame0 X V2 c.2 = true) →
  (∀ r2 R, r2 ∉ catalog_names → frame0 !! r2 = Some (Held R) →
           callable (_body R) = false → is_Some (_headingPK R) →
           (r2 = X → is_Some (_headingPK V2)) →
           ∃ e', F !! r2 = Some e' ∧ is_Some (entry_pk e')) →
  loadable F.
Proof.
  intros Hdefs Htarget n e c Hn Hc.
  pose proof (rebindable_inv _ _ _ _ (Hdefs n e c Hn Hc)) as Hinv.
  rewrite postLoad_bind_pk. destruct (c.2) as [Hk|r2 m|f]; [done| |done].
  destruct Hinv as (Hcat & R & HR & Hcall & Hpk & HX).
  destruct (Htarget r2 R Hcat HR Hcall Hpk HX) as (e' & -> & [pk Hpk']).
  simpl. by rewrite Hpk'.
Qed.

Section transaction.
Context (frame0 : Frame) (X : string) (V2 : Relation).
Hypothesis Hall : all_rebindable frame0 X V2 = true.
Hypothesis HV2 : callable (_body V2) = false.
Hypothesis HX : X ∉ catalog_names.

(** The frame of the transaction once [X] has been assigned. *)
Local Abbreviation F1 := (views (rebound <$> clone frame0)).
Local Abbreviation F1X := (<[X := Held V2]> (views (rebound <$> clone frame0))).

Lemma loadable_frame0 : loadable frame0.
Proof using Hall.
  destruct (all_rebindable_inv _ _ _ Hall) as [Hdefs _].
  apply (loadable_from frame0 frame0 X V2); [done|].
  intros r2 R _ HR _ Hpk _. by exists (Held R).
Qed.

Lemma loadable_clone : loadable (clone frame0).
Proof using Hall.
  destruct (all_rebindable_inv _ _ _ Hall) as [Hdefs _].
  apply (loadable_from (clone frame0) frame0 X V2).
  - intros n e c Hn Hc. rewrite clone_lookup in Hn.
    destruct (frame0 !! n) as [e0|] eqn:H0; [|done].
    destruct (entry_callable e0); [done|]. injection Hn as <-.
    rewrite entry_definitions_pickle in Hc. by apply (Hdefs n e0).
  - intros r2 R _ HR Hcall Hpk _. exists (pickle_entry (Held R)). split.
    + rewrite clone_lookup, HR. simpl. by rewrite Hcall.
    + done.
Qed.

Lemma F1X_stored (n : string) (e : Entry) :
  F1X !! n = Some e → entry_callable e = false →
  (n = X ∧ e = Held V2)
  ∨ (n ≠ X ∧ n ∉ catalog_names
     ∧ ∃ e0, frame0 !! n = Some e0 ∧ entry_callable e0 = false
             ∧ e = rebound (pickle_entry e0)).
Proof using Type.
  intros Hn Hc. destruct (decide (n = X)) as [->|Hne].
  - rewrite lookup_insert_eq in Hn. injection Hn as <-. by left.
  - rewrite lookup_insert_ne in Hn by done. right. split; [done|].
    destruct (decide (n ∈ catalog_names)) as [Hcat|Hcat].
    { rewrite (views_lookup_catalog _ n e Hcat Hn) in Hc. done. }
    split; [done|]. rewrite views_lookup, lookup_fmap, clone_lookup in Hn by done.
    destruct (frame0 !! n) as [e0|]; [|done].
    destruct (entry_callable e0) eqn:Hc0; [done|]. injection Hn as <-.
    by exists e0.
Qed.

Lemma F1X_lookup (n : string) (R : Relation) :
  n ∉ catalog_names → frame0 !! n = Some (Held R) →
  callable (_body R) = false →
  F1X !! n
  = Some (if decide (n = X) then Held V2
          else rebound (pickle_entry (Held R))).
Proof using Type.
  intros Hcat HR Hcall. case_decide as Hn.
  - subst. by rewrite lookup_insert_eq.
  - rewrite lookup_insert_ne, views_lookup, lookup_fmap, clone_lookup, HR
      by done.
    simpl. by rewrite Hcall.
Qed.

Lemma loadable_committed : loadable (_preDump (clone F1X)).
Proof using Hall HV2.
  destruct (all_rebindable_inv _ _ _ Hall) as [Hdefs HdefsV2].
  rewrite preDump_clone. apply (loadable_from _ frame0 X V2).
  - intros n e c Hn Hc. rewrite clone_lookup in Hn.
    destruct (F1X !! n) as [e1|] eqn:H1; [|done].
    destruct (entry_callable e1) eqn:Hc1; [done|]. injection Hn as <-.
    rewrite entry_definitions_pickle in Hc.
    destruct (F1X_stored n e1 H1 Hc1) as [[-> ->]|(_ & _ & e0 & H0 & _ & ->)].
    + by apply HdefsV2.
    + unfold rebound in Hc.
      rewrite entry_definitions_with_bound, entry_definitions_pickle in Hc.
      by apply (Hdefs n e0).
  - intros r2 R Hcat HR Hcall Hpk HXpk.
    rewrite clone_lookup, (F1X_lookup r2 R Hcat HR Hcall).
    case_decide as Hr2.
    + simpl. rewrite HV2. eexists. split; [done|]. by apply HXpk.
    + simpl. rewrite Hcall. eexists. split; [done|]. done.
Qed.

Lemma committed_lookup :
  _preDump (clone F1X) !! X = Some (Held (pickle_relation V2)).
Proof using HV2.
  rewrite preDump_clone, clone_lookup, lookup_insert_eq. simpl.
  by rewrite HV2.
Qed.
End transaction.

(** ** begin, assignment, rollback and commit *)

Lemma begin_spec (db : Database) (frame0 : Frame) :
  transactionId db = 0 → transactions db !! 0 = Some frame0 →
  loadable (clone frame0) →
  begin db
  = (mkDatabase (name db) (failedToLoad db) catalog_names
       (<[1 := views (rebound <$> clone frame0)]> (transactions db)) 1
       (file db), Ok tt).
Proof.
  destruct db as [nm ftl ro ts tid fl]. cbn [transactionId transactions].
  intros -> H0 Hload. unfold begin. cbn [transactionId].
  rewrite decide_False by (intros E; by apply E).
  cbn [with_transactions transactions transactionId name failedToLoad
       _readonly file Nat.sub].
  rewrite lookup_insert_ne, H0 by done.
  rewrite (_vinit_spec _ (clone frame0)); [|apply lookup_insert_eq|done].
  cbn [with_transactions transactions transactionId name failedToLoad
       _readonly file].
  by rewrite !insert_insert_eq.
Qed.

Lemma eq_rebound (V : Relation) :
  wf V →
  __eq__ (with_constraints V (constraint_definitions V)
            (constraint_definitions V)) V = Ok true.
Proof.
  intros Hwf.
  destruct (eq_wf (with_constraints V (constraint_definitions V)
                     (constraint_definitions V)) V) as (bv & -> & Hiff);
    [by apply wf_with_constraints|done|].
  f_equal. apply Hiff. split; [done|]. intros d. done.
Qed.

Section calls.
Context (db : Database) (frame0 : Frame) (X : string) (V V2 : Relation).
Hypothesis Htid : transactionId db = 0.
Hypothesis Hfl : failedToLoad db = false.
Hypothesis H0 : transactions db !! 0 = Some frame0.
Hypothesis HXV : frame0 !! X = Some (Held V).
Hypothesis HV2 : callable (_body V2) = false.
Hypothesis HX : X ∉ catalog_names.
Hypothesis Hall : all_rebindable frame0 X V2 = true.

Local Abbreviation F1 := (views (rebound <$> clone frame0)).
Local Abbreviation F1X := (<[X := Held V2]> (views (rebound <$> clone frame0))).

(** The database after [begin()] and after the assignment to [X]. *)
Local Abbreviation db1 :=
  (mkDatabase (name db) (failedToLoad db) catalog_names
     (<[1 := F1]> (transactions db)) 1 (file db)).
Local Abbreviation db2 :=
  (mkDatabase (name db) (failedToLoad db) catalog_names
     (<[1 := F1X]> (transactions db)) 1 (file db)).

Lemma begin_runs : begin db = (db1, Ok tt).
Proof using Htid H0 Hall.
  apply begin_spec; [done|done|]. by apply (loadable_clone frame0 X V2).
Qed.

Lemma setattr_runs : setattr db1 X (Held V2) = (db2, Ok tt).
Proof using HX.
  unfold setattr. cbn [_readonly]. rewrite decide_False by done.
  unfold current_frame, with_frame. cbn. rewrite lookup_insert_eq.
  by rewrite insert_insert_eq.
Qed.

Lemma rollback_runs :
  ∃ db3, rollback db2 = (db3, Ok tt) ∧ transactionId db3 = 0
    ∧ getattribute db3 X
      = Ok (with_constraints V (constraint_definitions V)
              (constraint_definitions V)).
Proof using Htid H0 HXV HX Hall.
  unfold rollback. cbn [transactionId]. rewrite decide_False by done.
  cbn [Nat.sub transactions]. rewrite lookup_insert_eq.
  rewrite (_vinit_spec _ frame0).
  - eexists. split; [done|]. split; [done|].
    unfold getattribute, current_frame. cbn [transactions transactionId].
    rewrite lookup_insert_eq, views_lookup, lookup_fmap, HXV by done. done.
  - unfold current_frame, with_transactions. cbn.
    by rewrite lookup_delete_ne, lookup_insert_ne.
  - by apply (loadable_frame0 frame0 X V2).
Qed.

Lemma commit_runs :
  ∃ db3 p, commit db2 = (db3, Ok tt) ∧ transactionId db3 = 0
    ∧ getattribute db3 X
      = Ok (with_constraints V2 (constraint_definitions V2)
              (constraint_definitions V2))
    ∧ file db3 = Some p
    ∧ p_transactionId p = 0
    ∧ (p_transactions p !! 0) ≫= (.!! X) = Some (Held (pickle_relation V2)).
Proof using Hfl HV2 HX Hall.
  unfold commit. cbn [transactionId]. rewrite decide_False by done.
  unfold current_frame. cbn [transactions transactionId].
  rewrite lookup_insert_eq. cbn zeta.
  unfold _dump, with_transactions. cbn [failedToLoad]. rewrite Hfl.
  unfold __getstate__. cbn [transactions Nat.sub transactionId name
                              failedToLoad _readonly file].
  rewrite lookup_insert_eq. cbn [with_transactions transactions transactionId
                                  name failedToLoad _readonly file].
  rewrite (_vinit_spec _ (_preDump (clone F1X))).
  - eexists _, _. split; [done|]. split; [done|]. split; [|split; [done|]].
    + unfold getattribute, current_frame. cbn [transactions transactionId].
      rewrite lookup_insert_eq, views_lookup, lookup_fmap by done.
      rewrite (committed_lookup frame0 X V2 HV2). done.
    + split; [done|]. cbn [p_transactions]. rewrite lookup_singleton_eq.
      cbn [mbind option_bind]. rewrite lookup_fmap.
      rewrite (committed_lookup frame0 X V2 HV2). done.
  - unfold current_frame. cbn. by rewrite lookup_insert_eq.
  - by apply (loadable_committed frame0 X V2).
Qed.
End calls.




(** ** The algebra on scannable operands *)

(** A relation built by the constructor from rows of the heading's length
    is well formed. *)
Ltac rows_wf h body :=
  apply reachable_wf; eapply (reach_Relation0 h body);
  [repeat constructor | vm_compute; reflexivity].

Lemma r_123_wf : wf r_123.
Proof.
  rows_wf ["a"] [TupleRow [VInt 1]; TupleRow [VInt 2]; TupleRow [VInt 3]].
Qed.

Lemma r_13_wf : wf r_13.
Proof. rows_wf ["a"] [TupleRow [VInt 1]; TupleRow [VInt 3]]. Qed.

Lemma r_ab_wf : wf r_ab.
Proof.
  rows_wf ["a"; "b"] [TupleRow [VInt 1; VInt 1]; TupleRow [VInt 1; VInt 2]].
Qed.

Lemma r_chain_wf : wf r_chain.
Proof.
  rows_wf ["X"; "Y"] [TupleRow [VInt 1; VInt 2]; TupleRow [VInt 2; VInt 3];
                        TupleRow [VInt 3; VInt 4]].
Qed.

Lemma r_view_scans : scans r_view [ {[ "a" := VInt 7 ]} ].
Proof.
  split; [apply NoDup_singleton|]. split; [|split; [|reflexivity]].
  - intros d ->%list_elem_of_singleton. vm_compute. reflexivity.
  - by intros d1 d2 a ->%list_elem_of_singleton ->%list_elem_of_singleton.
Qed.

Lemma tuple_union_idemp (t : Tuple) : t ∪ t = t.
Proof.
  apply map_eq. intros a. rewrite lookup_union. by destruct (t !! a).
Qed.

Lemma AND_same_heading (a b : Relation) :
  wf a → wf b → heading a = heading b →
  ∃ j, AND a b = Ok j ∧ wf j ∧ heading j = heading a
    ∧ constraint_definitions j = default_constraints
    ∧ ∀ d, d ∈ tuples j ↔ d ∈ tuples a ∧ d ∈ tuples b.
Proof.
  intros Ha Hb HH.
  destruct (AND_spec a b _ _ (wf_scans a Ha) (wf_scans b Hb))
    as (j & Hj & Hwf & Hh & Hd & _ & Hmem).
  exists j. split; [done|]. split; [done|]. split.
  { unfold heading at 1. rewrite Hh, heading_set_elements, <- HH. set_solver. }
  split; [done|]. intros d. rewrite Hmem. split.
  - intros (tr1 & t2 & H1 & H2 & Hag & ->).
    assert (tr1 = t2) as ->.
    { apply (agree_all_eq (heading a)); [by apply (tuples_dom a)| |].
      - rewrite HH. by apply (tuples_dom b).
      - intros c Hc. apply Hag. rewrite <- HH. set_solver. }
    by rewrite tuple_union_idemp.
  - intros [H1 H2]. exists d, d. split; [done|]. split; [done|].
    split; [done|]. by rewrite tuple_union_idemp.
Qed.

Lemma IS_EMPTY_wf (d : Relation) :
  wf d → IS_EMPTY d = Ok (bool_decide (length (tuples d) = 0)).
Proof.
  intros Hwf. unfold IS_EMPTY. rewrite (COUNT_wf d Hwf). unfold tuples.
  by rewrite length_fmap.
Qed.

Lemma COUNT_tuples (r : Relation) : wf r → COUNT r = Ok (length (tuples r)).
Proof.
  intros Hwf. rewrite (COUNT_wf r Hwf). unfold tuples. by rewrite length_fmap.
Qed.

(** [self - (self & rel)] is empty exactly when every tuple of [self] is a
    tuple of [rel]. *)
Lemma minus_and_empty (a b : Relation) :
  wf a → wf b → heading a = heading b →
  ∃ j d, AND a b = Ok j ∧ MINUS a j = Ok d ∧ wf d
    ∧ (length (tuples d) = 0 ↔ ∀ t, t ∈ tuples a → t ∈ tuples b).
Proof.
  intros Ha Hb HH.
  destruct (AND_same_heading a b Ha Hb HH) as (j & Hj & Hwfj & Hhj & _ & Hmj).
  destruct (MINUS_wf a j Ha Hwfj (eq_sym Hhj)) as (d & Hd & Hwfd & Hmd).
  exists j, d. split; [done|]. split; [done|]. split; [done|]. split.
  - intros Hl t Hin. destruct (decide (t ∈ tuples b)) as [|Hnin]; [done|].
    exfalso. assert (t ∈ tuples d) as Hin'.
    { apply Hmd. split; [done|]. rewrite Hmj. tauto. }
    destruct (tuples d); [|discriminate]. by apply elem_of_nil in Hin'.
  - intros Hall. destruct (tuples d) as [|t0 rest] eqn:E; [done|]. exfalso.
    assert (t0 ∈ t0 :: rest) as Hin by (by left).
    apply Hmd in Hin as [Hin Hnin]. apply Hnin. rewrite Hmj. auto.
Qed.

Lemma le_wf (a b : Relation) :
  wf a → wf b →
  ∃ bv : bool, __le__ a b = Ok bv
    ∧ (bv = true ↔ heading a = heading b
                   ∧ ∀ d, d ∈ tuples a → d ∈ tuples b).
Proof.
  intros Ha Hb. unfold __le__. case_decide as HH.
  - destruct (minus_and_empty a b Ha Hb HH) as (j & d & -> & Hd & Hwfd & Hiff).
    cbn [mbind Result_bind]. rewrite Hd. cbn [mbind Result_bind].
    rewrite (IS_EMPTY_wf d Hwfd). eexists. split; [done|].
    rewrite bool_decide_eq_true, Hiff. tauto.
  - exists false. split; [done|]. split; [done|]. by intros [? _].
Qed.

Lemma NoDup_subset_length_lt {A} `{EqDecision A} (l1 l2 : list A) :
  NoDup l1 → NoDup l2 → (∀ x, x ∈ l1 → x ∈ l2) →
  (length l1 < length l2 ↔ ∃ x, x ∈ l2 ∧ x ∉ l1).
Proof.
  intros Hn1 Hn2 Hsub. split.
  - intros Hlt. destruct (decide (Forall (λ x, x ∈ l1) l2)) as [Hall|Hnall].
    + exfalso. rewrite Forall_forall in Hall.
      pose proof (submseteq_length _ _ (NoDup_submseteq _ _ Hn2 Hall)). lia.
    + apply not_Forall_Exists in Hnall; [|apply _].
      apply Exists_exists in Hnall as (x & Hx & Hnx). by exists x.
  - intros (x & Hx & Hnx).
    assert (NoDup (x :: l1)) as Hn by (by constructor).
    assert (∀ y, y ∈ x :: l1 → y ∈ l2) as Hsub'.
    { intros y [->|Hy]%elem_of_cons; auto. }
    pose proof (submseteq_length _ _ (NoDup_submseteq _ _ Hn Hsub')) as Hl.
    simpl in Hl. lia.
Qed.

Lemma lt_wf (a b : Relation) :
  wf a → wf b →
  ∃ bv : bool, __lt__ a b = Ok bv
    ∧ (bv = true ↔ heading a = heading b
                   ∧ (∀ d, d ∈ tuples a → d ∈ tuples b)
                   ∧ ∃ d, d ∈ tuples b ∧ d ∉ tuples a).
Proof.
  intros Ha Hb. unfold __lt__. case_decide as HH.
  - destruct (minus_and_empty a b Ha Hb HH) as (j & d & -> & Hd & Hwfd & Hiff).
    cbn [mbind Result_bind]. rewrite Hd. cbn [mbind Result_bind].
    rewrite (IS_EMPTY_wf d Hwfd). cbn [mbind Result_bind].
    case_bool_decide as Hl.
    + rewrite (COUNT_tuples a Ha), (COUNT_tuples b Hb). cbn [mbind Result_bind].
      pose proof (proj1 Hiff Hl) as Hsub. clear Hl. rename Hsub into Hl.
      eexists. split; [done|].
      rewrite bool_decide_eq_true.
      rewrite (NoDup_subset_length_lt _ _ (tuples_NoDup a Ha)
                 (tuples_NoDup b Hb) Hl). tauto.
    + exists false. split; [done|]. split; [done|].
      intros (_ & Hsub & _). exfalso. by apply Hl, Hiff.
  - exists false. split; [done|]. split; [done|]. by intros [? _].
Qed.

(** [MINUS] with a zero-argument view on the left and a materialized
    relation on the right takes the branch [return MINUS(r2, r1)]. *)
Lemma MINUS_view_left (r1 r2 : Relation) :
  one_arg (_body r1) = false → callable (_body r1) = true →
  is_Some (match _body r2 with Materialized s => Some s | _ => None end) →
  MINUS r1 r2 = (if decide (heading r1 ≠ heading r2)
                 then Raise (RelationInvalidOperationException
                               "NOT can only handle same reltypes so far")
                 else MINUS_diff r2 r1)
  ∧ MINUS r2 r1 = (if decide (heading r2 ≠ heading r1)
                   then Raise (RelationInvalidOperationException
                                 "NOT can only handle same reltypes so far")
                   else MINUS_diff r2 r1).
Proof.
  intros H1 Hc [s2 E2]. unfold MINUS.
  destruct (_body r2) as [s2'|] eqn:E2'; [|done].
  destruct (_body r1) as [s1|[f|f] m] eqn:E1; [done| |done].
  cbn [MINUS_fuel]. rewrite E1, E2'.
  destruct (decide (heading r1 ≠ heading r2)) as [Hne|Heq].
  - split; [done|]. by rewrite decide_True by (intros E; by apply Hne).
  - assert (heading r1 = heading r2) as HH.
    { destruct (decide (heading r1 = heading r2)); [done|by exfalso]. }
    rewrite !decide_False by (intros E; by apply E). cbn [MINUS_fuel].
    rewrite ?decide_False by (intros E; by apply E). by rewrite ?E1, ?E2'.
Qed.



(** X2: [MINUS] raises the Invalid-Operation error when the headings
    differ; on operands with one heading that can be scanned, the left one
    materialized or both of them views, it returns a materialized relation
    over the left operand's heading holding exactly the tuples of the left
    operand that are not tuples of the right one. *)
Theorem MINUS_is_difference (r1 r2 : Relation) :
  (heading r1 ≠ heading r2 →
   MINUS r1 r2 = Raise (RelationInvalidOperationException
                          "NOT can only handle same reltypes so far"))
  ∧ (∀ L1 L2, heading r1 = heading r2 → scans r1 L1 → scans r2 L2 →
       (callable (_body r1) = true → callable (_body r2) = true) →
       ∃ r, MINUS r1 r2 = Ok r ∧ wf r ∧ _heading r = _heading r1
         ∧ ∀ d, d ∈ tuples r ↔ d ∈ L1 ∧ d ∉ L2).
Proof.
  split.
  - intros HH. unfold MINUS. cbn [MINUS_fuel]. by rewrite decide_True.
  - intros L1 L2 HH Hsc1 Hsc2 Hkind. unfold MINUS. cbn [MINUS_fuel].
    rewrite decide_False by (intros E; by apply E).
    pose proof Hsc1 as (_ & _ & _ & Hb1). pose proof Hsc2 as (_ & _ & _ & Hb2).
    destruct (_body r1) as [s1|[f1|f1] m1] eqn:E1; [| |done];
      destruct (_body r2) as [s2|[f2|f2] m2] eqn:E2; try done;
      try (by specialize (Hkind eq_refl));
      apply (MINUS_diff_spec r1 r2 L1 L2 Hsc1 Hsc2 HH).
Qed.

Lemma MINUS_is_difference_witness :
  MINUS r_123 r_chain = Raise (RelationInvalidOperationException
                                 "NOT can only handle same reltypes so far")
  ∧ ∃ r, MINUS r_123 r_13 = Ok r ∧ wf r ∧ _heading r = _heading r_123
      ∧ ∀ d, d ∈ tuples r ↔ d ∈ tuples r_123 ∧ d ∉ tuples r_13.
Proof.
  split.
  - apply (proj1 (MINUS_is_difference r_123 r_chain)). vm_compute.
    discriminate.
  - apply (proj2 (MINUS_is_difference r_123 r_13)).
    + vm_compute. reflexivity.
    + apply wf_scans, r_123_wf.
    + apply wf_scans, r_13_wf.
    + vm_compute. discriminate.
Defined.

(** X3: [MINUS] with a zero-argument view on the left and a materialized
    relation on the right swaps its operands ("optimise the order"): it
    returns what [MINUS] of the right operand and the left one returns, the
    tuples of the materialized relation that the view does not yield. *)
Theorem MINUS_swaps_view_on_the_left (r1 r2 : Relation) (L1 : list Tuple) :
  callable (_body r1) = true → one_arg (_body r1) = false →
  scans r1 L1 → wf r2 → heading r1 = heading r2 →
  ∃ r, MINUS r1 r2 = Ok r ∧ MINUS r2 r1 = Ok r ∧ wf r
       ∧ ∀ d, d ∈ tuples r ↔ d ∈ tuples r2 ∧ d ∉ L1.
Proof.
  intros Hc H1 Hsc Hwf HH. pose proof Hwf as (s2 & E2 & _).
  destruct (MINUS_view_left r1 r2 H1 Hc) as [Ea Eb].
  { rewrite E2. by eexists. }
  rewrite decide_False in Ea by (intros E; by apply E).
  rewrite decide_False in Eb by (intros E; by apply E).
  destruct (MINUS_diff_spec r2 r1 _ _ (wf_scans r2 Hwf) Hsc (eq_sym HH))
    as (r & Hr & Hwfr & _ & Hmem).
  exists r. rewrite Ea, Eb. done.
Qed.

Lemma MINUS_swaps_view_on_the_left_witness :
  ∃ r, MINUS r_view r_123 = Ok r ∧ MINUS r_123 r_view = Ok r ∧ wf r
       ∧ ∀ d, d ∈ tuples r
              ↔ d ∈ tuples r_123 ∧ d ∉ [ ({[ "a" := VInt 7 ]} : Tuple) ].
Proof.
  apply MINUS_swaps_view_on_the_left.
  - reflexivity.
  - reflexivity.
  - apply r_view_scans.
  - apply r_123_wf.
  - vm_compute. reflexivity.
Defined.

(** X4: on two well-formed materialized relations [==] never raises; it is
    true exactly when the headings are the same set of attributes and the
    bodies hold the same tuples, it gives the same answer with the operands
    exchanged, and [!=] gives the opposite answer. *)
Theorem eq_is_extensional (a b : Relation) :
  wf a → wf b →
  ∃ bv : bool, __eq__ a b = Ok bv ∧ __eq__ b a = Ok bv
    ∧ __ne__ a b = Ok (negb bv)
    ∧ (bv = true ↔ heading a = heading b
                   ∧ ∀ d, d ∈ tuples a ↔ d ∈ tuples b).
Proof.
  intros Ha Hb.
  destruct (eq_wf a b Ha Hb) as (bv & Hab & Hiff).
  destruct (eq_wf b a Hb Ha) as (bv' & Hba & Hiff').
  assert (bv' = bv) as ->.
  { destruct bv, bv'; try done.
    - destruct (proj1 Hiff eq_refl) as [HH Hs].
      apply Hiff'. split; [done|]. intros d. symmetry. apply Hs.
    - destruct (proj1 Hiff' eq_refl) as [HH Hs].
      symmetry. apply Hiff. split; [done|]. intros d. symmetry. apply Hs. }
  exists bv. split; [done|]. split; [done|]. split; [|done].
  unfold __ne__. by rewrite Hab.
Qed.

Lemma eq_is_extensional_witness :
  ∃ bv : bool, __eq__ r_123 r_13 = Ok bv ∧ __eq__ r_13 r_123 = Ok bv
    ∧ __ne__ r_123 r_13 = Ok (negb bv)
    ∧ (bv = true ↔ heading r_123 = heading r_13
                   ∧ ∀ d, d ∈ tuples r_123 ↔ d ∈ tuples r_13).
Proof. apply eq_is_extensional; [apply r_123_wf|apply r_13_wf]. Defined.

(** X5: on two well-formed materialized relations [<=] never raises and is
    true exactly when the headings are the same set and every tuple of the
    left operand is a tuple of the right one; [>=] is [<=] with the operands
    exchanged; and [a <= b] together with [b <= a] holds exactly when
    [a == b]. *)
Theorem le_is_subset (a b : Relation) :
  wf a → wf b →
  ∃ ab ba e : bool,
    __le__ a b = Ok ab ∧ __ge__ b a = Ok ab ∧ __le__ b a = Ok ba
    ∧ __eq__ a b = Ok e
    ∧ (ab = true ↔ heading a = heading b
                   ∧ ∀ d, d ∈ tuples a → d ∈ tuples b)
    ∧ (e = ab && ba).
Proof.
  intros Ha Hb.
  destruct (le_wf a b Ha Hb) as (ab & Hab & Hiff).
  destruct (le_wf b a Hb Ha) as (ba & Hba & Hiff').
  destruct (eq_wf a b Ha Hb) as (e & He & Hiffe).
  exists ab, ba, e. split; [done|]. split; [done|]. split; [done|].
  split; [done|]. split; [done|].
  destruct e.
  - destruct (proj1 Hiffe eq_refl) as [HH Hs]. symmetry.
    apply andb_true_intro. split.
    + apply Hiff. split; [done|]. intros d. apply Hs.
    + apply Hiff'. split; [done|]. intros d. apply Hs.
  - symmetry. apply andb_false_iff.
    destruct ab; [|by left]. destruct ba; [|by right]. exfalso.
    destruct (proj1 Hiff eq_refl) as [HH H1].
    destruct (proj1 Hiff' eq_refl) as [_ H2].
    assert (false = true); [|done]. apply Hiffe. split; [done|].
    intros d. split; auto.
Qed.

Lemma le_is_subset_witness :
  ∃ ab ba e : bool,
    __le__ r_13 r_123 = Ok ab ∧ __ge__ r_123 r_13 = Ok ab
    ∧ __le__ r_123 r_13 = Ok ba ∧ __eq__ r_13 r_123 = Ok e
    ∧ (ab = true ↔ heading r_13 = heading r_123
                   ∧ ∀ d, d ∈ tuples r_13 → d ∈ tuples r_123)
    ∧ (e = ab && ba).
Proof. apply le_is_subset; [apply r_13_wf|apply r_123_wf]. Defined.

(** X6: on two well-formed materialized relations [<] never raises and is
    true exactly when the headings are the same set, every tuple of the
    left operand is a tuple of the right one, and the right one holds a
    tuple the left one lacks; [>] is [<] with the operands exchanged. *)
Theorem lt_is_proper_subset (a b : Relation) :
  wf a → wf b →
  ∃ bv : bool, __lt__ a b = Ok bv ∧ __gt__ b a = Ok bv
    ∧ (bv = true ↔ heading a = heading b
                   ∧ (∀ d, d ∈ tuples a → d ∈ tuples b)
                   ∧ ∃ d, d ∈ tuples b ∧ d ∉ tuples a).
Proof.
  intros Ha Hb. destruct (lt_wf a b Ha Hb) as (bv & Hlt & Hiff).
  exists bv. split; [done|]. split; [done|]. done.
Qed.

Lemma lt_is_proper_subset_witness :
  ∃ bv : bool, __lt__ r_13 r_123 = Ok bv ∧ __gt__ r_123 r_13 = Ok bv
    ∧ (bv = true ↔ heading r_13 = heading r_123
                   ∧ (∀ d, d ∈ tuples r_13 → d ∈ tuples r_123)
                   ∧ ∃ d, d ∈ tuples r_123 ∧ d ∉ tuples r_13).
Proof. apply lt_is_proper_subset; [apply r_13_wf|apply r_123_wf]. Defined.

(** ** Projection, renaming, composition and construction *)

(** A loop that checks each element's attribute against a heading either
    passes, or raises for an element whose attribute is unknown. *)
Lemma forM_check {A} (key : A → string) (H : gset string)
    (E : string → Exception) (l : list A) :
  (Forall (λ x, key x ∈ H) l
   ∧ forM (λ (_ : unit) x,
             if decide (key x ∈ H) then Ok tt else Raise (E (key x))) l tt
     = Ok tt)
  ∨ (∃ x, x ∈ l ∧ key x ∉ H
          ∧ forM (λ (_ : unit) x,
                    if decide (key x ∈ H) then Ok tt else Raise (E (key x)))
              l tt
            = Raise (E (key x))).
Proof.
  induction l as [|x l IH].
  - left. split; [constructor|done].
  - rewrite forM_cons. destruct (decide (key x ∈ H)) as [Hx|Hx].
    + cbn [mbind Result_bind]. destruct IH as [[Hall Hok]|(y & Hy & Hny & Hr)].
      * left. split; [by constructor|done].
      * right. exists y. split; [by right|]. done.
    + right. exists x. split; [by left|]. done.
Qed.

Lemma validateHeading_cases (h : list string) :
  (NoDup h ∧ validateHeading h = Ok tt)
  ∨ (¬ NoDup h
     ∧ validateHeading h
       = Raise (RelationException "Heading attributes must be unique")).
Proof.
  destruct (validateHeading h) as [[]|e] eqn:E.
  - left. split; [by apply validateHeading_Ok|done].
  - right. split.
    + intros Hnd. apply validateHeading_Ok in Hnd. congruence.
    + unfold validateHeading in E. case_bool_decide; [|done]. congruence.
Qed.

Lemma project_spec (r : Relation) (L : list Tuple) (head : list string) :
  scans r L → NoDup head → (∀ a, a ∈ head → a ∈ heading r) →
  ∃ p, project r head = Ok p ∧ wf p
    ∧ heading p = list_to_set head
    ∧ (constraint_definitions r = default_constraints →
       constraint_definitions p = default_constraints)
    ∧ ∀ d', d' ∈ tuples p ↔ ∃ d, d ∈ L ∧ d' = restrict (list_to_set head) d.
Proof.
  intros Hsc Hnd Hsub. unfold project.
  apply validateHeading_Ok in Hnd as ->. cbn [mbind Result_bind].
  destruct (forM_check (λ a : string, a) (heading r)
              (λ a, RelationInvalidOperationException
                      ("Unknown attribute: " +:+ a)) head)
    as [[_ ->]|(x & Hx & Hnx & _)]; [|by destruct Hnx; apply Hsub].
  cbn [mbind Result_bind].
  destruct (REMOVE_spec r L (elements (heading r ∖ list_to_set head)) Hsc)
    as (p & Hp & Hwf & Hh & Hdef & Hmem).
  rewrite list_to_set_elements_L in Hh, Hmem.
  assert (heading r ∖ (heading r ∖ list_to_set head)
          = (list_to_set head : gset string)) as Eset.
  { apply set_eq. intros a. rewrite !elem_of_difference, elem_of_list_to_set.
    split.
    - intros [Ha Hn]. destruct (decide (a ∈ head)); [done|].
      exfalso. apply Hn. done.
    - intros Ha. split; [by apply Hsub|]. intros [_ Hn]. done. }
  rewrite Eset in Hh, Hmem.
  exists p. split; [done|]. split; [done|]. split.
  { unfold heading at 1. rewrite Hh. apply heading_set_elements. }
  split; done.
Qed.

(** X7: [project] (also written as a call of the relation) raises the
    heading error for a list with a repeated attribute and the
    Invalid-Operation error naming an attribute of the list that the
    relation lacks; otherwise, on a relation that can be scanned, it returns
    a materialized relation over exactly the listed attributes whose tuples
    are the tuples of the relation cut down to them, duplicates
    suppressed. *)
Theorem project_is_restriction (r : Relation) (L : list Tuple)
    (head : list string) :
  scans r L →
  (¬ NoDup head →
   project r head
   = Raise (RelationException "Heading attributes must be unique"))
  ∧ (NoDup head → (∃ a, a ∈ head ∧ a ∉ heading r) →
     ∃ b, b ∈ head ∧ b ∉ heading r
          ∧ project r head
            = Raise (RelationInvalidOperationException
                       ("Unknown attribute: " +:+ b)))
  ∧ (NoDup head → (∀ a, a ∈ head → a ∈ heading r) →
     ∃ p, project r head = Ok p ∧ wf p
       ∧ heading p = list_to_set head
       ∧ NoDup (tuples p)
       ∧ ∀ d', d' ∈ tuples p
               ↔ ∃ d, d ∈ L ∧ d' = restrict (list_to_set head) d).
Proof.
  intros Hsc. split; [|split].
  - intros Hnd. unfold project.
    destruct (validateHeading_cases head) as [[? _]|[_ ->]]; done.
  - intros Hnd (a & Ha & Hna). unfold project.
    apply validateHeading_Ok in Hnd as ->. cbn [mbind Result_bind].
    destruct (forM_check (λ a : string, a) (heading r)
                (λ a, RelationInvalidOperationException
                        ("Unknown attribute: " +:+ a)) head)
      as [[Hall _]|(x & Hx & Hnx & ->)].
    + rewrite Forall_forall in Hall. by destruct Hna; apply Hall.
    + by exists x.
  - intros Hnd Hsub.
    destruct (project_spec r L head Hsc Hnd Hsub)
      as (p & Hp & Hwf & Hh & _ & Hmem).
    exists p. split; [done|]. split; [done|]. split; [done|].
    split; [by apply tuples_NoDup|done].
Qed.

Lemma project_is_restriction_witness :
  project r_ab ["a"; "a"]
  = Raise (RelationException "Heading attributes must be unique")
  ∧ (∃ b, b ∈ ["a"; "c"] ∧ b ∉ heading r_ab
          ∧ project r_ab ["a"; "c"]
            = Raise (RelationInvalidOperationException
                       ("Unknown attribute: " +:+ b)))
  ∧ ∃ p, project r_ab ["a"] = Ok p ∧ wf p
      ∧ heading p = list_to_set ["a"]
      ∧ NoDup (tuples p)
      ∧ ∀ d', d' ∈ tuples p
              ↔ ∃ d, d ∈ tuples r_ab ∧ d' = restrict (list_to_set ["a"]) d.
Proof.
  pose proof (wf_scans _ r_ab_wf) as Hsc. split; [|split].
  - apply (proj1 (project_is_restriction _ _ _ Hsc)).
    intros Hnd. apply NoDup_cons in Hnd as [Hn _]. apply Hn. by left.
  - apply (proj1 (proj2 (project_is_restriction _ _ _ Hsc))).
    + apply (bool_decide_unpack _). vm_compute. exact I.
    + exists "c". split; [by right; left|]. vm_compute.
      intros H. by apply (bool_decide_pack _) in H.
  - apply (proj2 (proj2 (project_is_restriction _ _ _ Hsc))).
    + apply NoDup_singleton.
    + intros a ->%list_elem_of_singleton. apply (bool_decide_unpack _).
      vm_compute. exact I.
Defined.

(** X8: [rename] on a well-formed materialized relation raises the
    Invalid-Operation error naming a key of the map that is not an attribute
    of the relation; when it returns, the result is well formed, its heading
    is the old one renamed position by position, it holds the same rows, and
    its tuples are the old tuples read under the new names; and it does
    return, with the default constraints, on a relation carrying the default
    constraints when the new names are distinct. *)
Theorem rename_renames_heading (r : Relation) (m : gmap string string) :
  wf r →
  ((∃ k, is_Some (m !! k) ∧ k ∉ heading r) →
   ∃ k, is_Some (m !! k) ∧ k ∉ heading r
        ∧ rename r m = Raise (RelationInvalidOperationException
                                ("Unknown attribute: " +:+ k)))
  ∧ (∀ rn, rename r m = Ok rn →
       wf rn ∧ _heading rn = renamed m <$> _heading r
       ∧ (∀ t, t ∈ body_rows rn ↔ t ∈ body_rows r)
       ∧ ∀ d', d' ∈ tuples rn
               ↔ ∃ d, d ∈ tuples r ∧ dom d' = heading rn
                      ∧ ∀ a, a ∈ heading r → d' !! renamed m a = d !! a)
  ∧ (constraint_definitions r = default_constraints →
     (∀ k, is_Some (m !! k) → k ∈ heading r) →
     NoDup (renamed m <$> _heading r) →
     ∃ rn, rename r m = Ok rn
           ∧ constraint_definitions rn = default_constraints).
Proof.
  intros Hwf. split; [|split].
  - intros (k & Hk & Hnk). unfold rename.
    destruct (forM_check (λ kv : string * string, kv.1) (heading r)
                (λ a, RelationInvalidOperationException
                        ("Unknown attribute: " +:+ a)) (map_to_list m))
      as [[Hall _]|([k' v'] & Hin & Hn & ->)].
    + rewrite Forall_forall in Hall. destruct Hk as [v Hv]. destruct Hnk.
      apply (Hall (k, v)). by apply elem_of_map_to_list.
    + exists k'. split; [|done]. exists v'. by apply elem_of_map_to_list.
  - intros rn Hrn. destruct (rename_inv r rn m Hwf Hrn) as (? & ? & ? & _).
    split; [done|]. split; [done|]. split; [done|].
    by apply (rename_tuples r rn m).
  - intros Hdef Hk Hnd. by apply rename_default_Ok.
Qed.

Lemma rename_renames_heading_witness :
  (∃ k, is_Some (({[ "c" := "d" ]} : gmap string string) !! k)
        ∧ k ∉ heading r_ab
        ∧ rename r_ab {[ "c" := "d" ]}
          = Raise (RelationInvalidOperationException
                     ("Unknown attribute: " +:+ k)))
  ∧ ∃ rn, rename r_ab {[ "a" := "c" ]} = Ok rn
          ∧ constraint_definitions rn = default_constraints
          ∧ wf rn
          ∧ _heading rn = renamed {[ "a" := "c" ]} <$> _heading r_ab
          ∧ (∀ t, t ∈ body_rows rn ↔ t ∈ body_rows r_ab)
          ∧ ∀ d', d' ∈ tuples rn
              ↔ ∃ d, d ∈ tuples r_ab ∧ dom d' = heading rn
                     ∧ ∀ a, a ∈ heading r_ab
                            → d' !! renamed {[ "a" := "c" ]} a = d !! a.
Proof.
  split.
  - apply (proj1 (rename_renames_heading _ _ r_ab_wf)).
    exists "c". split; [by rewrite lookup_singleton_eq|]. vm_compute.
    intros H. by apply (bool_decide_pack _) in H.
  - destruct (proj2 (proj2 (rename_renames_heading _ {[ "a" := "c" ]}
                              r_ab_wf))) as (rn & Hrn & Hdef).
    + reflexivity.
    + intros k [v [<- _]%lookup_singleton_Some].
      apply (bool_decide_unpack _). vm_compute. exact I.
    + vm_compute. repeat constructor; set_solver.
    + exists rn. split; [done|]. split; [done|].
      apply (proj1 (proj2 (rename_renames_heading _ _ r_ab_wf)) rn Hrn).
Defined.

(** X9: [COMPOSE] of two well-formed materialized relations returns a
    materialized relation with the default constraints over the attributes
    that belong to exactly one of the two headings; its tuples are the
    joined tuples (unions of a tuple of each operand agreeing on the common
    attributes) with the common attributes removed. *)
Theorem COMPOSE_drops_common (r1 r2 : Relation) :
  wf r1 → wf r2 →
  ∃ c, COMPOSE r1 r2 = Ok c ∧ wf c
    ∧ constraint_definitions c = default_constraints
    ∧ heading c = (heading r1 ∖ heading r2) ∪ (heading r2 ∖ heading r1)
    ∧ ∀ d', d' ∈ tuples c
        ↔ ∃ d1 d2, d1 ∈ tuples r1 ∧ d2 ∈ tuples r2
                   ∧ agree (heading r1 ∩ heading r2) d1 d2
                   ∧ d' = restrict (heading r1 ∖ heading r2) d1
                          ∪ restrict (heading r2 ∖ heading r1) d2.
Proof.
  intros H1 H2.
  destruct (COMPOSE_spec r1 r2 H1 H2) as (c & Hc & Hwf & Hd & Hh & Hmem).
  exists c. split; [done|]. split; [done|]. split; [done|]. split.
  { rewrite Hh. apply set_eq. intros a.
    rewrite !elem_of_union, !elem_of_difference, elem_of_union,
      elem_of_intersection. tauto. }
  intros d'. rewrite Hmem. unfold joined.
  assert (∀ d1 d2, d1 ∈ tuples r1 → d2 ∈ tuples r2 →
            restrict ((heading r1 ∪ heading r2) ∖ (heading r1 ∩ heading r2))
              (d2 ∪ d1)
            = restrict (heading r1 ∖ heading r2) d1
              ∪ restrict (heading r2 ∖ heading r1) d2) as Hcut.
  { intros d1 d2 Hd1 Hd2. apply map_eq. intros a.
    pose proof (tuples_dom r1 d1 H1 Hd1) as Hdom1.
    pose proof (tuples_dom r2 d2 H2 Hd2) as Hdom2.
    rewrite lookup_union, !restrict_lookup, lookup_union.
    destruct (decide (a ∈ heading r1)) as [Ha1|Ha1];
      destruct (decide (a ∈ heading r2)) as [Ha2|Ha2].
    - rewrite !decide_False by set_solver. done.
    - rewrite decide_True by set_solver. rewrite decide_True by set_solver.
      rewrite decide_False by set_solver.
      assert (d2 !! a = None) as -> by (apply not_elem_of_dom; by rewrite Hdom2).
      by destruct (d1 !! a).
    - rewrite decide_True by set_solver. rewrite decide_False by set_solver.
      rewrite decide_True by set_solver.
      assert (d1 !! a = None) as -> by (apply not_elem_of_dom; by rewrite Hdom1).
      by destruct (d2 !! a).
    - rewrite !decide_False by set_solver. done. }
  split.
  - intros (d & (d1 & d2 & Hd1 & Hd2 & Hag & ->) & ->).
    exists d1, d2. split; [done|]. split; [done|]. split; [done|].
    by apply Hcut.
  - intros (d1 & d2 & Hd1 & Hd2 & Hag & ->). exists (d2 ∪ d1). split.
    + by exists d1, d2.
    + symmetry. by apply Hcut.
Qed.

Lemma COMPOSE_drops_common_witness :
  ∃ c, COMPOSE r_ab r_123 = Ok c ∧ wf c
    ∧ constraint_definitions c = default_constraints
    ∧ heading c
      = (heading r_ab ∖ heading r_123) ∪ (heading r_123 ∖ heading r_ab)
    ∧ ∀ d', d' ∈ tuples c
        ↔ ∃ d1 d2, d1 ∈ tuples r_ab ∧ d2 ∈ tuples r_123
                   ∧ agree (heading r_ab ∩ heading r_123) d1 d2
                   ∧ d' = restrict (heading r_ab ∖ heading r_123) d1
                          ∪ restrict (heading r_123 ∖ heading r_ab) d2.
Proof. apply COMPOSE_drops_common; [apply r_ab_wf|apply r_123_wf]. Defined.

(** X10: the constructor with the default constraints raises the heading
    error when an attribute is repeated; given rows that fit a duplicate-free
    heading and agree on the type of each column it returns; and what it
    returns holds each distinct row once: the body has no duplicates, a row
    is in it exactly when it was given, and [COUNT] is the number of
    distinct rows. *)
Theorem constructor_builds_a_set (Hs : list string) (body : list Row) :
  (¬ NoDup Hs →
   Relation0 Hs (BodyRows body)
   = Raise (RelationException "Heading attributes must be unique"))
  ∧ (NoDup Hs → Forall (conforming Hs) body →
     (∀ row1 t1 row2 t2, row1 ∈ body → row2 ∈ body →
        row_values Hs row1 = Ok t1 → row_values Hs row2 = Ok t2 →
        type_of <$> t1 = type_of <$> t2) →
     ∃ r, Relation0 Hs (BodyRows body) = Ok r)
  ∧ (∀ r, Forall (conforming Hs) body →
       Relation0 Hs (BodyRows body) = Ok r →
       wf r ∧ _heading r = Hs ∧ NoDup (body_rows r)
       ∧ (∀ t, t ∈ body_rows r
               ↔ ∃ row, row ∈ body ∧ row_values Hs row = Ok t)
       ∧ COUNT r = Ok (length (body_rows r))).
Proof.
  split; [|split].
  - intros Hnd. unfold Relation0.
    destruct (validateHeading_cases Hs) as [[? _]|[_ ->]]; done.
  - intros Hnd Hc Hty. by apply Relation0_is_Ok.
  - intros r Hc Hr.
    destruct (Relation0_Ok_inv Hs body r Hc Hr) as (Hwf & Hh & _ & _ & Hmem).
    split; [done|]. split; [done|]. split.
    { destruct Hwf as (s & Hb & Hwfs). rewrite (wf_body_rows r s Hb).
      apply (wf_nodup _ _ Hwfs). }
    split; [done|]. by apply COUNT_wf.
Qed.

Lemma constructor_builds_a_set_witness :
  Relation0 ["a"; "a"] (BodyRows [])
  = Raise (RelationException "Heading attributes must be unique")
  ∧ ∃ r, Relation0 ["a"] (BodyRows [TupleRow [VInt 1]; TupleRow [VInt 1];
                                     DictRow {[ "a" := VInt 2 ]}]) = Ok r
      ∧ wf r ∧ _heading r = ["a"] ∧ NoDup (body_rows r)
      ∧ (∀ t, t ∈ body_rows r
              ↔ ∃ row, row ∈ [TupleRow [VInt 1]; TupleRow [VInt 1];
                              DictRow {[ "a" := VInt 2 ]}]
                       ∧ row_values ["a"] row = Ok t)
      ∧ COUNT r = Ok (length (body_rows r)).
Proof.
  split.
  - refine (proj1 (constructor_builds_a_set _ _) _).
    intros Hnd. apply NoDup_cons in Hnd as [Hn _]. apply Hn. by left.
  - assert (Forall (conforming ["a"])
              [TupleRow [VInt 1]; TupleRow [VInt 1];
               DictRow {[ "a" := VInt 2 ]}]) as Hc by repeat constructor.
    destruct (proj1 (proj2 (constructor_builds_a_set ["a"]
                [TupleRow [VInt 1]; TupleRow [VInt 1];
                 DictRow {[ "a" := VInt 2 ]}]))) as [r Hr].
    + apply NoDup_singleton.
    + exact Hc.
    + intros row1 t1 row2 t2 H1 H2 E1 E2.
      repeat match goal with
             | H : _ ∈ _ :: _ |- _ => apply elem_of_cons in H as [->|H]
             | H : _ ∈ [] |- _ => by apply elem_of_nil in H
             end; vm_compute in E1, E2; by simplify_eq.
    + exists r. split; [done|].
      apply (proj2 (proj2 (constructor_builds_a_set _ _)) r Hc Hr).
Defined.

Lemma dictToTuple_missing (h : list string) (d : Tuple) :
  (∃ a, a ∈ h ∧ d !! a = None) →
  ∃ b, b ∈ h ∧ d !! b = None ∧ dictToTuple h d = Raise (KeyError b).
Proof.
  induction h as [|a h IH]; intros (x & Hx & Hnone).
  - by apply elem_of_nil in Hx.
  - rewrite dictToTuple_cons. destruct (d !! a) as [v|] eqn:Ha.
    + apply elem_of_cons in Hx as [->|Hx]; [congruence|].
      destruct IH as (b & Hb & Hbn & ->); [by exists x|].
      exists b. split; [by right|]. done.
    + exists a. split; [by left|]. done.
Qed.

(** X11: turning a row into a tuple and back is the identity in both
    directions: under a duplicate-free heading, [dictToTuple] of the tuple
    built from a row of the heading's length returns that row, and the
    tuple built from [dictToTuple] of a tuple over the heading is that
    tuple; [dictToTuple] of a tuple lacking an attribute of the heading
    raises [KeyError] for a lacking attribute. *)
Theorem row_tuple_round_trip (h : list string) :
  NoDup h →
  (∀ t, length t = length h → dictToTuple h (row_tuple h t) = Ok t)
  ∧ (∀ d, dom d = heading_set h →
       ∃ t, dictToTuple h d = Ok t ∧ length t = length h
            ∧ row_tuple h t = d)
  ∧ (∀ d, (∃ a, a ∈ h ∧ d !! a = None) →
       ∃ b, b ∈ h ∧ d !! b = None ∧ dictToTuple h d = Raise (KeyError b)).
Proof.
  intros Hnd. split; [|split].
  - intros t Hl. by apply dictToTuple_row_tuple.
  - intros d Hdom. destruct (dictToTuple_is_Ok h d) as [t Ht].
    { intros a Ha. apply elem_of_dom. rewrite Hdom.
      by apply elem_of_heading_set. }
    exists t. split; [done|]. split.
    + by apply dictToTuple_Ok in Ht as [? _].
    + by apply row_tuple_dictToTuple.
  - intros d. apply dictToTuple_missing.
Qed.

Lemma row_tuple_round_trip_witness :
  dictToTuple ["a"; "b"] (row_tuple ["a"; "b"] [VInt 1; VStr "x"])
  = Ok [VInt 1; VStr "x"]
  ∧ (∃ t, dictToTuple ["a"; "b"] (<["a" := VInt 1]> {[ "b" := VNone ]}) = Ok t
          ∧ length t = length ["a"; "b"]
          ∧ row_tuple ["a"; "b"] t = <["a" := VInt 1]> {[ "b" := VNone ]})
  ∧ ∃ b, b ∈ ["a"; "b"] ∧ ({[ "a" := VInt 1 ]} : Tuple) !! b = None
         ∧ dictToTuple ["a"; "b"] {[ "a" := VInt 1 ]} = Raise (KeyError b).
Proof.
  assert (NoDup ["a"; "b"]) as Hnd.
  { apply (bool_decide_unpack _). vm_compute. exact I. }
  split; [|split].
  - by apply (proj1 (row_tuple_round_trip _ Hnd)).
  - apply (proj1 (proj2 (row_tuple_round_trip _ Hnd))). vm_compute. reflexivity.
  - apply (proj2 (proj2 (row_tuple_round_trip _ Hnd))).
    exists "b". split; [by right; left|]. vm_compute. reflexivity.
Defined.

Lemma fromTuple_rows (tr : Tuple) :
  ∃ r s, fromTuple tr = Ok r ∧ wf r
    ∧ _heading r = (map_to_list tr).*1
    ∧ _body r = Materialized s ∧ rows s = [(map_to_list tr).*2].
Proof.
  unfold fromTuple, Relation0.
  pose proof (NoDup_fst_map_to_list tr) as Hnd.
  apply validateHeading_Ok in Hnd as Hv. rewrite Hv. cbn [mbind Result_bind].
  unfold setBody_with. cbn [_heading]. unfold _addToBody. cbn [add_rows].
  assert (conforming (map_to_list tr).*1 (TupleRow (map_to_list tr).*2)) as Hc.
  { simpl. by rewrite !length_fmap. }
  destruct (add_row_cases (map_to_list tr).*1 (empty_store (map_to_list tr).*1)
              (TupleRow (map_to_list tr).*2) (map_to_list tr).*2)
    as [[_ (t & Ht & _)]|[[_ Ht]|(idx' & E & _ & _ & Hwf)]];
    [by apply empty_store_wf|done|done| | |].
  - by apply elem_of_nil in Ht.
  - by apply elem_of_nil in Ht.
  - rewrite E. cbn. eexists _, _. split; [done|]. split; [by eexists|].
    done.
Qed.

Lemma fromTuple_spec (tr : Tuple) :
  ∃ r s, fromTuple tr = Ok r ∧ wf r ∧ heading r = dom tr ∧ tuples r = [tr]
    ∧ _body r = Materialized s ∧ rows s = [(map_to_list tr).*2].
Proof.
  destruct (fromTuple_rows tr) as (r & s & Hr & Hwf & Hh & Hb & Hrows).
  exists r, s. split; [done|]. split; [done|]. split; [|split; [|done]].
  - unfold heading. rewrite Hh. apply set_eq. intros a.
    rewrite elem_of_heading_set, elem_of_dom, list_elem_of_fmap. split.
    + intros ([k v] & -> & Hin%elem_of_map_to_list). by exists v.
    + intros [v Hv]. exists (a, v). split; [done|].
      by apply elem_of_map_to_list.
  - unfold tuples, body_rows. rewrite Hb, Hrows, Hh. cbn [fmap list_fmap].
    f_equal. unfold row_tuple, dict_of_items. rewrite zip_fst_snd.
    rewrite (list_to_map_proper _ (map_to_list tr)).
    + apply list_to_map_to_list.
    + rewrite fmap_reverse, reverse_Permutation.
      apply NoDup_fst_map_to_list.
    + apply reverse_Permutation.
Qed.

(** X12: [Relation.fromTuple] of a tuple always returns: a well-formed
    relation over the tuple's attributes that holds that tuple and nothing
    else; [toTuple] of it gives the tuple back; and [toTuple] of a
    materialized relation that does not hold exactly one row raises the
    Invalid-Operation error. *)
Theorem fromTuple_toTuple_round_trip (tr : Tuple) :
  (∃ r, fromTuple tr = Ok r ∧ wf r ∧ heading r = dom tr
        ∧ tuples r = [tr] ∧ toTuple r = Ok tr)
  ∧ ∀ r s, _body r = Materialized s → length (rows s) ≠ 1 →
      toTuple r = Raise (RelationInvalidOperationException
                           "Relation must contain a single tuple").
Proof.
  split.
  - destruct (fromTuple_spec tr) as (r & s & Hr & Hwf & Hh & Ht & Hb & Hrows).
    exists r. split; [done|]. split; [done|]. split; [done|].
    split; [done|]. unfold toTuple. rewrite Hb, Hrows.
    rewrite decide_False by (intros E; by apply E).
    rewrite (full_scan_wf r Hwf), Ht. done.
  - intros r s Hb Hl. unfold toTuple. rewrite Hb. by rewrite decide_True.
Qed.

Lemma fromTuple_toTuple_round_trip_witness :
  ∃ s, _body r_13 = Materialized s
    ∧ toTuple r_13 = Raise (RelationInvalidOperationException
                              "Relation must contain a single tuple").
Proof.
  eexists. split; [reflexivity|].
  eapply (proj2 (fromTuple_toTuple_round_trip ∅)); [reflexivity|].
  vm_compute. discriminate.
Defined.

(** ** TCLOSE computes the transitive closure *)

Lemma tc_of_included {A} (R R' : relation A) :
  (∀ x y, R' x y → tc R x y) → ∀ x y, tc R' x y → tc R x y.
Proof.
  intros Hinc x y Htc. induction Htc as [x y H|x y z H _ IH].
  - by apply Hinc.
  - etrans; [by apply Hinc|done].
Qed.

Lemma TCLOSE_graph (fuel : nat) (r T : Relation) (X Y : string) :
  wf r → elements (heading r) = [X; Y] → TCLOSE fuel r = Ok T →
  wf T ∧ heading T = heading r
  ∧ constraint_definitions T = default_constraints
  ∧ (∀ x y, holds r X Y x y → holds T X Y x y)
  ∧ (∀ x y, holds T X Y x y → tc (holds r X Y) x y)
  ∧ (∀ x y z, holds T X Y x y → holds T X Y y z → holds T X Y x z).
Proof.
  revert r. induction fuel as [|fuel IH]; intros r Hwf Hel Hrun; [done|].
  cbn [TCLOSE] in Hrun. case_decide as Hsz; [done|]. rewrite Hel in Hrun.
  inv_bind Hrun. rename x into rn, Hx into Hrn.
  inv_bind Hrun. rename x into c, Hx into Hc.
  inv_bind Hrun. rename x into c', Hx into Hc'.
  inv_bind Hrun. rename x into TTT, Hx into HT.
  inv_bind Hrun. rename x into b, Hx into Hb.
  destruct (round_union r X Y Hwf Hel rn c c' TTT Hrn Hc Hc') as [_ Hu].
  destruct (Hu HT) as (HwfT & HhT & HdT & Hholds).
  assert (∀ x y, holds TTT X Y x y → tc (holds r X Y) x y) as Hin.
  { intros x z [H|(y & H1 & H2)]%Hholds; [by apply tc_once|].
    eapply tc_l; [done|by apply tc_once]. }
  destruct b.
  - injection Hrun as <-. split; [done|]. split; [done|]. split; [done|].
    split; [intros x y H; apply Hholds; by left|]. split; [done|].
    destruct (eq_wf TTT r HwfT Hwf) as (bv & E & Hiff). rewrite Hb in E.
    injection E as <-. destruct (proj1 Hiff eq_refl) as [_ Hsame].
    assert (∀ x y, holds TTT X Y x y → holds r X Y x y) as Hback.
    { intros x y (d & Hd & Hxy). exists d. split; [by apply Hsame|done]. }
    intros x y z Hxy Hyz. apply Hholds. right. exists y. auto.
  - destruct (IH TTT HwfT) as (HwfT' & HhT' & HdT' & Ha & Hb' & Hc'');
      [by rewrite HhT|done|].
    split; [done|]. split; [by rewrite HhT'|]. split; [done|].
    split; [intros x y H; apply Ha, Hholds; by left|]. split; [|done].
    intros x y H. apply (tc_of_included _ (holds TTT X Y)); [done|].
    by apply Hb'.
Qed.

(** X13: when [TCLOSE] returns on a well-formed materialized binary
    relation, the result is a well-formed relation over the same two
    attributes whose pairs are exactly the transitive closure of the pairs
    of the argument. *)
Theorem TCLOSE_is_transitive_closure (fuel : nat) (r T : Relation)
    (X Y : string) :
  wf r → elements (heading r) = [X; Y] → TCLOSE fuel r = Ok T →
  wf T ∧ heading T = heading r
  ∧ ∀ x y, holds T X Y x y ↔ tc (holds r X Y) x y.
Proof.
  intros Hwf Hel Hrun.
  destruct (TCLOSE_graph fuel r T X Y Hwf Hel Hrun)
    as (HwfT & HhT & _ & Ha & Hb & Hc).
  split; [done|]. split; [done|]. intros x y. split; [apply Hb|].
  intros Htc. induction Htc as [x y H|x y z H _ IH].
  - by apply Ha.
  - apply (Hc x y z); [by apply Ha|done].
Qed.

Lemma TCLOSE_is_transitive_closure_witness :
  ∃ T, TCLOSE 3 r_chain = Ok T
    ∧ wf T ∧ heading T = heading r_chain
    ∧ ∀ x y, holds T "Y" "X" x y ↔ tc (holds r_chain "Y" "X") x y.
Proof.
  eexists. split; [vm_compute; reflexivity|].
  apply (TCLOSE_is_transitive_closure 3).
  - apply r_chain_wf.
  - vm_compute. reflexivity.
  - vm_compute. reflexivity.
Defined.

(** ** insert and delete, when they return *)

Lemma delete_NoDup_mem {A} (l : list A) (i : nat) (x : A) :
  NoDup l → l !! i = Some x → ∀ y, y ∈ delete i l ↔ y ∈ l ∧ y ≠ x.
Proof.
  intros Hnd Hi y. pose proof (delete_Permutation l i x Hi) as Hp.
  rewrite Hp in Hnd. apply NoDup_cons in Hnd as [Hn _].
  rewrite (elem_of_Permutation_proper y _ _ Hp), elem_of_cons. split.
  - intros Hy. split; [by right|]. by intros ->.
  - intros [[->|Hy] Hne]; done.
Qed.

Lemma remove_row_Ok_inv (h : list string) (s s' : Store) (row : Row)
    (t : list Value) :
  wf_store h s → conforming h row → row_values h row = Ok t →
  remove_row h s row = (s', Ok tt) →
  wf_store h s' ∧ ∀ y, y ∈ rows s' ↔ y ∈ rows s ∧ y ≠ t.
Proof.
  intros Hwf Hc Ht Hrun.
  pose proof (remove_row_wf h s row Hwf Hc) as Hwf'. rewrite Hrun in Hwf'.
  split; [done|]. unfold remove_row in Hrun.
  destruct (check_types h s row) as [[]|]; [|done].
  destruct (hashfind_exact h s row t Hwf Hc Ht) as (found & Hf & Hfound).
  rewrite Hf in Hrun.
  destruct (head (elements found)) as [ri|] eqn:Hhd.
  - assert (rows s !! ri = Some t) as Hri.
    { apply Hfound, elem_of_elements. destruct (elements found); [done|].
      injection Hhd as ->. by left. }
    destruct (unindex_row h ri (headingInvert s)) as [idx res].
    injection Hrun as <- _. cbn [rows].
    apply delete_NoDup_mem; [apply (wf_nodup _ _ Hwf)|done].
  - injection Hrun as <-. intros y. split; [|by intros [? _]].
    intros Hy. split; [done|]. intros ->.
    apply list_elem_of_lookup in Hy as [i Hi]. apply Hfound in Hi.
    apply elem_of_elements in Hi. destruct (elements found); [|done].
    by apply elem_of_nil in Hi.
Qed.

Lemma remove_rows_Ok_inv (h : list string) (s s' : Store) (body : list Row) :
  wf_store h s → Forall (conforming h) body →
  remove_rows h s body = (s', Ok tt) →
  wf_store h s'
  ∧ ∀ y, y ∈ rows s'
         ↔ y ∈ rows s ∧ ∀ row, row ∈ body → row_values h row ≠ Ok y.
Proof.
  revert s. induction body as [|row body IH]; intros s Hwf Hc Hrun.
  - injection Hrun as <-. split; [done|]. intros y. split; [|by intros [? _]].
    intros Hy. split; [done|]. intros row Hr. by apply elem_of_nil in Hr.
  - apply Forall_cons in Hc as [Hc Hcs]. cbn [remove_rows] in Hrun.
    destruct (conforming_row_values h row Hc) as (t & Ht & _).
    destruct (remove_row h s row) as [s1 [[]|e]] eqn:E1; [|done].
    destruct (remove_row_Ok_inv h s s1 row t Hwf Hc Ht E1) as [Hwf1 Hm1].
    destruct (IH s1 Hwf1 Hcs Hrun) as [Hwf' Hm'].
    split; [done|]. intros y. rewrite Hm', Hm1. split.
    + intros [[Hy Hne] Hall]. split; [done|].
      intros row' [->|Hr]%elem_of_cons; [congruence|by apply Hall].
    + intros [Hy Hall]. split; [split; [done|]|].
      * intros ->. by apply (Hall row); [left|].
      * intros row' Hr. apply Hall. by right.
Qed.

Lemma Forall2_elem_of_r {A B} (P : A → B → Prop) (l : list A) (k : list B) :
  Forall2 P l k → ∀ y, y ∈ k → ∃ x, x ∈ l ∧ P x y.
Proof.
  intros Hf y [i Hi]%list_elem_of_lookup.
  destruct (Forall2_lookup_r _ _ _ _ _ Hf Hi) as (x & Hx & HP).
  exists x. split; [by eapply list_elem_of_lookup_2|done].
Qed.

Lemma Forall2_elem_of_l {A B} (P : A → B → Prop) (l : list A) (k : list B) :
  Forall2 P l k → ∀ x, x ∈ l → ∃ y, y ∈ k ∧ P x y.
Proof.
  intros Hf x [i Hi]%list_elem_of_lookup.
  destruct (Forall2_lookup_l _ _ _ _ _ Hf Hi) as (y & Hy & HP).
  exists y. split; [by eapply list_elem_of_lookup_2|done].
Qed.

(** The rows of the batch built from the tuples that [rel] yields stand for
    exactly those tuples. *)
Lemma batch_of_tuples (r rel : Relation) (L : list Tuple) (Bs : list Row) :
  NoDup (_heading r) → scans rel L → heading r = heading rel →
  batch_of r rel = Ok Bs →
  Forall (conforming (_heading r)) Bs
  ∧ ∀ d, (∃ row t, row ∈ Bs ∧ row_values (_heading r) row = Ok t
                   ∧ d = row_tuple (_heading r) t) ↔ d ∈ L.
Proof.
  intros Hnd Hsc HH Hb. split; [by eapply batch_of_conforming|].
  unfold batch_of in Hb. rewrite (scans_full rel L Hsc) in Hb.
  apply for_gen_Ok_inv in Hb as [_ Hb]. cbn [yielded] in Hb.
  apply forM_append_row in Hb as (ts & Hf & ->). cbn [app].
  destruct Hsc as (_ & Hdom & _).
  intros d. split.
  - intros (row & t & (t' & -> & Ht')%list_elem_of_fmap & [= <-] & ->).
    destruct (Forall2_elem_of_r _ _ _ Hf t' Ht') as (d0 & Hd0 & Hdt).
    rewrite (row_tuple_dictToTuple (_heading r) d0 t'); [done|done| |done].
    rewrite (Hdom d0 Hd0). by rewrite <- HH.
  - intros Hd. destruct (Forall2_elem_of_l _ _ _ Hf d Hd) as (t & Ht & Hdt).
    exists (TupleRow t), t. split; [by apply list_elem_of_fmap_2|].
    split; [done|]. symmetry.
    apply row_tuple_dictToTuple; [done| |done].
    rewrite (Hdom d Hd). by rewrite <- HH.
Qed.

(** X14: for relations holding [None], integers and strings (no booleans
    or floats, so that a value passes the type check of a column exactly
    when it has the type of the column): when [insert] (also [|=]) returns
    on a well-formed materialized relation, for an argument that can be
    scanned, the two headings are the same set, the object is still well
    formed (each column of one type, the index agreeing with the body) with
    its heading and constraints unchanged, and it holds exactly the tuples
    it held together with the tuples of the argument. *)
Theorem insert_is_union (scope : ScopeOf) (r rel r' : Relation)
    (L : list Tuple) :
  wf r → scans rel L → insert_ scope r rel = (r', Ok tt) →
  wf r' ∧ heading rel = heading r ∧ _heading r' = _heading r
  ∧ constraint_definitions r' = constraint_definitions r
  ∧ constraints r' = constraints r
  ∧ ∀ d, d ∈ tuples r' ↔ d ∈ tuples r ∨ d ∈ L.
Proof.
  intros Hwf Hsc Hrun. pose proof Hwf as (s & Hb & Hwfs).
  unfold insert_ in Hrun. rewrite Hb in Hrun. cbn [callable] in Hrun.
  case_decide as HH; [done|].
  assert (heading r = heading rel) as Heq.
  { destruct (decide (heading r = heading rel)); [done|by exfalso]. }
  destruct (batch_of r rel) as [Bs|e] eqn:HBs; [|done].
  destruct (batch_of_tuples r rel L Bs (wf_heading _ _ Hwfs) Hsc Heq HBs)
    as [Hc Hbatch].
  unfold addToBody in Hrun. rewrite Hb in Hrun.
  destruct (_addToBody _ (_heading r) s Bs false) as [s' res] eqn:Hadd.
  injection Hrun as <- ->. unfold _addToBody in Hadd.
  destruct (add_rows (_heading r) s Bs) as [s1 [[]|e]] eqn:Hrows; [|done].
  assert (s' = s1) as ->.
  { destruct (_checkConstraints _ _); [congruence|].
    by destruct (remove_rows (_heading r) s1 Bs) as [? [[]|?]]. }
  destruct (add_rows_Ok_inv _ _ _ _ Hwfs Hc Hrows) as [Hwf1 Hmem].
  split; [by exists s1|]. split; [done|]. split; [done|]. split; [done|].
  split; [done|]. intros d. unfold tuples at 1 2, body_rows. cbn. rewrite Hb.
  rewrite !list_elem_of_fmap. rewrite <- Hbatch. split.
  - intros (t & -> & [Ht|(row & Hrow & Hv)]%Hmem); [left; eauto|].
    right. by exists row, t.
  - intros [(t & -> & Ht)|(row & t & Hrow & Hv & ->)].
    + exists t. split; [done|]. apply Hmem. by left.
    + exists t. split; [done|]. apply Hmem. right. eauto.
Qed.

Lemma insert_is_union_witness :
  ∃ r', insert_ (λ _, no_scope) r_13 r_123 = (r', Ok tt)
    ∧ wf r' ∧ heading r_123 = heading r_13 ∧ _heading r' = _heading r_13
    ∧ constraint_definitions r' = constraint_definitions r_13
    ∧ constraints r' = constraints r_13
    ∧ ∀ d, d ∈ tuples r' ↔ d ∈ tuples r_13 ∨ d ∈ tuples r_123.
Proof.
  eexists. split; [vm_compute; reflexivity|].
  eapply (insert_is_union (λ _, no_scope)).
  - apply r_13_wf.
  - apply wf_scans, r_123_wf.
  - vm_compute. reflexivity.
Defined.

(** X15: when [delete] (also [-=]) returns on a well-formed materialized
    relation, for an argument that can be scanned, the two headings are the
    same set, the object is still well formed with its heading and
    constraints unchanged, and it holds exactly the tuples it held that are
    not tuples of the argument; tuples of the argument that it did not hold
    are ignored. *)
Theorem delete_is_difference (scope : ScopeOf) (r rel r' : Relation)
    (L : list Tuple) :
  wf r → scans rel L → delete_ scope r rel = (r', Ok tt) →
  wf r' ∧ heading rel = heading r ∧ _heading r' = _heading r
  ∧ constraint_definitions r' = constraint_definitions r
  ∧ constraints r' = constraints r
  ∧ ∀ d, d ∈ tuples r' ↔ d ∈ tuples r ∧ d ∉ L.
Proof.
  intros Hwf Hsc Hrun. pose proof Hwf as (s & Hb & Hwfs).
  unfold delete_ in Hrun. rewrite Hb in Hrun. cbn [callable] in Hrun.
  case_decide as HH; [done|].
  assert (heading r = heading rel) as Heq.
  { destruct (decide (heading r = heading rel)); [done|by exfalso]. }
  destruct (batch_of r rel) as [Bs|e] eqn:HBs; [|done].
  destruct (batch_of_tuples r rel L Bs (wf_heading _ _ Hwfs) Hsc Heq HBs)
    as [Hc Hbatch].
  unfold removeFromBody in Hrun. rewrite Hb in Hrun.
  destruct (_removeFromBody _ (_heading r) s Bs false) as [s' res] eqn:Hrem.
  injection Hrun as <- ->. unfold _removeFromBody in Hrem.
  destruct (remove_rows (_heading r) s Bs) as [s1 [[]|e]] eqn:Hrows; [|done].
  assert (s' = s1) as ->.
  { destruct (_checkConstraints _ _); [congruence|].
    by destruct (add_rows (_heading r) s1 Bs) as [? [[]|?]]. }
  destruct (remove_rows_Ok_inv _ _ _ _ Hwfs Hc Hrows) as [Hwf1 Hmem].
  split; [by exists s1|]. split; [done|]. split; [done|]. split; [done|].
  split; [done|]. intros d. unfold tuples at 1 2, body_rows. cbn. rewrite Hb.
  rewrite !list_elem_of_fmap. rewrite <- Hbatch. split.
  - intros (t & -> & [Ht Hall]%Hmem). split; [eauto|].
    intros (row & t' & Hrow & Hv & Htt).
    apply row_tuple_inj in Htt; [|apply (wf_heading _ _ Hwfs)| |].
    + subst t'. by apply (Hall row).
    + pose proof (wf_len _ _ Hwfs) as Hl. rewrite Forall_forall in Hl.
      by apply Hl.
    + rewrite Forall_forall in Hc.
      destruct (conforming_row_values _ row (Hc row Hrow)) as (t0 & Ht0 & ?).
      congruence.
  - intros [(t & -> & Ht) Hnot]. exists t. split; [done|]. apply Hmem.
    split; [done|]. intros row Hrow Hv. apply Hnot. by exists row, t.
Qed.

Lemma delete_is_difference_witness :
  ∃ r', delete_ (λ _, no_scope) r_123 r_13 = (r', Ok tt)
    ∧ wf r' ∧ heading r_13 = heading r_123 ∧ _heading r' = _heading r_123
    ∧ constraint_definitions r' = constraint_definitions r_123
    ∧ constraints r' = constraints r_123
    ∧ ∀ d, d ∈ tuples r' ↔ d ∈ tuples r_123 ∧ d ∉ tuples r_13.
Proof.
  eexists. split; [vm_compute; reflexivity|].
  eapply (delete_is_difference (λ _, no_scope)).
  - apply r_123_wf.
  - apply wf_scans, r_13_wf.
  - vm_compute. reflexivity.
Defined.

(** ** Semijoin, semidifference and laws of the algebra *)

Lemma MINUS_wf_heading (a b : Relation) :
  wf a → wf b → heading a = heading b →
  ∃ r, MINUS a b = Ok r ∧ wf r ∧ _heading r = _heading a
       ∧ ∀ d, d ∈ tuples r ↔ d ∈ tuples a ∧ d ∉ tuples b.
Proof.
  intros Ha Hb HH. unfold MINUS. cbn [MINUS_fuel].
  rewrite decide_False by (intros E; by apply E).
  pose proof Ha as (sa & Ea & _). rewrite Ea.
  apply (MINUS_diff_spec a b _ _ (wf_scans a Ha) (wf_scans b Hb) HH).
Qed.

Lemma SEMIJOIN_spec (r1 r2 : Relation) :
  wf r1 → wf r2 →
  ∃ m, SEMIJOIN r1 r2 = Ok m ∧ wf m ∧ heading m = heading r1
    ∧ ∀ d, d ∈ tuples m
           ↔ d ∈ tuples r1
             ∧ ∃ d2, d2 ∈ tuples r2 ∧ agree (heading r1 ∩ heading r2) d d2.
Proof.
  intros H1 H2. unfold SEMIJOIN.
  destruct (AND_spec r1 r2 _ _ (wf_scans r1 H1) (wf_scans r2 H2))
    as (j & -> & Hwfj & Hhj & _ & _ & Hj).
  cbn [mbind Result_bind].
  assert (heading j = heading r1 ∪ heading r2) as HHj.
  { unfold heading at 1. rewrite Hhj. apply heading_set_elements. }
  destruct (REMOVE_spec j _ (elements (heading r2 ∖ heading r1))
              (wf_scans j Hwfj)) as (m & -> & Hwfm & Hhm & _ & Hm).
  rewrite list_to_set_elements_L, HHj in Hhm, Hm.
  assert ((heading r1 ∪ heading r2) ∖ (heading r2 ∖ heading r1) = heading r1)
    as Eset.
  { apply set_eq. intros a.
    rewrite elem_of_difference, elem_of_union, elem_of_difference.
    destruct (decide (a ∈ heading r1)); tauto. }
  rewrite Eset in Hhm, Hm.
  exists m. split; [done|]. split; [done|]. split.
  { unfold heading at 1. rewrite Hhm. apply heading_set_elements. }
  assert (∀ tr1 t2, tr1 ∈ tuples r1 → t2 ∈ tuples r2 →
            agree (heading r1 ∩ heading r2) tr1 t2 →
            restrict (heading r1) (t2 ∪ tr1) = tr1) as Hcut.
  { intros tr1 t2 Hd1 Hd2 Hag. apply map_eq. intros a.
    pose proof (tuples_dom r1 tr1 H1 Hd1) as Hdom1.
    pose proof (tuples_dom r2 t2 H2 Hd2) as Hdom2.
    rewrite restrict_lookup. case_decide as Ha.
    - destruct (decide (a ∈ heading r2)) as [Ha2|Ha2].
      + rewrite lookup_union_l'.
        * symmetry. apply Hag. set_solver.
        * apply elem_of_dom. by rewrite Hdom2.
      + apply lookup_union_r. apply not_elem_of_dom. by rewrite Hdom2.
    - symmetry. apply not_elem_of_dom. by rewrite Hdom1. }
  intros d. rewrite Hm. split.
  - intros (d0 & (tr1 & t2 & Hd1 & Hd2 & Hag & ->)%Hj & ->).
    rewrite (Hcut tr1 t2) by done. split; [done|]. by exists t2.
  - intros (Hd & d2 & Hd2 & Hag). exists (d2 ∪ d). split.
    + apply Hj. by exists d, d2.
    + symmetry. by apply Hcut.
Qed.

(** X16: on two well-formed materialized relations [SEMIJOIN] (also
    [MATCHING]) returns the tuples of the first operand that agree with some
    tuple of the second on the common attributes, and [SEMIMINUS] (also
    [NOT_MATCHING]) returns the tuples of the first operand that agree with
    none; both results are over the heading of the first operand, and every
    tuple of the first operand is in exactly one of them. *)
Theorem SEMIJOIN_SEMIMINUS_split (r1 r2 : Relation) :
  wf r1 → wf r2 →
  ∃ m n, SEMIJOIN r1 r2 = Ok m ∧ SEMIMINUS r1 r2 = Ok n
    ∧ wf m ∧ wf n ∧ heading m = heading r1 ∧ heading n = heading r1
    ∧ (∀ d, d ∈ tuples m
            ↔ d ∈ tuples r1
              ∧ ∃ d2, d2 ∈ tuples r2 ∧ agree (heading r1 ∩ heading r2) d d2)
    ∧ (∀ d, d ∈ tuples n
            ↔ d ∈ tuples r1
              ∧ ¬ ∃ d2, d2 ∈ tuples r2
                        ∧ agree (heading r1 ∩ heading r2) d d2)
    ∧ ∀ d, d ∈ tuples r1 → (d ∈ tuples m ∧ d ∉ tuples n)
                            ∨ (d ∈ tuples n ∧ d ∉ tuples m).
Proof.
  intros H1 H2.
  destruct (SEMIJOIN_spec r1 r2 H1 H2) as (m & Hm & Hwfm & Hhm & Hmem).
  destruct (MINUS_wf_heading r1 m H1 Hwfm (eq_sym Hhm))
    as (n & Hn & Hwfn & Hhn & Hmemn).
  exists m, n. split; [done|]. split.
  { unfold SEMIMINUS. by rewrite Hm. }
  split; [done|]. split; [done|]. split; [done|]. split.
  { unfold heading. by rewrite Hhn. }
  split; [done|]. split.
  - intros d. rewrite Hmemn, Hmem. split.
    + intros [Hd Hnot]. split; [done|]. intros Hex. apply Hnot. by split.
    + intros [Hd Hnot]. split; [done|]. intros [_ Hex]. by apply Hnot.
  - intros d Hd. destruct (decide (d ∈ tuples m)) as [Hin|Hnin].
    + left. split; [done|]. rewrite Hmemn. by intros [_ ?].
    + right. split; [|done]. by apply Hmemn.
Qed.

Lemma SEMIJOIN_SEMIMINUS_split_witness :
  ∃ m n, SEMIJOIN r_ab r_123 = Ok m ∧ SEMIMINUS r_ab r_123 = Ok n
    ∧ wf m ∧ wf n ∧ heading m = heading r_ab ∧ heading n = heading r_ab
    ∧ (∀ d, d ∈ tuples m
            ↔ d ∈ tuples r_ab
              ∧ ∃ d2, d2 ∈ tuples r_123
                      ∧ agree (heading r_ab ∩ heading r_123) d d2)
    ∧ (∀ d, d ∈ tuples n
            ↔ d ∈ tuples r_ab
              ∧ ¬ ∃ d2, d2 ∈ tuples r_123
                        ∧ agree (heading r_ab ∩ heading r_123) d d2)
    ∧ ∀ d, d ∈ tuples r_ab → (d ∈ tuples m ∧ d ∉ tuples n)
                              ∨ (d ∈ tuples n ∧ d ∉ tuples m).
Proof. apply SEMIJOIN_SEMIMINUS_split; [apply r_ab_wf|apply r_123_wf]. Defined.

Lemma TABLE_DEE_value :
  ∃ dee, TABLE_DEE = Ok dee ∧ wf dee ∧ heading dee = ∅ ∧ tuples dee = [∅].
Proof.
  eexists. split; [vm_compute; reflexivity|]. split; [|split].
  - apply reachable_wf. eapply (reach_Relation0 [] [DictRow ∅]).
    + repeat constructor.
    + vm_compute. reflexivity.
  - vm_compute. reflexivity.
  - vm_compute. reflexivity.
Qed.

Lemma TABLE_DUM_value :
  ∃ dum, TABLE_DUM = Ok dum ∧ wf dum ∧ heading dum = ∅ ∧ tuples dum = [].
Proof.
  eexists. split; [vm_compute; reflexivity|]. split; [|split].
  - apply reachable_wf. eapply (reach_Relation0 [] []).
    + repeat constructor.
    + vm_compute. reflexivity.
  - vm_compute. reflexivity.
  - vm_compute. reflexivity.
Qed.

(** X17: on a well-formed materialized relation, [AND] is idempotent
    ([r & r == r]), [TABLE_DEE] is its identity ([r & DEE == r]), and
    [r & TABLE_DUM] is the empty relation over the heading of [r]. *)
Theorem AND_idempotent_with_identity (r : Relation) :
  wf r →
  (∃ a, AND r r = Ok a ∧ __eq__ a r = Ok true)
  ∧ (∃ dee a, TABLE_DEE = Ok dee ∧ AND r dee = Ok a ∧ __eq__ a r = Ok true)
  ∧ (∃ dum a, TABLE_DUM = Ok dum ∧ AND r dum = Ok a
              ∧ heading a = heading r ∧ tuples a = []
              ∧ IS_EMPTY a = Ok true).
Proof.
  intros Hwf. split; [|split].
  - destruct (AND_same_heading r r Hwf Hwf eq_refl)
      as (a & Ha & Hwfa & Hha & _ & Hmem).
    exists a. split; [done|].
    destruct (eq_wf a r Hwfa Hwf) as (bv & -> & Hiff). f_equal.
    apply Hiff. split; [done|]. intros d. rewrite Hmem. tauto.
  - destruct TABLE_DEE_value as (dee & Hdee & Hwfd & Hhd & Htd).
    destruct (AND_spec r dee _ _ (wf_scans r Hwf) (wf_scans dee Hwfd))
      as (a & Ha & Hwfa & Hha & _ & _ & Hmem).
    exists dee, a. split; [done|]. split; [done|].
    destruct (eq_wf a r Hwfa Hwf) as (bv & -> & Hiff). f_equal.
    apply Hiff. split.
    { unfold heading at 1. rewrite Hha, heading_set_elements, Hhd.
      set_solver. }
    intros d. rewrite Hmem. unfold joined. rewrite Htd. split.
    + intros (tr1 & t2 & H1 & ->%list_elem_of_singleton & _ & ->).
      by rewrite (left_id_L ∅ (∪)).
    + intros Hd. exists d, ∅. split; [done|].
      split; [by apply list_elem_of_singleton|]. split.
      * intros c Hc. rewrite Hhd in Hc. set_solver.
      * by rewrite (left_id_L ∅ (∪)).
  - destruct TABLE_DUM_value as (dum & Hdum & Hwfd & Hhd & Htd).
    destruct (AND_spec r dum _ _ (wf_scans r Hwf) (wf_scans dum Hwfd))
      as (a & Ha & Hwfa & Hha & _ & _ & Hmem).
    exists dum, a. split; [done|]. split; [done|].
    assert (tuples a = []) as Hnil.
    { destruct (tuples a) as [|d rest] eqn:E; [done|]. exfalso.
      assert (d ∈ d :: rest) as Hd by (by left).
      apply Hmem in Hd as (tr1 & t2 & _ & H2 & _). rewrite Htd in H2.
      by apply elem_of_nil in H2. }
    split.
    { unfold heading at 1. rewrite Hha, heading_set_elements, Hhd.
      set_solver. }
    split; [done|]. rewrite (IS_EMPTY_wf a Hwfa), Hnil. done.
Qed.

Lemma AND_idempotent_with_identity_witness :
  (∃ a, AND r_ab r_ab = Ok a ∧ __eq__ a r_ab = Ok true)
  ∧ (∃ dee a, TABLE_DEE = Ok dee ∧ AND r_ab dee = Ok a
              ∧ __eq__ a r_ab = Ok true)
  ∧ (∃ dum a, TABLE_DUM = Ok dum ∧ AND r_ab dum = Ok a
              ∧ heading a = heading r_ab ∧ tuples a = []
              ∧ IS_EMPTY a = Ok true).
Proof. apply AND_idempotent_with_identity, r_ab_wf. Defined.

(** X18: on two well-formed materialized relations with the same heading
    that hold [None], integers and strings (no booleans or floats, so that
    equal values are identical and the joined tuples are tuples of the
    first operand as they stand), the tuples in both and the tuples only in
    the first make up the first: [(a & b) | (a - b) == a]; the two parts
    share no tuple, and [a - (a - b) == a & b]. *)
Theorem AND_MINUS_decompose (a b : Relation) :
  wf a → wf b → heading a = heading b →
  ∃ j d u dd,
    AND a b = Ok j ∧ MINUS a b = Ok d ∧ OR j d = Ok u
    ∧ __eq__ u a = Ok true
    ∧ (∀ t, t ∈ tuples j → t ∉ tuples d)
    ∧ MINUS a d = Ok dd ∧ __eq__ dd j = Ok true.
Proof.
  intros Ha Hb HH.
  destruct (AND_same_heading a b Ha Hb HH) as (j & Hj & Hwfj & Hhj & _ & Hmj).
  destruct (MINUS_wf_heading a b Ha Hb HH) as (d & Hd & Hwfd & Hhd & Hmd).
  assert (heading d = heading a) as HHd by (unfold heading; by rewrite Hhd).
  destruct (OR_spec j d _ _ (wf_scans j Hwfj) (wf_scans d Hwfd))
    as (u & Hu & Hwfu & Hhu & _ & _ & Hmu).
  { by rewrite Hhj, HHd. }
  { intros t1 t2 c H1 H2. apply (tuples_types a); [done| |].
    - by apply Hmj in H1 as [? _].
    - by apply Hmd in H2 as [? _]. }
  destruct (MINUS_wf_heading a d Ha Hwfd (eq_sym HHd))
    as (dd & Hdd & Hwfdd & Hhdd & Hmdd).
  exists j, d, u, dd. split; [done|]. split; [done|]. split; [done|]. split.
  { destruct (eq_wf u a Hwfu Ha) as (bv & -> & Hiff). f_equal.
    apply Hiff. split.
    - unfold heading at 1. by rewrite Hhu, heading_set_elements.
    - intros t. rewrite Hmu, Hmj, Hmd.
      destruct (decide (t ∈ tuples b)); tauto. }
  split.
  { intros t [_ Hin]%Hmj [_ Hnin]%Hmd. done. }
  split; [done|].
  destruct (eq_wf dd j Hwfdd Hwfj) as (bv & -> & Hiff). f_equal.
  apply Hiff. split.
  - unfold heading at 1. rewrite Hhdd. by rewrite Hhj.
  - intros t. rewrite Hmdd, Hmd, Hmj.
    destruct (decide (t ∈ tuples b)); tauto.
Qed.

Lemma AND_MINUS_decompose_witness :
  ∃ j d u dd,
    AND r_123 r_13 = Ok j ∧ MINUS r_123 r_13 = Ok d ∧ OR j d = Ok u
    ∧ __eq__ u r_123 = Ok true
    ∧ (∀ t, t ∈ tuples j → t ∉ tuples d)
    ∧ MINUS r_123 d = Ok dd ∧ __eq__ dd j = Ok true.
Proof.
  apply AND_MINUS_decompose; [apply r_123_wf|apply r_13_wf|].
  vm_compute. reflexivity.
Defined.

(** ** RESTRICT: the join with a relation computed from a condition *)

Lemma to_original_empty (t : Tuple) : to_original ∅ t = t.
Proof. unfold to_original. by rewrite map_to_list_empty. Qed.

Lemma from_original_empty (t : Tuple) : from_original ∅ t = t.
Proof. unfold from_original. by rewrite map_to_list_empty. Qed.

Lemma from_original_empty_fmap (l : list Tuple) : from_original ∅ <$> l = l.
Proof.
  induction l as [|t l IH]; [done|].
  by rewrite fmap_cons, from_original_empty, IH.
Qed.

(** A one-argument relation that was not renamed, probed with the single
    tuple of [relType'] over its own heading, is called on that tuple. *)
Lemma one_arg_probe (c relType' : Relation) (g : Tuple → Result (list Tuple))
    (s1 : Store) (t1 : list Value) (tr1 : Tuple) :
  _body c = Computed (OneArg g) ∅ →
  heading c = heading relType' →
  _body relType' = Materialized s1 → rows s1 = [t1] →
  row_tuple (_heading relType') t1 = tr1 →
  dom tr1 = heading relType' →
  _scan c (Some relType') = gen_of_result (g tr1).
Proof.
  intros Hc HH Hb Hrows Htr Hdom. unfold _scan, common.
  rewrite HH. replace (heading relType' ∩ heading relType')
    with (heading relType') by set_solver.
  case_decide as Hsz.
  - rewrite Hc. apply size_empty_iff in Hsz. apply leibniz_equiv in Hsz.
    rewrite Hsz in Hdom. apply dom_empty_iff_L in Hdom. by rewrite Hdom.
  - rewrite Hb, Hrows. cbn [length]. rewrite decide_True by done.
    unfold full_scan. rewrite Hb, Hrows. cbn [yielded fmap list_fmap].
    rewrite Hc, Htr, to_original_empty.
    destruct (g tr1) as [l|e]; [|done]. cbn [gen_of_result].
    by rewrite from_original_empty_fmap.
Qed.

Section restrict.
Context (f : Tuple → Result bool).

Lemma RESTRICT_step (Hs : list string) (relType c : Relation) (Bs : list Row)
    (tr1 : Tuple) :
  NoDup (_heading relType) →
  Relation0 (_heading relType) (BodyRows []) = Ok relType →
  _body c = Computed (relationFromCondition f) ∅ →
  heading c = heading relType →
  dom tr1 = heading relType →
  AND_outer Hs relType c Bs tr1
  = match f tr1 with
    | Raise e => Raise e
    | Ok true => t ← dictToTuple Hs tr1; Ok (Bs ++ [TupleRow t])
    | Ok false => Ok Bs
    end.
Proof using Type.
  intros Hnd Hrt Hc HH Hdom. unfold AND_outer.
  destruct (probe_setBody (_heading relType) tr1 relType Hnd Hdom Hrt)
    as (relType' & s1 & t1 & -> & Hh' & Hb' & Hrows & Hl1 & Htr1).
  cbn [mbind Result_bind].
  rewrite (one_arg_probe c relType' _ s1 t1 tr1 Hc); [|
    by unfold heading; rewrite Hh'|done|done|by rewrite Hh'|
    by unfold heading; rewrite Hh'].
  destruct (f tr1) as [[|]|e]; cbn [mbind Result_bind gen_of_result].
  - unfold for_gen. cbn [yielded raised forM]. unfold AND_inner.
    cbn [fst snd]. rewrite (left_id_L ∅ (∪)).
    by destruct (dictToTuple Hs tr1).
  - done.
  - done.
Qed.

Lemma RESTRICT_loop (Hs : list string) (relType c : Relation)
    (L1 : list Tuple) (Bs : list Row) :
  NoDup (_heading relType) →
  Relation0 (_heading relType) (BodyRows []) = Ok relType →
  _body c = Computed (relationFromCondition f) ∅ →
  heading c = heading relType →
  heading_set Hs = heading relType →
  (∀ tr1, tr1 ∈ L1 → dom tr1 = heading relType) →
  (∃ D ts, Forall2 (λ d t, dictToTuple Hs d = Ok t) D ts
     ∧ forM (AND_outer Hs relType c) L1 Bs = Ok (Bs ++ (TupleRow <$> ts))
     ∧ (∀ d, d ∈ L1 → is_Ok (f d))
     ∧ ∀ d, d ∈ D ↔ d ∈ L1 ∧ f d = Ok true)
  ∨ (∃ d e, d ∈ L1 ∧ f d = Raise e
            ∧ forM (AND_outer Hs relType c) L1 Bs = Raise e).
Proof using Type.
  intros Hnd Hrt Hc HH HHs. revert Bs.
  induction L1 as [|tr1 L1 IH]; intros Bs Hdom.
  - left. exists [], []. split; [constructor|].
    split; [simpl; by rewrite app_nil_r|]. split.
    + intros d Hd. by apply elem_of_nil in Hd.
    + intros d. split; [intros Hd|intros [Hd _]]; by apply elem_of_nil in Hd.
  - rewrite forM_cons.
    rewrite (RESTRICT_step Hs relType c Bs tr1 Hnd Hrt Hc HH)
      by (apply Hdom; by left).
    assert (∀ tr, tr ∈ L1 → dom tr = heading relType) as Hdom'.
    { intros tr Htr. apply Hdom. by right. }
    destruct (f tr1) as [[|]|e] eqn:Ef.
    + destruct (dictToTuple_is_Ok Hs tr1) as [t Ht].
      { intros a Ha. apply elem_of_dom. rewrite (Hdom tr1) by (by left).
        rewrite <- HHs. by apply elem_of_heading_set. }
      rewrite Ht. cbn [mbind Result_bind].
      destruct (IH (Bs ++ [TupleRow t]) Hdom')
        as [(D & ts & Hf & Hrun & Hok & Hmem)|(d & e & Hd & He & Hrun)].
      * left. exists (tr1 :: D), (t :: ts). split; [by constructor|].
        split; [by rewrite Hrun, <- app_assoc|]. split.
        -- intros d [->|Hd]%elem_of_cons; [by rewrite Ef|by apply Hok].
        -- intros d. rewrite !elem_of_cons, Hmem. split.
           ++ intros [->|[Hd Hfd]]; [by split; [left|]|by split; [right|]].
           ++ intros [[->|Hd] Hfd]; [by left|by right].
      * right. exists d, e. split; [by right|]. done.
    + cbn [mbind Result_bind].
      destruct (IH Bs Hdom')
        as [(D & ts & Hf & Hrun & Hok & Hmem)|(d & e & Hd & He & Hrun)].
      * left. exists D, ts. split; [done|]. split; [done|]. split.
        -- intros d [->|Hd]%elem_of_cons; [by rewrite Ef|by apply Hok].
        -- intros d. rewrite elem_of_cons, Hmem. split.
           ++ intros [Hd Hfd]. by split; [right|].
           ++ intros [[->|Hd] Hfd]; [congruence|done].
      * right. exists d, e. split; [by right|]. done.
    + right. exists tr1, e. split; [by left|]. done.
Qed.

Lemma RESTRICT_unfold (r : Relation) (L : list Tuple) :
  scans r L →
  ∃ relType c,
    Relation0 (_heading r) (BodyRows []) = Ok relType
    ∧ _heading relType = _heading r
    ∧ _body c = Computed (relationFromCondition f) ∅
    ∧ _heading c = _heading r
    ∧ RESTRICT r f
      = (Bs ← forM (AND_outer (elements (heading r ∪ heading c)) relType c)
                L [];
         Relation0 (elements (heading r ∪ heading c)) (BodyRows Bs)).
Proof using Type.
  intros Hsc. pose proof Hsc as (Hnd & _ & _ & Hb).
  destruct (Relation0_is_Ok (_heading r) []) as [relType Hrt];
    [done|constructor| |].
  { intros row1 t1 row2 t2 H. by apply elem_of_nil in H. }
  assert (_heading relType = _heading r) as Hh.
  { apply Relation0_Ok_inv in Hrt as (_ & ? & _); [done|constructor]. }
  exists relType,
    (mkRelation (_heading r) (Computed (relationFromCondition f) ∅)
       default_constraints default_constraints).
  split; [done|]. split; [done|].
  unfold RESTRICT, Relation0 at 1.
  apply validateHeading_Ok in Hnd as Hv. rewrite Hv.
  cbn [mbind Result_bind setBody_with with_body _heading constraints
       constraint_definitions].
  split; [reflexivity|]. split; [reflexivity|].
  unfold AND. cbn [AND_fuel _body].
  assert (∀ c0, _body c0 = Computed (relationFromCondition f) ∅ →
            match _body r, _body c0 with
            | Computed _ _, Materialized _ => AND_fuel 1 c0 r
            | Computed (OneArg _) _, Computed (ZeroArg _) _ => AND_fuel 1 c0 r
            | Computed (OneArg _) _, Computed (OneArg _) _ =>
                Raise (RelationInvalidOperationException
                         "Cannot AND two functional relations")
            | Materialized s1, Materialized s2 =>
                if decide (length (rows s2) < length (rows s1))%nat
                then AND_fuel 1 c0 r
                else AND_join r c0
            | _, _ => AND_join r c0
            end = AND_join r c0) as Hdispatch.
  { intros c0 ->. destruct (_body r) as [s|[g|g] m]; done. }
  cbn [_body] in Hdispatch. rewrite Hdispatch by reflexivity.
  unfold AND_join. rewrite Hrt. cbn [mbind Result_bind].
  rewrite (scans_full r L Hsc). unfold for_gen. cbn [yielded raised].
  by destruct (forM _ L []).
Qed.
End restrict.

(** X19: on a relation that can be scanned, [RESTRICT] (also [where]) with
    a condition that returns on every tuple gives a materialized relation
    over the same heading, carrying the default constraints, holding exactly
    the tuples for which the condition is true; if the condition raises on
    some tuple, [RESTRICT] raises what the condition raised on a tuple. *)
Theorem RESTRICT_is_selection (r : Relation) (L : list Tuple)
    (f : Tuple → Result bool) :
  scans r L →
  ((∀ d, d ∈ L → is_Ok (f d)) →
   ∃ w, RESTRICT r f = Ok w ∧ wf w ∧ heading w = heading r
     ∧ constraint_definitions w = default_constraints
     ∧ ∀ d, d ∈ tuples w ↔ d ∈ L ∧ f d = Ok true)
  ∧ ((∃ d, d ∈ L ∧ ¬ is_Ok (f d)) →
     ∃ d e, d ∈ L ∧ f d = Raise e ∧ RESTRICT r f = Raise e).
Proof.
  intros Hsc. pose proof Hsc as (Hnd & Hdom & Hty & _).
  destruct (RESTRICT_unfold f r L Hsc)
    as (relType & c & Hrt & Hh & Hc & Hhc & Hrun).
  assert (heading c = heading r) as HHc by (unfold heading; by rewrite Hhc).
  assert (heading relType = heading r) as HHt
    by (unfold heading; by rewrite Hh).
  set (Hs := elements (heading r ∪ heading c)) in *.
  assert (heading_set Hs = heading r) as HHs.
  { unfold Hs. rewrite heading_set_elements, HHc. set_solver. }
  destruct (RESTRICT_loop f Hs relType c L [])
    as [(D & ts & Hf & Hloop & Hok & Hmem)|(d & e & Hd & He & Hloop)].
  { by rewrite Hh. } { by rewrite Hh. } { done. } { by rewrite HHc, HHt. }
  { by rewrite HHs, HHt. } { intros tr1 Htr. by rewrite HHt, (Hdom tr1). }
  - split.
    + intros _. rewrite Hrun, Hloop. cbn [mbind Result_bind app].
      destruct (Relation0_of_tuples_is_Ok Hs D ts) as [w Hw];
        [apply NoDup_elements|done| |].
      { intros d1 d2 a [H1 _]%Hmem [H2 _]%Hmem _. by apply Hty. }
      destruct (Relation0_of_tuples_inv Hs D ts w Hf Hw)
        as (Hwf & Hhw & Hdw & _ & Htw).
      exists w. split; [done|]. split; [done|]. split.
      { unfold heading at 1. by rewrite Hhw. }
      split; [done|]. intros d. rewrite Htw. split.
      * intros (d0 & Hd0 & ->). rewrite restrict_id.
        -- by apply Hmem.
        -- apply Hmem in Hd0 as [Hd0 _]. by rewrite HHs, (Hdom d0).
      * intros Hd. exists d. split; [by apply Hmem|].
        symmetry. apply restrict_id. destruct Hd as [Hd _].
        by rewrite HHs, (Hdom d).
    + intros (d & Hd & Hnok). by destruct Hnok; apply Hok.
  - split.
    + intros Hall. specialize (Hall d Hd). by rewrite He in Hall.
    + intros _. exists d, e. split; [done|]. split; [done|].
      by rewrite Hrun, Hloop.
Qed.

Lemma RESTRICT_is_selection_witness :
  (∃ w, RESTRICT r_123 a_above_one = Ok w ∧ wf w
     ∧ heading w = heading r_123
     ∧ constraint_definitions w = default_constraints
     ∧ ∀ d, d ∈ tuples w ↔ d ∈ tuples r_123 ∧ a_above_one d = Ok true)
  ∧ ∃ d e, d ∈ tuples r_123 ∧ QTY_above_300 d = Raise e
           ∧ RESTRICT r_123 QTY_above_300 = Raise e.
Proof.
  pose proof (wf_scans _ r_123_wf) as Hsc. split.
  - apply (proj1 (RESTRICT_is_selection _ _ a_above_one Hsc)).
    intros d Hd.
    cbv [tuples body_rows r_123 _body _heading rows fmap list_fmap] in Hd.
    repeat match goal with
           | H : _ ∈ _ :: _ |- _ => apply elem_of_cons in H as [->|H]
           | H : _ ∈ [] |- _ => by apply elem_of_nil in H
           end; vm_compute; exact I.
  - apply (proj2 (RESTRICT_is_selection _ _ QTY_above_300 Hsc)).
    eexists. split; [by left|]. intros H. exact H.
Defined.

(** ** Aggregates *)

(** The loop shared by [SUM], [MAX] and [MIN] over integer values. *)
Lemma fold_ints (op : Z → Z → Z) (e : Tuple → Result Value) (L : list Tuple)
    (vals : list Z) (init : Z) :
  Forall2 (λ d z, e d = Ok (VInt z)) L vals →
  forM (λ (x : Z) tr,
          y ← e tr;
          match y with
          | VInt z => Ok (op x z)
          | _ => Raise TypeError
          end) L init
  = Ok (foldl op init vals).
Proof.
  intros Hf. revert init. induction Hf as [|d z L vals Hd Hf IH]; intros init.
  - done.
  - rewrite forM_cons, Hd. cbn [mbind Result_bind foldl]. apply IH.
Qed.

(** The same loop stops with [TypeError] at the first value that is not an
    integer. *)
Lemma fold_ints_TypeError (op : Z → Z → Z) (e : Tuple → Result Value)
    (L1 L2 : list Tuple) (d : Tuple) (v : Value) (vals : list Z) (init : Z) :
  Forall2 (λ d z, e d = Ok (VInt z)) L1 vals →
  e d = Ok v → type_of v ≠ TInt →
  forM (λ (x : Z) tr,
          y ← e tr;
          match y with
          | VInt z => Ok (op x z)
          | _ => Raise TypeError
          end) (L1 ++ d :: L2) init
  = Raise TypeError.
Proof.
  intros Hf Hd Hty. rewrite forM_app, (fold_ints op e L1 vals init Hf).
  cbn [mbind Result_bind]. rewrite forM_cons, Hd. cbn [mbind Result_bind].
  by destruct v.
Qed.

Lemma foldl_add (vals : list Z) (init : Z) :
  foldl Z.add init vals = (init + foldr Z.add 0 vals)%Z.
Proof.
  revert init. induction vals as [|z vals IH]; intros init; simpl; [lia|].
  rewrite IH. lia.
Qed.

Lemma foldl_max (vals : list Z) (init : Z) :
  (init ≤ foldl Z.max init vals)%Z
  ∧ Forall (λ z, z ≤ foldl Z.max init vals)%Z vals
  ∧ (foldl Z.max init vals = init ∨ foldl Z.max init vals ∈ vals).
Proof.
  revert init. induction vals as [|z vals IH]; intros init; simpl.
  - split; [lia|]. split; [constructor|by left].
  - destruct (IH (Z.max init z)) as (H1 & H2 & H3).
    split; [lia|]. split; [constructor; [lia|done]|].
    destruct H3 as [H3|H3]; [|right; by right].
    destruct (Z.max_spec init z) as [[_ E]|[_ E]].
    + right. rewrite H3, E. by left.
    + left. by rewrite H3, E.
Qed.

Lemma foldl_min (vals : list Z) (init : Z) :
  (foldl Z.min init vals ≤ init)%Z
  ∧ Forall (λ z, foldl Z.min init vals ≤ z)%Z vals
  ∧ (foldl Z.min init vals = init ∨ foldl Z.min init vals ∈ vals).
Proof.
  revert init. induction vals as [|z vals IH]; intros init; simpl.
  - split; [lia|]. split; [constructor|by left].
  - destruct (IH (Z.min init z)) as (H1 & H2 & H3).
    split; [lia|]. split; [constructor; [lia|done]|].
    destruct H3 as [H3|H3]; [|right; by right].
    destruct (Z.min_spec init z) as [[_ E]|[_ E]].
    + left. by rewrite H3, E.
    + right. rewrite H3, E. by left.
Qed.

(** Which function an aggregate calls on each tuple: the expression as
    given, or the single attribute in its place. *)
Lemma effective_expression_cases (r : Relation) (expression : Expression)
    (f : Tuple → Result Value) :
  ((consts_None expression = false ∨ length (_heading r) ≠ 1)
   ∧ f = call expression)
  ∨ (∃ a, consts_None expression = true ∧ _heading r = [a]
          ∧ f = λ trx, getitem trx a) →
  effective_expression r expression = f.
Proof.
  intros [[[Hc|Hl] ->]|(a & Hc & Hh & ->)]; unfold effective_expression.
  - by rewrite Hc.
  - destruct (consts_None expression); [|done].
    by destruct (_heading r) as [|a [|b l]].
  - by rewrite Hc, Hh.
Qed.

Lemma SUM_spec (r : Relation) (L : list Tuple) (expression : Expression) :
  scans r L →
  (∀ vals, Forall2 (λ d z, effective_expression r expression d = Ok (VInt z))
             L vals →
           SUM r expression = Ok (foldr Z.add 0%Z vals))
  ∧ (∀ L1 d L2 v vals, L = L1 ++ d :: L2 →
       Forall2 (λ d z, effective_expression r expression d = Ok (VInt z))
         L1 vals →
       effective_expression r expression d = Ok v → type_of v ≠ TInt →
       SUM r expression = Raise TypeError).
Proof.
  intros Hsc. split.
  - intros vals Hf. unfold SUM. rewrite (scans_full r L Hsc). unfold for_gen.
    cbn [yielded raised]. rewrite (fold_ints Z.add _ L vals 0%Z Hf).
    cbn [mbind Result_bind]. by rewrite foldl_add.
  - intros L1 d L2 v vals -> Hf Hd Hty. unfold SUM.
    rewrite (scans_full r _ Hsc). unfold for_gen. cbn [yielded raised].
    by rewrite (fold_ints_TypeError Z.add _ L1 L2 d v vals 0%Z Hf Hd Hty).
Qed.

(** X20: [SUM] calls on each tuple the expression it was given, unless the
    lambda has no constant but [None] and the relation has exactly one
    attribute: it then reads that attribute instead, whatever the lambda
    computes (so [SUM(r, lambda t: t.a + t.a)] over the single attribute
    [a] is the sum of [a]).  On a relation that can be scanned, when what
    is called gives an integer on every tuple, [SUM] returns the sum of
    these integers (0 for a relation without tuples); when the first value
    that is not an integer is a string or [None], [SUM] raises
    [TypeError]. *)
Theorem SUM_adds_the_values (r : Relation) (L : list Tuple)
    (expression : Expression) (f : Tuple → Result Value) :
  scans r L →
  ((consts_None expression = false ∨ length (_heading r) ≠ 1)
   ∧ f = call expression)
  ∨ (∃ a, consts_None expression = true ∧ _heading r = [a]
          ∧ f = λ trx, getitem trx a) →
  (∀ vals, Forall2 (λ d z, f d = Ok (VInt z)) L vals →
           SUM r expression = Ok (foldr Z.add 0%Z vals))
  ∧ (∀ L1 d L2 v vals, L = L1 ++ d :: L2 →
       Forall2 (λ d z, f d = Ok (VInt z)) L1 vals →
       f d = Ok v → type_of v ≠ TInt →
       SUM r expression = Raise TypeError).
Proof.
  intros Hsc Hf. apply effective_expression_cases in Hf as <-.
  by apply SUM_spec.
Qed.

Lemma r_ab_not_single : length (_heading r_ab) ≠ 1.
Proof. vm_compute. discriminate. Qed.

Lemma SUM_adds_the_values_witness :
  SUM r_123 double_a = Ok 6%Z
  ∧ SUM r_ab double_a = Ok 4%Z
  ∧ SUM r_ab default_expression = Raise TypeError.
Proof.
  split; [|split].
  - apply (proj1 (SUM_adds_the_values r_123 (tuples r_123) double_a
                    (λ trx, getitem trx "a") (wf_scans _ r_123_wf)
                    (or_intror (ex_intro _ "a"
                       (conj eq_refl (conj eq_refl eq_refl)))))
             [1; 2; 3]%Z).
    repeat constructor.
  - apply (proj1 (SUM_adds_the_values r_ab (tuples r_ab) double_a
                    (call double_a) (wf_scans _ r_ab_wf)
                    (or_introl (conj (or_intror r_ab_not_single) eq_refl)))
             [2; 2]%Z).
    repeat constructor.
  - eapply (proj2 (SUM_adds_the_values r_ab (tuples r_ab) default_expression
                     (call default_expression) (wf_scans _ r_ab_wf)
                     (or_introl (conj (or_intror r_ab_not_single) eq_refl)))
              [] _ _ VNone []).
    + reflexivity.
    + constructor.
    + reflexivity.
    + discriminate.
Defined.

Lemma MAX_MIN_spec (r : Relation) (L : list Tuple)
    (expression : Expression) (vals : list Z) :
  scans r L →
  Forall2 (λ d z, effective_expression r expression d = Ok (VInt z)) L vals →
  ∃ hi lo, MAX r expression = Ok hi ∧ MIN r expression = Ok lo
    ∧ (- maxsize ≤ hi)%Z ∧ (lo ≤ maxsize)%Z
    ∧ Forall (λ z, z ≤ hi ∧ lo ≤ z)%Z vals
    ∧ (hi = (- maxsize)%Z ∨ hi ∈ vals)
    ∧ (lo = maxsize ∨ lo ∈ vals)
    ∧ (vals = [] → hi = (- maxsize)%Z ∧ lo = maxsize).
Proof.
  intros Hsc Hf.
  assert (probe_first (effective_expression r expression) (mkGen L None)
          = Ok tt) as Hprobe.
  { unfold probe_first, gen_first. cbn [yielded raised].
    destruct Hf as [|d z L vals Hd Hf]; [done|].
    cbn [mbind Result_bind]. by rewrite Hd. }
  exists (foldl Z.max (- maxsize)%Z vals), (foldl Z.min maxsize vals).
  split.
  { unfold MAX. rewrite (scans_full r L Hsc), Hprobe. cbn [mbind Result_bind].
    unfold for_gen. cbn [yielded raised].
    by rewrite (fold_ints Z.max _ L vals _ Hf). }
  split.
  { unfold MIN. rewrite (scans_full r L Hsc), Hprobe. cbn [mbind Result_bind].
    unfold for_gen. cbn [yielded raised].
    by rewrite (fold_ints Z.min _ L vals _ Hf). }
  destruct (foldl_max vals (- maxsize)%Z) as (H1 & H2 & H3).
  destruct (foldl_min vals maxsize) as (H4 & H5 & H6).
  split; [done|]. split; [done|]. split.
  { rewrite Forall_forall in H2, H5. apply Forall_forall. intros z Hz.
    split; [by apply H2|by apply H5]. }
  split; [done|]. split; [done|]. by intros ->.
Qed.

(** X21: [MAX] and [MIN] call on each tuple the expression they were given,
    unless the lambda has no constant but [None] and the relation has
    exactly one attribute: they then read that attribute instead, whatever
    the lambda computes.  On a relation that can be scanned, when what is
    called gives an integer on every tuple, [MAX] returns the largest of
    [-sys.maxsize] and these integers and [MIN] the smallest of
    [sys.maxsize] and them: on a relation without tuples they return these
    two bounds instead of raising, and [MAX] never returns less than
    [-sys.maxsize] nor [MIN] more than [sys.maxsize], however small or
    large the integers are. *)
Theorem MAX_MIN_are_bounded (r : Relation) (L : list Tuple)
    (expression : Expression) (f : Tuple → Result Value) (vals : list Z) :
  scans r L →
  ((consts_None expression = false ∨ length (_heading r) ≠ 1)
   ∧ f = call expression)
  ∨ (∃ a, consts_None expression = true ∧ _heading r = [a]
          ∧ f = λ trx, getitem trx a) →
  Forall2 (λ d z, f d = Ok (VInt z)) L vals →
  ∃ hi lo, MAX r expression = Ok hi ∧ MIN r expression = Ok lo
    ∧ (- maxsize ≤ hi)%Z ∧ (lo ≤ maxsize)%Z
    ∧ Forall (λ z, z ≤ hi ∧ lo ≤ z)%Z vals
    ∧ (hi = (- maxsize)%Z ∨ hi ∈ vals)
    ∧ (lo = maxsize ∨ lo ∈ vals)
    ∧ (vals = [] → hi = (- maxsize)%Z ∧ lo = maxsize).
Proof.
  intros Hsc Hf. apply effective_expression_cases in Hf as <-.
  by apply MAX_MIN_spec.
Qed.

Lemma MAX_MIN_are_bounded_witness :
  (∃ hi lo, MAX r_123 double_a = Ok hi ∧ MIN r_123 double_a = Ok lo
     ∧ (- maxsize ≤ hi)%Z ∧ (lo ≤ maxsize)%Z
     ∧ Forall (λ z, z ≤ hi ∧ lo ≤ z)%Z [1; 2; 3]%Z
     ∧ (hi = (- maxsize)%Z ∨ hi ∈ [1; 2; 3]%Z)
     ∧ (lo = maxsize ∨ lo ∈ [1; 2; 3]%Z)
     ∧ (([1; 2; 3] : list Z)%Z = [] → hi = (- maxsize)%Z ∧ lo = maxsize))
  ∧ MAX r_123 double_a = Ok 3%Z
  ∧ ∃ hi lo, MAX r_ab double_a = Ok hi ∧ MIN r_ab double_a = Ok lo
      ∧ (- maxsize ≤ hi)%Z ∧ (lo ≤ maxsize)%Z
      ∧ Forall (λ z, z ≤ hi ∧ lo ≤ z)%Z [2; 2]%Z
      ∧ (hi = (- maxsize)%Z ∨ hi ∈ [2; 2]%Z)
      ∧ (lo = maxsize ∨ lo ∈ [2; 2]%Z)
      ∧ (([2; 2] : list Z)%Z = [] → hi = (- maxsize)%Z ∧ lo = maxsize).
Proof.
  split; [|split].
  - apply (MAX_MIN_are_bounded r_123 (tuples r_123) double_a
             (λ trx, getitem trx "a")).
    + apply wf_scans, r_123_wf.
    + right. exists "a". done.
    + repeat constructor.
  - vm_compute. reflexivity.
  - apply (MAX_MIN_are_bounded r_ab (tuples r_ab) double_a (call double_a)).
    + apply wf_scans, r_ab_wf.
    + left. split; [right; apply r_ab_not_single|done].
    + repeat constructor.
Defined.

Lemma first_hit_none (p : Tuple → Result bool) (L : list Tuple)
    (raised : option Exception) :
  Forall (λ d, p d = Ok false) L →
  first_hit p L raised = match raised with
                         | None => Ok false
                         | Some e => Raise e
                         end.
Proof.
  induction 1 as [|d L Hd _ IH]; [done|].
  cbn [first_hit]. rewrite Hd. cbn [mbind Result_bind]. done.
Qed.

Lemma first_hit_some (p : Tuple → Result bool) (L1 L2 : list Tuple)
    (d : Tuple) (raised : option Exception) :
  Forall (λ d, p d = Ok false) L1 → p d = Ok true →
  first_hit p (L1 ++ d :: L2) raised = Ok true.
Proof.
  induction 1 as [|d1 L1 Hd _ IH]; intros Hp.
  - cbn [app first_hit]. by rewrite Hp.
  - cbn [app first_hit]. rewrite Hd. cbn [mbind Result_bind]. by apply IH.
Qed.

Lemma ALL_ANY_spec (r : Relation) (L : list Tuple)
    (expression : Expression) :
  scans r L →
  let value_is (b : bool) (d : Tuple) :=
    ∃ v, effective_expression r expression d = Ok v ∧ truthy v = b in
  (Forall (value_is true) L → ALL r expression = Ok true)
  ∧ (Forall (value_is false) L → ANY r expression = Ok false)
  ∧ (∀ L1 d L2, L = L1 ++ d :: L2 → Forall (value_is false) L1 →
       value_is true d → ANY r expression = Ok true)
  ∧ (∀ L1 d L2, L = L1 ++ d :: L2 → Forall (value_is true) L1 →
       value_is false d → ALL r expression = Ok false).
Proof.
  intros Hsc value_is.
  assert (∀ b d, value_is b d →
            (v ← effective_expression r expression d; Ok (truthy v))
            = Ok b) as Hany.
  { intros b d (v & -> & <-). done. }
  assert (∀ b d, value_is b d →
            (v ← effective_expression r expression d; Ok (negb (truthy v)))
            = Ok (negb b)) as Hall.
  { intros b d (v & -> & <-). done. }
  split; [|split; [|split]].
  - intros HL. unfold ALL. rewrite (scans_full r L Hsc). cbn [yielded raised].
    rewrite first_hit_none; [done|].
    eapply Forall_impl; [exact HL|]. intros d Hd. by apply (Hall true).
  - intros HL. unfold ANY. rewrite (scans_full r L Hsc). cbn [yielded raised].
    rewrite first_hit_none; [done|].
    eapply Forall_impl; [exact HL|]. intros d Hd. by apply (Hany false).
  - intros L1 d L2 -> HL1 Hd. unfold ANY. rewrite (scans_full r _ Hsc).
    cbn [yielded raised]. apply first_hit_some.
    + eapply Forall_impl; [exact HL1|]. intros d' Hd'. by apply (Hany false).
    + by apply (Hany true).
  - intros L1 d L2 -> HL1 Hd. unfold ALL. rewrite (scans_full r _ Hsc).
    cbn [yielded raised]. rewrite first_hit_some; [done| |].
    + eapply Forall_impl; [exact HL1|]. intros d' Hd'. by apply (Hall true).
    + by apply (Hall false).
Qed.

(** X22: [ALL] and [ANY] call on each tuple the expression they were
    given, unless the lambda has no constant but [None] and the relation
    has exactly one attribute: they then read that attribute instead,
    whatever the lambda computes.  On a relation that can be scanned, for
    values that are [None], integers or strings, [ALL] is true when what is
    called is true (in Python's sense) on every tuple, in particular on a
    relation without tuples, and [ANY] is false when it is false on every
    tuple; both stop at the first tuple that decides the answer, so [ANY]
    is true and [ALL] is false as soon as such a tuple is reached, whatever
    would happen on the tuples after it. *)
Theorem ALL_ANY_stop_at_first (r : Relation) (L : list Tuple)
    (expression : Expression) (f : Tuple → Result Value) :
  scans r L →
  ((consts_None expression = false ∨ length (_heading r) ≠ 1)
   ∧ f = call expression)
  ∨ (∃ a, consts_None expression = true ∧ _heading r = [a]
          ∧ f = λ trx, getitem trx a) →
  let value_is (b : bool) (d : Tuple) :=
    ∃ v, f d = Ok v ∧ truthy v = b in
  (Forall (value_is true) L → ALL r expression = Ok true)
  ∧ (Forall (value_is false) L → ANY r expression = Ok false)
  ∧ (∀ L1 d L2, L = L1 ++ d :: L2 → Forall (value_is false) L1 →
       value_is true d → ANY r expression = Ok true)
  ∧ (∀ L1 d L2, L = L1 ++ d :: L2 → Forall (value_is true) L1 →
       value_is false d → ALL r expression = Ok false).
Proof.
  intros Hsc Hf. apply effective_expression_cases in Hf as <-.
  by apply ALL_ANY_spec.
Qed.

Lemma ALL_ANY_stop_at_first_witness :
  ALL r_123 double_a = Ok true
  ∧ ANY r_ab default_expression = Ok false
  ∧ ANY r_ab double_a = Ok true.
Proof.
  split; [|split].
  - apply (proj1 (ALL_ANY_stop_at_first r_123 (tuples r_123) double_a
                    (λ trx, getitem trx "a") (wf_scans _ r_123_wf)
                    (or_intror (ex_intro _ "a"
                       (conj eq_refl (conj eq_refl eq_refl)))))).
    repeat constructor; by eexists.
  - apply (proj1 (proj2 (ALL_ANY_stop_at_first r_ab (tuples r_ab)
                           default_expression (call default_expression)
                           (wf_scans _ r_ab_wf)
                           (or_introl (conj (or_intror r_ab_not_single)
                                         eq_refl))))).
    repeat constructor; by eexists.
  - eapply (proj1 (proj2 (proj2 (ALL_ANY_stop_at_first r_ab (tuples r_ab)
                                   double_a (call double_a)
                                   (wf_scans _ r_ab_wf)
                                   (or_introl (conj (or_intror r_ab_not_single)
                                                 eq_refl)))))
              [] _ _).
    + reflexivity.
    + constructor.
    + by eexists.
Defined.

(** ** Tuple.remove *)

(** X23: [Tuple.remove] of a list returns the tuple without the listed
    attributes, and listed attributes that the tuple lacks are ignored;
    given a set, which its signature admits, it raises
    [TupleInvalidOperationException]. *)
Theorem Tuple_remove_of_a_list (t : Tuple) :
  (∀ head : list string,
     Tuple_remove t (HeadList head)
     = Ok (restrict (dom t ∖ list_to_set head) t)
     ∧ ∀ a, restrict (dom t ∖ list_to_set head) t !! a
            = if decide (a ∈ head) then None else t !! a)
  ∧ ∀ head : gset string,
      Tuple_remove t (HeadSet head)
      = Raise (TupleInvalidOperationException
                 "Heading attribute(s) should be a list").
Proof.
  split; [|done]. intros head. split.
  - unfold Tuple_remove.
    set (Hs := elements (dom t ∖ list_to_set head)).
    destruct (dictToTuple_is_Ok Hs t) as [vs Hvs].
    { intros a Ha. apply elem_of_dom.
      apply elem_of_elements in Ha. set_solver. }
    rewrite Hvs. cbn [mbind Result_bind]. f_equal.
    rewrite <- (heading_set_elements (dom t ∖ list_to_set head)).
    apply (row_tuple_restrict Hs t vs); [apply NoDup_elements|done].
  - intros a. rewrite restrict_lookup.
    destruct (decide (a ∈ head)) as [Ha|Ha].
    + rewrite decide_False; [done|]. rewrite elem_of_difference.
      intros [_ Hn]. apply Hn. by apply elem_of_list_to_set.
    + case_decide as Hin; [done|]. symmetry. apply not_elem_of_dom.
      intros Hd. apply Hin. apply elem_of_difference. split; [done|].
      by rewrite elem_of_list_to_set.
Qed.

(** ** Candidate keys *)

Lemma restrict_eq_agree (H : gset string) (d1 d2 : Tuple) :
  restrict H d1 = restrict H d2 ↔ agree H d1 d2.
Proof.
  split.
  - intros E a Ha.
    pose proof (f_equal (.!! a) E) as Ea. cbn beta in Ea.
    rewrite !restrict_lookup in Ea. by rewrite !decide_True in Ea.
  - intros Hag. apply map_eq. intros a. rewrite !restrict_lookup.
    case_decide; [by apply Hag|done].
Qed.

(** A list without duplicates has as many elements as its image under [g]
    (itself listed without duplicates) exactly when [g] is injective on
    it. *)
Lemma same_length_iff_inj {A B} (g : A → B) (L : list A) (P : list B) :
  NoDup L → NoDup P → (∀ y, y ∈ P ↔ ∃ x, x ∈ L ∧ y = g x) →
  length L = length P
  ↔ ∀ x1 x2, x1 ∈ L → x2 ∈ L → g x1 = g x2 → x1 = x2.
Proof.
  intros HL HP Hmem.
  assert (∀ y, y ∈ P ↔ y ∈ g <$> L) as Hmem'.
  { intros y. rewrite Hmem, list_elem_of_fmap. naive_solver. }
  split.
  - intros Hlen x1 x2 H1 H2 Hg.
    apply (NoDup_fmap_inj_on g L x1 x2); [|done|done|done].
    assert (P ≡ₚ g <$> L) as <-; [|done].
    apply submseteq_length_Permutation.
    + apply NoDup_submseteq; [done|]. intros y. apply Hmem'.
    + by rewrite length_fmap, Hlen.
  - intros Hinj. rewrite <- (length_fmap g L). symmetry.
    apply Permutation_length. apply NoDup_Permutation; [done| |done].
    apply NoDup_fmap_2_strong; [|done]. intros x1 x2 H1 H2. by apply Hinj.
Qed.

(** X24: on a materialized relation, the candidate key check over a list
    of distinct attributes of the heading is true exactly when no two
    different tuples agree on these attributes; over a list with a repeated
    attribute it raises, and with no attribute list ([None]) it is true
    without looking at the relation. *)
Theorem Key_is_uniqueness (r : Relation) (Hk : list string) :
  wf r →
  (NoDup Hk → (∀ a, a ∈ Hk → a ∈ heading r) →
   ∃ b, constraintFromCandidateKey r (Some Hk) = Ok b
     ∧ (b = true ↔ ∀ d1 d2, d1 ∈ tuples r → d2 ∈ tuples r →
                     agree (list_to_set Hk) d1 d2 → d1 = d2))
  ∧ (¬ NoDup Hk →
     constraintFromCandidateKey r (Some Hk)
     = Raise (RelationException "Heading attributes must be unique"))
  ∧ constraintFromCandidateKey r None = Ok true.
Proof.
  intros Hwf. split; [|split; [|done]].
  - intros Hnd Hsub. unfold constraintFromCandidateKey.
    rewrite (COUNT_tuples r Hwf). cbn [mbind Result_bind].
    destruct (project_spec r (tuples r) Hk (wf_scans r Hwf) Hnd Hsub)
      as (p & -> & Hwfp & _ & _ & Hmem).
    cbn [mbind Result_bind]. rewrite (COUNT_tuples p Hwfp).
    cbn [mbind Result_bind]. eexists. split; [done|].
    rewrite bool_decide_eq_true.
    rewrite (same_length_iff_inj (restrict (list_to_set Hk)) (tuples r)
               (tuples p) (tuples_NoDup r Hwf) (tuples_NoDup p Hwfp) Hmem).
    split.
    + intros Hinj d1 d2 H1 H2 Hag. apply Hinj; [done|done|].
      by apply restrict_eq_agree.
    + intros Huniq d1 d2 H1 H2 Hre. apply Huniq; [done|done|].
      by apply restrict_eq_agree.
  - intros Hdup. unfold constraintFromCandidateKey.
    rewrite (COUNT_tuples r Hwf). cbn [mbind Result_bind]. unfold project.
    destruct (validateHeading_cases Hk) as [[Hnd _]|[_ ->]]; [done|done].
Qed.

Lemma Key_is_uniqueness_witness :
  (∃ b, constraintFromCandidateKey r_ab (Some ["a"]) = Ok b
     ∧ (b = true ↔ ∀ d1 d2, d1 ∈ tuples r_ab → d2 ∈ tuples r_ab →
                     agree (list_to_set ["a"]) d1 d2 → d1 = d2))
  ∧ constraintFromCandidateKey r_ab (Some ["a"]) = Ok false
  ∧ constraintFromCandidateKey r_ab (Some ["a"; "a"])
    = Raise (RelationException "Heading attributes must be unique").
Proof.
  split; [|split].
  - apply (proj1 (Key_is_uniqueness r_ab ["a"] r_ab_wf)).
    + repeat constructor; set_solver.
    + intros a Ha. apply list_elem_of_singleton in Ha as ->.
      apply (bool_decide_unpack _). vm_compute. exact I.
  - vm_compute. reflexivity.
  - apply (proj1 (proj2 (Key_is_uniqueness r_ab ["a"; "a"] r_ab_wf))).
    intros Hnd. apply NoDup_cons in Hnd as [Hn _]. apply Hn. by left.
Defined.

(** ** The catalog *)

Lemma _vinit_Ok_inv (db db' : Database) :
  _vinit db = (db', Ok tt) →
  ∃ frame,
    current_frame db'
    = Some (<["constraint_attributes" := Catalog vconstraint_attributes []]>
              (<["constraints" := Catalog vconstraints []]>
                 (<["attributes" := Catalog vattributes []]>
                    (<["relations" := Catalog vrelations []]> frame))))
    ∧ _readonly db' = catalog_names.
Proof.
  unfold _vinit. destruct (_postLoad db) as [db1 [[]|e]]; [|done].
  unfold add_views.
  destruct (current_frame (with_readonly db1 [])) as [frame|] eqn:Hf; [|done].
  intros [= <-]. exists frame. split; [|done].
  unfold current_frame, with_readonly, with_frame.
  cbn [transactions transactionId]. by rewrite lookup_insert_eq.
Qed.



(** ** EXTEND: the join with a relation computed from an extension *)

(** A one-argument relation that was not renamed, whose heading includes
    that of [relType'], is called on the single tuple of [relType']. *)
Lemma one_arg_probe_sub (c relType' : Relation)
    (g : Tuple → Result (list Tuple)) (s1 : Store) (t1 : list Value)
    (tr1 : Tuple) :
  _body c = Computed (OneArg g) ∅ →
  heading relType' ⊆ heading c →
  _body relType' = Materialized s1 → rows s1 = [t1] →
  row_tuple (_heading relType') t1 = tr1 →
  dom tr1 = heading relType' →
  _scan c (Some relType') = gen_of_result (g tr1).
Proof.
  intros Hc HH Hb Hrows Htr Hdom. unfold _scan, common.
  replace (heading c ∩ heading relType') with (heading relType')
    by set_solver.
  case_decide as Hsz.
  - rewrite Hc. apply size_empty_iff in Hsz. apply leibniz_equiv in Hsz.
    rewrite Hsz in Hdom. apply dom_empty_iff_L in Hdom. by rewrite Hdom.
  - rewrite Hb, Hrows. cbn [length]. rewrite decide_True by done.
    unfold full_scan. rewrite Hb, Hrows. cbn [yielded fmap list_fmap].
    rewrite Hc, Htr, to_original_empty.
    destruct (g tr1) as [l|e]; [|done]. cbn [gen_of_result].
    by rewrite from_original_empty_fmap.
Qed.

(** A loop that appends one row per element, or stops at the first element
    whose row cannot be computed. *)
Lemma append_loop {A} (step : A → Result (list Value))
    (body : list Row → A → Result (list Row)) (L : list A) :
  (∀ Bs d, d ∈ L → body Bs d = (vs ← step d; Ok (Bs ++ [TupleRow vs]))) →
  (∀ ts Bs, Forall2 (λ d vs, step d = Ok vs) L ts →
            forM body L Bs = Ok (Bs ++ (TupleRow <$> ts)))
  ∧ (∀ L1 d L2 e Bs, L = L1 ++ d :: L2 →
       Forall (λ d, is_Ok (step d)) L1 → step d = Raise e →
       forM body L Bs = Raise e).
Proof.
  induction L as [|x L IH]; intros Hbody.
  - split.
    + intros ts Bs Hf. apply Forall2_nil_inv_l in Hf as ->.
      simpl. by rewrite app_nil_r.
    + intros L1 d L2 e Bs HL. by destruct L1.
  - destruct IH as [IH1 IH2].
    { intros Bs d Hd. apply Hbody. by right. }
    split.
    + intros ts Bs Hf. apply Forall2_cons_inv_l in Hf as (vs & ts' & Hx & Hf & ->).
      rewrite forM_cons, Hbody, Hx by (by left). cbn [mbind Result_bind].
      rewrite (IH1 ts' _ Hf). by rewrite fmap_cons, <- app_assoc.
    + intros L1 d L2 e Bs HL HL1 Hd. rewrite forM_cons, Hbody by (by left).
      destruct L1 as [|y L1]; cbn [app] in HL; injection HL as -> ->.
      * by rewrite Hd.
      * apply Forall_cons_1 in HL1 as [Hy HL1].
        destruct (step y) as [vs|e']; [|done].
        cbn [mbind Result_bind]. by apply (IH2 L1 d L2).
Qed.

Section extend.
Context (f : Tuple → Result Tuple).

Lemma EXTEND_step (Hs : list string) (relType c : Relation) (Bs : list Row)
    (tr1 : Tuple) :
  NoDup (_heading relType) →
  Relation0 (_heading relType) (BodyRows []) = Ok relType →
  _body c = Computed (relationFromExtension f) ∅ →
  heading relType ⊆ heading c →
  dom tr1 = heading relType →
  AND_outer Hs relType c Bs tr1
  = (vs ← (t ← f tr1; dictToTuple Hs (t ∪ tr1)); Ok (Bs ++ [TupleRow vs])).
Proof using Type.
  intros Hnd Hrt Hc HH Hdom. unfold AND_outer.
  destruct (probe_setBody (_heading relType) tr1 relType Hnd Hdom Hrt)
    as (relType' & s1 & t1 & -> & Hh' & Hb' & Hrows & Hl1 & Htr1).
  cbn [mbind Result_bind].
  rewrite (one_arg_probe_sub c relType' _ s1 t1 tr1 Hc); [|
    by unfold heading at 1; rewrite Hh'|done|done|by rewrite Hh'|
    by unfold heading; rewrite Hh'].
  destruct (f tr1) as [t|e]; cbn [mbind Result_bind gen_of_result]; [|done].
  unfold for_gen. cbn [yielded raised forM]. unfold AND_inner.
  cbn [fst snd]. by destruct (dictToTuple Hs (t ∪ tr1)).
Qed.

Lemma EXTEND_unfold (r : Relation) (L : list Tuple) (Hextension : list string) :
  scans r L → heading r ∩ list_to_set Hextension = ∅ →
  ∃ relType c,
    Relation0 (_heading r) (BodyRows []) = Ok relType
    ∧ _heading relType = _heading r
    ∧ _body c = Computed (relationFromExtension f) ∅
    ∧ heading c = heading r ∪ list_to_set Hextension
    ∧ EXTEND r Hextension f
      = (Bs ← forM (AND_outer (elements (heading r ∪ heading c)) relType c)
                L [];
         Relation0 (elements (heading r ∪ heading c)) (BodyRows Bs)).
Proof using Type.
  intros Hsc Hdisj. pose proof Hsc as (Hnd & _ & _ & Hb).
  destruct (Relation0_is_Ok (_heading r) []) as [relType Hrt];
    [done|constructor| |].
  { intros row1 t1 row2 t2 H. by apply elem_of_nil in H. }
  assert (_heading relType = _heading r) as Hh.
  { apply Relation0_Ok_inv in Hrt as (_ & ? & _); [done|constructor]. }
  exists relType,
    (mkRelation (elements (heading r ∪ list_to_set Hextension))
       (Computed (relationFromExtension f) ∅)
       default_constraints default_constraints).
  split; [done|]. split; [done|]. split; [reflexivity|].
  split; [unfold heading at 1; cbn [_heading]; apply heading_set_elements|].
  unfold EXTEND. rewrite decide_False by (intros Hne; by apply Hne).
  unfold Relation0 at 1.
  rewrite (proj2 (validateHeading_Ok _) (NoDup_elements _)).
  cbn [mbind Result_bind setBody_with with_body _heading constraints
       constraint_definitions].
  unfold AND. cbn [AND_fuel _body].
  assert (∀ c0, _body c0 = Computed (relationFromExtension f) ∅ →
            match _body r, _body c0 with
            | Computed _ _, Materialized _ => AND_fuel 1 c0 r
            | Computed (OneArg _) _, Computed (ZeroArg _) _ => AND_fuel 1 c0 r
            | Computed (OneArg _) _, Computed (OneArg _) _ =>
                Raise (RelationInvalidOperationException
                         "Cannot AND two functional relations")
            | Materialized s1, Materialized s2 =>
                if decide (length (rows s2) < length (rows s1))%nat
                then AND_fuel 1 c0 r
                else AND_join r c0
            | _, _ => AND_join r c0
            end = AND_join r c0) as Hdispatch.
  { intros c0 ->. destruct (_body r) as [s|[g|g] m]; done. }
  cbn [_body] in Hdispatch. rewrite Hdispatch by reflexivity.
  unfold AND_join. rewrite Hrt. cbn [mbind Result_bind].
  rewrite (scans_full r L Hsc). unfold for_gen. cbn [yielded raised].
  by destruct (forM _ L []).
Qed.

(** The extended tuples, in scan order. *)
Lemma EXTEND_rows (Hs : list string) (L : list Tuple) :
  (∀ d, d ∈ L → ∃ t, f d = Ok t ∧ ∀ a, a ∈ Hs → is_Some ((t ∪ d) !! a)) →
  ∃ D ts,
    Forall2 (λ d vs, (t ← f d; dictToTuple Hs (t ∪ d)) = Ok vs) L ts
    ∧ Forall2 (λ d' vs, dictToTuple Hs d' = Ok vs) D ts
    ∧ ∀ d', d' ∈ D ↔ ∃ d t, d ∈ L ∧ f d = Ok t ∧ d' = t ∪ d.
Proof using Type.
  induction L as [|x L IH]; intros Hall.
  - exists [], []. split; [constructor|]. split; [constructor|].
    intros d'. split.
    + intros H. by apply elem_of_nil in H.
    + intros (d & t & H & _). by apply elem_of_nil in H.
  - destruct IH as (D & ts & H1 & H2 & H3).
    { intros d Hd. apply Hall. by right. }
    destruct (Hall x) as (t & Ht & Hdom); [by left|].
    destruct (dictToTuple_is_Ok Hs (t ∪ x) Hdom) as [vs Hvs].
    exists ((t ∪ x) :: D), (vs :: ts). split; [|split].
    + constructor; [|done]. by rewrite Ht.
    + by constructor.
    + intros d'. rewrite elem_of_cons, H3. split.
      * intros [->|(d & t' & Hd & Hfd & ->)].
        -- exists x, t. split; [by left|done].
        -- exists d, t'. split; [by right|done].
      * intros (d & t' & [->|Hd]%elem_of_cons & Hfd & ->).
        -- left. congruence.
        -- right. by exists d, t'.
Qed.
End extend.

(** What [EXTEND] does, case by case. *)
Lemma EXTEND_cases (r : Relation) (L : list Tuple)
    (Hextension : list string) (extension : Tuple → Result Tuple) :
  scans r L →
  (heading r ∩ list_to_set Hextension ≠ ∅ →
   EXTEND r Hextension extension
   = Raise (RelationInvalidOperationException
       "EXTEND heading attributes conflict with relation being extended"))
  ∧ (heading r ∩ list_to_set Hextension = ∅ →
     ((∀ d, d ∈ L → ∃ t, extension d = Ok t
                      ∧ list_to_set Hextension ⊆ dom t) →
      (∀ d1 d2 t1 t2 a, d1 ∈ L → d2 ∈ L →
         extension d1 = Ok t1 → extension d2 = Ok t2 →
         type_of <$> (t1 ∪ d1) !! a = type_of <$> (t2 ∪ d2) !! a) →
      ∃ w, EXTEND r Hextension extension = Ok w ∧ wf w
        ∧ heading w = heading r ∪ list_to_set Hextension
        ∧ constraint_definitions w = default_constraints
        ∧ ∀ d', d' ∈ tuples w
                ↔ ∃ d t, d ∈ L ∧ extension d = Ok t
                    ∧ d' = restrict (heading r ∪ list_to_set Hextension)
                             (t ∪ d))
     ∧ (∀ L1 d L2, L = L1 ++ d :: L2 →
          (∀ d0, d0 ∈ L1 → ∃ t, extension d0 = Ok t
                             ∧ list_to_set Hextension ⊆ dom t) →
          (∀ e, extension d = Raise e →
                EXTEND r Hextension extension = Raise e)
          ∧ (∀ t a, extension d = Ok t → a ∈ Hextension → t !! a = None →
               ∃ b, b ∈ Hextension ∧ t !! b = None
                 ∧ EXTEND r Hextension extension = Raise (KeyError b)))).
Proof.
  intros Hsc. split.
  { intros Hne. unfold EXTEND. by rewrite decide_True. }
  intros Hdisj. pose proof Hsc as (Hnd & Hdom & Hty & _).
  destruct (EXTEND_unfold extension r L Hextension Hsc Hdisj)
    as (relType & c & Hrt & Hh & Hc & HHc & Hrun).
  assert (heading relType = heading r) as HHt
    by (unfold heading; by rewrite Hh).
  set (Hs := elements (heading r ∪ heading c)) in *.
  assert (heading_set Hs = heading r ∪ list_to_set Hextension) as HHs.
  { unfold Hs. rewrite heading_set_elements, HHc. set_solver. }
  assert (∀ d t a, d ∈ L → list_to_set Hextension ⊆ dom t →
                   a ∈ Hs → is_Some ((t ∪ d) !! a)) as Hsome.
  { intros d t a Hd Hsub Ha. apply elem_of_dom. rewrite dom_union_L.
    apply elem_of_heading_set in Ha. rewrite HHs in Ha.
    rewrite (Hdom d Hd). set_solver. }
  destruct (append_loop (λ d, t ← extension d; dictToTuple Hs (t ∪ d))
              (AND_outer Hs relType c) L) as [Hok Hfail].
  { intros Bs d Hd. apply (EXTEND_step extension).
    - by rewrite Hh.
    - by rewrite Hh.
    - done.
    - rewrite HHt, HHc. set_solver.
    - by rewrite HHt, (Hdom d). }
  split.
  - intros Hall Htypes.
    destruct (EXTEND_rows extension Hs L) as (D & ts & H1 & H2 & H3).
    { intros d Hd. destruct (Hall d Hd) as (t & Ht & Hsub).
      exists t. split; [done|]. intros a Ha. by apply Hsome. }
    rewrite Hrun, (Hok ts [] H1). cbn [mbind Result_bind app].
    destruct (Relation0_of_tuples_is_Ok Hs D ts) as [w Hw];
      [apply NoDup_elements|done| |].
    { intros d1' d2' a (d1 & t1 & Hd1 & Ht1 & ->)%H3
        (d2 & t2 & Hd2 & Ht2 & ->)%H3 _.
      by apply (Htypes d1 d2 t1 t2). }
    destruct (Relation0_of_tuples_inv Hs D ts w H2 Hw)
      as (Hwf & Hhw & Hdw & _ & Htw).
    exists w. split; [done|]. split; [done|]. split.
    { unfold heading at 1. by rewrite Hhw. }
    split; [done|]. intros d'. rewrite Htw, HHs. split.
    + intros (d0 & (d & t & Hd & Ht & ->)%H3 & ->). by exists d, t.
    + intros (d & t & Hd & Ht & ->). exists (t ∪ d). split; [|done].
      apply H3. by exists d, t.
  - intros L1 d L2 HL Hbefore.
    assert (Forall (λ d0, is_Ok (t ← extension d0; dictToTuple Hs (t ∪ d0)))
              L1) as Hprefix.
    { apply Forall_forall. intros d0 Hd0.
      destruct (Hbefore d0 Hd0) as (t & -> & Hsub). cbn [mbind Result_bind].
      destruct (dictToTuple_is_Ok Hs (t ∪ d0)) as [vs ->]; [|done].
      intros a Ha. apply Hsome; [|done|done].
      rewrite HL. apply elem_of_app. by left. }
    split.
    + intros e He. rewrite Hrun.
      rewrite (Hfail L1 d L2 e [] HL Hprefix); [done|]. by rewrite He.
    + intros t a Ht Ha Hnone.
      destruct (dictToTuple_missing Hs (t ∪ d)) as (b & Hb & Hbn & Hraise).
      { exists a. split.
        - apply elem_of_heading_set. rewrite HHs.
          apply elem_of_union_r. by apply elem_of_list_to_set.
        - apply lookup_union_None. split; [done|].
          apply not_elem_of_dom. rewrite (Hdom d).
          + intros Hin. apply (not_elem_of_empty (C:=gset string) a).
            rewrite <- Hdisj. apply elem_of_intersection. split; [done|].
            by apply elem_of_list_to_set.
          + rewrite HL. apply elem_of_app. right. by left. }
      apply lookup_union_None in Hbn as [Hbt Hbd].
      exists b. split; [|split; [done|]].
      * apply elem_of_heading_set in Hb. rewrite HHs in Hb.
        apply elem_of_union in Hb as [Hb|Hb].
        -- exfalso. apply not_elem_of_dom in Hbd. apply Hbd.
           rewrite (Hdom d); [done|]. rewrite HL. apply elem_of_app.
           right. by left.
        -- by apply elem_of_list_to_set in Hb.
      * rewrite Hrun.
        rewrite (Hfail L1 d L2 (KeyError b) [] HL Hprefix); [done|].
        by rewrite Ht.
Qed.


Lemma r_123_mem (P : Tuple → Prop) :
  P {[ "a" := VInt 1 ]} → P {[ "a" := VInt 2 ]} → P {[ "a" := VInt 3 ]} →
  ∀ d, d ∈ tuples r_123 → P d.
Proof.
  intros P1 P2 P3 d Hd.
  cbv [tuples body_rows r_123 _body _heading rows fmap list_fmap] in Hd.
  repeat match goal with
         | H : _ ∈ _ :: _ |- _ => apply elem_of_cons in H as [->|H]
         | H : _ ∈ [] |- _ => by apply elem_of_nil in H
         end; done.
Qed.

Lemma a_plus_one_Ok_inv (d t : Tuple) :
  a_plus_one d = Ok t →
  ∃ z, d !! "a" = Some (VInt z) ∧ t = {[ "b" := VInt (z + 1) ]}.
Proof.
  unfold a_plus_one, getattr. destruct (d !! "a") as [[|z|s]|]; try done.
  cbn [mbind Result_bind]. intros [= <-]. by exists z.
Qed.

Lemma a_plus_one_types (d1 d2 t1 t2 : Tuple) (a : string) :
  d1 ∈ tuples r_123 → d2 ∈ tuples r_123 →
  a_plus_one d1 = Ok t1 → a_plus_one d2 = Ok t2 →
  type_of <$> (t1 ∪ d1) !! a = type_of <$> (t2 ∪ d2) !! a.
Proof.
  intros H1 H2 (z1 & _ & ->)%a_plus_one_Ok_inv (z2 & _ & ->)%a_plus_one_Ok_inv.
  destruct (decide (a = "b")) as [->|Hne].
  - erewrite !lookup_union_Some_l by apply lookup_singleton_eq. done.
  - rewrite !lookup_union_r by (by apply lookup_singleton_ne).
    destruct (wf_scans _ r_123_wf) as (_ & _ & Hty & _). by apply Hty.
Qed.


(** ** GENERATE and tuple membership *)

Lemma keys_dom {A} (t : gmap string A) :
  list_to_set (map_to_list t).*1 =@{gset string} dom t.
Proof.
  apply set_eq. intros a.
  rewrite elem_of_list_to_set, elem_of_dom, list_elem_of_fmap. split.
  - intros ([k v] & -> & Hin%elem_of_map_to_list). by exists v.
  - intros [v Hv]. exists (a, v). split; [done|]. by apply elem_of_map_to_list.
Qed.

(** X27: [GENERATE] of any dictionary returns the materialized relation
    over the dictionary's keys that holds the dictionary as its single
    tuple. *)
Theorem GENERATE_is_singleton (extension : Tuple) :
  ∃ w, GENERATE extension = Ok w ∧ wf w ∧ heading w = dom extension
    ∧ constraint_definitions w = default_constraints
    ∧ ∀ d, d ∈ tuples w ↔ d = extension.
Proof.
  destruct TABLE_DEE_value as (dee & Hdee & Hwf & Hh & Ht).
  unfold GENERATE. rewrite Hdee. cbn [mbind Result_bind].
  destruct (proj2 (EXTEND_cases dee (tuples dee) (map_to_list extension).*1
                     (λ _, Ok extension) (wf_scans dee Hwf)))
    as [Hok _].
  { rewrite Hh. set_solver. }
  destruct Hok as (w & Hw & Hwfw & Hhw & Hdw & Hmem).
  { intros d _. exists extension. split; [done|]. by rewrite keys_dom. }
  { intros d1 d2 t1 t2 a Hd1 Hd2 [= <-] [= <-]. rewrite Ht in Hd1, Hd2.
    apply list_elem_of_singleton in Hd1 as ->.
    by apply list_elem_of_singleton in Hd2 as ->. }
  exists w. split; [done|]. split; [done|]. split.
  { rewrite Hhw, Hh, keys_dom. set_solver. }
  split; [done|]. intros d. rewrite Hmem, Ht, Hh, keys_dom. split.
  - intros (d0 & t & Hd0%list_elem_of_singleton & [= <-] & ->). subst d0.
    rewrite (right_id_L ∅ (∪)). apply restrict_id. set_solver.
  - intros ->. exists ∅, extension. split; [by left|]. split; [done|].
    rewrite (right_id_L ∅ (∪)). symmetry. apply restrict_id. set_solver.
Qed.

(** X28: on a well-formed materialized relation, [t in r] for a tuple [t]
    returns, and is true exactly when [t] is one of the tuples of [r]; a
    tuple over other attributes is never in [r]. *)
Theorem contains_is_membership (r : Relation) (t : Tuple) :
  wf r →
  ∃ b, __contains__ r t = Ok b ∧ (b = true ↔ t ∈ tuples r).
Proof.
  intros Hwf. unfold __contains__. case_decide as HH.
  - destruct (fromTuple_spec t) as (f & s & -> & Hwff & Hhf & Htf & _).
    cbn [mbind Result_bind].
    destruct (AND_same_heading r f Hwf Hwff) as (j & -> & Hwfj & _ & _ & Hmj);
      [by rewrite Hhf|].
    cbn [mbind Result_bind]. rewrite (COUNT_tuples j Hwfj).
    cbn [mbind Result_bind]. eexists. split; [done|].
    rewrite bool_decide_eq_true. pose proof (tuples_NoDup j Hwfj) as Hnd.
    assert (∀ d, d ∈ tuples j ↔ d ∈ tuples r ∧ d = t) as Hmj'.
    { intros d. rewrite Hmj, Htf, list_elem_of_singleton. done. }
    split.
    + intros Hlen. destruct (tuples j) as [|d [|d' l]] eqn:E; try done.
      destruct (proj1 (Hmj' d)) as [Hd ->]; [by left|done].
    + intros Hin. destruct (tuples j) as [|d [|d' l]] eqn:E; [|done|].
      * exfalso. apply (not_elem_of_nil t). by apply Hmj'.
      * exfalso. destruct (proj1 (Hmj' d)) as [_ ->]; [by left|].
        destruct (proj1 (Hmj' d')) as [_ ->]; [right; by left|].
        apply NoDup_cons in Hnd as [Hn _]. apply Hn. by left.
  - exists false. split; [done|]. split; [done|]. intros Hin.
    destruct HH. symmetry. by apply (tuples_dom r).
Qed.

Lemma contains_is_membership_witness :
  ∃ b, __contains__ r_123 {[ "a" := VInt 2 ]} = Ok b
    ∧ (b = true ↔ {[ "a" := VInt 2 ]} ∈ tuples r_123).
Proof. apply contains_is_membership, r_123_wf. Defined.

(** ** Foreign keys *)

Lemma Relation0_constraint_definitions (h : list string) (body : BodyArg)
    (r : Relation) :
  Relation0 h body = Ok r → constraint_definitions r = default_constraints.
Proof.
  unfold Relation0. destruct (validateHeading h); [|done].
  cbn [mbind Result_bind]. unfold setBody_with. destruct body as [body|f].
  - destruct (_addToBody _ _ _ _ _) as [s [[]|e]]; [|done].
    by intros [= <-].
  - by intros [= <-].
Qed.

(** The keys that [REMOVE] carries over are keys of its argument over
    attributes that remain. *)
Lemma REMOVE_keys (r : Relation) (Hr : list string) (res : Relation)
    (c : string) (hk : list string) :
  REMOVE r Hr = Ok res →
  (c, Key (Some hk)) ∈ constraint_definitions res →
  (c, Key (Some hk)) ∈ constraint_definitions r
  ∧ (hk = [] ∨ list_to_set hk ⊆ heading r ∖ list_to_set Hr).
Proof.
  unfold REMOVE. intros H Hin.
  destruct (for_gen _ _ _) as [Bs|]; [|done]. cbn [mbind Result_bind] in H.
  destruct (Relation0 _ (BodyRows Bs)) as [res0|] eqn:E0; [|done].
  cbn [mbind Result_bind] in H.
  destruct (REMOVE_constraints _ _) as [|c0 cs] eqn:Ec; injection H as <-.
  - rewrite (Relation0_constraint_definitions _ _ _ E0) in Hin.
    apply list_elem_of_singleton in Hin. discriminate.
  - cbn [with_constraints constraint_definitions] in Hin. rewrite <- Ec in Hin.
    unfold REMOVE_constraints in Hin.
    apply list_elem_of_filter in Hin as [Hk Hin]. split; [done|].
    cbn [snd REMOVE_keeps] in Hk. apply bool_decide_unpack in Hk.
    by rewrite heading_set_elements in Hk.
Qed.

Lemma project_keys (r : Relation) (head : list string) (p : Relation)
    (c : string) (hk : list string) :
  project r head = Ok p →
  (c, Key (Some hk)) ∈ constraint_definitions p →
  (c, Key (Some hk)) ∈ constraint_definitions r
  ∧ (hk = [] ∨ list_to_set hk ⊆@{gset string} list_to_set head).
Proof.
  unfold project. intros H Hin.
  destruct (validateHeading head); [|done]. cbn [mbind Result_bind] in H.
  destruct (forM _ head tt); [|done]. cbn [mbind Result_bind] in H.
  destruct (REMOVE_keys r _ p c hk H Hin) as [Hr [->|Hsub]].
  - split; [done|]. by left.
  - split; [done|]. right. intros x Hx. apply Hsub in Hx.
    apply elem_of_difference in Hx as [Hx Hn].
    destruct (decide (x ∈@{gset string} list_to_set head)) as [|Hnh]; [done|].
    exfalso. apply Hn. apply elem_of_list_to_set, elem_of_elements.
    by apply elem_of_difference.
Qed.

Lemma checkKeys_None (keys : list (string * option (list string)))
    (r : Relation) :
  Forall (λ k, k.2 = None) keys → checkKeys keys r = Ok tt.
Proof.
  unfold checkKeys. induction 1 as [|[c k] keys Hk _ IH]; [done|].
  rewrite forM_cons. cbn [snd] in *. subst k. cbn. exact IH.
Qed.

Lemma renamed_keys_None (m : gmap string string)
    (defs : list (string * ConstraintDef)) :
  (∀ c hk, (c, Key (Some hk)) ∉ defs) →
  Forall (λ k, k.2 = None) (renamed_keys m defs).
Proof.
  induction defs as [|[c d] defs IH]; intros Hno; [constructor|].
  assert (∀ c hk, (c, Key (Some hk)) ∉ defs) as Hno'.
  { intros c' hk Hin. apply (Hno c' hk). by right. }
  destruct d as [[hk|]| |]; cbn [renamed_keys].
  - exfalso. apply (Hno c hk). by left.
  - constructor; [done|]. by apply IH.
  - by apply IH.
  - by apply IH.
Qed.

(** [rename] returns on a relation that declares no key over a list of
    attributes. *)
Lemma rename_keyless_Ok (r : Relation) (m : gmap string string) :
  wf r → (∀ c hk, (c, Key (Some hk)) ∉ constraint_definitions r) →
  (∀ k, is_Some (m !! k) → k ∈ heading r) →
  NoDup (renamed m <$> _heading r) →
  ∃ rn, rename r m = Ok rn.
Proof.
  intros (s & Hb & Hwfs) Hdef Hk Hnd.
  rewrite (rename_unfold r s m Hb Hk).
  destruct (RelationK_rows (renamed m <$> _heading r) s (_heading r)
              (renamed_keys m (constraint_definitions r)) Hwfs)
    as (s1 & _ & Hwf1 & Hmem & ->); [by rewrite length_fmap|done|].
  cbn zeta. rewrite checkKeys_None by (by apply renamed_keys_None).
  cbn. eauto.
Qed.

(** Every tuple of a relation is read, under the new names, in the renamed
    relation. *)
Lemma rename_tuples_onto (r rn : Relation) (m : gmap string string)
    (d : Tuple) :
  wf r → rename r m = Ok rn → d ∈ tuples r →
  ∃ d', d' ∈ tuples rn ∧ ∀ a, a ∈ heading r → d' !! renamed m a = d !! a.
Proof.
  intros Hwf Hrn (t & Ht & ->)%elem_of_tuples.
  destruct (rename_inv r rn m Hwf Hrn) as (Hwfn & Hh & Hrows & _).
  pose proof (wf_rows_length r t Hwf Ht) as Hl.
  pose proof (wf_heading_NoDup r Hwf) as Hnd.
  pose proof (wf_heading_NoDup rn Hwfn) as Hndn.
  exists (row_tuple (_heading rn) t). split.
  - apply elem_of_tuples. exists t. split; [by apply Hrows|done].
  - intros a Ha.
    apply elem_of_heading_set, list_elem_of_lookup in Ha as [p Hp].
    rewrite (row_tuple_lookup_at (_heading r) t p a) by done.
    apply row_tuple_lookup_at; [done| |].
    + by rewrite Hh, length_fmap.
    + by rewrite Hh, list_lookup_fmap, Hp.
Qed.

Section foreign_key.
Context (map : gmap string string).
Hypothesis Hinj :
  ∀ k1 k2 v, map !! k1 = Some v → map !! k2 = Some v → k1 = k2.

Lemma renamed_key (k v : string) : map !! k = Some v → renamed map k = v.
Proof using Type. unfold renamed. by intros ->. Qed.

Lemma elem_of_vals (v : string) :
  v ∈ (map_to_list map).*2 ↔ ∃ k, map !! k = Some v.
Proof using Type.
  rewrite list_elem_of_fmap. split.
  - intros ([k v'] & -> & Hin). apply elem_of_map_to_list in Hin.
    exists k. exact Hin.
  - intros [k Hk]. exists (k, v). split; [done|]. by apply elem_of_map_to_list.
Qed.

Lemma elem_of_keys (k : string) :
  k ∈ (map_to_list map).*1 ↔ is_Some (map !! k).
Proof using Type.
  rewrite list_elem_of_fmap. split.
  - intros ([k' v] & -> & Hin). apply elem_of_map_to_list in Hin.
    exists v. exact Hin.
  - intros [v Hk]. exists (k, v). split; [done|]. by apply elem_of_map_to_list.
Qed.

Lemma vals_NoDup : NoDup (map_to_list map).*2.
Proof using Hinj.
  apply NoDup_fmap_2_strong; [|apply NoDup_map_to_list].
  intros [k1 v1] [k2 v2] H1%elem_of_map_to_list H2%elem_of_map_to_list E.
  cbn in E. subst v2. f_equal. by apply (Hinj k1 k2 v1).
Qed.

Lemma ForeignKey_spec (scope : Scope) (r1 : Relation) (name : string)
    (ref : Relation) :
  scope name = Some ref → wf r1 → wf ref →
  (∀ k v, map !! k = Some v → k ∈ heading r1 ∧ v ∈ heading ref) →
  (∀ c hk, (c, Key (Some hk)) ∈ constraint_definitions r1 →
           hk ≠ [] ∧ ¬ list_to_set hk ⊆ dom map) →
  ∃ b, constraintFromForeignKey scope r1 name map = Ok b
    ∧ (b = true ↔ ∀ d1, d1 ∈ tuples r1 →
                    ∃ d2, d2 ∈ tuples ref
                      ∧ ∀ k v, map !! k = Some v → d1 !! k = d2 !! v).
Proof using Hinj.
  intros Hsc Hwf1 Hwfr Hmap Hkeys. unfold constraintFromForeignKey.
  rewrite Hsc.
  destruct (project_spec ref (tuples ref) (map_to_list map).*2
              (wf_scans ref Hwfr) vals_NoDup)
    as (lhs & -> & Hwfl & Hhl & _ & Hml).
  { intros v (k & Hk)%elem_of_vals. by apply (Hmap k v). }
  cbn [mbind Result_bind].
  destruct (project_spec r1 (tuples r1) (map_to_list map).*1
              (wf_scans r1 Hwf1) (NoDup_fst_map_to_list map))
    as (p & Hp & Hwfp & Hhp & _ & Hmp).
  { intros k [v Hk]%elem_of_keys. by apply (Hmap k v). }
  rewrite Hp. cbn [mbind Result_bind].
  assert (∀ c hk, (c, Key (Some hk)) ∉ constraint_definitions p) as Hpk.
  { intros c hk Hin.
    destruct (project_keys r1 _ p c hk Hp Hin) as [Hin1 Hcase].
    destruct (Hkeys c hk Hin1) as [Hne Hns].
    destruct Hcase as [->|Hsub]; [done|]. apply Hns. by rewrite <- keys_dom. }
  assert (heading p = dom map) as Hhp' by (rewrite Hhp; apply keys_dom).
  destruct (rename_keyless_Ok p map Hwfp Hpk) as [rn Hrn].
  { intros k Hk. rewrite Hhp'. by apply elem_of_dom. }
  { apply NoDup_fmap_2_strong; [|by apply wf_heading_NoDup].
    intros a b Ha Hb E.
    apply elem_of_heading_set in Ha, Hb. fold (heading p) in Ha, Hb.
    rewrite Hhp' in Ha, Hb.
    apply elem_of_dom in Ha as [va Ha]. apply elem_of_dom in Hb as [vb Hb].
    rewrite (renamed_key a va Ha), (renamed_key b vb Hb) in E. subst vb.
    by apply (Hinj a b va). }
  rewrite Hrn. cbn [mbind Result_bind].
  destruct (rename_inv p rn map Hwfp Hrn) as (Hwfn & Hhn & _ & _).
  assert (heading rn = list_to_set (map_to_list map).*2) as HHn.
  { unfold heading. rewrite Hhn, heading_set_fmap. fold (heading p).
    rewrite Hhp'. apply set_eq. intros v.
    rewrite elem_of_map, elem_of_list_to_set, elem_of_vals. split.
    - intros (k & -> & [v' Hk]%elem_of_dom). exists k.
      by rewrite (renamed_key k v' Hk).
    - intros (k & Hk). exists k. split; [symmetry; by apply renamed_key|].
      apply elem_of_dom. eauto. }
  destruct (project_spec rn (tuples rn) (map_to_list map).*2
              (wf_scans rn Hwfn) vals_NoDup)
    as (rhs & -> & Hwfrhs & Hhr & _ & Hmr).
  { intros v Hv. rewrite HHn. by apply elem_of_list_to_set. }
  cbn [mbind Result_bind]. unfold __ge__.
  destruct (le_wf rhs lhs Hwfrhs Hwfl) as (bv & -> & Hiff).
  exists bv. split; [done|]. rewrite Hiff.
  assert (∀ k v, map !! k = Some v →
            k ∈@{gset string} list_to_set (map_to_list map).*1) as Hink.
  { intros k v Hkv. apply elem_of_list_to_set, elem_of_keys. eauto. }
  assert (∀ k v, map !! k = Some v →
            v ∈@{gset string} list_to_set (map_to_list map).*2) as Hinv.
  { intros k v Hkv. apply elem_of_list_to_set, elem_of_vals. eauto. }
  assert (∀ k v, map !! k = Some v → k ∈ heading p) as Hinp.
  { intros k v Hkv. rewrite Hhp'. apply elem_of_dom. eauto. }
  split.
  - intros [_ Hsub] d1 Hd1.
    assert (restrict (list_to_set (map_to_list map).*1) d1 ∈ tuples p) as Hdp
      by (apply Hmp; eauto).
    destruct (rename_tuples_onto p rn map _ Hwfp Hrn Hdp) as (d' & Hd' & Hlook).
    assert (d' ∈ tuples rhs) as Hdr.
    { apply Hmr. exists d'. split; [done|]. symmetry. apply restrict_id.
      by rewrite (tuples_dom rn d' Hwfn Hd'), HHn. }
    apply Hsub, Hml in Hdr as (d2 & Hd2 & Heq).
    exists d2. split; [done|]. intros k v Hkv.
    transitivity (d' !! v).
    + rewrite <- (renamed_key k v Hkv), Hlook by (by apply (Hinp k v)).
      rewrite restrict_lookup, decide_True; [done|]. by apply (Hink k v).
    + rewrite Heq, restrict_lookup, decide_True; [done|]. by apply (Hinv k v).
  - intros Hall. split; [by rewrite Hhr, Hhl|].
    intros d Hd. apply Hmr in Hd as (d' & Hd' & ->).
    rewrite restrict_id by (by rewrite (tuples_dom rn d' Hwfn Hd'), HHn).
    destruct (proj1 (rename_tuples p rn map Hwfp Hrn d') Hd')
      as (dp & Hdp & Hdom & Hlook).
    apply Hmp in Hdp as (d1 & Hd1 & ->).
    destruct (Hall d1 Hd1) as (d2 & Hd2 & Hag).
    apply Hml. exists d2. split; [done|].
    apply (agree_all_eq (list_to_set (map_to_list map).*2)).
    + by rewrite Hdom, HHn.
    + apply restrict_dom. rewrite (tuples_dom ref d2 Hwfr Hd2).
      intros v Hv. apply elem_of_list_to_set, elem_of_vals in Hv as [k Hk].
      by apply (Hmap k v).
    + intros v Hv. apply elem_of_list_to_set, elem_of_vals in Hv as [k Hk].
      rewrite restrict_lookup, decide_True by (by apply (Hinv k v)).
      rewrite <- (Hag k v Hk), <- (renamed_key k v Hk).
      rewrite Hlook by (by apply (Hinp k v)).
      rewrite restrict_lookup, decide_True; [done|]. by apply (Hink k v).
Qed.
End foreign_key.

(** X29: the foreign key check raises [NameError] when the referenced name
    is not in scope.  When the name denotes a well-formed materialized
    relation, the mapping sends attributes of the referencing relation to
    distinct attributes of the referenced one, and the referencing relation
    declares no key lying within the mapped attributes, the check returns,
    and is true exactly when every tuple of the referencing relation has a
    tuple of the referenced relation with the same values on the mapped
    attributes. *)
Theorem ForeignKey_is_inclusion (scope : Scope) (r1 : Relation)
    (name : string) (map : gmap string string) :
  wf r1 →
  (scope name = None →
   constraintFromForeignKey scope r1 name map = Raise (NameError name))
  ∧ (∀ ref, scope name = Some ref → wf ref →
       (∀ k v, map !! k = Some v → k ∈ heading r1 ∧ v ∈ heading ref) →
       (∀ k1 k2 v, map !! k1 = Some v → map !! k2 = Some v → k1 = k2) →
       (∀ c hk, (c, Key (Some hk)) ∈ constraint_definitions r1 →
                hk ≠ [] ∧ ¬ list_to_set hk ⊆ dom map) →
       ∃ b, constraintFromForeignKey scope r1 name map = Ok b
         ∧ (b = true ↔ ∀ d1, d1 ∈ tuples r1 →
                         ∃ d2, d2 ∈ tuples ref
                           ∧ ∀ k v, map !! k = Some v → d1 !! k = d2 !! v)).
Proof.
  intros Hwf1. split.
  - intros Hsc. unfold constraintFromForeignKey. by rewrite Hsc.
  - intros ref Hsc Hwfr Hmap Hinj Hkeys.
    by apply (ForeignKey_spec map Hinj scope r1 name ref).
Qed.

Lemma ForeignKey_is_inclusion_witness :
  constraintFromForeignKey (λ n, if decide (n = "T") then Some r_123 else None)
    r_ab "U" {[ "a" := "a" ]} = Raise (NameError "U")
  ∧ ∃ b, constraintFromForeignKey
           (λ n, if decide (n = "T") then Some r_123 else None)
           r_ab "T" {[ "a" := "a" ]} = Ok b
      ∧ (b = true ↔ ∀ d1, d1 ∈ tuples r_ab →
                      ∃ d2, d2 ∈ tuples r_123
                        ∧ ∀ k v, ({[ "a" := "a" ]} : gmap string string) !! k
                                 = Some v → d1 !! k = d2 !! v).
Proof.
  split.
  - apply (proj1 (ForeignKey_is_inclusion _ r_ab "U" {[ "a" := "a" ]}
                    r_ab_wf)). reflexivity.
  - apply (proj2 (ForeignKey_is_inclusion
                    (λ n, if decide (n = "T") then Some r_123 else None)
                    r_ab "T" {[ "a" := "a" ]} r_ab_wf) r_123).
    + reflexivity.
    + apply r_123_wf.
    + intros k v [<- <-]%lookup_singleton_Some.
      split; apply (bool_decide_unpack _); vm_compute; exact I.
    + intros k1 k2 v [<- _]%lookup_singleton_Some [<- _]%lookup_singleton_Some.
      reflexivity.
    + intros c hk Hin. exfalso.
      apply list_elem_of_singleton in Hin. discriminate.
Defined.

(** ** Aggregates *)



(** ** The suppliers-and-parts scenarios *)

(** C5, as stated, fails: the restriction of SP to [QTY > 300] does not
    count 2 rows. *)
Lemma COUNT_RESTRICT_SP_is_not_2 :
  (db ← date_database;
   SP ← getattribute db "SP";
   w ← RESTRICT SP QTY_above_300;
   COUNT w) ≠ Ok 2.
Proof. vm_compute. discriminate. Qed.

(** C5, amended: over the twelve literal rows of SP,
    [COUNT(RESTRICT(SP, lambda t: t.QTY > 300))] is exactly 3, the rows
    S1/P3/400, S2/P2/400 and S4/P5/400. *)
Theorem COUNT_RESTRICT_SP_is_3 :
  (db ← date_database;
   SP ← getattribute db "SP";
   w ← RESTRICT SP QTY_above_300;
   n ← COUNT w;
   Ok (n, tuples w))
  = Ok (3, [ SP_tuple "S1" "P3" 400; SP_tuple "S2" "P2" 400;
             SP_tuple "S4" "P5" 400 ]).
Proof. vm_compute. reflexivity. Qed.

(** C2, as stated, fails: deleting the row of S1 from S, while SP refers
    to S1, returns without raising, and S no longer holds that row. *)
Lemma delete_S1_returns :
  (db ← date_database;
   S1 ← S1_relation;
   let after := db_delete db "S" S1 in
   S ← getattribute db "S";
   S' ← getattribute after.1 "S";
   Ok (after.2, length (tuples S), length (tuples S')))
  = Ok (Ok (), 5, 4).
Proof. vm_compute. reflexivity. Qed.

(** C2, amended: in the suppliers-and-parts database, deleting the row of
    S1 from S while SP still refers to S1 raises nothing, because the delete
    checks the constraints declared on S only (its key S#).  Afterwards S
    holds the four rows S2 to S5, SP holds exactly what it held, and the
    foreign key fkS of SP is what the next check of SP reports as failed. *)
Theorem delete_S1_unchecked :
  (db ← date_database;
   S1 ← S1_relation;
   let after := db_delete db "S" S1 in
   S ← getattribute db "S";
   S' ← getattribute after.1 "S";
   SP ← getattribute db "SP";
   SP' ← getattribute after.1 "SP";
   frame' ← match current_frame after.1 with
            | Some f => Ok f
            | None => Raise (KeyError "transactions")
            end;
   Ok (after.2, constraints S, tuples S',
       bool_decide (_heading SP' = _heading SP ∧ body_rows SP' = body_rows SP),
       _checkConstraints (frame_scope frame') SP'))
  = Ok (Ok (), [("pk", Key (Some ["S#"]))],
        [ S_tuple "S2" "Jones" 10 "Paris"; S_tuple "S3" "Blake" 30 "Paris";
          S_tuple "S4" "Clark" 20 "London"; S_tuple "S5" "Adams" 30 "Athens" ],
        true,
        Raise (RelationConstraintException "fkS")).
Proof. vm_compute. reflexivity. Qed.

(** ** Mutation and constraints *)

(** C1 at a batch that repeats a row already held: the relation with key
    [a] holds (1, 1); inserting the batch (1, 1), (1, 2) fails on the key
    and raises the constraint exception, and the compensation then removes
    every row of the batch, so the row (1, 1) held before the call is lost. *)
Theorem insert_rollback_drops_held_row :
  (r ← keyed_relation;
   b ← keyed_batch;
   let after := insert_ (λ _, no_scope) r b in
   Ok (body_rows r, after.2, body_rows after.1))
  = Ok ([[VInt 1; VInt 1]], Raise (RelationConstraintException "pk"), []).
Proof. vm_compute. reflexivity. Qed.

(** The mirror case on delete: the relation must keep two rows and holds
    1 and 2; deleting the batch 1, 3 fails the constraint, and the
    compensation re-inserts the whole batch, so the row 3 that was never
    held is now in the relation. *)
Lemma delete_rollback_adds_absent_row :
  (r ← guarded_relation;
   b ← guarded_batch;
   let after := delete_ (λ _, no_scope) r b in
   Ok (body_rows r, after.2, body_rows after.1))
  = Ok ([[VInt 1]; [VInt 2]], Raise (RelationConstraintException "two"),
        [[VInt 2]; [VInt 1]; [VInt 3]]).
Proof. vm_compute. reflexivity. Qed.

(** ** Quota queries *)

(** C6 at the relation {1, 2, 3} with limit 1, ascending on [a]: the
    documented result keeps the row 1 alone (no row is ranked ahead of it),
    but [QUOTA] returns all three rows: the chained comparison in its
    restriction compares a list with an integer and is never true, so
    [_higher] is 0 on every row. *)
Theorem QUOTA_keeps_every_row :
  (r ← one_two_three;
   q ← QUOTA r 1 (Some ["a"]) true;
   Ok (tuples q, QUOTA_documented r 1 ["a"] true))
  = Ok ([ {[ "a" := VInt 1 ]}; {[ "a" := VInt 2 ]}; {[ "a" := VInt 3 ]} ],
        [ {[ "a" := VInt 1 ]} ]).
Proof. vm_compute. reflexivity. Qed.
